(* ===== verification/_CoqProject ===== *)
-Q . S2P
Prelude.v
RustStd.v
RustFloat.v
RustNet.v
Types.v
JsonModel.v
Compress.v
Protocols.v
Network.v
Redis.v
RedisMap.v
RedisFaults.v
Services.v
Broker.v
Keys.v
IpInfo.v
Marci.v
MarciSpec.v
MarciInv.v
MarciGeo.v
MarciLoop.v
MarciHistory.v
MarciFaults.v
Message.v
Handler.v
Dialer.v
Exposed.v
ExposedSpec.v
ExposedReads.v
ExposedFetch.v
ExposedGeo.v
ExposedServer.v
ExposedWorkers.v
ExposedReplay.v
System.v
ClosedSystem.v
Startup.v
MarciExample.v
FaultsExample.v
SystemExample.v
ExposedExample.v
PipelineExample.v
ClosedExample.v
StartupExample.v
