(* ===== verification/Prelude.v ===== *)
(** * ckb-discovery: a verification library

    ckb-discovery maps the CKB network. It is three programs:

    - the discovery program ([src/main.rs], [src/handler.rs] and the library around
      them) runs a p2p service per network; it dials peers, and announces on an MQTT
      broker who identified itself ([peer/online]), who is known to others
      ([peer/reachable]) and who could not be dialled ([peer/unknown]);
    - marci ([marci/src/main.rs]) takes these announcements, keeps the state of the
      peers in a Redis database, looks up where they are, and periodically asks the
      discovery program to dial the reachable ones ([peer/needs_dial]);
    - exposed ([exposed/src/]) answers HTTP requests from that database.

    This library models the code of all three, and proves what makes each part
    correct and what holds of the programs together.

    ** How code is modelled

    Rust code that calls services or can fail is a computation [comp W E A] over a
    world [W], defined below: it ends with a value ([Ret]), by leaving the enclosing
    function through [?] ([Raise]) or with a panic ([Panic]), and the world is
    threaded through. A world has one component per service; [call] runs an
    operation of the service that owns a component ([Lens]). [runs c w Q] is total
    correctness: [c] returns, and [Q] holds of the value and the world; so a theorem
    about [runs] says that there is no panic, no early error and no divergence.
    Loops over lists are [for_each]. The reconnect loops alone may run for ever:
    [reconnect_loop] has fuel, and [reconnect_terminates] says how much is enough;
    a task that has too little of it is [StillRunning]. The event loops are step
    relations or take the list of events. [tries] is the
    counterpart of [runs] for services that fail: no panic, but maybe an error.

    Code outside the repository is a class: its operations, on a state of its own,
    and, where a theorem needs them, its documented behaviour as a second class of
    laws. These are [Redis] (Redis.v) and [RedisClient] (Startup.v), [Mqtt], [Clock]
    and tokio's channels [Mpsc] (Services.v), [Broker] (Broker.v), [IpService]
    (IpInfo.v), [MultiaddrLib] (Network.v), [Snap] (Compress.v), [Packed]
    (Message.v), [P2p] (Handler.v), [ServiceLib], the key pairs and the yamux
    configuration of tentacle (Dialer.v), [Json] (Types.v) and [TextLib], the regex and
    chrono crates (Exposed.v). Each class of laws has a concrete instance, on which
    every theorem that has hypotheses is applied: RedisMap.v, JsonModel.v and the
    modules and example files named below. Redis has two classes of laws: with
    [RedisLaws] a server that is up answers every command at once; with
    [RedisWeakLaws] (RedisFaults.v) any command may fail before or after its effect,
    and keys expire between any two. Rust's standard library is modelled by
    definitions: strings, integers and UTF-8 in RustStd.v, floating-point numbers
    and their parser in RustFloat.v, addresses in RustNet.v.

    Machine integers are [N] or [Z] with their bounds where the code converts or
    wraps: [u64] parsing, [i64_of_u64] at EXPIRE, the index cast of the list. A
    double is its sign, mantissa and exponent. Logging has no effect in the model.
    JSON payloads are text.

    ** The files

    - Prelude.v, RustStd.v, RustFloat.v, RustNet.v: the monad and its rules, the
      standard library.
    - Types.v ([types/src/lib.rs]): the records exchanged, the network names.
    - JsonModel.v: a serialisation for the witnesses.
    - Compress.v ([src/compress.rs]), Protocols.v ([src/support_protocols.rs]),
      Network.v ([src/network.rs]), Message.v ([src/message.rs]): the whole files.
    - Handler.v ([src/handler.rs]): one definition per callback, together
      [run_callback]; the loop body of [received_discovery] is [report_node]. A
      spawned publication is recorded in the world. Dialer.v ([src/main.rs]): the
      services, their task, and the task that reads messages and dials.
    - Redis.v, RedisMap.v, RedisFaults.v, Services.v: the database, with and without
      faults, broker, clock and channels. Broker.v: connecting to the broker and the
      reconnect loop of both clients.
    - Keys.v, IpInfo.v, Marci.v ([marci/src/main.rs]): the key formats; the two
      geolocation statics and queries; the configuration and the four branches of
      the [select!] loop: [handle_online], [handle_unknown], [handle_reachable] and
      [handle_tick].
    - MarciSpec.v: for each branch, the function on the stored map that it is meant
      to compute, and the theorem that it does. MarciInv.v: the schema [well_typed]
      and the invariant [store_ok] of the database and their preservation by these
      functions and by expiry. MarciGeo.v: where the locations that the handlers
      write come from. MarciLoop.v: the reader task, the three channels and the main
      loop as the step relation [step]; [steps] are its executions. MarciHistory.v:
      the invariants [history] and [places] between the database and the messages
      handled. MarciFaults.v: the handlers and the loop when services fail.
    - Exposed.v ([exposed/src/main.rs], [exposed/src/model.rs]): the HTTP handlers
      over the connection and the worker's cache. ExposedSpec.v: the list and the
      status of peers as functions of the stored map. ExposedGeo.v: the coordinates.
      ExposedReads.v: that the handlers only send GET and KEYS. ExposedServer.v:
      routes, query strings, and one request from its arrival to its answer.
      ExposedFetch.v: the code of a fetch on the answers it has had so far, up to
      the command that it waits for next ([resume_fetch]). ExposedWorkers.v: workers,
      the lock of the connection they share, and interleaved requests as a step
      relation; [peer_handler] is cut at its awaits, those of the fetch included.
      ExposedReplay.v: the fetch so cut is the fetch of the code.
    - System.v: marci and exposed together. ClosedSystem.v: the handlers of both
      networks, the broker, marci and the dial task as one step relation, in which
      nothing is received that was not published.
    - Startup.v: the three [main] functions: of marci and exposed up to their loops, of
      the discovery program to its end.
    - MarciExample.v, FaultsExample.v, SystemExample.v, ExposedExample.v,
      PipelineExample.v, ClosedExample.v, StartupExample.v: concrete runs, and the
      theorems applied to them.

    ** What the theorems show

    Of marci: from any database it left, no sequence of messages, ticks, expiries
    and lost connections makes it stop, and the database stays well formed
    ([marci_never_fails]); it reaches that loop from its environment
    ([marci_starts_and_runs], [marci_start_outcomes]); with failing services the
    damage is confined to the peers of the interrupted handlers
    ([handler_contains_faults], [faults_are_contained]); the handlers are sound for
    the database's schema ([handlers_type_sound]); what it records was announced,
    locations included, and a peer is unknown only after enough different peers
    reported it ([records_have_sources]); each branch does to the database what its
    specification says ([handle_*_refines]); no message is lost or reordered
    ([deliveries_in_order]), and the backlog can always be worked off
    ([backlog_drains]); dial requests name only reported endpoints
    ([dial_requests_have_sources]); keys cannot be confused ([key_string_inj]); the
    geolocation cache answers for the right address ([query_by_reachable_truthful]).

    Of exposed: the list and status requests answer what is recorded
    ([get_peers_refines], [peer_handler_refines], [peer_in_map_refines]), with the
    coordinates closest to the recorded ones ([positions_are_closest]); interleaved
    requests are answered with lists of what their fetch could see, and with an error
    only if a record that it had listed was gone when it was read
    ([answers_are_lists]); a fetch that nothing disturbs ends, as it does in one go
    ([fetch_undisturbed]); no request writes ([requests_read_only]); and where
    answers are not what one expects ([dev_query_panics], [star_is_in_map],
    [cached_for_every_query]).

    Of the discovery program: what is published for an identify message and a
    discovery answer and which sessions are closed ([received_identify_total],
    [received_discovery_reports], [received_discovery_panics]); what is dialled
    ([bootnodes_are_dialled], [needs_dial_dials], [dev_request_panics]); framing and
    address round trips ([decompress_compress], [decompress_bounded],
    [meta_info_round_trip]); that its [main] cannot end well
    ([discovery_ends_in_error]). Of both clients: when the reconnect loop ends
    ([reconnect_terminates]).

    Of the programs together: every peer listed has sources
    ([listed_peers_have_sources]), an announced peer is listed
    ([announced_peer_is_listed]), reports and failed dials reach marci as what they
    are ([discovered_peers_reach_marci], [failed_dial_is_unknown_vote]), each program
    is subscribed to all that the other's handlers publish ([topics_meet]), and of the
    closed system, without any assumption on messages, that lists are answered and
    that marci asks to dial a peer only where that very peer was reported
    ([closed_list_answers], [closed_dialer_safe]).

    ** Bounds of the model

    Where a theorem assumes [RedisLaws], a handler of marci counts as one step and
    time passes on the database between steps; where it assumes [RedisWeakLaws],
    anything may happen between two commands. That peer ids have no dot, where ids
    are read back from keys, is an assumption in System.v and derived in
    ClosedSystem.v, as base58 text has none. The clock stays in chrono's range. The
    closed system delivers any published message, in any order and any number of
    times. The list requests of ExposedWorkers.v interleave, with each other and with
    any write of marci, at every command and at every wait for the connection; the
    read-only status requests, which also take the connection, are left out there.

    A client that lost its connection keeps taking messages into its buffer, and
    [MqttLaws] says that a publication then succeeds: paho does so for up to
    [max_buffered_messages]. What becomes of marci when a publication fails, because
    the buffer is full, is in MarciFaults.v, which does not assume these laws.

    Not modelled: what runs inside the libraries (the p2p services, paho, tokio,
    actix with its CORS headers and JSON printer), the log, and the deployment
    files. The failure counter of the reconnect loop is unbounded, as one that
    counts seconds cannot overflow. *)
From stdpp Require Export base tactics list strings gmap pretty.
From Stdlib Require Export ZArith NArith Lia.

#[export] Set Warnings "-clear-no-such-hyp".

(** ** Results and computations *)

(** Rust's [Result<A, E>]. *)
Inductive result (A E : Type) : Type :=
| Ok (a : A)
| Err (e : E).
Arguments Ok {A E} a.
Arguments Err {A E} e.

(** How a piece of Rust code ends: with a value, by leaving the enclosing
    function through [?] with an error, or by a panic. *)
Inductive outcome (E A : Type) : Type :=
| Ret (a : A)
| Raise (e : E)
| Panic.
Arguments Ret {E A} a.
Arguments Raise {E A} e.
Arguments Panic {E A}.

#[export] Instance result_eq_dec {A E} `{EqDecision A, EqDecision E} :
  EqDecision (result A E).
Proof. solve_decision. Defined.
#[export] Instance outcome_eq_dec {E A} `{EqDecision E, EqDecision A} :
  EqDecision (outcome E A).
Proof. solve_decision. Defined.

Definition is_ok {A E} (r : result A E) : bool :=
  match r with Ok _ => true | Err _ => false end.

Definition ok {A E} (r : result A E) : option A :=
  match r with Ok a => Some a | Err _ => None end.

Definition unwrap_or {A E} (d : A) (r : result A E) : A :=
  match r with Ok a => a | Err _ => d end.

#[export] Instance outcome_ret {E} : MRet (outcome E) := λ A a, Ret a.
#[export] Instance outcome_bind {E} : MBind (outcome E) := λ A B k c,
  match c with Ret a => k a | Raise e => Raise e | Panic => Panic end.

(** [v[i]] on a slice: out of range is a panic. *)
Definition index {E A} (l : list A) (i : nat) : outcome E A :=
  match l !! i with Some a => Ret a | None => Panic end.

(** A computation over a world [W] that may leave early with an [E]. *)
Definition comp (W E A : Type) : Type := W → outcome E A * W.

#[export] Instance comp_ret {W E} : MRet (comp W E) := λ A a w, (Ret a, w).
#[export] Instance comp_bind {W E} : MBind (comp W E) := λ A B k c w,
  match c w with
  | (Ret a, w') => k a w'
  | (Raise e, w') => (Raise e, w')
  | (Panic, w') => (Panic, w')
  end.

Definition panic {W E A} : comp W E A := λ w, (Panic, w).
Definition raise {W E A} (e : E) : comp W E A := λ w, (Raise e, w).

(** The [?] operator; [f] is the [From] conversion of the error. *)
Definition question {W E E' A} (f : E → E') (r : result A E) : comp W E' A :=
  match r with Ok a => mret a | Err e => raise (f e) end.

(** [Option::unwrap] and [Result::unwrap]. *)
Definition unwrap {W E A} (o : option A) : comp W E A :=
  match o with Some a => mret a | None => panic end.
Definition unwrap_result {W E E' A} (r : result A E') : comp W E A :=
  match r with Ok a => mret a | Err _ => panic end.

(** Calling a function that returns [Result]: its early returns are the [Err]
    values the caller sees. *)
Definition returning {W E E' A} (c : comp W E A) : comp W E' (result A E) := λ w,
  match c w with
  | (Ret a, w') => (Ret (Ok a), w')
  | (Raise e, w') => (Ret (Err e), w')
  | (Panic, w') => (Panic, w')
  end.

(** [for x in l { body }] *)
Fixpoint for_each {W E A} (l : list A) (body : A → comp W E unit) : comp W E unit :=
  match l with
  | [] => mret tt
  | x :: l => body x ≫= λ _, for_each l body
  end.

(** A component of the world that a service owns. *)
Class Lens (W S : Type) := {
  lget : W → S;
  lset : S → W → W;
  lget_lset s w : lget (lset s w) = s;
  lset_lget w : lset (lget w) w = w;
  lset_lset s s' w : lset s (lset s' w) = lset s w;
}.

(** Calling the service that lives in the component [S]. *)
Definition call {W S E A} `{Lens W S} (f : S → A * S) : comp W E A := λ w,
  let r := f (lget w) in (Ret r.1, lset r.2 w).

(** Running code over one component of the world. *)
Definition zoom {W S E A} `{Lens W S} (c : comp S E A) : comp W E A := λ w,
  let r := c (lget w) in (r.1, lset r.2 w).

(** ** Total correctness: the computation returns, and [Q] holds of the value
    and the world it returns. *)
Definition runs {W E A} (c : comp W E A) (w : W) (Q : A → W → Prop) : Prop :=
  match c w with (Ret a, w') => Q a w' | _ => False end.

Create HintDb rust.
Create Rewrite HintDb rust.

Section Runs.
Context {W E : Type}.

Lemma runs_ret {A} (a : A) (w : W) (Q : A → W → Prop) :
  Q a w → runs (E:=E) (mret a) w Q.
Proof. done. Qed.

Lemma runs_bind {A B} (c : comp W E A) (k : A → comp W E B) w Q :
  runs c w (λ a w', runs (k a) w' Q) → runs (c ≫= k) w Q.
Proof.
  unfold runs, mbind, comp_bind. by destruct (c w) as [[a|e|] w'].
Qed.

Lemma runs_assoc {A B D} (c : comp W E A) (f : A → comp W E B) (k : B → comp W E D) w Q :
  runs ((c ≫= f) ≫= k) w Q → runs (c ≫= λ x, f x ≫= k) w Q.
Proof.
  unfold runs, mbind, comp_bind. by destruct (c w) as [[a|e|] w'].
Qed.

Lemma runs_mono {A} (c : comp W E A) w (Q Q' : A → W → Prop) :
  runs c w Q → (∀ a w', Q a w' → Q' a w') → runs c w Q'.
Proof. unfold runs. destruct (c w) as [[a|e|] w']; naive_solver. Qed.

Lemma runs_inv {A} (c : comp W E A) w Q :
  runs c w Q → ∃ a w', c w = (Ret a, w') ∧ Q a w'.
Proof. unfold runs. destruct (c w) as [[a|e|] w']; naive_solver. Qed.

Lemma runs_of {A} (c : comp W E A) w a w' (Q : A → W → Prop) :
  c w = (Ret a, w') → Q a w' → runs c w Q.
Proof. unfold runs. by intros ->. Qed.

Lemma runs_question {E' A} (f : E' → E) (r : result A E') a w (Q : A → W → Prop) :
  r = Ok a → Q a w → runs (question f r) w Q.
Proof. by intros ->. Qed.

Lemma runs_call {S A} `{Lens W S} (f : S → A * S) w (Q : A → W → Prop) a s :
  f (lget w) = (a, s) → Q a (lset s w) → runs (E:=E) (call f) w Q.
Proof. unfold runs, call. by intros ->. Qed.

Lemma runs_zoom {S A} `{Lens W S} (c : comp S E A) w (Q : A → W → Prop) :
  runs c (lget w) (λ a s, Q a (lset s w)) → runs (zoom c) w Q.
Proof. unfold runs, zoom. by destruct (c (lget w)) as [[a|e|] s]. Qed.

Lemma runs_returning {E' A} (c : comp W E A) w (Q : result A E → W → Prop) :
  runs c w (λ a, Q (Ok a)) → runs (E:=E') (returning c) w Q.
Proof. unfold runs, returning. by destruct (c w) as [[a|e|] w']. Qed.

(** Loop rule: an invariant over the elements already processed. *)
Lemma runs_for_each {A} (I : list A → W → Prop) (l : list A)
    (body : A → comp W E unit) w (Q : unit → W → Prop) :
  I [] w →
  (∀ pre x post w, l = pre ++ x :: post → I pre w →
     runs (body x) w (λ _, I (pre ++ [x]))) →
  (∀ w', I l w' → Q tt w') →
  runs (for_each l body) w Q.
Proof.
  intros HI Hstep HQ.
  cut (∀ rest pre w, l = pre ++ rest → I pre w → runs (for_each rest body) w Q).
  { intros H. by apply (H l []). }
  induction rest as [|x rest IH]; intros pre w' Hl HIw; simpl.
  - rewrite app_nil_r in Hl. subst pre. by apply HQ.
  - apply runs_bind. eapply runs_mono; [by eapply Hstep|].
    intros [] w'' HI'. apply (IH (pre ++ [x])); [|done].
    by rewrite <- app_assoc.
Qed.
End Runs.

(** ** Correctness when services may fail: the computation returns and [Q] holds, or
    it leaves early and [X] holds of the error; it never panics. *)
Definition tries {W E A} (c : comp W E A) (w : W) (Q : A → W → Prop) (X : E → W → Prop) : Prop :=
  match c w with
  | (Ret a, w') => Q a w'
  | (Raise e, w') => X e w'
  | (Panic, _) => False
  end.

Section Tries.
Context {W E : Type}.

Lemma tries_ret {A} (a : A) (w : W) (Q : A → W → Prop) (X : E → W → Prop) :
  Q a w → tries (mret a) w Q X.
Proof. done. Qed.

Lemma tries_bind {A B} (c : comp W E A) (k : A → comp W E B) w Q X :
  tries c w (λ a w', tries (k a) w' Q X) X → tries (c ≫= k) w Q X.
Proof. unfold tries, mbind, comp_bind. by destruct (c w) as [[a|e|] w']. Qed.

Lemma tries_mono {A} (c : comp W E A) w (Q Q' : A → W → Prop) (X X' : E → W → Prop) :
  tries c w Q X → (∀ a w', Q a w' → Q' a w') → (∀ e w', X e w' → X' e w') → tries c w Q' X'.
Proof. unfold tries. destruct (c w) as [[a|e|] w']; naive_solver. Qed.

Lemma tries_call {S A} `{Lens W S} (f : S → A * S) w (Q : A → W → Prop) (X : E → W → Prop) a s :
  f (lget w) = (a, s) → Q a (lset s w) → tries (call f) w Q X.
Proof. unfold tries, call. by intros ->. Qed.

Lemma runs_tries {A} (c : comp W E A) w (Q : A → W → Prop) (X : E → W → Prop) :
  runs c w Q → tries c w Q X.
Proof. unfold runs, tries. by destruct (c w) as [[a|e|] w']. Qed.
End Tries.

Section Equations.
Context {W E : Type}.

Lemma bind_ret {A B} (c : comp W E A) (k : A → comp W E B) w a w' :
  c w = (Ret a, w') → (c ≫= k) w = k a w'.
Proof. unfold mbind, comp_bind. by intros ->. Qed.

Lemma bind_raise {A B} (c : comp W E A) (k : A → comp W E B) w e w' :
  c w = (Raise e, w') → (c ≫= k) w = (Raise e, w').
Proof. unfold mbind, comp_bind. by intros ->. Qed.

Lemma bind_panic {A B} (c : comp W E A) (k : A → comp W E B) w w' :
  c w = (Panic, w') → (c ≫= k) w = (Panic, w').
Proof. unfold mbind, comp_bind. by intros ->. Qed.

Lemma for_each_app {A} (l1 l2 : list A) (body : A → comp W E unit) w w' :
  for_each l1 body w = (Ret tt, w') →
  for_each (l1 ++ l2) body w = for_each l2 body w'.
Proof.
  revert w. induction l1 as [|x l1 IH]; intros w; simpl.
  - by intros [= ->].
  - unfold mbind, comp_bind. destruct (body x w) as [[[]|e|] w1]; [apply IH| |]; done.
Qed.
End Equations.

(** Symbolic execution of a [runs] goal up to the next service call. *)
Ltac run_step :=
  match goal with
  | |- runs (mbind _ _) _ _ => apply runs_bind
  | |- runs (mret _) _ _ => apply runs_ret
  | |- runs (question _ (Ok _)) _ _ => eapply runs_question; [reflexivity|]
  | |- runs (returning _) _ _ => apply runs_returning
  end.
Ltac run_steps := repeat (run_step; cbv beta).
