(* ===== verification/RustStd.v ===== *)
(** * RustStd: the parts of Rust's standard library the program uses

    Strings are byte strings ([string], UTF-8 by construction on the Rust side).
    Searching and splitting ([rsplit_once], [rsplit], [split]), parsing of
    [u64], and [String::from_utf8_lossy]. *)
From S2P Require Import Prelude.
From Stdlib Require Import Ascii.
From Stdlib Require Strings.Byte Strings.String.

(** ** Searching and splitting at a character *)
Module Str.

Fixpoint has_char (c : ascii) (s : string) : bool :=
  match s with
  | EmptyString => false
  | String a s => bool_decide (a = c) || has_char c s
  end.

(** [s.rsplit_once(c)]: the parts before and after the last [c]. *)
Fixpoint rsplit_once (c : ascii) (s : string) : option (string * string) :=
  match s with
  | EmptyString => None
  | String a s =>
      match rsplit_once c s with
      | Some (before, after) => Some (String a before, after)
      | None => if decide (a = c) then Some (EmptyString, s) else None
      end
  end.

(** [s.split(c)], collected; never empty. *)
Fixpoint split (c : ascii) (s : string) : list string :=
  match s with
  | EmptyString => [EmptyString]
  | String a s =>
      if decide (a = c) then EmptyString :: split c s
      else match split c s with
           | part :: parts => String a part :: parts
           | [] => [String a EmptyString]
           end
  end.

(** [s.rsplit(c)], collected. *)
Definition rsplit (c : ascii) (s : string) : list string := reverse (split c s).

Fixpoint strip_prefix (p s : string) : option string :=
  match p, s with
  | EmptyString, _ => Some s
  | String a p, String b s => if decide (a = b) then strip_prefix p s else None
  | String _ _, EmptyString => None
  end.

(** [str::to_lowercase], on ASCII text (the program lowers only the three names
    of the networks). *)
Definition lower_char (a : ascii) : ascii :=
  let n := N_of_ascii a in
  if decide (65 ≤ n ∧ n ≤ 90)%N then ascii_of_N (n + 32) else a.
Fixpoint to_lowercase (s : string) : string :=
  match s with EmptyString => EmptyString | String a s => String (lower_char a) (to_lowercase s) end.

Section Laws.
Implicit Types (s : string) (c : ascii).

Lemma app_nil_r s : s +:+ "" = s.
Proof. induction s as [|a s IH]; [done|]. exact (f_equal (String a) IH). Qed.

Lemma app_assoc s1 s2 s3 : (s1 +:+ s2) +:+ s3 = s1 +:+ s2 +:+ s3.
Proof. induction s1 as [|a s IH]; [done|]. exact (f_equal (String a) IH). Qed.

Lemma app_cons a s1 s2 : String a s1 +:+ s2 = String a (s1 +:+ s2).
Proof. done. Qed.

Lemma app_empty s : "" +:+ s = s.
Proof. done. Qed.

Lemma has_char_app c s1 s2 : has_char c (s1 +:+ s2) = has_char c s1 || has_char c s2.
Proof.
  induction s1 as [|a s1 IH]; [done|].
  rewrite app_cons. cbn. by rewrite IH, orb_assoc.
Qed.

Lemma rsplit_once_none c s : has_char c s = false → rsplit_once c s = None.
Proof.
  induction s as [|a s IH]; [done|]. simpl.
  intros [Ha Hs]%orb_false_iff. rewrite (IH Hs).
  by apply bool_decide_eq_false in Ha; rewrite decide_False.
Qed.

Lemma rsplit_once_app c s1 s2 :
  has_char c s2 = false → rsplit_once c (s1 +:+ String c s2) = Some (s1, s2).
Proof.
  intros Hs2. induction s1 as [|a s1 IH].
  - rewrite app_empty. cbn. rewrite rsplit_once_none by done. by rewrite decide_True.
  - rewrite app_cons. cbn. by rewrite IH.
Qed.

Lemma rsplit_once_sound c s before after :
  rsplit_once c s = Some (before, after) →
  s = before +:+ String c after ∧ has_char c after = false.
Proof.
  revert before after. induction s as [|a s IH]; intros before after; [done|]. simpl.
  destruct (rsplit_once c s) as [[b r]|] eqn:Hr.
  - intros [= <- <-]. destruct (IH _ _ eq_refl) as [-> ?]. by rewrite app_cons.
  - case_decide; [|done]. intros [= <- <-]. subst a. split; [done|].
    destruct (has_char c s) eqn:Hc; [|done]. exfalso. clear IH.
    induction s as [|d s IHs]; [done|]. simpl in *.
    destruct (rsplit_once c s) as [[]|]; [done|].
    destruct (decide (d = c)); [done|].
    rewrite bool_decide_eq_false_2 in Hc by done. by apply IHs.
Qed.

Lemma split_nonempty c s : split c s ≠ [].
Proof. destruct s; simpl; repeat case_match; done. Qed.

Lemma split_none c s : has_char c s = false → split c s = [s].
Proof.
  induction s as [|a s IH]; [done|]. simpl. intros [Ha Hs]%orb_false_iff.
  rewrite (IH Hs). by apply bool_decide_eq_false in Ha; rewrite decide_False.
Qed.

Lemma split_app c s1 s2 : split c (s1 +:+ String c s2) = split c s1 ++ split c s2.
Proof.
  induction s1 as [|a s1 IH].
  - rewrite app_empty. cbn. by rewrite decide_True.
  - rewrite app_cons. cbn. rewrite IH.
    destruct (split c s1) as [|p ps] eqn:E; [by apply split_nonempty in E|].
    by case_decide.
Qed.

Lemma split_sep c s1 s2 : split c (s1 +:+ String c "" +:+ s2) = split c s1 ++ split c s2.
Proof. exact (split_app c s1 s2). Qed.

Lemma rsplit_app c s1 s2 : rsplit c (s1 +:+ String c s2) = rsplit c s2 ++ rsplit c s1.
Proof. unfold rsplit. by rewrite split_app, reverse_app. Qed.

Lemma rsplit_none c s : has_char c s = false → rsplit c s = [s].
Proof. intros H. unfold rsplit. by rewrite split_none. Qed.

Lemma strip_prefix_app p s : strip_prefix p (p +:+ s) = Some s.
Proof.
  induction p as [|a p IH]; [done|]. rewrite app_cons. cbn.
  by rewrite decide_True.
Qed.

Lemma app_inj_l p s1 s2 : p +:+ s1 = p +:+ s2 → s1 = s2.
Proof. apply (inj (String.app p)). Qed.

(** Keys of the shape [id ++ "." ++ field]: the last dot finds the field. *)
Lemma dot_suffix_inj c s1 s2 f1 f2 :
  has_char c f1 = false → has_char c f2 = false →
  s1 +:+ String c f1 = s2 +:+ String c f2 → s1 = s2 ∧ f1 = f2.
Proof.
  intros H1 H2 Heq. apply (f_equal (rsplit_once c)) in Heq.
  rewrite !rsplit_once_app in Heq by done. by injection Heq as -> ->.
Qed.
End Laws.
End Str.

(** ** Machine integers and their decimal text *)
Module Int.
Definition u16_max : N := 65535.
Definition u32_max : N := 4294967295.
Definition u64_max : N := 18446744073709551615.
Definition i64_max : N := 9223372036854775807.

(** [v as i32] for a [usize]: the low 32 bits read as two's complement. *)
Definition as_i32 (v : N) : Z :=
  let low := (Z.of_N v mod 2 ^ 32)%Z in
  if decide (low < 2 ^ 31)%Z then low else (low - 2 ^ 32)%Z.

(** [u64::try_into::<i64>]. *)
Definition i64_of_u64 (v : N) : option N := if decide (v ≤ i64_max)%N then Some v else None.

Definition digit (a : ascii) : option N :=
  let n := N_of_ascii a in
  if decide (48 ≤ n ∧ n ≤ 57)%N then Some (n - 48)%N else None.

(** The digit loop of [u64::from_str], with its overflow checks. *)
Fixpoint digits (acc : N) (s : string) : option N :=
  match s with
  | EmptyString => Some acc
  | String a s =>
      d ← digit a;
      let acc := (acc * 10 + d)%N in
      if decide (acc ≤ u64_max)%N then digits acc s else None
  end.

(** [str::parse::<u64>]. *)
Definition parse_u64 (s : string) : option N :=
  match s with
  | EmptyString => None
  | String "+" EmptyString => None
  | String "+" s => digits 0 s
  | s => digits 0 s
  end.

Lemma digit_pretty n : (n < 10)%N → digit (pretty_N_char n) = Some n.
Proof.
  intros H. assert (n = 0 ∨ n = 1 ∨ n = 2 ∨ n = 3 ∨ n = 4 ∨ n = 5 ∨ n = 6 ∨ n = 7 ∨ n = 8 ∨ n = 9)%N
    as Hn by lia.
  by repeat (destruct Hn as [->|Hn]; [reflexivity|]); subst.
Qed.

Lemma digits_pretty_go n s :
  (n ≤ u64_max)%N → digits 0 (pretty_N_go n s) = digits n s.
Proof.
  revert s. induction (N.lt_wf_0 n) as [n _ IH]. intros s Hn.
  destruct (decide (0 < n)%N) as [Hpos|]; [|by replace n with 0%N by lia].
  rewrite pretty_N_go_step by done.
  assert (n `div` 10 < n)%N by (apply N.div_lt; lia).
  rewrite IH by lia. cbn [digits].
  rewrite digit_pretty by (apply N.mod_lt; lia). cbn.
  assert (n `div` 10 * 10 + n `mod` 10 = n)%N as ->.
  { pose proof (N.div_mod n 10 ltac:(lia)). lia. }
  by rewrite decide_True.
Qed.

(** Decimal text is made of digits. *)
Lemma pretty_go_char c n s :
  digit c = None → Str.has_char c (pretty_N_go n s) = Str.has_char c s.
Proof.
  intros Hc. revert s. induction (N.lt_wf_0 n) as [n _ IH]. intros s.
  destruct (decide (0 < n)%N) as [Hpos|]; [|by replace n with 0%N by lia].
  rewrite pretty_N_go_step by done. rewrite IH by (apply N.div_lt; lia).
  cbn [Str.has_char]. rewrite bool_decide_eq_false_2; [done|]. intros <-.
  by rewrite digit_pretty in Hc by (apply N.mod_lt; lia).
Qed.

Lemma pretty_char c (n : N) : digit c = None → Str.has_char c (pretty n) = false.
Proof.
  intros Hc. unfold pretty, pretty_N. case_decide; [|by apply pretty_go_char].
  cbn. rewrite bool_decide_eq_false_2; [done|]. by intros <-.
Qed.

Lemma digits_plus s : digits 0 (String "+" s) = None.
Proof. done. Qed.

(** The decimal text of a [u64] parses back to it. *)
Lemma parse_u64_pretty n : (n ≤ u64_max)%N → parse_u64 (pretty n) = Some n.
Proof.
  intros Hn.
  assert (digits 0 (pretty n) = Some n) as Hd.
  { unfold pretty, pretty_N. case_decide; [by subst|]. by apply digits_pretty_go. }
  destruct (pretty n) as [|a s] eqn:Hs.
  - exfalso. unfold pretty, pretty_N in Hs. case_decide; [done|].
    rewrite pretty_N_go_step in Hs by lia.
    assert (∀ x t, t ≠ "" → pretty_N_go x t ≠ "") as Hne.
    { clear. intros x. induction (N.lt_wf_0 x) as [x _ IH]. intros t Ht.
      destruct (decide (0 < x)%N) as [Hpos|]; [|by replace x with 0%N by lia].
      rewrite pretty_N_go_step by done. apply IH; [|done]. apply N.div_lt; lia. }
    by eapply Hne in Hs.
  - unfold parse_u64.
    destruct (decide (a = "+"%char)) as [->|Ha]; [by rewrite digits_plus in Hd|].
    rewrite <- Hd. destruct a as [[] [] [] [] [] [] [] []]; done.
Qed.
End Int.

(** ** UTF-8 *)
Module Utf8.
Import Strings.Byte.

Definition between (lo hi : N) (b : byte) : bool :=
  bool_decide (lo ≤ to_N b ∧ to_N b ≤ hi)%N.
Definition is_cont : byte → bool := between 128 191.

(** The second byte of a three or four byte sequence. *)
Definition second3 (b0 b1 : byte) : bool :=
  if between 224 224 b0 then between 160 191 b1
  else if between 237 237 b0 then between 128 159 b1
  else is_cont b1.
Definition second4 (b0 b1 : byte) : bool :=
  if between 240 240 b0 then between 144 191 b1
  else if between 244 244 b0 then between 128 143 b1
  else is_cont b1.

Definition first_is (f : byte → bool) (l : list byte) : bool :=
  match l with b :: _ => f b | [] => false end.

(** The length of the maximal sequence at the head of a non-empty input, and
    whether it is a well-formed character. *)
Definition scan (l : list byte) : nat * bool :=
  match l with
  | [] => (0, true)
  | b0 :: l1 =>
      if between 0 127 b0 then (1, true)
      else if between 194 223 b0 then
        if first_is is_cont l1 then (2, true) else (1, false)
      else if between 224 239 b0 then
        if first_is (second3 b0) l1 then
          if first_is is_cont (tail l1) then (3, true) else (2, false)
        else (1, false)
      else if between 240 244 b0 then
        if first_is (second4 b0) l1 then
          if first_is is_cont (tail l1) then
            if first_is is_cont (tail (tail l1)) then (4, true) else (3, false)
          else (2, false)
        else (1, false)
      else (1, false)
  end.

Definition replacement : list byte := [xef; xbf; xbd].

Fixpoint lossy_fuel (fuel : nat) (l : list byte) : list byte :=
  match fuel with
  | 0 => []
  | S fuel =>
      match l with
      | [] => []
      | _ :: _ =>
          let '(k, valid) := scan l in
          (if valid then take k l else replacement) ++ lossy_fuel fuel (drop k l)
      end
  end.

(** [String::from_utf8_lossy(..).to_string()]. Each step consumes at least one
    byte, so the length is enough fuel. *)
Definition from_utf8_lossy (l : list byte) : string :=
  Strings.String.string_of_list_byte (lossy_fuel (length l) l).

Inductive valid : list byte → Prop :=
| valid_nil : valid []
| valid_char k l : l ≠ [] → scan l = (k, true) → valid (drop k l) → valid l.

Ltac scan_cases :=
  repeat match goal with
  | H : context [if ?b then _ else _] |- _ => destruct b eqn:?; simplify_eq/=
  end.

Lemma scan_pos l : l ≠ [] → 0 < (scan l).1 ≤ length l.
Proof.
  destruct l as [|b0 l1]; [done|]. intros _. simpl.
  destruct l1 as [|b1 [|b2 [|b3 l4]]]; simpl; repeat case_match; simpl; lia.
Qed.

Lemma scan_prefix k l r : l ≠ [] → scan l = (k, true) → scan (take k l ++ r) = (k, true).
Proof.
  destruct l as [|b0 l1]; [done|]. intros _.
  destruct l1 as [|b1 [|b2 [|b3 l4]]]; simpl; intros H; scan_cases; try done;
    repeat match goal with
    | H : ?b = _ |- context [if ?b then _ else _] => rewrite H
    end; done.
Qed.

Lemma lossy_fuel_valid n l : length l ≤ n → valid (lossy_fuel n l).
Proof.
  revert l. induction n as [|n IH]; intros l Hl; [constructor|].
  destruct l as [|b l1]; [constructor|]. cbn [lossy_fuel].
  set (l := b :: l1) in *. assert (l ≠ []) as Hne by done. clearbody l.
  pose proof (scan_pos l Hne) as Hk.
  destruct (scan l) as [k [|]] eqn:Hs; simpl in Hk.
  - eapply valid_char with (k := k).
    + destruct l; [done|]. destruct k; [lia|done].
    + by apply scan_prefix.
    + rewrite drop_app_length' by (rewrite length_take; lia).
      apply IH. rewrite length_drop. lia.
  - eapply valid_char with (k := 3); [done|done|].
    cbn. apply IH. rewrite length_drop. lia.
Qed.

Lemma lossy_fuel_id n l : length l ≤ n → valid l → lossy_fuel n l = l.
Proof.
  intros Hn Hv. revert n Hn. induction Hv as [|k l Hne Hs Hv IH]; intros n Hn.
  - by destruct n.
  - pose proof (scan_pos l Hne) as Hk. rewrite Hs in Hk. simpl in Hk.
    destruct n as [|n]; [destruct l; [done|simpl in Hn; lia]|].
    destruct l as [|b l1]; [done|]. cbn [lossy_fuel]. rewrite Hs.
    rewrite IH by (rewrite length_drop; simpl in *; lia). by rewrite take_drop.
Qed.

(** Well-formed UTF-8 is kept byte for byte ... *)
Lemma from_utf8_lossy_valid l : valid l → from_utf8_lossy l = Strings.String.string_of_list_byte l.
Proof. intros H. unfold from_utf8_lossy. by rewrite lossy_fuel_id. Qed.

(** ... and anything else still gives a well-formed [String]. *)
Lemma from_utf8_lossy_wf l : valid (Strings.String.list_byte_of_string (from_utf8_lossy l)).
Proof.
  unfold from_utf8_lossy. rewrite Strings.String.list_byte_of_string_of_list_byte.
  by apply lossy_fuel_valid.
Qed.
End Utf8.
