(* ===== verification/RustFloat.v ===== *)
(** * RustFloat: f64 and its parser

    [f64::from_str] of Rust's standard library: the grammar it documents, and the
    double-precision number closest to the decimal number, computed exactly. *)
From S2P Require Import Prelude RustStd.
From Stdlib Require Import Ascii.

(** A double is a sign with a mantissa below [2^53] and an exponent: it stands for
    [mantissa × 2^(exponent - 1074)]. *)
Inductive f64 :=
| Nan
| Infinite (negative : bool)
| Finite (negative : bool) (mantissa exponent : N).

#[export] Instance f64_eq_dec : EqDecision f64.
Proof. solve_decision. Defined.

Definition max_exponent : N := 2045.

(** The mantissas and exponents that are represented: subnormal numbers have the
    smallest exponent, all others a full mantissa. *)
Definition representable (m k : N) : Prop :=
  (m < 2^53 ∧ k ≤ max_exponent ∧ (2^52 ≤ m ∨ k = 0))%N.

(** ** Rounding *)
Section Round.
Open Scope N_scope.

(** The integer closest to [a / d], the even one of two. *)
Definition half_even (a d : N) : N :=
  let q := a / d in
  match 2 * (a mod d) ?= d with
  | Lt => q
  | Eq => if N.even q then q else q + 1
  | Gt => q + 1
  end.

(** The double closest to [(a / d) × 2^-1074]. *)
Definition round (negative : bool) (a d : N) : f64 :=
  let k := N.log2 (a / d) - 52 in
  let m := half_even a (d * 2^k) in
  let '(m, k) := if decide (m = 2^53) then (2^52, k + 1) else (m, k) in
  if decide (k ≤ max_exponent) then Finite negative m k else Infinite negative.

(** [n × 10^e] as such a quotient. *)
Definition scaled (n : N) (e : Z) : N * N :=
  (n * 10^Z.to_N e * 2^1074, 10^Z.to_N (- e)).
End Round.

(** ** The grammar *)
Definition take_sign (s : string) : bool * string :=
  match s with
  | String "-" s => (true, s)
  | String "+" s => (false, s)
  | s => (false, s)
  end.

(** The digits at the start, the number they make of [acc], and the rest. *)
Fixpoint take_digits (acc : N) (s : string) : N * nat * string :=
  match s with
  | EmptyString => (acc, 0, s)
  | String c rest =>
      match Int.digit c with
      | Some d => let '(n, len, rest) := take_digits (10 * acc + d) rest in (n, S len, rest)
      | None => (acc, 0, s)
      end
  end.

(** [Exp ::= 'e' Sign? Digit+], or nothing. *)
Definition exponent_part (s : string) : option Z :=
  match s with
  | EmptyString => Some 0%Z
  | String c s =>
      if decide (c = "e"%char ∨ c = "E"%char) then
        let '(negative, s) := take_sign s in
        match take_digits 0 s with
        | (n, S _, EmptyString) => Some (if negative then - Z.of_N n else Z.of_N n)%Z
        | _ => None
        end
      else None
  end.

(** [Number ::= ( Digit+ | Digit+ '.' Digit* | Digit* '.' Digit+ ) Exp?]: the
    digits as one number, and its power of ten. *)
Definition decimal (s : string) : option (N * Z) :=
  let '(int, int_len, s) := take_digits 0 s in
  let '(n, frac_len, s) :=
    match s with String "." s => take_digits int s | s => (int, 0, s) end in
  if decide (int_len + frac_len = 0) then None
  else e ← exponent_part s; Some (n, e - Z.of_nat frac_len)%Z.

Definition lower (c : ascii) : ascii :=
  let n := N_of_ascii c in
  if decide (65 ≤ n ∧ n ≤ 90)%N then ascii_of_N (n + 32) else c.
Fixpoint to_ascii_lowercase (s : string) : string :=
  match s with EmptyString => EmptyString | String c s => String (lower c) (to_ascii_lowercase s) end.

(** [Float ::= Sign? ( 'inf' | 'infinity' | 'nan' | Number )], in any case. *)
Definition f64_from_str (s : string) : option f64 :=
  let '(negative, s) := take_sign s in
  match decimal s with
  | Some (n, e) => let '(a, d) := scaled n e in Some (round negative a d)
  | None =>
      let s := to_ascii_lowercase s in
      if decide (s = "inf" ∨ s = "infinity") then Some (Infinite negative)
      else if decide (s = "nan") then Some Nan
      else None
  end.

(** The IEEE representation; not-a-number is the quiet one. *)
Definition to_bits (x : f64) : N :=
  match x with
  | Nan => 2047 * 2^52 + 2^51
  | Infinite negative => (if negative then 2^63 else 0) + 2047 * 2^52
  | Finite negative m k => (if negative then 2^63 else 0) + k * 2^52 + m
  end.

Example f64_bits :
  map (λ s, to_bits <$> f64_from_str s)
    ["0.1"; "-119.7006"; "1"; "5e-324"; "2e-324"; "1.7976931348623157e308"; "1.7976931348623159e308";
     "9007199254740993"; "1."; ".5"; "-0"; "+InF"] =
  map (Some (A:=N)) [0x3FB999999999999A; 0xC05DECD6A161E4F7; 0x3FF0000000000000; 1; 0;
     0x7FEFFFFFFFFFFFFF; 0x7FF0000000000000; 0x4340000000000000; 0x3FF0000000000000; 0x3FE0000000000000;
     0x8000000000000000; 0x7FF0000000000000]%N.
Proof. vm_compute. reflexivity. Qed.

Example not_f64 :
  map f64_from_str [""; "."; "+"; "e5"; "1e"; "1e+"; " 1"; "1 "; "0x10"; "--1"; "1_000"] =
  replicate 11 None.
Proof. vm_compute. reflexivity. Qed.

(** ** Rounding is to the closest double *)
Section Closest.
Open Scope N_scope.
Implicit Types (a d m k : N).

(** How far [m × 2^k] is from [a / d], in units of [1 / d]. *)
Definition distance a d m k : Z := Z.abs (Z.of_N a - Z.of_N (d * (m * 2^k))).

Lemma half_even_tie a d :
  d ≠ 0 →
  (2 * Z.abs (Z.of_N a - Z.of_N (d * half_even a d)) ≤ Z.of_N d)%Z ∧
  (2 * Z.abs (Z.of_N a - Z.of_N (d * half_even a d)) = Z.of_N d → N.even (half_even a d) = true)%Z.
Proof.
  intros Hd. pose proof (N.div_mod a d Hd) as Ha. pose proof (N.mod_lt a d Hd) as Hr.
  unfold half_even. set (q := a / d) in *. set (r := a mod d) in *. clearbody q r. subst a.
  destruct (N.compare_spec (2 * r) d) as [He|Hl|Hg].
  - destruct (N.even q) eqn:Hq; [split; [lia|done]|]. rewrite N.mul_add_distr_l, N.mul_1_r.
    split; [lia|]. intros _. by rewrite N.add_1_r, N.even_succ, <- N.negb_even, Hq.
  - split; [|intros]; lia.
  - rewrite N.mul_add_distr_l, N.mul_1_r. split; [|intros]; lia.
Qed.

(** No other multiple of [d] is closer, and one as close means an even one was taken. *)
Lemma half_even_closest a d (x : N) :
  d ≠ 0 →
  (Z.abs (Z.of_N a - Z.of_N (d * half_even a d)) ≤ Z.abs (Z.of_N a - Z.of_N (d * x)))%Z ∧
  (Z.abs (Z.of_N a - Z.of_N (d * half_even a d)) = Z.abs (Z.of_N a - Z.of_N (d * x)) →
     x = half_even a d ∨ N.even (half_even a d) = true)%Z.
Proof.
  intros Hd. destruct (half_even_tie a d Hd) as [Hn Ht]. set (h := half_even a d) in *. clearbody h.
  destruct (N.eq_dec x h) as [->|Hx]; [split; auto with lia|].
  assert (Z.of_N d ≤ Z.abs (Z.of_N (d * h) - Z.of_N (d * x)))%Z as Hgap.
  { rewrite !N2Z.inj_mul, <- Z.mul_sub_distr_l, Z.abs_mul.
    assert (1 ≤ Z.abs (Z.of_N h - Z.of_N x))%Z by lia. nia. }
  split; [lia|]. intros Heq. right. apply Ht. lia.
Qed.

Lemma half_even_bounds a d (lo hi : N) :
  d ≠ 0 → d * lo ≤ a → a < d * hi → lo ≤ half_even a d ≤ hi.
Proof.
  intros Hd Hlo Hhi. pose proof (N.div_le_lower_bound a d lo Hd Hlo) as Hl.
  pose proof (N.Div0.div_lt_upper_bound a d hi Hhi) as Hh.
  unfold half_even. set (q := a / d) in *. clearbody q. destruct (_ ?= _); [destruct (N.even q)|..]; lia.
Qed.

(** The exponent chosen first, and where its mantissa then lies. *)
Definition first_exponent a d : N := N.log2 (a / d) - 52.
Definition first_mantissa a d : N := half_even a (d * 2^first_exponent a d).

Lemma first_range a d :
  d ≠ 0 →
  let k := first_exponent a d in
  a < d * 2^k * 2^53 ∧ (k = 0 ∨ d * 2^k * 2^52 ≤ a).
Proof.
  intros Hd k. pose proof (N.div_mod a d Hd) as Ha. pose proof (N.mod_lt a d Hd) as Hr.
  set (q := a / d) in *. assert (q < 2^k * 2^53 ∧ (k = 0 ∨ 2^k * 2^52 ≤ q)) as [Hq Hk].
  { unfold k, first_exponent. fold q. rewrite <- !N.pow_add_r.
    destruct (N.eq_dec q 0) as [->|Hq0]; [cbn; lia|].
    pose proof (N.log2_spec q ltac:(lia)) as [Hlo Hhi]. split.
    - eapply N.lt_le_trans; [exact Hhi|]. apply N.pow_le_mono_r; lia.
    - destruct (decide (N.log2 q ≤ 52)) as [?|Hgt]; [left; lia|right].
      replace (N.log2 q - 52 + 52) with (N.log2 q) by lia. done. }
  rewrite <- !N.mul_assoc. generalize dependent (a mod d). intros r Ha Hr. set (t := 2^k * 2^53) in *. set (u := 2^k * 2^52) in *. clearbody t u q. split.
  - assert (q + 1 ≤ t) as Ht by lia. clear -Ha Hr Ht. nia.
  - destruct Hk as [?|Hk]; [by left|right]. clear -Ha Hk. nia.
Qed.

Lemma pow_ne k : 2^k ≠ 0.
Proof. by apply N.pow_nonzero. Qed.

Lemma first_mantissa_range a d :
  d ≠ 0 → first_mantissa a d ≤ 2^53 ∧ (first_exponent a d = 0 ∨ 2^52 ≤ first_mantissa a d).
Proof.
  intros Hd. destruct (first_range a d Hd) as [Hhi Hlo].
  assert (d * 2^first_exponent a d ≠ 0) as Hne by (pose proof (pow_ne (first_exponent a d)); lia).
  split.
  - by apply (half_even_bounds a _ 0 (2^53) Hne); [lia|].
  - destruct Hlo as [?|Hlo]; [by left|right]. by apply (half_even_bounds a _ (2^52) (2^53) Hne).
Qed.

(** At the first exponent, the mantissa is the closest to [a / d], and so it is
    among all doubles: the ones with smaller exponents lie below [2^52] units. *)
Lemma first_closest a d m k :
  d ≠ 0 → m < 2^53 →
  (distance a d (first_mantissa a d) (first_exponent a d) ≤ distance a d m k)%Z ∧
  (distance a d (first_mantissa a d) (first_exponent a d) = distance a d m k →
     m * 2^k = first_mantissa a d * 2^first_exponent a d ∨ N.even (first_mantissa a d) = true).
Proof.
  intros Hd Hm. destruct (first_range a d Hd) as [_ Hlo]. unfold first_mantissa, distance.
  set (f := first_exponent a d) in *. clearbody f. set (D := d * 2^f) in *.
  assert (D ≠ 0) as HD by (pose proof (pow_ne f); lia).
  assert (∀ x, d * (x * 2^f) = D * x) as Hmul by (intros x; unfold D; lia). rewrite !Hmul.
  destruct (decide (f ≤ k)) as [Hk|Hk].
  - assert (m * 2^k = m * 2^(k - f) * 2^f) as Heq
      by (rewrite <- N.mul_assoc, <- N.pow_add_r; f_equal; f_equal; lia).
    rewrite Heq, Hmul. destruct (half_even_closest a D (m * 2^(k - f)) HD) as [H1 H2].
    split; [done|]. intros [->|?]%H2; [by left|by right].
  - destruct Hlo as [->|Hlo]; [lia|].
    assert (m * 2^k < 2^52 * 2^f) as Hlt.
    { assert (2^f = 2 * 2^(f - 1)) as -> by (rewrite <- N.pow_succ_r'; f_equal; lia).
      assert (2^k ≤ 2^(f - 1)) by (apply N.pow_le_mono_r; lia).
      pose proof (pow_ne (f - 1)). change (2^53) with (2 * 2^52) in Hm. nia. }
    assert (d * (m * 2^k) < D * 2^52) as Hx by (unfold D; nia).
    destruct (half_even_closest a D (2^52) HD) as [H1 _]. split; lia.
Qed.

(** [m × 2^k] is a double, none is closer to [a / d], and of two that are the even
    one was taken. *)
Definition closest a d m k : Prop :=
  representable m k ∧
  ∀ m' k', m' < 2^53 →
    (distance a d m k ≤ distance a d m' k')%Z ∧
    (distance a d m k = distance a d m' k' → m' * 2^k' = m * 2^k ∨ N.even m = true).

(** From here on, numbers are infinite: the middle between the largest double and
    the next power of two. *)
Definition overflows a d : Prop := d * ((2^54 - 1) * 2^max_exponent) ≤ 2 * a.

Lemma round_eq negative a d :
  round negative a d =
    let m := first_mantissa a d in let k := first_exponent a d in
    let '(m, k) := if decide (m = 2^53) then (2^52, k + 1) else (m, k) in
    if decide (k ≤ max_exponent) then Finite negative m k else Infinite negative.
Proof. done. Qed.

Lemma round_closest negative a d b m k :
  d ≠ 0 → round negative a d = Finite b m k → b = negative ∧ closest a d m k.
Proof.
  intros Hd. rewrite round_eq. cbv zeta. destruct (first_mantissa_range a d Hd) as [Hm Hn].
  assert (∀ m' k', m' < 2^53 → _) as Hc by (intros m' k'; exact (first_closest a d m' k' Hd)).
  set (f := first_mantissa a d) in *. set (e := first_exponent a d) in *. clearbody f e.
  destruct (decide (f = 2^53)) as [->|Hf]; case_decide as Hk; try done; intros [= <- <- <-]; split; try done.
  - assert (2^53 * 2^e = 2^52 * 2^(e + 1)) as Heq by (rewrite N.add_1_r, N.pow_succ_r'; lia).
    unfold closest. split; [unfold representable; lia|]. intros m' k' Hm'.
    destruct (Hc m' k' Hm') as [H1 H2]. unfold distance in *. rewrite <- Heq. split; [done|].
    intros [?|?]%H2; [by left|by right].
  - split; [unfold representable; lia|]. intros m' k' Hm'. by apply Hc.
Qed.

Lemma half_even_top a d :
  d ≠ 0 → half_even a d ≤ 2^53 → half_even a d = 2^53 ↔ d * (2^54 - 1) ≤ 2 * a.
Proof.
  intros Hd Hle. destruct (half_even_tie a d Hd) as [Hn Ht].
  set (h := half_even a d) in *. clearbody h. split; [intros ->; lia|]. intros Ha.
  destruct (N.eq_dec h (2^53 - 1)) as [->|Hne].
  - assert (N.even (2^53 - 1) = true) as [=]. apply Ht. lia.
  - destruct (N.eq_dec h (2^53)) as [|Hne']; [done|]. assert (h ≤ 2^53 - 2) as Hh by lia.
    assert (d * h ≤ d * (2^53 - 2)) by (by apply N.mul_le_mono_l). lia.
Qed.

Lemma round_overflows negative a d :
  d ≠ 0 → round negative a d = Infinite negative ↔ overflows a d.
Proof.
  intros Hd. rewrite round_eq. cbv zeta. destruct (first_range a d Hd) as [Hhi Hlo].
  destruct (first_mantissa_range a d Hd) as [Hf _].
  unfold overflows, first_mantissa in *. set (e := first_exponent a d) in *. clearbody e.
  pose proof (pow_ne max_exponent) as Hp.
  destruct (N.lt_trichotomy e max_exponent) as [Hlt|[->|Hgt]].
  - assert (2 * 2^e ≤ 2^max_exponent) as He.
    { rewrite <- N.pow_succ_r'. apply N.pow_le_mono_r; lia. }
    set (P := 2^max_exponent) in *. clearbody P. set (T := 2^e) in *. clearbody T.
    assert (d * (2 * T) ≤ d * P) by (by apply N.mul_le_mono_l).
    split; [|lia]. destruct (decide (_ = 2^53)); rewrite decide_True by lia; done.
  - assert (d * ((2^54 - 1) * 2^max_exponent) = d * 2^max_exponent * (2^54 - 1)) as -> by lia.
    rewrite <- half_even_top by (done || lia). destruct (decide (_ = 2^53)) as [->|Hne].
    + rewrite decide_False by lia. by split.
    + rewrite decide_True by done. by split.
  - assert (2 * 2^max_exponent ≤ 2^e) as He.
    { rewrite <- N.pow_succ_r'. apply N.pow_le_mono_r; lia. }
    split.
    + intros _. destruct Hlo as [->|Hlo]; [done|].
      set (P := 2^max_exponent) in *. clearbody P. set (T := 2^e) in *. clearbody T.
      assert (d * (2 * P) ≤ d * T) by (by apply N.mul_le_mono_l). lia.
    + intros _. destruct (decide (_ = 2^53)); by rewrite decide_False by lia.
Qed.
End Closest.

(** ** What a text is read as: the closest double to the decimal number it writes, an
    infinity beyond the largest double, or a special value that is spelled out. *)
Definition reads_as (s : string) (x : f64) : Prop :=
  let '(negative, t) := take_sign s in
  match decimal t, x with
  | Some (n, e), Finite b m k =>
      b = negative ∧ closest (scaled n e).1 (scaled n e).2 m k ∧ ¬ overflows (scaled n e).1 (scaled n e).2
  | Some (n, e), Infinite b => b = negative ∧ overflows (scaled n e).1 (scaled n e).2
  | None, Infinite b =>
      b = negative ∧ (to_ascii_lowercase t = "inf" ∨ to_ascii_lowercase t = "infinity")
  | None, Nan => to_ascii_lowercase t = "nan"
  | _, _ => False
  end.

Lemma round_cases negative a d : (∃ m k, round negative a d = Finite negative m k) ∨ round negative a d = Infinite negative.
Proof.
  unfold round. destruct (if decide (_ = _) then _ else _) as [m k]. case_decide; [left; by eexists _, _|by right].
Qed.

Lemma f64_from_str_reads s x : f64_from_str s = Some x → reads_as s x.
Proof.
  unfold f64_from_str, reads_as. destruct (take_sign s) as [negative t].
  destruct (decimal t) as [[n e]|].
  - assert ((scaled n e).2 ≠ 0%N) as Hd by (by apply N.pow_nonzero).
    destruct (scaled n e) as [a d]. cbn [fst snd] in *. intros [= <-].
    destruct (round_cases negative a d) as [(m & k & Hr)|Hr]; rewrite Hr.
    + split; [done|]. split; [by eapply round_closest|]. rewrite <- (round_overflows negative) by done. congruence.
    + split; [done|]. by apply (round_overflows negative).
  - case_decide; [by intros [= <-]|]. case_decide; [by intros [= <-]|done].
Qed.

Lemma f64_from_str_unreadable s : f64_from_str s = None → ∀ x, ¬ reads_as s x.
Proof.
  unfold f64_from_str, reads_as. destruct (take_sign s) as [negative t].
  destruct (decimal t) as [[n e]|]; [by destruct (scaled n e)|].
  case_decide as Hi; [done|]. case_decide as Hn; [done|]. intros _ [|b|b m k]; [exact Hn| |by intros []].
  by intros [_ ?].
Qed.
