(* ===== verification/RustNet.v ===== *)
(** * RustNet: [std::net] addresses

    [Ipv4Addr], [Ipv6Addr] and [IpAddr] with the operations the program calls:
    [Display], [FromStr] for IPv4, [is_loopback] and [Ipv6Addr::to_ipv4].
    Octets are bytes, so an address cannot be out of range. *)
From S2P Require Import Prelude RustStd.
From Stdlib Require Import Ascii.
From Stdlib Require Strings.Byte.

#[export] Instance byte_eq_dec : EqDecision Byte.byte := Strings.Byte.byte_eq_dec.

Module Net.
Import Strings.Byte.

Inductive Ipv4Addr := Octets4 (a b c d : byte).

(** A 16-bit segment, high byte first. *)
Definition segment : Type := byte * byte.
Definition seg_val (s : segment) : N := to_N s.1 * 256 + to_N s.2.

Inductive Ipv6Addr := Segments6 (s0 s1 s2 s3 s4 s5 s6 s7 : segment).

Inductive IpAddr := V4 (a : Ipv4Addr) | V6 (a : Ipv6Addr).

#[global] Instance Ipv4Addr_eq_dec : EqDecision Ipv4Addr.
Proof. solve_decision. Defined.
#[global] Instance Ipv6Addr_eq_dec : EqDecision Ipv6Addr.
Proof. solve_decision. Defined.
#[global] Instance IpAddr_eq_dec : EqDecision IpAddr.
Proof. solve_decision. Defined.

Definition localhost : Ipv4Addr := Octets4 x7f x00 x00 x01.

Definition segments (a : Ipv6Addr) : list N :=
  let 'Segments6 s0 s1 s2 s3 s4 s5 s6 s7 := a in
  map seg_val [s0; s1; s2; s3; s4; s5; s6; s7].

(** [Ipv4Addr::is_loopback]: 127.0.0.0/8. *)
Definition is_loopback4 (a : Ipv4Addr) : bool :=
  let 'Octets4 o _ _ _ := a in bool_decide (o = x7f).

(** [Ipv6Addr::is_loopback]: only [::1]. *)
Definition is_loopback6 (a : Ipv6Addr) : bool :=
  bool_decide (segments a = [0; 0; 0; 0; 0; 0; 0; 1]%N).

Definition is_loopback (a : IpAddr) : bool :=
  match a with V4 a => is_loopback4 a | V6 a => is_loopback6 a end.

(** [Ipv6Addr::to_ipv4_mapped]: [::ffff:a.b.c.d]. *)
Definition to_ipv4_mapped (a : Ipv6Addr) : option Ipv4Addr :=
  let 'Segments6 _ _ _ _ _ _ s6 s7 := a in
  if decide (take 6 (segments a) = [0; 0; 0; 0; 0; 65535]%N)
  then Some (Octets4 s6.1 s6.2 s7.1 s7.2) else None.

(** [Ipv6Addr::to_ipv4]: the mapped and the deprecated compatible form. *)
Definition to_ipv4 (a : Ipv6Addr) : option Ipv4Addr :=
  let 'Segments6 _ _ _ _ _ _ s6 s7 := a in
  if decide (take 6 (segments a) = [0; 0; 0; 0; 0; 65535]%N ∨
             take 6 (segments a) = [0; 0; 0; 0; 0; 0]%N)
  then Some (Octets4 s6.1 s6.2 s7.1 s7.2) else None.

(** ** [Display] *)
Definition octet_string (b : byte) : string := pretty (to_N b).

Definition ipv4_string (a : Ipv4Addr) : string :=
  let 'Octets4 a b c d := a in
  octet_string a +:+ "." +:+ octet_string b +:+ "." +:+
  octet_string c +:+ "." +:+ octet_string d.

Definition hex_digit (n : N) : ascii :=
  ascii_of_N (if decide (n < 10)%N then 48 + n else 87 + n)%N.

(** [{:x}] of a 16-bit value. *)
Definition hex16 (n : N) : string :=
  let d k := hex_digit ((n `div` (16 ^ k)) `mod` 16)%N in
  if decide (n < 16)%N then String (d 0%N) ""
  else if decide (n < 256)%N then String (d 1%N) (String (d 0%N) "")
  else if decide (n < 4096)%N then String (d 2%N) (String (d 1%N) (String (d 0%N) ""))
  else String (d 3%N) (String (d 2%N) (String (d 1%N) (String (d 0%N) ""))).

Record span := Span { start : nat; len : nat }.

(** One iteration of the search for the longest run of zero segments:
    the state is (longest, current). *)
Definition span_step (st : span * span) (ix : nat * N) : span * span :=
  let '(longest, current) := st in
  let '(i, x) := ix in
  if decide (x = 0)%N then
    let current := Span (if decide (len current = 0) then i else start current)
                        (S (len current)) in
    (if decide (len longest < len current) then current else longest, current)
  else (longest, Span 0 0).

Definition longest_zeros (l : list N) : span :=
  (fold_left span_step (imap pair l) (Span 0 0, Span 0 0)).1.

Fixpoint fmt_subslice (l : list N) : string :=
  match l with
  | [] => ""
  | [x] => hex16 x
  | x :: l => hex16 x +:+ ":" +:+ fmt_subslice l
  end.

Definition ipv6_string (a : Ipv6Addr) : string :=
  match to_ipv4_mapped a with
  | Some a4 => "::ffff:" +:+ ipv4_string a4
  | None =>
      let l := segments a in
      let z := longest_zeros l in
      if decide (1 < len z)
      then fmt_subslice (take (start z) l) +:+ "::" +:+
           fmt_subslice (drop (start z + len z) l)
      else fmt_subslice l
  end.

Definition ip_string (a : IpAddr) : string :=
  match a with V4 a => ipv4_string a | V6 a => ipv6_string a end.

(** ** [Ipv4Addr::from_str]: four octets, at most three digits each, no
    leading zeros. *)
Definition parse_octet (s : string) : option byte :=
  if decide (1 < String.length s ∧ Str.strip_prefix "0" s ≠ None) then None
  else if decide (3 < String.length s) then None
  else if decide (s = "") then None
  else n ← Int.digits 0 s; of_N n.

Definition parse_ipv4 (s : string) : option Ipv4Addr :=
  match Str.split "." s with
  | [a; b; c; d] =>
      a ← parse_octet a; b ← parse_octet b; c ← parse_octet c; d ← parse_octet d;
      Some (Octets4 a b c d)
  | _ => None
  end.

Lemma parse_octet_string b : parse_octet (octet_string b) = Some b.
Proof. by destruct b; vm_compute. Qed.

Lemma octet_char c b : Int.digit c = None → Str.has_char c (octet_string b) = false.
Proof. apply Int.pretty_char. Qed.

(** Every IPv4 address prints to a text that parses back to it. *)
Lemma parse_ipv4_string a : parse_ipv4 (ipv4_string a) = Some a.
Proof.
  destruct a as [a b c d]. unfold parse_ipv4, ipv4_string.
  rewrite !(Str.split_sep "."), !Str.split_none by by apply octet_char.
  cbn [app]. by rewrite !parse_octet_string.
Qed.

Lemma ipv4_string_inj a b : ipv4_string a = ipv4_string b → a = b.
Proof.
  intros H. apply (f_equal parse_ipv4) in H.
  rewrite !parse_ipv4_string in H. by injection H.
Qed.

(** ** The IPv6 text determines the address

    [parse_ipv6] reads the texts that [Display] writes. *)
Definition hex_value (a : ascii) : option N :=
  let n := N_of_ascii a in
  if decide (48 ≤ n ∧ n ≤ 57)%N then Some (n - 48)%N
  else if decide (97 ≤ n ∧ n ≤ 102)%N then Some (n - 87)%N
  else None.

Fixpoint hex_digits (acc : N) (s : string) : option N :=
  match s with
  | EmptyString => Some acc
  | String a s => d ← hex_value a; hex_digits (acc * 16 + d)%N s
  end.

Definition parse_hex16 (s : string) : option N :=
  if decide (s = "") then None else hex_digits 0 s.

(** The parts before the first empty one, and the rest. *)
Fixpoint span_parts (l : list string) : list string * list string :=
  match l with
  | [] => ([], [])
  | x :: l' =>
      if decide (x = "") then ([], l)
      else let '(a, b) := span_parts l' in (x :: a, b)
  end.

Definition parse_segments (parts : list string) : option (list N) :=
  let '(lead, rest) := span_parts parts in
  if decide (rest = []) then mapM parse_hex16 lead
  else
    let '(trail, _) := span_parts (reverse rest) in
    l ← mapM parse_hex16 lead;
    r ← mapM parse_hex16 (reverse trail);
    Some (l ++ replicate (8 - length l - length r) 0%N ++ r).

Definition segment_of (n : N) : option segment :=
  hi ← of_N (n `div` 256)%N; lo ← of_N (n `mod` 256)%N; Some (hi, lo).

Definition of_segments (l : list N) : option Ipv6Addr :=
  l ← mapM segment_of l;
  match l with
  | [s0; s1; s2; s3; s4; s5; s6; s7] => Some (Segments6 s0 s1 s2 s3 s4 s5 s6 s7)
  | _ => None
  end.

Definition of_mapped (a : Ipv4Addr) : Ipv6Addr :=
  let 'Octets4 a b c d := a in
  Segments6 (x00, x00) (x00, x00) (x00, x00) (x00, x00) (x00, x00) (xff, xff) (a, b) (c, d).

Definition parse_ipv6 (s : string) : option Ipv6Addr :=
  match Str.strip_prefix "::ffff:" s ≫= parse_ipv4 with
  | Some a => Some (of_mapped a)
  | None => parse_segments (Str.split ":" s) ≫= of_segments
  end.

Lemma to_N_bound b : (to_N b < 256)%N.
Proof. pose proof (to_N_bounded b). lia. Qed.

Lemma seg_val_bound s : (seg_val s < 65536)%N.
Proof. unfold seg_val. pose proof (to_N_bound s.1). pose proof (to_N_bound s.2). lia. Qed.

Lemma segment_of_val s : segment_of (seg_val s) = Some s.
Proof.
  destruct s as [hi lo]. unfold segment_of, seg_val. cbn [fst snd].
  pose proof (to_N_bound lo).
  rewrite N.div_add_l, (N.div_small (to_N lo)), N.add_0_r by lia.
  rewrite (N.add_comm (_ * _)), N.Div0.mod_add, (N.mod_small (to_N lo)) by lia.
  by rewrite !of_to_N.
Qed.

Lemma of_segments_segments a : of_segments (segments a) = Some a.
Proof.
  destruct a. unfold of_segments, segments. cbn [map mapM].
  by rewrite !segment_of_val.
Qed.

Lemma length_segments a : length (segments a) = 8.
Proof. by destruct a. Qed.

Lemma segments_bound a : Forall (λ n, n < 65536)%N (segments a).
Proof. destruct a. unfold segments. repeat constructor; apply seg_val_bound. Qed.

Lemma hex_digit_value d : (d < 16)%N → hex_value (hex_digit d) = Some d.
Proof.
  intros H.
  assert (∃ k, k < 16 ∧ d = N.of_nat k) as (k & Hk & ->) by (exists (N.to_nat d); lia).
  do 16 (destruct k as [|k]; [by vm_compute|]). lia.
Qed.

(** A 16-bit value prints as one to four digits that read back. *)
Lemma hex16_spec n :
  (n < 65536)%N → hex16 n ≠ "" ∧ parse_hex16 (hex16 n) = Some n.
Proof.
  intros Hn. unfold hex16, parse_hex16.
  change (16 ^ 0)%N with 1%N. change (16 ^ 1)%N with 16%N.
  change (16 ^ 2)%N with 256%N. change (16 ^ 3)%N with 4096%N.
  assert (∀ k, (n `div` k) `mod` 16 < 16)%N as Hd by (intros k; by apply N.mod_lt).
  pose proof (hex_digit_value _ (Hd 1%N)) as V0.
  pose proof (hex_digit_value _ (Hd 16%N)) as V1.
  pose proof (hex_digit_value _ (Hd 256%N)) as V2.
  pose proof (hex_digit_value _ (Hd 4096%N)) as V3.
  repeat case_decide; try done; (split; [done|]); cbn [hex_digits];
    repeat (first [rewrite V0|rewrite V1|rewrite V2|rewrite V3]; cbn [mbind option_bind hex_digits]);
    f_equal; clear V0 V1 V2 V3 Hd;
    zify; Z.to_euclidean_division_equations; lia.
Qed.

Lemma hex16_char c n : hex_value c = None → Str.has_char c (hex16 n) = false.
Proof.
  intros Hc.
  assert (∀ k, hex_digit ((n `div` k) `mod` 16)%N ≠ c) as Hne.
  { intros k <-. by rewrite hex_digit_value in Hc by by apply N.mod_lt. }
  unfold hex16. repeat case_decide; cbn [Str.has_char];
    by rewrite !bool_decide_eq_false_2 by apply Hne.
Qed.

Lemma fmt_subslice_char c l :
  c ≠ ":"%char → hex_value c = None → Str.has_char c (fmt_subslice l) = false.
Proof.
  intros Hc Hv. induction l as [|x l IH]; [done|].
  destruct l as [|y l]; [by apply hex16_char|].
  change (fmt_subslice (x :: y :: l)) with (hex16 x +:+ ":" +:+ fmt_subslice (y :: l)).
  rewrite !Str.has_char_app, IH, hex16_char by done. cbn.
  by rewrite bool_decide_eq_false_2.
Qed.

Lemma split_fmt_subslice l :
  Forall (λ n, n < 65536)%N l →
  Str.split ":" (fmt_subslice l) = if decide (l = []) then [""] else map hex16 l.
Proof.
  induction l as [|x l IH]; intros Hl; [done|].
  apply Forall_cons in Hl as [Hx Hl]. rewrite decide_False by done.
  destruct l as [|y l].
  - cbn [fmt_subslice map]. by apply Str.split_none, hex16_char.
  - change (fmt_subslice (x :: y :: l)) with (hex16 x +:+ ":" +:+ fmt_subslice (y :: l)).
    rewrite Str.split_sep, IH by done. rewrite decide_False by done.
    by rewrite Str.split_none by by apply hex16_char.
Qed.

Lemma span_parts_app l r :
  Forall (λ s, s ≠ "") l → span_parts (l ++ "" :: r) = (l, "" :: r).
Proof.
  induction 1 as [|x l Hx Hl IH]; [done|]. cbn. rewrite decide_False by done. by rewrite IH.
Qed.

Lemma span_parts_all l : Forall (λ s, s ≠ "") l → span_parts l = (l, []).
Proof. induction 1 as [|x l Hx Hl IH]; [done|]. cbn. rewrite decide_False by done. by rewrite IH. Qed.

Lemma mapM_hex16 l : Forall (λ n, n < 65536)%N l → mapM parse_hex16 (map hex16 l) = Some l.
Proof.
  induction 1 as [|x l Hx Hl IH]; [done|]. cbn.
  destruct (hex16_spec x Hx) as [_ ->]. cbn. by rewrite IH.
Qed.

Lemma hex16_nonempty l : Forall (λ n, n < 65536)%N l → Forall (λ s, s ≠ "") (map hex16 l).
Proof. intros H. apply Forall_map. eapply Forall_impl; [exact H|]. intros n Hn. apply hex16_spec, Hn. Qed.

(** The search finds a run of zeros inside the list. *)
Definition zero_run (l : list N) (z : span) : Prop :=
  start z + len z ≤ length l ∧ ∀ i, start z ≤ i < start z + len z → l !! i = Some 0%N.

Lemma zero_run_app l x z : zero_run l z → zero_run (l ++ [x]) z.
Proof.
  intros [Hle Hz]. split; [rewrite length_app; simpl; lia|].
  intros i Hi. apply lookup_app_l_Some, Hz, Hi.
Qed.

Lemma span_fold l :
  let st := fold_left span_step (imap pair l) (Span 0 0, Span 0 0) in
  zero_run l st.1 ∧ zero_run l st.2 ∧ (len st.2 = 0 ∨ start st.2 + len st.2 = length l).
Proof.
  induction l as [|x l IH] using rev_ind.
  { cbn. repeat split; cbn; try lia. }
  rewrite imap_app, fold_left_app. cbn [imap fold_left].
  destruct (fold_left _ _ _) as [longest current]. cbn in IH.
  destruct IH as (Hl & Hc & Hend). rewrite Nat.add_0_r. cbn [span_step].
  destruct (decide (x = 0%N)) as [->|Hx].
  - set (c' := Span _ _).
    assert (zero_run (l ++ [0%N]) c' ∧ start c' + len c' = length (l ++ [0%N])) as [Hc' He].
    { rewrite length_app. cbn [length]. subst c'. cbn.
      destruct (decide (len current = 0)) as [H0|H0].
      - split; [|lia]. split; cbn; [rewrite length_app; cbn; lia|].
        intros i Hi. replace i with (length l + 0) by lia. by rewrite lookup_app_r, Nat.add_0_r, Nat.sub_diag by lia.
      - assert (start current + len current = length l) as He by lia.
        split; [|lia]. split; cbn; [rewrite length_app; cbn; lia|].
        intros i Hi. destruct (decide (i < length l)).
        + apply lookup_app_l_Some, Hc. lia.
        + rewrite lookup_app_r by lia. by replace (i - length l) with 0 by lia. }
    split_and!; [|done|by right]. case_decide; [done|]. by apply zero_run_app.
  - split_and!; cbn; [by apply zero_run_app| |by left].
    split; cbn; [lia|]. intros i Hi. lia.
Qed.

Lemma longest_zeros_run l : zero_run l (longest_zeros l).
Proof. apply span_fold. Qed.

Lemma longest_zeros_decompose l :
  let z := longest_zeros l in
  l = take (start z) l ++ replicate (len z) 0%N ++ drop (start z + len z) l.
Proof.
  intros z. pose proof (longest_zeros_run l) as [Hle Hz]. fold z in Hle, Hz.
  rewrite <- (take_drop (start z) l) at 1. f_equal.
  rewrite <- (take_drop (len z) (drop (start z) l)) at 1. rewrite drop_drop.
  f_equal. apply list_eq. intros i.
  destruct (decide (i < len z)) as [Hi|Hi].
  - rewrite lookup_take_lt, lookup_drop, lookup_replicate_2 by lia. apply Hz. lia.
  - rewrite !lookup_ge_None_2; rewrite ?length_replicate, ?length_take, ?length_drop; [done|lia..].
Qed.

Lemma to_ipv4_mapped_of a a4 : to_ipv4_mapped a = Some a4 → a = of_mapped a4.
Proof.
  destruct a as [s0 s1 s2 s3 s4 s5 [h6 l6] [h7 l7]]. unfold to_ipv4_mapped.
  case_decide as Hd; [|done]. intros [= <-]. cbn in Hd.
  assert (∀ s n, seg_val s = n → segment_of n = Some s) as Hs
    by (intros s n <-; apply segment_of_val).
  injection Hd as H0 H1 H2 H3 H4 H5.
  apply Hs in H0, H1, H2, H3, H4, H5. vm_compute in H0, H1, H2, H3, H4, H5.
  by simplify_eq.
Qed.

(** The parts of one printed half. *)
Definition fmt_parts (l : list N) : list string :=
  if decide (l = []) then [""] else map hex16 l.

Lemma span_parts_left l r :
  Forall (λ n, n < 65536)%N l →
  ∃ R, span_parts (fmt_parts l ++ "" :: r) = (map hex16 l, R ++ "" :: r).
Proof.
  intros Hl. unfold fmt_parts. case_decide; subst; [by exists [""]|].
  exists []. by rewrite span_parts_app by by apply hex16_nonempty.
Qed.

Lemma span_parts_right R l :
  Forall (λ n, n < 65536)%N l →
  (span_parts (reverse (R ++ "" :: fmt_parts l))).1 = reverse (map hex16 l).
Proof.
  intros Hl. rewrite reverse_app, reverse_cons, <- app_assoc. unfold fmt_parts.
  case_decide; subst; [done|]. cbn [app].
  rewrite span_parts_app; [done|]. by apply Forall_reverse, hex16_nonempty.
Qed.

Lemma parse_segments_compressed pre post :
  Forall (λ n, n < 65536)%N pre → Forall (λ n, n < 65536)%N post →
  parse_segments (fmt_parts pre ++ "" :: fmt_parts post) =
    Some (pre ++ replicate (8 - length pre - length post) 0%N ++ post).
Proof.
  intros Hpre Hpost. unfold parse_segments.
  destruct (span_parts_left pre (fmt_parts post) Hpre) as [R ->].
  rewrite decide_False by by destruct R.
  pose proof (span_parts_right R post Hpost) as Hr.
  destruct (span_parts (reverse _)) as [trail ?]. cbn in Hr. subst trail.
  rewrite reverse_involutive, !mapM_hex16 by done. done.
Qed.

Lemma ipv6_segments_parse a :
  to_ipv4_mapped a = None →
  parse_segments (Str.split ":" (ipv6_string a)) = Some (segments a) ∧
  Str.has_char "." (ipv6_string a) = false.
Proof.
  intros Hm. unfold ipv6_string. rewrite Hm.
  pose proof (segments_bound a) as Hb. pose proof (length_segments a) as Hlen.
  pose proof (longest_zeros_decompose (segments a)) as Hd. cbv zeta in Hd.
  revert Hb Hlen Hd. generalize (segments a) as l. intros l Hb Hlen Hd.
  set (z := longest_zeros l) in *.
  destruct (decide (1 < len z)) as [Hz|Hz].
  - set (pre := take (start z) l) in *. set (post := drop (start z + len z) l) in *.
    assert (Forall (λ n, n < 65536)%N pre) as Hpre by by apply Forall_take.
    assert (Forall (λ n, n < 65536)%N post) as Hpost by by apply Forall_drop.
    split.
    + change ("::" +:+ fmt_subslice post) with (":" +:+ ("" +:+ ":" +:+ fmt_subslice post)).
      rewrite !Str.split_sep, !split_fmt_subslice by done. cbn [Str.split app].
      change (parse_segments (fmt_parts pre ++ "" :: fmt_parts post) = Some l).
      rewrite parse_segments_compressed by done. f_equal.
      etrans; [|symmetry; exact Hd]. do 3 f_equal.
      pose proof (longest_zeros_run l) as [Hle _]. fold z in Hle.
      assert (length pre = start z ∧ length post = 8 - (start z + len z)) as [-> ->]; [|lia].
      subst pre post. rewrite length_take, length_drop. lia.
    + by rewrite !Str.has_char_app, !fmt_subslice_char.
  - split.
    + rewrite split_fmt_subslice, decide_False by (done || by destruct l).
      unfold parse_segments. rewrite span_parts_all by by apply hex16_nonempty.
      rewrite decide_True by done. by apply mapM_hex16.
    + by apply fmt_subslice_char.
Qed.

Lemma parse_ipv4_no_dot s : Str.has_char "." s = false → parse_ipv4 s = None.
Proof. intros H. unfold parse_ipv4. by rewrite Str.split_none. Qed.

Lemma strip_prefix_no_char c p s t :
  Str.strip_prefix p s = Some t → Str.has_char c s = false → Str.has_char c t = false.
Proof.
  revert s. induction p as [|a p IH]; intros s; [by destruct s; intros [= <-]|].
  destruct s as [|b s]; [done|]. cbn. case_decide; [|done]. intros Ht [_ Hs]%orb_false_iff. by eapply IH.
Qed.

(** Every IPv6 address prints to a text that determines it. *)
Lemma parse_ipv6_string a : parse_ipv6 (ipv6_string a) = Some a.
Proof.
  destruct (to_ipv4_mapped a) as [a4|] eqn:Hm.
  - apply to_ipv4_mapped_of in Hm as ->. destruct a4 as [a b c d].
    change (ipv6_string (of_mapped (Octets4 a b c d)))
      with ("::ffff:" +:+ ipv4_string (Octets4 a b c d)).
    unfold parse_ipv6. rewrite Str.strip_prefix_app. cbn [mbind option_bind].
    by rewrite parse_ipv4_string.
  - destruct (ipv6_segments_parse a Hm) as [Hp Hdot]. unfold parse_ipv6.
    assert (Str.strip_prefix "::ffff:" (ipv6_string a) ≫= parse_ipv4 = None) as ->.
    { destruct (Str.strip_prefix _ _) eqn:Hs; [|done]. cbn.
      by eapply parse_ipv4_no_dot, strip_prefix_no_char. }
    rewrite Hp. cbn. apply of_segments_segments.
Qed.

Lemma fmt_subslice_colon l : 1 < length l → Str.has_char ":" (fmt_subslice l) = true.
Proof.
  destruct l as [|x [|y l]]; cbn [length]; [lia..|]. intros _.
  change (fmt_subslice (x :: y :: l)) with (hex16 x +:+ ":" +:+ fmt_subslice (y :: l)).
  rewrite Str.has_char_app. apply orb_true_r.
Qed.

Lemma ipv6_string_colon a : Str.has_char ":" (ipv6_string a) = true.
Proof.
  unfold ipv6_string. destruct (to_ipv4_mapped a); [done|]. case_decide.
  - rewrite Str.has_char_app. apply orb_true_r.
  - apply fmt_subslice_colon. rewrite length_segments. lia.
Qed.

Lemma ipv4_string_char c a :
  c ≠ "."%char → Int.digit c = None → Str.has_char c (ipv4_string a) = false.
Proof.
  destruct a as [o1 o2 o3 o4]. intros Hc Hd. unfold ipv4_string.
  rewrite !Str.has_char_app, !octet_char by done. cbn. by rewrite !bool_decide_eq_false_2.
Qed.

Lemma ipv6_string_char c a :
  c ≠ "."%char → c ≠ ":"%char → hex_value c = None → Str.has_char c (ipv6_string a) = false.
Proof.
  intros Hdot Hcol Hv.
  assert (Int.digit c = None) as Hd.
  { unfold hex_value in Hv. unfold Int.digit. by case_decide. }
  unfold ipv6_string. destruct (to_ipv4_mapped a); [|case_decide].
  - rewrite Str.has_char_app, ipv4_string_char by done.
    cbn. rewrite !bool_decide_eq_false_2; [done|by intros <-..].
  - rewrite !Str.has_char_app, !fmt_subslice_char by done. cbn.
    by rewrite !bool_decide_eq_false_2.
  - by apply fmt_subslice_char.
Qed.

(** Different addresses have different texts. *)
Lemma ip_string_inj a b : ip_string a = ip_string b → a = b.
Proof.
  destruct a as [a|a], b as [b|b]; cbn; intros Heq.
  - f_equal. by apply ipv4_string_inj.
  - apply (f_equal (Str.has_char ":")) in Heq.
    by rewrite ipv4_string_char, ipv6_string_colon in Heq.
  - apply (f_equal (Str.has_char ":")) in Heq.
    by rewrite ipv4_string_char, ipv6_string_colon in Heq.
  - apply (f_equal parse_ipv6) in Heq. rewrite !parse_ipv6_string in Heq. by injection Heq as ->.
Qed.

Example localhost_literal : parse_ipv4 "127.0.0.1" = Some localhost.
Proof. by vm_compute. Qed.
Example unspecified6 :
  ipv6_string (Segments6 (x20, x01) (x0d, xb8) (x00, x00) (x00, x00)
                         (x00, x00) (x00, x01) (x00, x00) (xff, xfe)) = "2001:db8::1:0:fffe".
Proof. by vm_compute. Qed.
Example mapped6 :
  ipv6_string (Segments6 (x00, x00) (x00, x00) (x00, x00) (x00, x00)
                         (x00, x00) (xff, xff) (x7f, x00) (x00, x01)) = "::ffff:127.0.0.1".
Proof. by vm_compute. Qed.
End Net.
