(* ===== verification/Types.v ===== *)
(** * Types: types/src/lib.rs

    The data the three programs exchange, and the names of the networks. JSON
    encoding is serde's; the programs use it through [Json]. *)
From S2P Require Import Prelude RustStd RustNet.

Inductive CKBNetworkType := Mirana | Pudge | Dev.

#[export] Instance CKBNetworkType_eq_dec : EqDecision CKBNetworkType.
Proof. solve_decision. Defined.

(** [impl From<String> for CKBNetworkType]. *)
Definition network_from_string (s : string) : CKBNetworkType :=
  if decide (s ∈ ["mirana"; "ckb"; "main"; "mainnet"]) then Mirana
  else if decide (s ∈ ["pudge"; "ckb_testnet"; "test"; "testnet"]) then Pudge
  else if decide (s ∈ ["dev"; "ckb_dev"]) then Dev
  else Mirana.

Definition into_legacy_str (n : CKBNetworkType) : string :=
  match n with Mirana => "ckb" | Pudge => "ckb_testnet" | Dev => "ckb_dev" end.

Definition into_str (n : CKBNetworkType) : string :=
  match n with Mirana => "mirana" | Pudge => "pudge" | Dev => "dev" end.

Record EndpointInfo := { address : Net.IpAddr; port : N }.

Record NodeMetaInfo := {
  peer_id : string;
  addresses : list EndpointInfo;
  network : CKBNetworkType;
}.

Record ReachableInfo := { peer : NodeMetaInfo; from : NodeMetaInfo }.

Definition reachable_info_new (peer from : NodeMetaInfo) : ReachableInfo :=
  {| peer := peer; from := from |}.

Record PeerInfo := { info : NodeMetaInfo; version : string; full : bool; is_ex : bool }.

#[export] Instance EndpointInfo_eq_dec : EqDecision EndpointInfo.
Proof. solve_decision. Defined.
#[export] Instance NodeMetaInfo_eq_dec : EqDecision NodeMetaInfo.
Proof. solve_decision. Defined.
#[export] Instance ReachableInfo_eq_dec : EqDecision ReachableInfo.
Proof. solve_decision. Defined.
#[export] Instance PeerInfo_eq_dec : EqDecision PeerInfo.
Proof. solve_decision. Defined.

(** serde_json at a type that derives [Serialize] and [Deserialize]:
    [to_json] is [serde_json::to_vec] or [to_string] ([None]: an error),
    [of_json] is [serde_json::from_slice] or [from_str]. *)
Class Json (A : Type) := {
  to_json : A → option string;
  of_json : string → option A;
}.

(** What the programs rely on: a derived type serialises, and its text
    deserialises to the same value. *)
Class JsonLaws (A : Type) `{Json A} :=
  json_round_trip (x : A) : ∃ s, to_json x = Some s ∧ of_json s = Some x.

(** [serde_json::to_string(&x).unwrap_or_default()] *)
Definition json_text `{Json A} (x : A) : string := default "" (to_json x).

Definition from_json `{Json PeerInfo} (json_string : string) : option PeerInfo :=
  of_json json_string.

Lemma of_json_text `{JsonLaws A} (x : A) : of_json (json_text x) = Some x.
Proof. unfold json_text. destruct (json_round_trip x) as (s & -> & Hs). exact Hs. Qed.

Lemma json_text_inj `{JsonLaws A} (x y : A) : json_text x = json_text y → x = y.
Proof.
  intros Heq. apply (f_equal of_json) in Heq. rewrite !of_json_text in Heq. by injection Heq.
Qed.

#[export] Hint Rewrite @of_json_text : rust.

(** ** Properties *)

(** The name a network is stored under and its legacy name both
    read back as that network; of all strings only the six names of the test and
    development networks mean anything but the main network. *)
Lemma network_names (n : CKBNetworkType) (s : string) :
  network_from_string (into_str n) = n ∧
  network_from_string (into_legacy_str n) = n ∧
  (network_from_string s ≠ Mirana ↔
   s ∈ ["pudge"; "ckb_testnet"; "test"; "testnet"; "dev"; "ckb_dev"]).
Proof.
  split_and!; [by destruct n..|]. unfold network_from_string.
  repeat case_decide; rewrite !list_elem_of_In in *; cbn in *;
    (split; intros Hq; try done); destruct_or?; subst; try done; tauto.
Qed.
