(* ===== verification/JsonModel.v ===== *)
(** * JsonModel: a concrete serialisation, for the witnesses

    Any countable type can be written as text and read back. This instance of
    [Json] is not serde's format: no theorem depends on the format, and the
    instance shows that the laws of [Json] can be met for the program's types. *)
From S2P Require Import Prelude RustStd RustNet Types.
From Stdlib Require Import Ascii.
From Stdlib Require Strings.Byte.

Fixpoint bit_text (p : positive) : string :=
  match p with
  | xH => ""
  | xO p => String "0" (bit_text p)
  | xI p => String "1" (bit_text p)
  end.

Fixpoint of_bit_text (s : string) : option positive :=
  match s with
  | EmptyString => Some xH
  | String a s =>
      if decide (a = "0"%char) then xO <$> of_bit_text s
      else if decide (a = "1"%char) then xI <$> of_bit_text s else None
  end.

Lemma of_bit_text_bit_text p : of_bit_text (bit_text p) = Some p.
Proof. induction p as [p IH|p IH|]; cbn; by rewrite ?IH. Qed.

#[export] Instance json_countable `{Countable A} : Json A | 100 := {|
  to_json x := Some (bit_text (encode x));
  of_json s := of_bit_text s ≫= decode;
|}.

#[export] Instance json_countable_laws `{Countable A} : JsonLaws A.
Proof.
  intros x. exists (bit_text (encode x)). split; [done|]. cbn. rewrite of_bit_text_bit_text. cbn.
  apply decode_encode.
Qed.

(** ** The program's types are countable *)
#[export] Program Instance byte_countable : Countable Byte.byte :=
  inj_countable Strings.Byte.to_N Strings.Byte.of_N _.
Next Obligation. apply Strings.Byte.of_to_N. Qed.

#[export] Program Instance ipv4_countable : Countable Net.Ipv4Addr :=
  inj_countable' (λ a, let 'Net.Octets4 a b c d := a in (a, b, c, d))
    (λ t, let '(a, b, c, d) := t in Net.Octets4 a b c d) _.
Next Obligation. by intros []. Qed.

#[export] Program Instance ipv6_countable : Countable Net.Ipv6Addr :=
  inj_countable' (λ a, let 'Net.Segments6 a b c d e f g h := a in (a, b, c, d, (e, f, g, h)))
    (λ t, let '(a, b, c, d, (e, f, g, h)) := t in Net.Segments6 a b c d e f g h) _.
Next Obligation. by intros []. Qed.

#[export] Program Instance ip_countable : Countable Net.IpAddr :=
  inj_countable' (λ a, match a with Net.V4 a => inl a | Net.V6 a => inr a end)
    (λ t, match t with inl a => Net.V4 a | inr a => Net.V6 a end) _.
Next Obligation. by intros []. Qed.

#[export] Program Instance network_countable : Countable CKBNetworkType :=
  inj_countable' (λ n, match n with Mirana => None | Pudge => Some false | Dev => Some true end)
    (λ t, match t with None => Mirana | Some false => Pudge | Some true => Dev end) _.
Next Obligation. by intros []. Qed.

#[export] Program Instance endpoint_countable : Countable EndpointInfo :=
  inj_countable' (λ x, (address x, port x))
    (λ t, {| address := t.1; port := t.2 |}) _.
Next Obligation. by intros []. Qed.

#[export] Program Instance node_countable : Countable NodeMetaInfo :=
  inj_countable' (λ x, (peer_id x, addresses x, network x))
    (λ t, {| peer_id := t.1.1; addresses := t.1.2; network := t.2 |}) _.
Next Obligation. by intros []. Qed.

#[export] Program Instance reachable_countable : Countable ReachableInfo :=
  inj_countable' (λ x, (peer x, from x)) (λ t, {| peer := t.1; from := t.2 |}) _.
Next Obligation. by intros []. Qed.

#[export] Program Instance peer_countable : Countable PeerInfo :=
  inj_countable' (λ x, (info x, version x, full x, is_ex x))
    (λ t, let '(i, v, f, e) := t in {| info := i; version := v; full := f; is_ex := e |}) _.
Next Obligation. by intros []. Qed.
