(* ===== verification/Compress.v ===== *)
(** * Compress: src/compress.rs

    The framing that the Sync protocol puts around its messages: one flag byte,
    then the payload, snappy-compressed when it is long. The snap crate is the
    class [Snap]. *)
From S2P Require Import Prelude RustStd RustNet.
From Stdlib Require Strings.Byte.
Import Strings.Byte.

Abbreviation Bytes := (list byte).

(** snap::raw: [Encoder::compress_vec], [decompress_len] and
    [Decoder::decompress], which fills the buffer it is given. *)
Class Snap := {
  snap_error : Type;
  compress_vec : Bytes → result Bytes snap_error;
  decompress_len : Bytes → result N snap_error;
  snap_decompress : Bytes → Bytes → result N snap_error * Bytes;
}.

(** What snap documents: decoding inverts encoding into a buffer of the length
    the header announces; a slice keeps its length. *)
Class SnapLaws `{Snap} := {
  snap_announces x y :
    compress_vec x = Ok y → decompress_len y = Ok (N.of_nat (length x));
  snap_inverts x y buf :
    compress_vec x = Ok y → length buf = length x →
    snap_decompress y buf = (Ok (N.of_nat (length x)), x);
  snap_keeps_length y buf : length (snap_decompress y buf).2 = length buf;
}.

Inductive ErrorKind := InvalidData.

Definition COMPRESSION_SIZE_THRESHOLD : nat := 1024.
Definition UNCOMPRESS_FLAG : byte := x00.
Definition COMPRESS_FLAG : byte := x80.
Definition MAX_UNCOMPRESSED_LEN : N := N.shiftl 1 23.

Record Message := { inner : Bytes }.

Definition from_raw (data : Bytes) : Message := {| inner := UNCOMPRESS_FLAG :: data |}.
Definition from_compressed (data : Bytes) : Message := {| inner := data |}.

Definition set_compress_flag {E} (m : Message) : outcome E Message :=
  match inner m with
  | [] => Panic
  | _ :: rest => Ret {| inner := COMPRESS_FLAG :: rest |}
  end.

Definition compress_flag {E} (m : Message) : outcome E bool :=
  b ← index (inner m) 0;
  Ret (negb (bool_decide (N.land (to_N b) (to_N COMPRESS_FLAG) = 0%N))).

Section Codec.
Context `{Snap}.

Definition message_compress {E} (m : Message) : outcome E Bytes :=
  if decide (COMPRESSION_SIZE_THRESHOLD < length (inner m)) then
    let input := drop 1 (inner m) in
    let kept := take 1 (inner m) in
    match compress_vec input with
    | Ok res => m ← set_compress_flag {| inner := kept ++ res |}; Ret (inner m)
    | Err _ => Ret (kept ++ input)
    end
  else Ret (inner m).

Definition message_decompress (m : Message) : outcome ErrorKind Bytes :=
  if decide (inner m = []) then Raise InvalidData
  else
    flag ← compress_flag m;
    if (flag : bool) then
      match decompress_len (drop 1 (inner m)) with
      | Ok decompressed_bytes_len =>
          if decide (MAX_UNCOMPRESSED_LEN < decompressed_bytes_len)%N
          then Raise InvalidData
          else
            let buf := replicate (N.to_nat decompressed_bytes_len) x00 in
            match snap_decompress (drop 1 (inner m)) buf with
            | (Ok _, buf) => Ret buf
            | (Err _, _) => Raise InvalidData
            end
      | Err _ => Raise InvalidData
      end
    else Ret (drop 1 (inner m)).

(** [before_send] and [before_receive] of the Sync protocol. *)
Definition compress {E} (src : Bytes) : outcome E Bytes := message_compress (from_raw src).
Definition decompress (src : Bytes) : outcome ErrorKind Bytes :=
  message_decompress (from_compressed src).
End Codec.

(** ** Properties *)
Section Properties.
Context `{SnapLaws}.

Definition flag_set (b : byte) : bool :=
  negb (bool_decide (N.land (to_N b) (to_N COMPRESS_FLAG) = 0%N)).

Lemma MAX_UNCOMPRESSED_LEN_eq : MAX_UNCOMPRESSED_LEN = 8388608%N.
Proof. reflexivity. Qed.

Lemma flag_set_on : flag_set COMPRESS_FLAG = true.
Proof. reflexivity. Qed.
Lemma flag_set_off : flag_set UNCOMPRESS_FLAG = false.
Proof. reflexivity. Qed.

(** What [compress] produces, on its three branches. *)
Lemma compress_eq {E} (src : Bytes) :
  compress (E:=E) src =
    if decide (1024 ≤ length src) then
      match compress_vec src with
      | Ok res => Ret (COMPRESS_FLAG :: res)
      | Err _ => Ret (UNCOMPRESS_FLAG :: src)
      end
    else Ret (UNCOMPRESS_FLAG :: src).
Proof.
  unfold compress, message_compress, from_raw, COMPRESSION_SIZE_THRESHOLD. cbn [inner length].
  repeat case_decide; try lia; cbn [drop take app]; [|done].
  rewrite drop_0, take_0. by destruct (compress_vec src).
Qed.

(** What [decompress] does with each first byte. *)
Lemma decompress_cons (b : byte) (rest : Bytes) :
  decompress (b :: rest) =
    if flag_set b then
      match decompress_len rest with
      | Ok n =>
          if decide (MAX_UNCOMPRESSED_LEN < n)%N then Raise InvalidData
          else match snap_decompress rest (replicate (N.to_nat n) x00) with
               | (Ok _, buf) => Ret buf
               | (Err _, _) => Raise InvalidData
               end
      | Err _ => Raise InvalidData
      end
    else Ret rest.
Proof.
  unfold decompress, message_decompress, compress_flag, from_compressed, index.
  cbn [inner lookup list_lookup]. rewrite decide_False by done.
  cbn. unfold flag_set. by destruct (bool_decide _).
Qed.

Lemma decompress_flagged_ok (src res : Bytes) :
  compress_vec src = Ok res → (N.of_nat (length src) ≤ MAX_UNCOMPRESSED_LEN)%N →
  decompress (COMPRESS_FLAG :: res) = Ret src.
Proof.
  intros Hc Hle. rewrite decompress_cons.
  rewrite flag_set_on.
  rewrite (snap_announces _ _ Hc), decide_False by lia.
  rewrite Nat2N.id, (snap_inverts src res) by (rewrite ?length_replicate; done). done.
Qed.

Lemma compress_inverse {E} (src : Bytes) :
  (N.of_nat (length src) ≤ MAX_UNCOMPRESSED_LEN)%N →
  ∃ framed, compress (E:=E) src = Ret framed ∧ decompress framed = Ret src.
Proof.
  intros Hle. rewrite compress_eq.
  destruct (decide (1024 ≤ length src)); [|by eexists; split; [|rewrite decompress_cons]].
  destruct (compress_vec src) as [res|] eqn:Hc.
  - eexists; split; [done|]. by apply decompress_flagged_ok.
  - by eexists; split; [|rewrite decompress_cons].
Qed.

(** C29 (round trip). The receiver's [decompress] gives back exactly the bytes
    the sender gave to [compress], whatever branch [compress] took: every
    message of at most 8 MiB survives the framing. *)
Theorem decompress_compress {E} (src : Bytes) :
  (N.of_nat (length src) ≤ MAX_UNCOMPRESSED_LEN)%N →
  ∃ framed, compress (E:=E) src = Ret framed ∧ decompress framed = Ret src.
Proof. apply compress_inverse. Qed.

(** The size limit is exact: a longer message that the sender
    managed to compress is refused by the receiver with [InvalidData], before
    any buffer for it is allocated. *)
Lemma decompress_compress_oversized {E} (src res : Bytes) :
  (MAX_UNCOMPRESSED_LEN < N.of_nat (length src))%N →
  compress_vec src = Ok res →
  compress (E:=E) src = Ret (COMPRESS_FLAG :: res) ∧
  decompress (COMPRESS_FLAG :: res) = Raise InvalidData.
Proof.
  intros Hgt Hc. split.
  - rewrite MAX_UNCOMPRESSED_LEN_eq in Hgt.
    rewrite compress_eq, decide_True by lia. by rewrite Hc.
  - by rewrite decompress_cons, (snap_announces _ _ Hc), decide_True.
Qed.

(** C38 (safety). Bytes received from a peer never make [decompress] panic, and
    never make it return more than the larger of the 8 MiB limit and what was
    received: a compressed input cannot expand beyond [MAX_UNCOMPRESSED_LEN]. *)
Theorem decompress_bounded (input : Bytes) :
  match decompress input with
  | Ret out =>
      match input with
      | b :: rest =>
          if flag_set b then (N.of_nat (length out) ≤ MAX_UNCOMPRESSED_LEN)%N else out = rest
      | [] => False
      end
  | Raise InvalidData => True
  | Panic => False
  end.
Proof.
  destruct input as [|b rest]; [done|]. rewrite decompress_cons.
  destruct (flag_set b) eqn:Hb; [|done].
  destruct (decompress_len rest) as [n|]; [|done].
  case_decide as Hn; [done|].
  destruct (snap_decompress rest _) as [[k|e] buf] eqn:Hd; [|done].
  pose proof (snap_keeps_length rest (replicate (N.to_nat n) x00)) as Hl.
  rewrite Hd, length_replicate in Hl. simpl in Hl. lia.
Qed.

(** The first byte of a framed message says whether the rest is
    compressed, and only messages of at least 1024 bytes are ever compressed;
    a framed message is never empty. *)
Lemma compress_shape {E} (src : Bytes) :
  ∃ b rest, compress (E:=E) src = Ret (b :: rest) ∧
    if flag_set b
    then b = COMPRESS_FLAG ∧ 1024 ≤ length src ∧ compress_vec src = Ok rest
    else b = UNCOMPRESS_FLAG ∧ rest = src ∧
         (length src < 1024 ∨ ∃ e, compress_vec src = Err e).
Proof.
  rewrite compress_eq. case_decide.
  - destruct (compress_vec src) as [res|e] eqn:Hc; do 2 eexists; (split; [done|]);
      rewrite ?flag_set_on, ?flag_set_off; naive_solver.
  - do 2 eexists; split; [done|]. rewrite flag_set_off. split_and!; [done..|]. left. lia.
Qed.
End Properties.

(** ** A snap that stores its input, for the witnesses *)
Module StoredSnap.
#[global] Instance stored : Snap := {|
  snap_error := unit;
  compress_vec x := Ok x;
  decompress_len y := Ok (N.of_nat (length y));
  snap_decompress y buf :=
    if decide (length y = length buf) then (Ok (N.of_nat (length y)), y) else (Err tt, buf);
|}.
#[global] Instance stored_laws : SnapLaws.
Proof.
  split; cbn.
  - by intros x y [= ->].
  - intros x y buf [= ->] Hb. by rewrite decide_True.
  - intros y buf. by case_decide.
Defined.

(** A message of two kilobytes, on the compressing branch. *)
Definition long_message : Bytes := replicate 2048 x2a.

Lemma decompress_compress_witness :
  ∃ framed, compress (E:=Empty_set) long_message = Ret framed ∧ decompress framed = Ret long_message.
Proof. apply decompress_compress. vm_compute. discriminate. Defined.

Definition oversized_message : Bytes := replicate (N.to_nat 8388609) x2a.

Lemma decompress_compress_oversized_witness :
  compress (E:=Empty_set) oversized_message = Ret (COMPRESS_FLAG :: oversized_message) ∧
  decompress (COMPRESS_FLAG :: oversized_message) = Raise InvalidData.
Proof.
  apply decompress_compress_oversized; [|reflexivity].
  unfold oversized_message. rewrite length_replicate, N2Nat.id. reflexivity.
Defined.

Lemma decompress_bounded_witness :
  match decompress [COMPRESS_FLAG; x01; x02] with
  | Ret out =>
      if flag_set COMPRESS_FLAG then (N.of_nat (length out) ≤ MAX_UNCOMPRESSED_LEN)%N
      else out = [x01; x02]
  | Raise InvalidData => True
  | Panic => False
  end.
Proof. exact (decompress_bounded [COMPRESS_FLAG; x01; x02]). Defined.
End StoredSnap.
