(* ===== verification/Protocols.v ===== *)
(** * Protocols: src/support_protocols.rs

    The table of the p2p protocols: id, name, versions and frame limit, and the
    [MetaBuilder] that the network library is given for each. *)
From S2P Require Import Prelude.

Inductive SupportProtocols :=
| Ping | Discovery | Identify | Feeler | DisconnectMessage
| Sync | Relay | RelayV2 | Time | Alert.

#[export] Instance SupportProtocols_eq_dec : EqDecision SupportProtocols.
Proof. solve_decision. Defined.

Definition all_protocols : list SupportProtocols :=
  [Ping; Discovery; Identify; Feeler; DisconnectMessage; Sync; Relay; RelayV2; Time; Alert].

(** [usize] ids and lengths. *)
Definition protocol_id (p : SupportProtocols) : N :=
  match p with
  | Ping => 0
  | Discovery => 1
  | Identify => 2
  | Feeler => 3
  | DisconnectMessage => 4
  | Sync => 100
  | Relay => 101
  | Time => 102
  | RelayV2 => 103
  | Alert => 110
  end.

Definition name (p : SupportProtocols) : string :=
  match p with
  | Ping => "/ckb/ping"
  | Discovery => "/ckb/discovery"
  | Identify => "/ckb/identify"
  | Feeler => "/ckb/flr"
  | DisconnectMessage => "/ckb/disconnectmsg"
  | Sync => "/ckb/syn"
  | Relay => "/ckb/rel"
  | RelayV2 => "/ckb/relay"
  | Time => "/ckb/tim"
  | Alert => "/ckb/alt"
  end.

Definition support_versions (p : SupportProtocols) : list string :=
  match p with
  | Ping => ["3"]
  | Discovery => ["3"]
  | Identify => ["3"]
  | Feeler => ["3"]
  | DisconnectMessage => ["3"]
  | Sync => ["3"]
  | Relay => ["3"]
  | Time => ["3"]
  | Alert => ["3"]
  | RelayV2 => ["3"]
  end.

Definition max_frame_length (p : SupportProtocols) : N :=
  match p with
  | Ping => 1024
  | Discovery => 512 * 1024
  | Identify => 2 * 1024
  | Feeler => 1024
  | DisconnectMessage => 1024
  | Sync => 2 * 1024 * 1024
  | Relay | RelayV2 => 4 * 1024 * 1024
  | Time => 1024
  | Alert => 128 * 1024
  end.

(** What the program puts into tentacle's [MetaBuilder]: [name] is a function of
    the protocol id that ignores it, the codec is length-delimited with the
    given frame limit. [before_send] and [before_receive] are the hooks, [handler]
    the state the callback owns. *)
Record ProtocolMeta (Send Receive Handler : Type) := {
  meta_id : N;
  meta_support_versions : list string;
  meta_name : N → string;
  meta_codec_max_frame_length : N;
  meta_before_send : option Send;
  meta_before_receive : option Receive;
  meta_handler : option Handler;
}.
Arguments meta_id {_ _ _}.
Arguments meta_support_versions {_ _ _}.
Arguments meta_name {_ _ _}.
Arguments meta_codec_max_frame_length {_ _ _}.
Arguments meta_before_send {_ _ _}.
Arguments meta_before_receive {_ _ _}.
Arguments meta_handler {_ _ _}.

(** [impl From<SupportProtocols> for MetaBuilder]. *)
Definition meta_builder {S R H} (p : SupportProtocols) : ProtocolMeta S R H :=
  {| meta_id := protocol_id p;
     meta_support_versions := support_versions p;
     meta_name := λ _, name p;
     meta_codec_max_frame_length := max_frame_length p;
     meta_before_send := None;
     meta_before_receive := None;
     meta_handler := None |}.

Definition with_service_handle {S R H} (h : H) (m : ProtocolMeta S R H) : ProtocolMeta S R H :=
  {| meta_id := meta_id m;
     meta_support_versions := meta_support_versions m;
     meta_name := meta_name m;
     meta_codec_max_frame_length := meta_codec_max_frame_length m;
     meta_before_send := meta_before_send m;
     meta_before_receive := meta_before_receive m;
     meta_handler := Some h |}.

Definition with_compression {S R H} (s : S) (r : R) (m : ProtocolMeta S R H) : ProtocolMeta S R H :=
  {| meta_id := meta_id m;
     meta_support_versions := meta_support_versions m;
     meta_name := meta_name m;
     meta_codec_max_frame_length := meta_codec_max_frame_length m;
     meta_before_send := Some s;
     meta_before_receive := Some r;
     meta_handler := meta_handler m |}.

Definition build_meta_with_service_handle {S R H} (p : SupportProtocols) (h : H) :
  ProtocolMeta S R H :=
  with_service_handle h (meta_builder p).

(** ** Properties *)

Lemma elem_of_all_protocols (p : SupportProtocols) : p ∈ all_protocols.
Proof. destruct p; set_solver. Qed.

(** Dispatch on a protocol id or a protocol name is unambiguous:
    two protocols share either only if they are the same, and the metadata handed
    to the network library for a protocol carries that protocol's own id, name
    and frame limit. *)
Lemma protocol_table_injective (p q : SupportProtocols) (sent : N) :
  (protocol_id p = protocol_id q ↔ p = q) ∧ (name p = name q ↔ p = q) ∧
  let m := build_meta_with_service_handle (S:=unit) (R:=unit) p tt in
  meta_id m = protocol_id p ∧ meta_name m sent = name p ∧
  meta_codec_max_frame_length m = max_frame_length p ∧
  (1024 ≤ meta_codec_max_frame_length m ≤ 4194304)%N.
Proof. by destruct p, q. Qed.
