(* ===== verification/Network.v ===== *)
(** * Network: src/network.rs

    Conversions between multiaddresses and the endpoint records the programs
    exchange, and the boot nodes. tentacle's [Multiaddr] and bs58 are the class
    [MultiaddrLib]; the program sees an address through its [iter]. *)
From S2P Require Import Prelude RustStd RustNet Types.
From Stdlib Require Import Ascii.
From Stdlib Require Strings.Byte.
Import Strings.Byte.

(** The components of a multiaddress that the program matches on; every other
    one falls under the [_] arms. *)
Inductive Protocol :=
| Ip4 (a : Net.Ipv4Addr)
| Ip6 (a : Net.Ipv6Addr)
| Dns4 (s : string)
| Dns6 (s : string)
| P2P (key : list byte)
| Tcp (p : N)
| OtherProtocol.

Class MultiaddrLib := {
  Multiaddr : Type;
  multiaddr_error : Type;
  addr_iter : Multiaddr → list Protocol;
  addr_parse : string → result Multiaddr multiaddr_error;
  addr_try_from : list byte → result Multiaddr multiaddr_error;
  addr_to_vec : Multiaddr → list byte;
  multiaddr_to_socketaddr : Multiaddr → option (Net.IpAddr * N);
  bs58_encode : list byte → list byte;
}.

(** What the program relies on. [peer_key] are the byte strings tentacle accepts
    as a peer id; bs58 text is ASCII and has no dot; the text format is the documented one, and
    parsing it gives its components in order. *)
Class MultiaddrLaws `{MultiaddrLib} := {
  peer_key : list byte → Prop;
  bs58_ascii key : Utf8.valid (bs58_encode key);
  bs58_no_dot key : Str.has_char "." (Strings.String.string_of_list_byte (bs58_encode key)) = false;
  addr_parse_ip4 a p key :
    (p ≤ Int.u16_max)%N → peer_key key →
    ∃ m, addr_parse ("/ip4/" +:+ Net.ipv4_string a +:+ "/tcp/" +:+ pretty p +:+ "/p2p/" +:+
                     Strings.String.string_of_list_byte (bs58_encode key)) = Ok m ∧
         addr_iter m = [Ip4 a; Tcp p; P2P key];
  addr_parse_ip6 a p key :
    (p ≤ Int.u16_max)%N → peer_key key →
    ∃ m, addr_parse ("/ip6/" +:+ Net.ipv6_string a +:+ "/tcp/" +:+ pretty p +:+ "/p2p/" +:+
                     Strings.String.string_of_list_byte (bs58_encode key)) = Ok m ∧
         addr_iter m = [Ip6 a; Tcp p; P2P key];
}.

(** The literals of [get_bootnodes]. *)
Definition bootnode_literals (network : CKBNetworkType) : list string :=
  match network with
  | Mirana =>
    [ "/ip4/52.33.75.45/tcp/8124/p2p/QmPHzhEzekyjB14eQsnsVRxmymtYmAyntcfJgVYRiUq4Lb";
      "/ip4/47.110.15.57/tcp/8114/p2p/QmXS4Kbc9HEeykHUTJCm2tNmqghbvWyYpUp6BtE5b6VrAU";
      "/ip4/13.234.144.148/tcp/8114/p2p/QmbT7QimcrcD5k2znoJiWpxoESxang6z1Gy9wof1rT1LKR";
      "/ip4/104.208.105.55/tcp/8114/p2p/QmejugEABNzAofqRhci7HAipLFvoyYKRacd272jNtnQBTE";
      "/ip4/34.64.120.143/tcp/8114/p2p/QmejEJEbDcGGMp4D6WtftMMVLkR1ZuBfMgyLFDMJymkDt6";
      "/ip4/3.218.170.86/tcp/8114/p2p/QmShw2vtVt49wJagc1zGQXGS6LkQTcHxnEV3xs6y8MAmQN";
      "/ip4/35.236.107.161/tcp/8114/p2p/QmSRj57aa9sR2AiTvMyrEea8n1sEM1cDTrfb2VHVJxnGuu";
      "/ip4/23.101.191.12/tcp/8114/p2p/QmexvXVDiRt2FBGptgK4gBJusWyyTEEaHeuCAa35EPNkZS";
      "/ip4/13.37.172.80/tcp/8114/p2p/QmXJg4iKbQzMpLhX75RyDn89Mv7N2H8vLePBR7kgZf6hYk";
      "/ip4/34.118.49.255/tcp/8114/p2p/QmeCzzVmSAU5LNYAeXhdJj8TCq335aJMqUxcvZXERBWdgS";
      "/ip4/40.115.75.216/tcp/8114/p2p/QmW3P1WYtuz9hitqctKnRZua2deHXhNePNjvtc9Qjnwp4q" ]
  | Pudge =>
    [ "/ip4/47.111.169.36/tcp/8111/p2p/QmNQ4jky6uVqLDrPU7snqxARuNGWNLgSrTnssbRuy3ij2W";
      "/ip4/35.176.207.239/tcp/8111/p2p/QmSJTsMsMGBjzv1oBNwQU36VhQRxc2WQpFoRu1ZifYKrjZ";
      "/ip4/18.136.60.221/tcp/8111/p2p/QmTt6HeNakL8Fpmevrhdna7J4NzEMf9pLchf1CXtmtSrwb";
      "/ip4/47.74.66.72/tcp/8111/p2p/QmPhgweKm2ciYq52LjtEDmKFqHxGcg2WQ8RLCayRRycanD";
      "/ip4/47.254.175.152/tcp/8111/p2p/QmXw7RsAR9bghvW4LrjrVBEwTMbdnpTEdWEtZSVQFpUgqU";
      "/ip4/47.245.29.58/tcp/8111/p2p/QmYWiwxHasuyou5ztw5uQkHbhm6gs6RB84sbgYxZNGHgaW";
      "/ip4/47.254.234.14/tcp/8111/p2p/QmfUJGvgXRTM12rSFScXy9GyD3ssuLVSpvscP5nngbhNbU";
      "/ip4/47.89.252.15/tcp/8111/p2p/QmRcUV32qumGrhkTXCWXrMhwGZLKZTmuFzLWacMpSZJ3n9";
      "/ip4/39.104.177.87/tcp/8111/p2p/QmQ27jbnww6deXQiv7SmYAUBPA1S3vGcqP9aRsXa4VaXEi";
      "/ip4/13.228.149.113/tcp/8111/p2p/QmQoTR39rBkpZVgLApDGDoFnJ2YDBS9hYeiib1Z6aoAdEf" ]
  | Dev =>
    [ "/ip4/127.0.0.1/tcp/8114" ]
  end.

Fixpoint find_map {A B} (f : A → option B) (l : list A) : option B :=
  match l with
  | [] => None
  | x :: l => match f x with Some y => Some y | None => find_map f l end
  end.

Section Network.
Context `{MultiaddrLib}.

(** [.map(|x| x.parse().unwrap()).collect()] *)
Fixpoint parse_all {E} (l : list string) : outcome E (list Multiaddr) :=
  match l with
  | [] => Ret []
  | x :: l =>
      match addr_parse x with
      | Ok m => rest ← parse_all l; Ret (m :: rest)
      | Err _ => Panic
      end
  end.

Definition get_bootnodes {E} (network : CKBNetworkType) : outcome E (list Multiaddr) :=
  parse_all (bootnode_literals network).

Definition addr_to_ip {E} (addr : Multiaddr) : outcome E string :=
  match find_map (λ protocol,
          match protocol with
          | Ip4 ip4 => Some (Net.ipv4_string ip4)
          | Ip6 ip6 =>
              match Net.ipv4_string <$> Net.to_ipv4 ip6 with
              | Some s => Some s
              | None => Some (Net.ipv6_string ip6)
              end
          | Dns4 dns4 => Some dns4
          | Dns6 dns6 => Some dns6
          | _ => None
          end) (addr_iter addr)
  with
  | Some s => Ret s
  | None =>
      match multiaddr_to_socketaddr addr with
      | Some (ip, _) => Ret (Net.ip_string ip)
      | None => Panic
      end
  end.

(** The loop state of [addr_to_node_meta]: (peer_id, port, address). *)
Definition node_meta_step (st : string * N * Net.IpAddr) (protocol : Protocol) :
  string * N * Net.IpAddr :=
  let '(peer_id, port, address) := st in
  match protocol with
  | Ip4 addr => (peer_id, port, Net.V4 addr)
  | Ip6 addr => (peer_id, port, Net.V6 addr)
  | P2P p2p => (Utf8.from_utf8_lossy (bs58_encode p2p), port, address)
  | Tcp p => (peer_id, p, address)
  | _ => (peer_id, port, address)
  end.

Definition addr_to_node_meta (addr : Multiaddr) (network : CKBNetworkType) : NodeMetaInfo :=
  let '(peer_id, port, address) :=
    fold_left node_meta_step (addr_iter addr) ("", 0%N, Net.V4 Net.localhost) in
  {| peer_id := peer_id;
     addresses := [{| address := address; port := port |}];
     network := network |}.

Definition endpoint_step (st : N * Net.IpAddr) (protocol : Protocol) : N * Net.IpAddr :=
  let '(port, address) := st in
  match protocol with
  | Ip4 addr => (port, Net.V4 addr)
  | Ip6 addr => (port, Net.V6 addr)
  | Tcp p => (p, address)
  | _ => (port, address)
  end.

Definition addr_to_endpoint (addr : Multiaddr) : EndpointInfo :=
  let '(port, address) :=
    fold_left endpoint_step (addr_iter addr) (0%N, Net.V4 Net.localhost) in
  {| address := address; port := port |}.

Definition endpoint_text (peer_id : string) (x : EndpointInfo) : string :=
  match address x with
  | Net.V4 addr =>
      "/ip4/" +:+ Net.ipv4_string addr +:+ "/tcp/" +:+ pretty (port x) +:+ "/p2p/" +:+ peer_id
  | Net.V6 addr =>
      "/ip6/" +:+ Net.ipv6_string addr +:+ "/tcp/" +:+ pretty (port x) +:+ "/p2p/" +:+ peer_id
  end.

Definition meta_info_to_addr (meta : NodeMetaInfo) : list (result Multiaddr multiaddr_error) :=
  omap (λ x,
    if Net.is_loopback (address x) then None
    else Some (addr_parse (endpoint_text (peer_id meta) x))) (addresses meta).
End Network.

(** ** Properties *)

Definition protocol_ip (p : Protocol) : option Net.IpAddr :=
  match p with Ip4 a => Some (Net.V4 a) | Ip6 a => Some (Net.V6 a) | _ => None end.
Definition protocol_port (p : Protocol) : option N :=
  match p with Tcp p => Some p | _ => None end.
Definition protocol_of_ip (a : Net.IpAddr) : Protocol :=
  match a with Net.V4 a => Ip4 a | Net.V6 a => Ip6 a end.

(** A peer can be dialled at an endpoint unless it is the dialer itself. *)
Definition dialable (x : EndpointInfo) : Prop := Net.is_loopback (address x) = false.
#[export] Instance dialable_dec x : Decision (dialable x).
Proof. unfold dialable. apply _. Defined.

Section NetworkProperties.
Context `{MultiaddrLaws}.

Definition peer_text (key : list byte) : string :=
  Strings.String.string_of_list_byte (bs58_encode key).

Definition protocol_peer (p : Protocol) : option string :=
  match p with P2P key => Some (peer_text key) | _ => None end.

Lemma lossy_bs58 key : Utf8.from_utf8_lossy (bs58_encode key) = peer_text key.
Proof. apply Utf8.from_utf8_lossy_valid, bs58_ascii. Qed.

Lemma endpoint_fold (l : list Protocol) :
  fold_left endpoint_step l (0%N, Net.V4 Net.localhost) =
    (default 0%N (last (omap protocol_port l)),
     default (Net.V4 Net.localhost) (last (omap protocol_ip l))).
Proof.
  induction l as [|p l IH] using rev_ind; [done|].
  rewrite fold_left_app, IH, !omap_app. cbn.
  by destruct p; cbn; rewrite ?last_snoc, ?app_nil_r.
Qed.

Lemma node_meta_fold (l : list Protocol) :
  fold_left node_meta_step l ("", 0%N, Net.V4 Net.localhost) =
    (default "" (last (omap protocol_peer l)),
     default 0%N (last (omap protocol_port l)),
     default (Net.V4 Net.localhost) (last (omap protocol_ip l))).
Proof.
  induction l as [|p l IH] using rev_ind; [done|].
  rewrite fold_left_app, IH, !omap_app. cbn.
  by destruct p; cbn; rewrite ?lossy_bs58, ?last_snoc, ?app_nil_r.
Qed.

Lemma addr_to_endpoint_eq addr :
  addr_to_endpoint addr =
    {| address := default (Net.V4 Net.localhost) (last (omap protocol_ip (addr_iter addr)));
       port := default 0%N (last (omap protocol_port (addr_iter addr))) |}.
Proof. unfold addr_to_endpoint. by rewrite endpoint_fold. Qed.

Lemma addr_to_node_meta_read addr network :
  addr_to_node_meta addr network =
    {| peer_id := default "" (last (omap protocol_peer (addr_iter addr)));
       addresses := [addr_to_endpoint addr];
       network := network |}.
Proof. unfold addr_to_node_meta. by rewrite node_meta_fold, addr_to_endpoint_eq. Qed.

(** [addr_to_node_meta] and [addr_to_endpoint] read the same
    endpoint out of an address: its last IP component (127.0.0.1 when there is
    none) and its last TCP port (0 when there is none); the peer id is the
    base58 text of the last [p2p] component, the empty string without one. *)
Lemma addr_to_node_meta_eq addr network :
  addr_to_node_meta addr network =
    {| peer_id := default "" (last (omap protocol_peer (addr_iter addr)));
       addresses := [addr_to_endpoint addr];
       network := network |} ∧
  addr_to_endpoint addr =
    {| address := default (Net.V4 Net.localhost) (last (omap protocol_ip (addr_iter addr)));
       port := default 0%N (last (omap protocol_port (addr_iter addr))) |}.
Proof. split; [apply addr_to_node_meta_read|apply addr_to_endpoint_eq]. Qed.

(** One endpoint: its text parses to an address with exactly its components. *)
Lemma endpoint_text_parses key (x : EndpointInfo) :
  peer_key key → (port x ≤ Int.u16_max)%N →
  ∃ m, addr_parse (endpoint_text (peer_text key) x) = Ok m ∧
       addr_iter m = [protocol_of_ip (address x); Tcp (port x); P2P key].
Proof.
  intros Hk Hp. unfold endpoint_text. destruct (address x) as [a|a].
  - by apply addr_parse_ip4.
  - by apply addr_parse_ip6.
Qed.

Lemma addr_to_node_meta_components m x key network :
  addr_iter m = [protocol_of_ip (address x); Tcp (port x); P2P key] →
  addr_to_node_meta m network =
    {| peer_id := peer_text key; addresses := [x]; network := network |}.
Proof.
  intros Hm. unfold addr_to_node_meta. rewrite node_meta_fold, Hm.
  by destruct x as [[a|a] p].
Qed.

(** Every address a dialer gets for a peer reads back as that peer. *)
Lemma dialed_reads_back key (meta : NodeMetaInfo) m n :
  peer_key key → peer_id meta = peer_text key →
  Forall (λ x, (port x ≤ Int.u16_max)%N) (addresses meta) →
  Ok m ∈ meta_info_to_addr meta →
  ∃ x, x ∈ addresses meta ∧ dialable x ∧
    addr_to_node_meta m n = {| peer_id := peer_id meta; addresses := [x]; network := n |}.
Proof.
  intros Hk Hid Hp Hm. unfold meta_info_to_addr in Hm.
  apply list_elem_of_omap in Hm as (x & Hx & Hm). destruct (Net.is_loopback (address x)) eqn:Hl; [done|].
  rewrite Forall_forall in Hp. destruct (endpoint_text_parses key x Hk (Hp x Hx)) as (m' & Hparse & Hit).
  rewrite Hid, Hparse in Hm. injection Hm as ->. exists x. split_and!; [done..|].
  rewrite Hid. by apply addr_to_node_meta_components.
Qed.

Lemma meta_info_reads_back key (meta : NodeMetaInfo) :
  peer_key key → peer_id meta = peer_text key →
  Forall (λ x, (port x ≤ Int.u16_max)%N) (addresses meta) →
  ∃ addrs, meta_info_to_addr meta = map Ok addrs ∧
    map (λ m, addr_to_node_meta m (network meta)) addrs =
    map (λ x, {| peer_id := peer_id meta; addresses := [x]; network := network meta |})
        (filter dialable (addresses meta)).
Proof.
  intros Hk Hid. unfold meta_info_to_addr. rewrite Hid.
  induction (addresses meta) as [|x l IH]; intros Hp; [by exists []|].
  apply Forall_cons in Hp as [Hx Hl]. destruct (IH Hl) as (addrs & Heq & Hmap).
  cbn. rewrite Heq. destruct (Net.is_loopback (address x)) eqn:Hb.
  - exists addrs. split; [done|].
    by rewrite decide_False by (unfold dialable; congruence).
  - destruct (endpoint_text_parses key x Hk Hx) as (m & -> & Hm).
    exists (m :: addrs). split; [done|].
    rewrite decide_True by done. cbn.
    by rewrite (addr_to_node_meta_components _ _ _ _ Hm), Hmap.
Qed.

(** C28 (round trip). What a dialer is told about a peer is enough to dial it:
    from a record whose peer id is a valid key, [meta_info_to_addr] yields one
    well-formed address per non-loopback endpoint, in order, and reading each
    back with [addr_to_node_meta] gives that endpoint and the same peer id. *)
Theorem meta_info_round_trip key (meta : NodeMetaInfo) :
  peer_key key → peer_id meta = peer_text key →
  Forall (λ x, (port x ≤ Int.u16_max)%N) (addresses meta) →
  ∃ addrs, meta_info_to_addr meta = map Ok addrs ∧
    map (λ m, addr_to_node_meta m (network meta)) addrs =
    map (λ x, {| peer_id := peer_id meta; addresses := [x]; network := network meta |})
        (filter dialable (addresses meta)).
Proof. apply meta_info_reads_back. Qed.

(** The dialer is never sent to itself: the record of an address
    whose last IP component is loopback, or that has no IP component at all
    (a DNS address is recorded as 127.0.0.1), yields nothing to dial; any
    other address yields exactly one. *)
Lemma loopback_never_dialed addr network :
  length (meta_info_to_addr (addr_to_node_meta addr network)) =
    match last (omap protocol_ip (addr_iter addr)) with
    | Some ip => if Net.is_loopback ip then 0 else 1
    | None => 0
    end.
Proof.
  unfold meta_info_to_addr, addr_to_node_meta. rewrite node_meta_fold.
  cbn. destruct (last (omap protocol_ip (addr_iter addr))) as [ip|]; [|done].
  cbn. by destruct (Net.is_loopback ip).
Qed.
End NetworkProperties.

(** ** A multiaddress library over component lists, for the witnesses

    Its texts are the documented ones; a peer key is its own text, made of ASCII
    characters other than the slash and the dot. *)
Module TextAddr.
Definition plain (key : list byte) : Prop :=
  Forall (λ b, to_N b ≤ 127)%N key ∧
  Str.has_char "/" (Strings.String.string_of_list_byte key) = false ∧
  Str.has_char "." (Strings.String.string_of_list_byte key) = false.
#[global] Instance plain_dec key : Decision (plain key).
Proof. unfold plain. apply _. Defined.

Definition read_addr (ip : option Protocol) (p k : string) : result (list Protocol) unit :=
  match ip, Int.parse_u64 p with
  | Some ip, Some n =>
      if decide (n ≤ Int.u16_max)%N
      then Ok [ip; Tcp n; P2P (Strings.String.list_byte_of_string k)] else Err tt
  | _, _ => Err tt
  end.

Definition text_parse (s : string) : result (list Protocol) unit :=
  match Str.split "/" s with
  | [""; "ip4"; a; "tcp"; p; "p2p"; k] => read_addr (Ip4 <$> Net.parse_ipv4 a) p k
  | [""; "ip6"; a; "tcp"; p; "p2p"; k] => read_addr (Ip6 <$> Net.parse_ipv6 a) p k
  | _ => Err tt
  end.

Definition text_encode (key : list byte) : list byte :=
  if decide (plain key) then key else [].

#[global] Instance text_addr : MultiaddrLib := {|
  Multiaddr := list Protocol;
  multiaddr_error := unit;
  addr_iter a := a;
  addr_parse := text_parse;
  addr_try_from b := text_parse (Strings.String.string_of_list_byte b);
  addr_to_vec _ := [];
  multiaddr_to_socketaddr _ := None;
  bs58_encode := text_encode;
|}.

Lemma ascii_valid l : Forall (λ b, to_N b ≤ 127)%N l → Utf8.valid l.
Proof.
  induction 1 as [|b l Hb Hl IH]; [constructor|].
  apply Utf8.valid_char with 1; [done| |done]. unfold Utf8.scan, Utf8.between.
  rewrite bool_decide_eq_true_2 by lia. done.
Qed.

Lemma split_slash s1 s2 :
  Str.has_char "/" s1 = false → Str.split "/" (s1 +:+ "/" +:+ s2) = s1 :: Str.split "/" s2.
Proof. intros H1. by rewrite Str.split_sep, Str.split_none. Qed.

Lemma text_parse_spec kind proto a p key :
  (kind = "ip4" ∧ ∃ ip, a = Net.ipv4_string ip ∧ proto = Ip4 ip) ∨
  (kind = "ip6" ∧ ∃ ip, a = Net.ipv6_string ip ∧ proto = Ip6 ip) →
  (p ≤ Int.u16_max)%N → plain key →
  text_parse ("/" +:+ kind +:+ "/" +:+ a +:+ "/tcp/" +:+ pretty p +:+ "/p2p/" +:+
              Strings.String.string_of_list_byte (text_encode key)) =
    Ok [proto; Tcp p; P2P key].
Proof.
  intros Hkind Hp Hkey.
  assert (Str.has_char "/" kind = false) as Hk by by destruct Hkind as [[-> _]|[-> _]].
  assert (Str.has_char "/" a = false) as Ha.
  { destruct Hkind as [(_ & ip & -> & _)|(_ & ip & -> & _)];
      [by apply Net.ipv4_string_char|by apply Net.ipv6_string_char]. }
  unfold text_encode. rewrite decide_True by done. destruct Hkey as (_ & Hslash & _).
  change (text_parse ("" +:+ "/" +:+ kind +:+ "/" +:+ a +:+ "/" +:+ "tcp" +:+ "/" +:+
    pretty p +:+ "/" +:+ "p2p" +:+ "/" +:+ Strings.String.string_of_list_byte key) =
    Ok [proto; Tcp p; P2P key]).
  unfold text_parse. rewrite !split_slash by (done || by apply Int.pretty_char).
  rewrite Str.split_none by done. unfold read_addr.
  assert (Int.u16_max ≤ Int.u64_max)%N by done.
  destruct Hkind as [(-> & ip & -> & ->)|(-> & ip & -> & ->)];
    rewrite ?Net.parse_ipv4_string, ?Net.parse_ipv6_string; cbn;
    rewrite Int.parse_u64_pretty, decide_True by (try etrans; done);
    by rewrite Strings.String.list_byte_of_string_of_list_byte.
Qed.

#[global] Instance text_addr_laws : MultiaddrLaws.
Proof.
  refine {| peer_key := plain |}.
  - intros key. cbn. unfold text_encode. case_decide as Hk; [|constructor].
    apply ascii_valid, Hk.
  - intros key. cbn. unfold text_encode. case_decide as Hk; [|done]. apply Hk.
  - intros a p key Hp Hk. exists [Ip4 a; Tcp p; P2P key]. split; [|done].
    apply (text_parse_spec "ip4"); eauto.
  - intros a p key Hp Hk. exists [Ip6 a; Tcp p; P2P key]. split; [|done].
    apply (text_parse_spec "ip6"); eauto.
Defined.

Definition bootnode : list Protocol :=
  default [] (ok (text_parse "/ip4/52.33.75.45/tcp/8124/p2p/QmPHzhEzekyjB14eQsnsVRxmymtYmAyntcfJgVYRiUq4Lb")).

Definition bootnode_meta : NodeMetaInfo := addr_to_node_meta bootnode Mirana.

Lemma addr_to_node_meta_eq_witness :
  bootnode_meta =
    {| peer_id := default "" (last (omap protocol_peer bootnode));
       addresses := [addr_to_endpoint bootnode];
       network := Mirana |} ∧
  addr_to_endpoint bootnode =
    {| address := default (Net.V4 Net.localhost) (last (omap protocol_ip bootnode));
       port := default 0%N (last (omap protocol_port bootnode)) |}.
Proof. exact (addr_to_node_meta_eq bootnode Mirana). Defined.

Definition bootnode_key : list byte :=
  Strings.String.list_byte_of_string "QmPHzhEzekyjB14eQsnsVRxmymtYmAyntcfJgVYRiUq4Lb".

(** A peer known at the boot node's endpoint, at loopback and at an IPv6 endpoint. *)
Definition known_peer : NodeMetaInfo :=
  {| peer_id := peer_text bootnode_key;
     addresses :=
       addresses bootnode_meta ++
       [ {| address := Net.V4 Net.localhost; port := 8114 |};
         {| address := Net.V6 (Net.Segments6 (x20, x01) (x0d, xb8) (x00, x00) (x00, x00)
                                 (x00, x00) (x00, x00) (x00, x00) (x00, x02));
            port := 8115 |} ];
     network := Pudge |}.

Lemma meta_info_round_trip_witness :
  ∃ addrs, meta_info_to_addr known_peer = map Ok addrs ∧
    map (λ m, addr_to_node_meta m (network known_peer)) addrs =
    map (λ x, {| peer_id := peer_id known_peer; addresses := [x]; network := network known_peer |})
        (filter dialable (addresses known_peer)).
Proof.
  apply (meta_info_round_trip bootnode_key).
  - apply (bool_decide_unpack _). vm_compute. exact I.
  - reflexivity.
  - apply (bool_decide_unpack _). vm_compute. exact I.
Defined.

Lemma loopback_never_dialed_witness :
  length (meta_info_to_addr bootnode_meta) =
    match last (omap protocol_ip bootnode) with
    | Some ip => if Net.is_loopback ip then 0 else 1
    | None => 0
    end.
Proof. exact (loopback_never_dialed bootnode Mirana). Defined.
End TextAddr.
