(* ===== verification/Redis.v ===== *)
(** * Redis: the database that marci writes and exposed reads

    The redis crate and the server behind it are not part of the program: they
    are the class [Redis], one operation per command the program sends. The
    documented effect of each command is a field of [RedisLaws], over a view of
    the server as a finite map from keys to values with their time to live. *)
From S2P Require Import Prelude RustStd.
From Stdlib Require Import Ascii.

(** A value and the seconds it still has, if it expires. *)
Inductive value := RStr (s : string) | RSet (s : gset string).
Record entry := Entry { e_value : value; e_ttl : option N }.

Abbreviation store := (gmap string entry).

#[export] Instance value_eq_dec : EqDecision value.
Proof. solve_decision. Defined.
#[export] Instance entry_eq_dec : EqDecision entry.
Proof. solve_decision. Defined.

(** The commands, on the state [R] of the server and the connection. [arg_*] are
    redis-rs's [ToRedisArgs], [from_*] its [FromRedisValue] on a bulk string,
    [type_error] what it answers when the conversion fails. *)
Class Redis (R : Type) := {
  redis_error : Type;
  type_error : redis_error;
  redis_get : string → R → result (option string) redis_error * R;
  redis_set : string → string → R → result unit redis_error * R;
  redis_set_ex : string → string → N → R → result unit redis_error * R;
  redis_expire : string → N → R → result unit redis_error * R;
  redis_del : string → R → result unit redis_error * R;
  redis_sadd : string → string → R → result unit redis_error * R;
  redis_scard : string → R → result N redis_error * R;
  redis_smembers : string → R → result (list string) redis_error * R;
  redis_keys : string → R → result (list string) redis_error * R;
  arg_u64 : N → string;
  from_u64 : string → option N;
  arg_bool : bool → string;
  from_bool : string → option bool;
}.
Arguments redis_error R {_}.

(** ** The effect of the commands on the stored map *)
Definition put (k v : string) (m : store) : store := <[k := Entry (RStr v) None]> m.
Definition put_ex (k v : string) (t : N) (m : store) : store :=
  <[k := Entry (RStr v) (Some t)]> m.
Definition touch (k : string) (t : N) (m : store) : store :=
  alter (λ e, Entry (e_value e) (Some t)) k m.
Definition add_member (k x : string) (m : store) : store :=
  match m !! k with
  | Some (Entry (RSet s) t) => <[k := Entry (RSet ({[x]} ∪ s)) t]> m
  | Some (Entry (RStr _) _) => m
  | None => <[k := Entry (RSet {[x]}) None]> m
  end.

(** Reading a string, a set. *)
Definition str_at (m : store) (k : string) : option string :=
  match m !! k with Some (Entry (RStr v) _) => Some v | _ => None end.
Definition set_at (m : store) (k : string) : gset string :=
  match m !! k with Some (Entry (RSet s) _) => s | _ => ∅ end.
Definition is_str (m : store) (k : string) : Prop :=
  match m !! k with Some (Entry (RStr _) _) => True | _ => False end.
Definition is_set (m : store) (k : string) : Prop :=
  match m !! k with Some (Entry (RSet _) _) => True | _ => False end.

#[export] Instance is_str_dec m k : Decision (is_str m k).
Proof. unfold is_str. destruct (m !! k) as [[[] ?]|]; apply _. Defined.
#[export] Instance is_set_dec m k : Decision (is_set m k).
Proof. unfold is_set. destruct (m !! k) as [[[] ?]|]; apply _. Defined.

(** Text without the special characters of a KEYS pattern. *)
Definition glob_plain (s : string) : Prop :=
  Str.has_char "*" s = false ∧ Str.has_char "?" s = false ∧
  Str.has_char "[" s = false ∧ Str.has_char "\" s = false.
#[export] Instance glob_plain_dec s : Decision (glob_plain s).
Proof. unfold glob_plain. apply _. Defined.

(** [f] answers [Q] on a server that is up, and leaves it up. *)
Definition answers {R A E} (up : R → Prop) (view : R → store)
    (f : R → result A E * R) (Q : store → result A E → store → Prop) : Prop :=
  ∀ s, up s → ∃ r s', f s = (r, s') ∧ up s' ∧ Q (view s) r (view s').

(** The documented behaviour. A server that is [up] is reachable and answers;
    [ttl_max] is the longest time to live it accepts. *)
Class RedisLaws (R : Type) `{Redis R} := {
  up : R → Prop;
  view : R → store;
  ttl_max : N;
  ttl_max_i64 : (ttl_max ≤ Int.i64_max)%N;
  get_law k :
    answers up view (redis_get k) (λ m r m', m' = m ∧
      match m !! k with
      | None => r = Ok None
      | Some (Entry (RStr v) _) => r = Ok (Some v)
      | Some (Entry (RSet _) _) => ∃ e, r = Err e
      end);
  set_law k v : answers up view (redis_set k v) (λ m r m', r = Ok tt ∧ m' = put k v m);
  set_ex_law k v t :
    (0 < t ≤ ttl_max)%N →
    answers up view (redis_set_ex k v t) (λ m r m', r = Ok tt ∧ m' = put_ex k v t m);
  expire_law k t :
    (0 < t ≤ ttl_max)%N →
    answers up view (redis_expire k t) (λ m r m', r = Ok tt ∧ m' = touch k t m);
  del_law k : answers up view (redis_del k) (λ m r m', r = Ok tt ∧ m' = delete k m);
  sadd_law k x :
    answers up view (redis_sadd k x) (λ m r m', m' = add_member k x m ∧
      if decide (is_str m k) then ∃ e, r = Err e else r = Ok tt);
  scard_law k :
    answers up view (redis_scard k) (λ m r m', m' = m ∧
      if decide (is_str m k) then ∃ e, r = Err e
      else r = Ok (N.of_nat (size (set_at m k))));
  smembers_law k :
    answers up view (redis_smembers k) (λ m r m', m' = m ∧
      if decide (is_str m k) then ∃ e, r = Err e
      else ∃ l, r = Ok l ∧ NoDup l ∧ ∀ x, x ∈ l ↔ x ∈ set_at m k);
  keys_star_law before after :
    glob_plain before → glob_plain after →
    answers up view (redis_keys (before +:+ "*" +:+ after)) (λ m r m', m' = m ∧
      ∃ l, r = Ok l ∧ NoDup l ∧
        ∀ k, k ∈ l ↔ k ∈ dom m ∧ ∃ x, k = before +:+ x +:+ after);
  keys_literal_law pat :
    glob_plain pat →
    answers up view (redis_keys pat) (λ m r m', m' = m ∧
      r = Ok (if decide (pat ∈ dom m) then [pat] else []));
  keys_reads pat : answers up view (redis_keys pat) (λ m _ m', m' = m);
  u64_law n : (n ≤ Int.u64_max)%N → from_u64 (arg_u64 n) = Some n;
  bool_law b : from_bool (arg_bool b) = Some b;
}.

(** Time passes on the server: what expires may go, the rest stays. *)
Definition expires_to (m m' : store) : Prop :=
  ∀ k, match m !! k with
       | None => m' !! k = None
       | Some (Entry v None) => m' !! k = Some (Entry v None)
       | Some (Entry v (Some t)) =>
           m' !! k = None ∨ ∃ t', (0 < t' ≤ t)%N ∧ m' !! k = Some (Entry v (Some t'))
       end.

(** ** The connection's methods, with the conversion the call site asks for *)
Section Connection.
Context {R W E : Type} `{Redis R} `{Lens W R}.

(** [con.get::<_, T>(k)]: a missing key is an error at [String] and [u64]. *)
Definition con_get_with {A} (convert : option string → option A) (k : string) :
  comp W E (result A (redis_error R)) :=
  r ← call (redis_get k);
  mret (match r with
        | Ok v => match convert v with Some a => Ok a | None => Err type_error end
        | Err e => Err e
        end).

Definition con_get_string : string → comp W E (result string (redis_error R)) :=
  con_get_with id.
Definition con_get_option_string : string → comp W E (result (option string) (redis_error R)) :=
  con_get_with Some.
Definition con_get_u64 : string → comp W E (result N (redis_error R)) :=
  con_get_with (λ v, v ≫= from_u64).
Definition con_get_option_bool : string → comp W E (result (option bool) (redis_error R)) :=
  con_get_with (λ v, match v with None => Some None | Some v => Some <$> from_bool v end).

Definition con_set (k v : string) : comp W E (result unit (redis_error R)) := call (redis_set k v).
Definition con_set_ex (k v : string) (t : N) : comp W E (result unit (redis_error R)) :=
  call (redis_set_ex k v t).
Definition con_expire (k : string) (t : N) : comp W E (result unit (redis_error R)) :=
  call (redis_expire k t).
Definition con_del (k : string) : comp W E (result unit (redis_error R)) := call (redis_del k).
Definition con_sadd (k x : string) : comp W E (result unit (redis_error R)) := call (redis_sadd k x).
Definition con_scard (k : string) : comp W E (result N (redis_error R)) := call (redis_scard k).
Definition con_smembers (k : string) : comp W E (result (list string) (redis_error R)) :=
  call (redis_smembers k).
Definition con_keys (pat : string) : comp W E (result (list string) (redis_error R)) :=
  call (redis_keys pat).
End Connection.

(** ** Symbolic execution of the methods on a server that follows the laws *)
Section Rules.
Context {R W E : Type} `{RedisLaws R} `{Lens W R}.
Implicit Types (w : W) (k : string).

Lemma runs_answers {A} (f : R → result A (redis_error R) * R) P w (Q : _ → W → Prop) :
  answers up view f P → up (lget w) →
  (∀ r s', up s' → P (view (lget w)) r (view s') → Q r (lset s' w)) →
  runs (E:=E) (call f) w Q.
Proof.
  intros Hf Hup HQ. destruct (Hf _ Hup) as (r & s' & Heq & Hup' & HP).
  eapply runs_call; [exact Heq|]. by apply HQ.
Qed.

Lemma runs_get_with {A} (convert : option string → option A) k w (Q : _ → W → Prop) :
  up (lget w) →
  (∀ r s', up s' → view s' = view (lget w) →
     ok r = match view (lget w) !! k with
            | None => convert None
            | Some (Entry (RStr v) _) => convert (Some v)
            | Some (Entry (RSet _) _) => None
            end → Q r (lset s' w)) →
  runs (E:=E) (con_get_with convert k) w Q.
Proof.
  intros Hup HQ. unfold con_get_with. apply runs_bind.
  eapply runs_answers; [apply get_law|done|]. intros r s' Hup' [Hv Hr].
  apply runs_ret. apply HQ; [done..|].
  destruct (view (lget w) !! k) as [[[v|l] t]|]; [| destruct Hr as [e Hr]|]; subst r; [|done|];
    by destruct (convert _).
Qed.

Lemma runs_get_string k w (Q : _ → W → Prop) :
  up (lget w) →
  (∀ r s', up s' → view s' = view (lget w) → ok r = str_at (view (lget w)) k → Q r (lset s' w)) →
  runs (E:=E) (con_get_string k) w Q.
Proof.
  intros Hup HQ. apply runs_get_with; [done|]. intros r s' Hup' Hv Hr. apply HQ; [done..|].
  rewrite Hr. unfold str_at. by destruct (_ !! k) as [[[] ?]|].
Qed.

Lemma runs_get_option_string k w (Q : _ → W → Prop) :
  up (lget w) →
  (∀ r s', up s' → view s' = view (lget w) →
     unwrap_or None r = str_at (view (lget w)) k → Q r (lset s' w)) →
  runs (E:=E) (con_get_option_string k) w Q.
Proof.
  intros Hup HQ. apply runs_get_with; [done|]. intros r s' Hup' Hv Hr. apply HQ; [done..|].
  unfold str_at. by destruct (_ !! k) as [[[] ?]|], r; simplify_eq/=.
Qed.

Lemma runs_get_u64 k w (Q : _ → W → Prop) :
  up (lget w) →
  (∀ r s', up s' → view s' = view (lget w) →
     ok r = str_at (view (lget w)) k ≫= from_u64 → Q r (lset s' w)) →
  runs (E:=E) (con_get_u64 k) w Q.
Proof.
  intros Hup HQ. apply runs_get_with; [done|]. intros r s' Hup' Hv Hr. apply HQ; [done..|].
  rewrite Hr. unfold str_at. by destruct (_ !! k) as [[[] ?]|].
Qed.

Lemma runs_get_option_bool k w (Q : _ → W → Prop) :
  up (lget w) →
  (∀ r s', up s' → view s' = view (lget w) →
     unwrap_or None r = str_at (view (lget w)) k ≫= from_bool → Q r (lset s' w)) →
  runs (E:=E) (con_get_option_bool k) w Q.
Proof.
  intros Hup HQ. apply runs_get_with; [done|]. intros r s' Hup' Hv Hr. apply HQ; [done..|].
  unfold str_at. destruct (_ !! k) as [[[v|] ?]|]; cbn in *.
  - destruct (from_bool v); destruct r; by simplify_eq/=.
  - by destruct r; simplify_eq/=.
  - by destruct r; simplify_eq/=.
Qed.

Lemma runs_set k v w (Q : _ → W → Prop) :
  up (lget w) →
  (∀ s', up s' → view s' = put k v (view (lget w)) → Q (Ok tt) (lset s' w)) →
  runs (E:=E) (con_set k v) w Q.
Proof. intros Hup HQ. eapply runs_answers; [apply set_law|done|]. intros r s' ? [-> ?]. by apply HQ. Qed.

Lemma runs_set_ex k v t w (Q : _ → W → Prop) :
  up (lget w) → (0 < t ≤ ttl_max)%N →
  (∀ s', up s' → view s' = put_ex k v t (view (lget w)) → Q (Ok tt) (lset s' w)) →
  runs (E:=E) (con_set_ex k v t) w Q.
Proof. intros Hup Ht HQ. eapply runs_answers; [by apply set_ex_law|done|]. intros r s' ? [-> ?]. by apply HQ. Qed.

Lemma runs_expire k t w (Q : _ → W → Prop) :
  up (lget w) → (0 < t ≤ ttl_max)%N →
  (∀ s', up s' → view s' = touch k t (view (lget w)) → Q (Ok tt) (lset s' w)) →
  runs (E:=E) (con_expire k t) w Q.
Proof. intros Hup Ht HQ. eapply runs_answers; [by apply expire_law|done|]. intros r s' ? [-> ?]. by apply HQ. Qed.

Lemma runs_del k w (Q : _ → W → Prop) :
  up (lget w) →
  (∀ s', up s' → view s' = delete k (view (lget w)) → Q (Ok tt) (lset s' w)) →
  runs (E:=E) (con_del k) w Q.
Proof. intros Hup HQ. eapply runs_answers; [apply del_law|done|]. intros r s' ? [-> ?]. by apply HQ. Qed.

Lemma runs_sadd k x w (Q : _ → W → Prop) :
  up (lget w) → ¬ is_str (view (lget w)) k →
  (∀ s', up s' → view s' = add_member k x (view (lget w)) → Q (Ok tt) (lset s' w)) →
  runs (E:=E) (con_sadd k x) w Q.
Proof.
  intros Hup Hk HQ. eapply runs_answers; [apply sadd_law|done|].
  intros r s' Hup' [Hv Hr]. rewrite decide_False in Hr by done. subst r. by apply HQ.
Qed.

Lemma set_at_str (m : store) k : is_str m k → set_at m k = ∅.
Proof. unfold is_str, set_at. by destruct (m !! k) as [[[] ?]|]. Qed.

Lemma runs_scard k w (Q : _ → W → Prop) :
  up (lget w) →
  (∀ r s', up s' → view s' = view (lget w) →
     unwrap_or 0%N r = N.of_nat (size (set_at (view (lget w)) k)) → Q r (lset s' w)) →
  runs (E:=E) (con_scard k) w Q.
Proof.
  intros Hup HQ. eapply runs_answers; [apply scard_law|done|].
  intros r s' Hup' [Hv Hr]. apply HQ; [done..|]. case_decide as Hs.
  - destruct Hr as [e ->]. by rewrite set_at_str.
  - by subst r.
Qed.

Lemma runs_smembers k w (Q : _ → W → Prop) :
  up (lget w) →
  (∀ r s', up s' → view s' = view (lget w) → NoDup (unwrap_or [] r) →
     (∀ x, x ∈ unwrap_or [] r ↔ x ∈ set_at (view (lget w)) k) → Q r (lset s' w)) →
  runs (E:=E) (con_smembers k) w Q.
Proof.
  intros Hup HQ. eapply runs_answers; [apply smembers_law|done|].
  intros r s' Hup' [Hv Hr]. case_decide as Hs.
  - destruct Hr as [e ->]. apply HQ; [done..|constructor|]. intros x. cbn.
    rewrite set_at_str by done. set_solver.
  - destruct Hr as (l & -> & Hnd & Hl). by apply HQ.
Qed.

Lemma runs_keys_star before after w (Q : _ → W → Prop) :
  up (lget w) → glob_plain before → glob_plain after →
  (∀ l s', up s' → view s' = view (lget w) → NoDup l →
     (∀ k, k ∈ l ↔ k ∈ dom (view (lget w)) ∧ ∃ x, k = before +:+ x +:+ after) →
     Q (Ok l) (lset s' w)) →
  runs (E:=E) (con_keys (before +:+ "*" +:+ after)) w Q.
Proof.
  intros Hup Hb Ha HQ. eapply runs_answers; [by apply keys_star_law|done|].
  intros r s' Hup' [Hv (l & -> & Hnd & Hl)]. by apply HQ.
Qed.

Lemma runs_keys_literal pat w (Q : _ → W → Prop) :
  up (lget w) → glob_plain pat →
  (∀ s', up s' → view s' = view (lget w) →
     Q (Ok (if decide (pat ∈ dom (view (lget w))) then [pat] else [])) (lset s' w)) →
  runs (E:=E) (con_keys pat) w Q.
Proof.
  intros Hup Hp HQ. eapply runs_answers; [by apply keys_literal_law|done|].
  intros r s' Hup' [Hv ->]. by apply HQ.
Qed.
End Rules.
