(* ===== verification/RedisMap.v ===== *)
(** * RedisMap: a server that is a finite map

    An instance of [Redis] and its laws, on which the theorems about marci and
    exposed are applied to concrete inputs. It shows that the laws are consistent. *)
From S2P Require Import Prelude RustStd Redis.
From Stdlib Require Import Ascii.

Fixpoint any_suffix (f : string → bool) (s : string) : bool :=
  f s || match s with String _ s => any_suffix f s | EmptyString => false end.

(** Matching of a KEYS pattern whose only special character is the star. *)
Fixpoint glob (p : string) : string → bool :=
  match p with
  | EmptyString => λ s, bool_decide (s = "")
  | String a p =>
      if decide (a = "*"%char) then any_suffix (glob p)
      else λ s, match s with
                | String b s => bool_decide (a = b) && glob p s
                | EmptyString => false
                end
  end.

Lemma any_suffix_spec f s : any_suffix f s = true ↔ ∃ x y, s = x +:+ y ∧ f y = true.
Proof.
  split.
  - induction s as [|a s IH]; cbn; intros [H|H]%orb_true_iff; try done.
    + by exists "", "".
    + by exists "", (String a s).
    + destruct (IH H) as (x & y & -> & Hy). by exists (String a x), y.
  - intros (x & y & -> & Hy). induction x as [|a x IH].
    + rewrite Str.app_empty. destruct y; cbn in *; by rewrite Hy.
    + rewrite Str.app_cons. cbn. by rewrite IH, orb_true_r.
Qed.

Lemma glob_app p q s :
  Str.has_char "*" p = false →
  glob (p +:+ q) s = true ↔ ∃ y, s = p +:+ y ∧ glob q y = true.
Proof.
  revert s. induction p as [|a p IH]; intros s Hp.
  - rewrite Str.app_empty. split; [by exists s|]. intros (y & -> & Hy). by rewrite Str.app_empty.
  - rewrite Str.app_cons. cbn in Hp. apply orb_false_iff in Hp as [Ha Hp].
    apply bool_decide_eq_false in Ha. cbn. rewrite decide_False by done.
    destruct s as [|b s]; [split; [done|]; by intros (y & ? & _)|].
    rewrite andb_true_iff, bool_decide_eq_true, IH by done. split.
    + intros [-> (y & -> & Hy)]. by exists y.
    + intros (y & Heq & Hy). rewrite Str.app_cons in Heq. injection Heq as -> ->. eauto.
Qed.

Lemma glob_literal p s : Str.has_char "*" p = false → glob p s = true ↔ s = p.
Proof.
  intros Hp. rewrite <- (Str.app_nil_r p) at 1. rewrite glob_app by done. split.
  - intros (y & -> & Hy). cbn in Hy. apply bool_decide_eq_true in Hy as ->.
    apply Str.app_nil_r.
  - intros ->. exists "". by rewrite Str.app_nil_r.
Qed.

Lemma glob_star p q s :
  Str.has_char "*" p = false → Str.has_char "*" q = false →
  glob (p +:+ "*" +:+ q) s = true ↔ ∃ x, s = p +:+ x +:+ q.
Proof.
  intros Hp Hq. rewrite glob_app by done. split.
  - intros (y & -> & Hy). change (any_suffix (glob q) y = true) in Hy.
    apply any_suffix_spec in Hy as (x & z & -> & Hz%glob_literal); [|done].
    subst z. by exists x.
  - intros (x & ->). exists (x +:+ q). split; [done|].
    change (any_suffix (glob q) (x +:+ q) = true). apply any_suffix_spec.
    exists x, q. split; [done|]. by apply glob_literal.
Qed.

Definition map_keys (pat : string) (m : store) : list string :=
  filter (λ k, glob pat k = true) (elements (dom m)).

#[export] Instance redis_map : Redis store := {|
  redis_error := unit;
  type_error := tt;
  redis_get k m :=
    (match m !! k with
     | None => Ok None
     | Some (Entry (RStr v) _) => Ok (Some v)
     | Some (Entry (RSet _) _) => Err tt
     end, m);
  redis_set k v m := (Ok tt, put k v m);
  redis_set_ex k v t m := (Ok tt, put_ex k v t m);
  redis_expire k t m := (Ok tt, touch k t m);
  redis_del k m := (Ok tt, delete k m);
  redis_sadd k x m := (if decide (is_str m k) then Err tt else Ok tt, add_member k x m);
  redis_scard k m :=
    (if decide (is_str m k) then Err tt else Ok (N.of_nat (size (set_at m k))), m);
  redis_smembers k m :=
    (if decide (is_str m k) then Err tt else Ok (elements (set_at m k)), m);
  redis_keys pat m := (Ok (map_keys pat m), m);
  arg_u64 n := pretty n;
  from_u64 := Int.parse_u64;
  arg_bool b := if b : bool then "1" else "0";
  from_bool s :=
    if decide (s = "1") then Some true else if decide (s = "0") then Some false else None;
|}.

Lemma map_keys_literal pat (m : store) :
  Str.has_char "*" pat = false →
  map_keys pat m = if decide (pat ∈ dom m) then [pat] else [].
Proof.
  intros Hp. unfold map_keys.
  assert (NoDup (filter (λ k, glob pat k = true) (elements (dom m)))) as Hnd
    by apply NoDup_filter, NoDup_elements.
  assert (∀ k, k ∈ filter (λ k, glob pat k = true) (elements (dom m)) ↔ k = pat ∧ k ∈ dom m) as Hin.
  { intros k. by rewrite list_elem_of_filter, elem_of_elements, glob_literal. }
  revert Hnd Hin. generalize (filter (λ k, glob pat k = true) (elements (dom m))) as l.
  intros l Hnd Hin. case_decide as Hd.
  - apply Permutation_singleton_r, NoDup_Permutation; [done|apply NoDup_singleton|].
    intros k. rewrite Hin, list_elem_of_singleton. split; [by intros []|by intros ->].
  - destruct l as [|k l]; [done|]. exfalso.
    destruct (proj1 (Hin k)) as [-> ?]; [apply list_elem_of_here|done].
Qed.

#[export] Instance redis_map_laws : RedisLaws store.
Proof.
  refine {| up := λ _, True; view := id; ttl_max := Int.i64_max |}; try done;
    try (by intros; intros s _; do 2 eexists; split_and!).
  - intros k s _. do 2 eexists. split_and!; [done..|].
    destruct (_ !! k) as [[[] ?]|]; eauto.
  - intros k x s _. do 2 eexists. split_and!; [done..|]. unfold id. case_decide; eauto.
  - intros k s _. do 2 eexists. split_and!; [done..|]. unfold id. case_decide; eauto.
  - intros k s _. do 2 eexists. split_and!; [done..|]. unfold id. case_decide; [eauto|].
    eexists. split_and!; [done|apply NoDup_elements|]. intros x. apply elem_of_elements.
  - intros before after Hb Ha s _. do 2 eexists. split_and!; [done..|].
    eexists. split_and!; [done|apply NoDup_filter, NoDup_elements|].
    intros k. unfold map_keys. rewrite list_elem_of_filter, elem_of_elements.
    rewrite glob_star by (apply Hb || apply Ha). unfold id. tauto.
  - intros pat Hp s _. do 2 eexists. split_and!; [done..|].
    unfold id. f_equal. apply map_keys_literal, Hp.
  - intros n Hn. by apply Int.parse_u64_pretty.
  - by intros [].
Defined.
