(* ===== verification/RedisFaults.v ===== *)
(** * RedisFaults: a database that fails, and on which time passes

    The laws of Redis.v are those of a server that answers every command at once.
    The weaker laws here let time pass before any command, and any command fail,
    before or after it took effect. A server that follows the laws of Redis.v
    follows these too; a second instance follows a plan of faults. *)
From S2P Require Import Prelude RustStd Redis RedisMap.

(** ** Expiry as a preorder on the stored maps *)
Lemma expires_refl (m : store) : (∀ k v t, m !! k = Some (Entry v (Some t)) → (0 < t)%N) → expires_to m m.
Proof.
  intros Hm k. destruct (m !! k) as [[v [t|]]|] eqn:Hk; [|done..].
  right. exists t. split; [|done]. by apply Hm in Hk.
Qed.

Lemma expires_trans (m1 m2 m3 : store) : expires_to m1 m2 → expires_to m2 m3 → expires_to m1 m3.
Proof.
  intros H12 H23 k. specialize (H12 k). specialize (H23 k).
  destruct (m1 !! k) as [[v [t|]]|]; [|by rewrite H12 in H23..].
  destruct H12 as [H12|(t' & Ht & H12)]; rewrite H12 in H23; [by left|].
  destruct H23 as [?|(t'' & ? & ?)]; [by left|]. right. exists t''. split; [lia|done].
Qed.

Lemma expires_none (m m' : store) k : expires_to m m' → m !! k = None → m' !! k = None.
Proof. intros He Hk. specialize (He k). by rewrite Hk in He. Qed.

(** ** The laws *)
Section Answers.
Context {R E : Type} (flaky : Prop) (usable : R → Prop) (stored : R → store).

(** A command that writes: on the map as it is by then it takes effect, or fails.
    A failed command may have taken effect if it is the connection that failed,
    and not if the server refused it. *)
Definition writes {A} (f : R → result A E * R) (eff : store → store) (refuses : store → Prop) : Prop :=
  ∀ s, usable s → ∃ r s' m, f s = (r, s') ∧ usable s' ∧ expires_to (stored s) m ∧
    match r with
    | Ok _ => stored s' = eff m
    | Err _ => (refuses m ∧ stored s' = m) ∨ (flaky ∧ (stored s' = m ∨ stored s' = eff m))
    end.

(** A command that reads the map as it is by then, or fails. *)
Definition reads {A} (f : R → result A E * R) (ok : store → A → Prop) (refuses : store → Prop) : Prop :=
  ∀ s, usable s → ∃ r s', f s = (r, s') ∧ usable s' ∧ expires_to (stored s) (stored s') ∧
    match r with
    | Ok a => ok (stored s') a
    | Err _ => refuses (stored s') ∨ flaky
    end.
End Answers.

Definition never (_ : store) : Prop := False.

Class RedisWeakLaws (R : Type) `{Redis R} := {
  (** Whether commands ever fail for another reason than their key's type. *)
  flaky : Prop;
  usable : R → Prop;
  stored : R → store;
  max_ttl : N;
  max_ttl_i64 : (max_ttl ≤ Int.i64_max)%N;
  weak_get k : reads flaky usable stored (redis_get k)
    (λ m v, v = str_at m k ∧ ¬ is_set m k) (λ m, is_set m k);
  weak_set k v : writes flaky usable stored (redis_set k v) (put k v) never;
  weak_set_ex k v t :
    (0 < t ≤ max_ttl)%N → writes flaky usable stored (redis_set_ex k v t) (put_ex k v t) never;
  weak_expire k t :
    (0 < t ≤ max_ttl)%N → writes flaky usable stored (redis_expire k t) (touch k t) never;
  weak_del k : writes flaky usable stored (redis_del k) (delete k) never;
  weak_sadd k x :
    writes flaky usable stored (redis_sadd k x) (add_member k x) (λ m, is_str m k);
  weak_scard k : reads flaky usable stored (redis_scard k)
    (λ m n, n = N.of_nat (size (set_at m k))) (λ m, is_str m k);
  weak_smembers k : reads flaky usable stored (redis_smembers k)
    (λ m l, NoDup l ∧ ∀ x, x ∈ l ↔ x ∈ set_at m k) (λ m, is_str m k);
  weak_keys before after :
    glob_plain before → glob_plain after →
    reads flaky usable stored (redis_keys (before +:+ "*" +:+ after))
      (λ m l, NoDup l ∧ ∀ k, k ∈ l ↔ k ∈ dom m ∧ ∃ x, k = before +:+ x +:+ after) never;
}.

(** ** A server that never fails *)
Definition live (m : store) : Prop := ∀ k v t, m !! k = Some (Entry v (Some t)) → (0 < t)%N.

Lemma live_insert m k v o : live m → (∀ t, o = Some t → (0 < t)%N) → live (<[k := Entry v o]> m).
Proof. intros Hm Ho k' v' t [[_ [= _ ->]]|[_ Hk]]%lookup_insert_Some; [by apply Ho|by eapply Hm]. Qed.
Lemma live_touch m k t : live m → (0 < t)%N → live (touch k t m).
Proof.
  intros Hm Ht k' v' t' Hk. unfold touch in Hk. destruct (decide (k = k')) as [->|Hne].
  - rewrite lookup_alter_eq in Hk. destruct (m !! k'); [|done]. by injection Hk as _ <-.
  - rewrite lookup_alter_ne in Hk by done. by eapply Hm.
Qed.
Lemma live_delete m k : live m → live (delete k m).
Proof. intros Hm k' v t [_ Hk]%lookup_delete_Some. by eapply Hm. Qed.
Lemma live_add m k x : live m → live (add_member k x m).
Proof.
  intros Hm. unfold add_member. destruct (m !! k) as [[[v|s] o]|] eqn:Hk; [done|..]; apply live_insert; try done.
  intros t ->. by eapply Hm.
Qed.

Section Steady.
Context {R : Type} `{RedisLaws R}.

Definition steady (s : R) : Prop := up s ∧ live (view s).

Lemma steady_reads {A} (f : R → result A (redis_error R) * R) P ok refuses :
  answers up view f P →
  (∀ m r m', P m r m' → m' = m ∧ match r with Ok a => ok m a | Err _ => refuses m end) →
  reads False steady view f ok refuses.
Proof.
  intros Hf HP s [Hup Hl]. destruct (Hf s Hup) as (r & s' & Heq & Hup' & Hr).
  destruct (HP _ _ _ Hr) as [Hv Ha]. exists r, s'. rewrite Hv.
  split_and!; [done|by split; [|rewrite Hv]|by apply expires_refl|]. destruct r; auto.
Qed.

Lemma steady_writes {A} (f : R → result A (redis_error R) * R) P eff refuses :
  answers up view f P → (∀ m, live m → live (eff m)) →
  (∀ m r m', P m r m' → match r with Ok _ => m' = eff m | Err _ => m' = m ∧ refuses m end) →
  writes False steady view f eff refuses.
Proof.
  intros Hf Heff HP s [Hup Hl]. destruct (Hf s Hup) as (r & s' & Heq & Hup' & Hr).
  apply HP in Hr. exists r, s', (view s).
  split_and!; [done| |by apply expires_refl|destruct r; naive_solver].
  split; [done|]. destruct r as [a|e]; [by rewrite Hr; apply Heff|by destruct Hr as [-> _]].
Qed.

(** What follows the strong laws follows the weak ones. *)
Definition steady_weak_laws : RedisWeakLaws R.
Proof.
  refine {| flaky := False; usable := steady; stored := view; max_ttl := ttl_max |};
    [apply ttl_max_i64|..].
  - intros k. eapply steady_reads; [apply get_law|]. intros m r m' [-> Hr]. split; [done|].
    unfold str_at, is_set. destruct (m !! k) as [[[v|l] t]|]; [| destruct Hr as [e Hr]|]; subst r; tauto.
  - intros k v. eapply steady_writes; [apply set_law| |by intros m r m' [-> ->]].
    intros m Hm. by apply live_insert.
  - intros k v t Ht. eapply steady_writes; [by apply set_ex_law| |by intros m r m' [-> ->]].
    intros m Hm. apply live_insert; [done|]. intros ? [= <-]. lia.
  - intros k t Ht. eapply steady_writes; [by apply expire_law| |by intros m r m' [-> ->]].
    intros m Hm. apply live_touch; [done|lia].
  - intros k. eapply steady_writes; [by apply del_law| |by intros m r m' [-> ->]].
    intros m Hm. by apply live_delete.
  - intros k x. eapply steady_writes; [by apply sadd_law|intros m Hm; by apply live_add|].
    intros m r m' [-> Hr]. case_decide as Hs; [|by subst r]. destruct Hr as [e ->].
    split; [|done]. unfold add_member, is_str in *. by destruct (m !! k) as [[[v|l] t]|].
  - intros k. eapply steady_reads; [apply scard_law|]. intros m r m' [-> Hr]. split; [done|].
    case_decide; [by destruct Hr as [e ->]|by subst r].
  - intros k. eapply steady_reads; [apply smembers_law|]. intros m r m' [-> Hr]. split; [done|].
    case_decide; [by destruct Hr as [e ->]|by destruct Hr as (l & -> & ?)].
  - intros before after Hb Ha. eapply steady_reads; [by apply keys_star_law|].
    intros m r m' [-> (l & -> & ?)]. done.
Defined.
End Steady.

(** ** A server with a plan of faults *)

(** What befalls a command: nothing; seconds pass before it; it gets lost on the
    way, or only its reply does. *)
Inductive fault := Fine | Late (seconds : N) | Lost_command | Lost_reply.

Record faulty_server := { fs_store : store; fs_plan : list fault }.

Definition age (n : N) (e : entry) : option entry :=
  match e_ttl e with
  | None => Some e
  | Some t => if decide (t ≤ n)%N then None else Some (Entry (e_value e) (Some (t - n)%N))
  end.
Definition later (n : N) (m : store) : store := omap (age n) m.
Arguments later : simpl never.

Lemma later_expires n m : expires_to m (later n m).
Proof.
  intros k. unfold later. rewrite lookup_omap. destruct (m !! k) as [[v [t|]]|]; cbn; [|done..].
  unfold age. cbn. case_decide; [by left|]. destruct (decide (n = 0)%N) as [->|Hn].
  - right. exists t. rewrite N.sub_0_r. split; [lia|done].
  - right. exists (t - n)%N. split; [lia|done].
Qed.

Definition befall {A} (f : store → result A unit * store) (s : faulty_server) :
  result A unit * faulty_server :=
  let m := fs_store s in
  match fs_plan s with
  | [] => let r := f (later 0 m) in (r.1, {| fs_store := r.2; fs_plan := [] |})
  | Fine :: p => let r := f (later 0 m) in (r.1, {| fs_store := r.2; fs_plan := p |})
  | Late n :: p => let r := f (later n m) in (r.1, {| fs_store := r.2; fs_plan := p |})
  | Lost_command :: p => (Err tt, {| fs_store := later 0 m; fs_plan := p |})
  | Lost_reply :: p => let r := f (later 0 m) in (Err tt, {| fs_store := r.2; fs_plan := p |})
  end.

#[export] Instance redis_faulty : Redis faulty_server := {|
  redis_error := unit;
  type_error := tt;
  redis_get k := befall (redis_get k);
  redis_set k v := befall (redis_set k v);
  redis_set_ex k v t := befall (redis_set_ex k v t);
  redis_expire k t := befall (redis_expire k t);
  redis_del k := befall (redis_del k);
  redis_sadd k x := befall (redis_sadd k x);
  redis_scard k := befall (redis_scard k);
  redis_smembers k := befall (redis_smembers k);
  redis_keys pat := befall (redis_keys pat);
  arg_u64 := arg_u64;
  from_u64 := from_u64;
  arg_bool := arg_bool;
  from_bool := from_bool;
|}.

Definition anything (_ : faulty_server) : Prop := True.

Lemma befall_reads {A} (f : store → result A unit * store) ok refuses :
  (∀ m, (f m).2 = m ∧ match (f m).1 with Ok a => ok m a | Err _ => refuses m end) →
  reads True anything fs_store (befall f) ok refuses.
Proof.
  intros Hf [m p] _. unfold befall. cbn.
  assert (∀ n p', ∃ r s', ((f (later n m)).1, {| fs_store := (f (later n m)).2; fs_plan := p' |}) = (r, s') ∧
    anything s' ∧ expires_to m (fs_store s') ∧
    match r with Ok a => ok (fs_store s') a | Err _ => refuses (fs_store s') ∨ True end) as Hrun.
  { intros n p'. do 2 eexists. split; [done|]. destruct (Hf (later n m)) as [-> Hr]. cbn.
    split_and!; [done|apply later_expires|]. destruct (f (later n m)).1; auto. }
  destruct p as [|[| | |] p]; auto.
  - do 2 eexists. split; [done|]. cbn. split_and!; [done|apply later_expires|by right].
  - do 2 eexists. split; [done|]. cbn. destruct (Hf (later 0 m)) as [-> _].
    split_and!; [done|apply later_expires|by right].
Qed.

Lemma befall_writes (f : store → result unit unit * store) eff refuses :
  (∀ m, match (f m).1 with Ok _ => (f m).2 = eff m | Err _ => refuses m ∧ (f m).2 = m end) →
  writes True anything fs_store (befall f) eff refuses.
Proof.
  intros Hf [m p] _. unfold befall. cbn.
  assert (∀ n p', ∃ r s' m1, ((f (later n m)).1, {| fs_store := (f (later n m)).2; fs_plan := p' |}) = (r, s') ∧
    anything s' ∧ expires_to m m1 ∧
    match r with
    | Ok _ => fs_store s' = eff m1
    | Err _ => (refuses m1 ∧ fs_store s' = m1) ∨ (True ∧ (fs_store s' = m1 ∨ fs_store s' = eff m1))
    end) as Hrun.
  { intros n p'. do 2 eexists. exists (later n m). split; [done|].
    split_and!; [done|apply later_expires|]. specialize (Hf (later n m)). cbn.
    destruct (f (later n m)).1; auto. }
  destruct p as [|[| | |] p]; auto.
  - do 2 eexists. exists (later 0 m). split; [done|]. cbn. split_and!; [done|apply later_expires|]. auto.
  - do 2 eexists. exists (later 0 m). split; [done|]. cbn.
    split_and!; [done|apply later_expires|]. specialize (Hf (later 0 m)).
    destruct (f (later 0 m)) as [[a|e] m1]; cbn in *; [by auto|]. right. destruct Hf as [_ ->]. auto.
Qed.

#[export] Instance redis_faulty_laws : RedisWeakLaws faulty_server.
Proof.
  refine {| flaky := True; usable := anything; stored := fs_store; max_ttl := Int.i64_max |}; [done|..].
  - intros k. apply befall_reads. intros m. cbn. split; [done|]. unfold str_at, is_set.
    destruct (m !! k) as [[[v|l] t]|]; tauto.
  - intros k v. by apply befall_writes.
  - intros k v t _. by apply befall_writes.
  - intros k t _. by apply befall_writes.
  - intros k. by apply befall_writes.
  - intros k x. apply befall_writes. intros m. cbn. case_decide as Hs; [|done]. split; [done|].
    unfold add_member, is_str in *. by destruct (m !! k) as [[[v|l] t]|].
  - intros k. apply befall_reads. intros m. cbn. split; [done|]. by case_decide.
  - intros k. apply befall_reads. intros m. cbn. split; [done|]. case_decide; [done|].
    split; [apply NoDup_elements|]. intros x. apply elem_of_elements.
  - intros before after Hb Ha. apply befall_reads. intros m. cbn. split; [done|].
    split; [apply NoDup_filter, NoDup_elements|]. intros k. unfold map_keys.
    rewrite list_elem_of_filter, elem_of_elements, glob_star by (apply Hb || apply Ha). tauto.
Defined.
