(* ===== verification/Services.v ===== *)
(** * Services: the message broker, the clock and the channels

    paho's MQTT client, [SystemTime::now] and tokio's bounded channels as classes
    over their state, with the documented behaviour as laws. *)
From S2P Require Import Prelude RustStd.

(** paho's client, which its clones share: publishing a payload on a topic, at the QoS
    the program always uses; an attempt to reconnect; and what losing the connection
    makes of it. *)
Class Mqtt (M : Type) := {
  mqtt_error : Type;
  mqtt_publish : string → string → M → result unit mqtt_error * M;
  mqtt_reconnect : M → result unit mqtt_error * M;
  mqtt_lost : M → M;
}.
Arguments mqtt_error M {_}.

(** A client that is up takes every message: at once when it is connected, otherwise
    into its buffer of messages for later ([max_buffered_messages]), which has room
    for what is published while the connection is lost. [sent] is what it took. *)
Class MqttLaws (M : Type) `{Mqtt M} := {
  mqtt_up : M → Prop;
  sent : M → list (string * string);
  publish_law topic payload (s : M) :
    mqtt_up s → ∃ s', mqtt_publish topic payload s = (Ok tt, s') ∧ mqtt_up s' ∧
                      sent s' = sent s ++ [(topic, payload)];
  lost_law s : (mqtt_up s → mqtt_up (mqtt_lost s)) ∧ sent (mqtt_lost s) = sent s;
  reconnect_law s :
    (mqtt_up s → mqtt_up (mqtt_reconnect s).2) ∧ sent (mqtt_reconnect s).2 = sent s;
}.

(** [SystemTime::now()], in nanoseconds since the epoch. *)
Class Clock (C : Type) := clock_now : C → Z * C.

(** [t.duration_since(UNIX_EPOCH).unwrap_or_default().as_secs()] *)
Definition unix_secs (t : Z) : N := Z.to_N (t / 1000000000).

(** The clock stays below a largest time. *)
Class ClockLaws (C : Type) `{Clock C} := {
  clock_max : N;
  clock_law (c : C) : (unix_secs (clock_now c).1 ≤ clock_max)%N;
}.

Section Calls.
Context {W E : Type}.

Definition publish {M} `{Mqtt M} `{Lens W M} (topic payload : string) :
  comp W E (result unit (mqtt_error M)) := call (mqtt_publish topic payload).

Definition now {C} `{Clock C} `{Lens W C} : comp W E Z := call clock_now.

Lemma runs_publish {M} `{MqttLaws M} `{Lens W M} topic payload w (Q : _ → W → Prop) :
  mqtt_up (lget w) →
  (∀ s', mqtt_up s' → sent s' = sent (lget w) ++ [(topic, payload)] → Q (Ok tt) (lset s' w)) →
  runs (publish topic payload) w Q.
Proof.
  intros Hup HQ. destruct (publish_law topic payload _ Hup) as (s' & Heq & Hup' & Hs).
  eapply runs_call; [exact Heq|]. by apply HQ.
Qed.

Lemma runs_now {C} `{Clock C} `{Lens W C} w (Q : Z → W → Prop) :
  Q (clock_now (lget w)).1 (lset (clock_now (lget w)).2 w) → runs now w Q.
Proof. intros HQ. eapply runs_call; [apply surjective_pairing|done]. Qed.
End Calls.

(** [tokio::sync::mpsc]: [send] and [recv] complete with a result or, [None],
    have to wait. *)
Class Mpsc (Q : Type → Type) := {
  mpsc_channel {A} : nat → Q A;
  mpsc_send {A} : A → Q A → option (Q A);
  mpsc_recv {A} : Q A → option (A * Q A);
}.

(** First in, first out, with back-pressure. *)
Class MpscLaws (Q : Type → Type) `{Mpsc Q} := {
  queued {A} : Q A → list A;
  capacity {A} : Q A → nat;
  channel_law {A} n : queued (mpsc_channel (A:=A) n) = [] ∧ capacity (mpsc_channel (A:=A) n) = n;
  send_law {A} (x : A) q :
    if decide (length (queued q) < capacity q)
    then ∃ q', mpsc_send x q = Some q' ∧ queued q' = queued q ++ [x] ∧ capacity q' = capacity q
    else mpsc_send x q = None;
  recv_law {A} (q : Q A) :
    match queued q with
    | [] => mpsc_recv q = None
    | x :: l => ∃ q', mpsc_recv q = Some (x, q') ∧ queued q' = l ∧ capacity q' = capacity q
    end;
}.

Lemma mpsc_send_inv `{MpscLaws Q} {A} (x : A) q q' :
  mpsc_send x q = Some q' →
  length (queued q) < capacity q ∧ queued q' = queued q ++ [x] ∧ capacity q' = capacity q.
Proof.
  intros Hs. pose proof (send_law x q) as Hl. case_decide; [|congruence].
  destruct Hl as (? & Hl & ? & ?). by simplify_eq.
Qed.

Lemma mpsc_recv_inv `{MpscLaws Q} {A} (x : A) q q' :
  mpsc_recv q = Some (x, q') → queued q = x :: queued q' ∧ capacity q' = capacity q.
Proof.
  intros Hr. pose proof (recv_law q) as Hl. destruct (queued q) as [|y l]; [congruence|].
  destruct Hl as (? & Hl & ? & ?). by simplify_eq.
Qed.

(** A broker that keeps what it was sent and is never lost, and a clock that stands still, within the
    times that chrono represents. *)
#[export] Instance mqtt_log : Mqtt (list (string * string)) := {|
  mqtt_error := unit;
  mqtt_publish topic payload s := (Ok tt, s ++ [(topic, payload)]);
  mqtt_reconnect s := (Ok tt, s);
  mqtt_lost s := s;
|}.
#[export] Instance mqtt_log_laws : MqttLaws (list (string * string)).
Proof. refine {| mqtt_up := λ _, True; sent := id |}; [|done..]. intros. by eexists. Defined.
Definition last_second : N := 8210266876799.
#[export] Instance clock_fixed : Clock Z := λ t, (Z.min t (Z.of_N last_second * 1000000000), t).
#[export] Instance clock_fixed_laws : ClockLaws Z.
Proof.
  refine {| clock_max := last_second |}. intros c. unfold unix_secs. cbn.
  pose proof (Z.div_le_mono (Z.min c (8210266876799 * 1000000000)) (8210266876799 * 1000000000) 1000000000).
  rewrite Z.div_mul in * by done. unfold last_second. lia.
Defined.

(** A channel that is a list with its capacity. *)
Definition list_channel (A : Type) : Type := list A * nat.
#[export] Instance list_mpsc : Mpsc list_channel := {|
  mpsc_channel A n := ([], n);
  mpsc_send A x q := if decide (length q.1 < q.2) then Some (q.1 ++ [x], q.2) else None;
  mpsc_recv A q := match q.1 with [] => None | x :: l => Some (x, (l, q.2)) end;
|}.
#[export] Instance list_mpsc_laws : MpscLaws list_channel.
Proof.
  refine {| queued A q := q.1; capacity A q := q.2 |}; [done| |].
  - intros A x [l n]. cbn. case_decide; [by eexists|done].
  - intros A [[|x l] n]; [done|by eexists].
Defined.
