(* ===== verification/Broker.v ===== *)
(** * Broker: connecting to the message broker

    paho's client as the class [Broker] over the state [Mqtt] publishes on, with its
    documented behaviour as laws, and the loop in which src/main.rs and
    marci/src/main.rs reconnect after the connection was lost. *)
From S2P Require Import Prelude RustStd Services.

(** The options that are set; durations in milliseconds. *)
Record CreateOptions := {
  server_uri : string;
  max_buffered_messages : N;
  client_id : string;
}.
Record ConnectOptions := {
  clean_start : bool;
  keep_alive_interval : N;
  automatic_reconnect : N * N;
  user_name : string;
  password : string;
  session_expiry_interval : N;
}.
Inductive SubscribeOptions := with_retain_as_published.

(** [AsyncClient]: [new], [connect], [subscribe] and [subscribe_many_with_options]; the
    rest is in [Mqtt]. A client and its clones are one state. *)
Class Broker (B : Type) `{Mqtt B} := {
  client_new : CreateOptions → B → result unit (mqtt_error B) * B;
  client_connect : ConnectOptions → B → result unit (mqtt_error B) * B;
  client_subscribe : string → N → B → result unit (mqtt_error B) * B;
  client_subscribe_many : list string → list N → list SubscribeOptions → B →
    result unit (mqtt_error B) * B;
}.

(** A broker reachable at an address accepts a user's connection; a connected client
    may subscribe, once per topic with the options of that position. *)
Class BrokerLaws (B : Type) `{MqttLaws B} `{!Broker B} := {
  reachable_at : string → string → string → B → Prop;
  created : string → string → B → Prop;
  subscriptions : B → list string;
  new_law o user pass s :
    reachable_at (server_uri o) user pass s →
    ∃ s', client_new o s = (Ok tt, s') ∧ created user pass s';
  new_fresh o s s' : client_new o s = (Ok tt, s') → subscriptions s' = [] ∧ sent s' = [];
  connect_law o s :
    created (user_name o) (password o) s →
    ∃ s', client_connect o s = (Ok tt, s') ∧ mqtt_up s';
  connect_keeps o s s' :
    client_connect o s = (Ok tt, s') → subscriptions s' = subscriptions s ∧ sent s' = sent s;
  subscribe_law topic qos s :
    mqtt_up s → ∃ s', client_subscribe topic qos s = (Ok tt, s') ∧ mqtt_up s';
  subscribe_adds topic qos s s' :
    client_subscribe topic qos s = (Ok tt, s') →
    subscriptions s' = subscriptions s ++ [topic] ∧ sent s' = sent s;
  subscribe_many_law topics qos opts s :
    mqtt_up s → length qos = length topics → length opts = length topics →
    ∃ s', client_subscribe_many topics qos opts s = (Ok tt, s') ∧ mqtt_up s';
  subscribe_many_adds topics qos opts s s' :
    client_subscribe_many topics qos opts s = (Ok tt, s') →
    subscriptions s' = subscriptions s ++ topics ∧ sent s' = sent s;
}.

(** A component that is the whole world. *)
Definition whole_lens {B} : Lens B B.
Proof. by refine {| lget b := b; lset b _ := b |}. Defined.

(** ** The reconnect loop *)
Section Reconnect.
Context {B : Type} `{Mqtt B}.
Implicit Types (b : B).

(** [while let Err(err) = mqtt_client.reconnect().await]: the failures counted when
    an attempt succeeds, or [None] when the fuel runs out before. *)
Fixpoint reconnect_loop {W E} `{Lens W B} (fuel : nat) (rconn_attempt : N) : comp W E (option N) :=
  match fuel with
  | 0 => mret None
  | S fuel =>
      r ← call mqtt_reconnect;
      match r with
      | Ok _ => mret (Some rconn_attempt)
      | Err _ => reconnect_loop fuel (rconn_attempt + 1)
      end
  end.

#[local] Existing Instance whole_lens.

(** The broker after so many attempts, and whether an attempt would succeed. *)
Definition after_attempts (k : nat) b : B := Nat.iter k (λ b, (mqtt_reconnect b).2) b.
Definition accepts b : bool := is_ok (mqtt_reconnect b).1.

(** The first attempt that succeeds is the one after [k] failures. *)
Definition recovers_after (k : nat) b : Prop :=
  accepts (after_attempts k b) = true ∧ ∀ i, i < k → accepts (after_attempts i b) = false.

Lemma after_succ k b : after_attempts (S k) b = after_attempts k (mqtt_reconnect b).2.
Proof. unfold after_attempts. by rewrite Nat.iter_succ_r. Qed.

Lemma loop_step {E} fuel n b :
  reconnect_loop (E:=E) (S fuel) n b =
    if accepts b then (Ret (Some n), (mqtt_reconnect b).2)
    else reconnect_loop fuel (n + 1) (mqtt_reconnect b).2.
Proof.
  cbn [reconnect_loop]. unfold accepts. erewrite bind_ret by reflexivity. cbn [lget lset whole_lens].
  by destruct (mqtt_reconnect b) as [[] b'].
Qed.

Lemma loop_recovers {E} k fuel n b :
  recovers_after k b → k < fuel →
  reconnect_loop (E:=E) fuel n b = (Ret (Some (n + N.of_nat k)%N), after_attempts (S k) b).
Proof.
  revert fuel n b. induction k as [|k IH]; intros [|fuel] n b [Hk Hi] Hf; try lia; rewrite loop_step.
  - change (accepts b = true) in Hk. rewrite Hk. by rewrite N.add_0_r.
  - assert (accepts b = false) as -> by (apply (Hi 0); lia). rewrite IH; [|split|lia].
    + f_equal; [do 2 f_equal; lia|by rewrite <- after_succ].
    + by rewrite <- after_succ.
    + intros i Hlt. rewrite <- after_succ. apply Hi. lia.
Qed.

Lemma loop_fails {E} fuel n b :
  (∀ i, i < fuel → accepts (after_attempts i b) = false) →
  reconnect_loop (E:=E) fuel n b = (Ret None, after_attempts fuel b).
Proof.
  revert n b. induction fuel as [|fuel IH]; intros n b Hi; [done|]. rewrite loop_step.
  assert (accepts b = false) as -> by (apply (Hi 0); lia). rewrite after_succ. apply IH.
  intros i Hlt. rewrite <- after_succ. apply Hi. lia.
Qed.

Lemma loop_ended {E} fuel n m b :
  (reconnect_loop (E:=E) fuel n b).1 = Ret (Some m) → ∃ k, recovers_after k b.
Proof.
  revert n b. induction fuel as [|fuel IH]; intros n b; [done|]. rewrite loop_step.
  destruct (accepts b) eqn:Ha; intros Hr.
  - exists 0. split; [done|lia].
  - apply IH in Hr as (k & Hk & Hi). exists (S k). split; [by rewrite after_succ|].
    intros [|i] Hlt; [done|]. rewrite after_succ. apply Hi. lia.
Qed.

(** C26 (termination). The reconnect loop ends if and only if the broker accepts a
    connection at last. If it does after [k] failures, [k + 1] rounds are enough, any
    more change nothing, and the loop has counted [k] failures and asked exactly
    [k + 1] times; as long as it refuses, the loop only asks again. *)
Theorem reconnect_terminates {E} b :
  ((∃ fuel n, (reconnect_loop (E:=E) fuel 0 b).1 = Ret (Some n)) ↔ ∃ k, recovers_after k b) ∧
  (∀ k, recovers_after k b → ∀ fuel, k < fuel →
     reconnect_loop (E:=E) fuel 0 b = (Ret (Some (N.of_nat k)), after_attempts (S k) b)) ∧
  (∀ fuel, (∀ i, i < fuel → accepts (after_attempts i b) = false) →
     reconnect_loop (E:=E) fuel 0 b = (Ret None, after_attempts fuel b)).
Proof.
  split_and!.
  - split; [intros (fuel & n & Hr); by eapply loop_ended|]. intros [k Hk]. exists (S k). eexists.
    rewrite (loop_recovers k) by (done || lia). done.
  - intros k Hk fuel Hf. by rewrite (loop_recovers k).
  - intros fuel Hi. by apply loop_fails.
Qed.
End Reconnect.

(** ** A broker in memory: its subscriptions, what it was sent, what waits in the
    client's buffer, whether the client is connected, and how many more attempts to
    reconnect it will refuse. *)
Record line := Line {
  line_topics : list string;
  line_sent : list (string * string);
  line_waiting : list (string * string);
  line_connected : bool;
  line_refuses : nat;
}.

#[export] Instance line_mqtt : Mqtt line := {|
  mqtt_error := unit;
  mqtt_publish topic payload s :=
    let '(Line topics sent waiting connected refuses) := s in
    (Ok tt, if connected then Line topics (sent ++ [(topic, payload)]) waiting connected refuses
            else Line topics sent (waiting ++ [(topic, payload)]) connected refuses);
  mqtt_reconnect s :=
    let '(Line topics sent waiting connected refuses) := s in
    match refuses with
    | 0 => (Ok tt, Line topics (sent ++ waiting) [] true 0)
    | S n => (Err tt, Line topics sent waiting connected n)
    end;
  mqtt_lost s := Line (line_topics s) (line_sent s) (line_waiting s) false (line_refuses s);
|}.

(** While it is connected nothing waits. *)
Definition line_ok (s : line) : Prop := line_connected s = true → line_waiting s = [].

#[export] Instance line_mqtt_laws : MqttLaws line.
Proof.
  refine {| mqtt_up := line_ok; sent s := line_sent s ++ line_waiting s |}.
  - intros topic payload [topics sent waiting [|] refuses] Hup; eexists; (split; [reflexivity|]); cbn.
    + pose proof (Hup eq_refl) as Hw. cbn in Hw. subst. by rewrite !app_nil_r.
    + by rewrite app_assoc.
  - done.
  - intros [topics sent waiting connected [|n]]; cbn; [by rewrite app_nil_r|done].
Defined.
#[export] Instance line_broker : Broker line := {|
  client_new _ s := (Ok tt, Line [] [] [] false (line_refuses s));
  client_connect _ s := (Ok tt, Line (line_topics s) (line_sent s ++ line_waiting s) [] true (line_refuses s));
  client_subscribe topic _ s :=
    (Ok tt, Line (line_topics s ++ [topic]) (line_sent s) (line_waiting s) (line_connected s) (line_refuses s));
  client_subscribe_many topics _ _ s :=
    (Ok tt, Line (line_topics s ++ topics) (line_sent s) (line_waiting s) (line_connected s) (line_refuses s));
|}.
#[export] Instance line_broker_laws : BrokerLaws line.
Proof.
  refine {| reachable_at _ _ _ _ := True; created _ _ _ := True; subscriptions := line_topics |}.
  all: try (intros; by eexists). all: intros * [= <-]; split; [done|]; cbn; by rewrite ?app_nil_r.
Defined.

Definition flaky_line : line := Line ["peer/needs_dial"] [] [] false 3.

Example flaky_reconnects :
  map (λ fuel, (reconnect_loop (W:=line) (E:=Empty_set) (H0:=whole_lens) fuel 0 flaky_line).1) [3; 4; 9] =
  [Ret None; Ret (Some 3%N); Ret (Some 3%N)].
Proof. vm_compute. reflexivity. Qed.
