(* ===== verification/Keys.v ===== *)
(** * Keys: the key schema of marci/src/main.rs

    One definition per format macro, and [key], the sum of the families. Marci
    puts peer ids into its keys unescaped; the schema is injective all the same. *)
From S2P Require Import Prelude RustStd Types.

Definition online_peer_key (id : string) : string := "peer.online." +:+ id.
Definition online2_peer_key (id : string) : string := "peer.online2." +:+ id.
Definition online_ip_key (id : string) : string := "online." +:+ id +:+ ".ip".
Definition reachable_peer_key (id : string) : string := "peer.reachable." +:+ id.
Definition unknown_peer_key (id : string) : string := "peer.unknown." +:+ id.
Definition peer_seen_key (id : string) : string := "peer_info." +:+ id +:+ ".last_seen".
Definition peer_ip_key (id : string) : string := "peer_info." +:+ id +:+ ".ip".
Definition peer_country_key (id : string) : string := "peer_info." +:+ id +:+ ".country".
Definition peer_city_key (id : string) : string := "peer_info." +:+ id +:+ ".city".
Definition peer_region_key (id : string) : string := "peer_info." +:+ id +:+ ".region".
Definition peer_full_key (id : string) : string := "peer_info." +:+ id +:+ ".full".
Definition peer_pos_key (id : string) : string := "peer_info." +:+ id +:+ ".pos".
Definition peer_network_key (id : string) : string := "peer_info." +:+ id +:+ ".network".
Definition peer_network_quick_key (id network : string) : string :=
  "network.peer." +:+ id +:+ "." +:+ network.
Definition last_update_key : string := "service.last_update".

Inductive key :=
| KOnline (id : string)
| KOnline2 (id : string)
| KOnlineIp (id : string)
| KReachable (id : string)
| KUnknown (id : string)
| KSeen (id : string)
| KIp (id : string)
| KCountry (id : string)
| KCity (id : string)
| KRegion (id : string)
| KFull (id : string)
| KPos (id : string)
| KNetwork (id : string)
| KNetworkQuick (id : string) (n : CKBNetworkType)
| KLastUpdate.

#[export] Instance key_eq_dec : EqDecision key.
Proof. solve_decision. Defined.

Definition key_string (k : key) : string :=
  match k with
  | KOnline id => online_peer_key id
  | KOnline2 id => online2_peer_key id
  | KOnlineIp id => online_ip_key id
  | KReachable id => reachable_peer_key id
  | KUnknown id => unknown_peer_key id
  | KSeen id => peer_seen_key id
  | KIp id => peer_ip_key id
  | KCountry id => peer_country_key id
  | KCity id => peer_city_key id
  | KRegion id => peer_region_key id
  | KFull id => peer_full_key id
  | KPos id => peer_pos_key id
  | KNetwork id => peer_network_key id
  | KNetworkQuick id n => peer_network_quick_key id (Str.to_lowercase (into_str n))
  | KLastUpdate => last_update_key
  end.

Lemma network_name_lower (n : CKBNetworkType) : Str.to_lowercase (into_str n) = into_str n.
Proof. by destruct n. Qed.

(** Strips equal literal prefixes, then compares what follows the last dot. *)
Ltac key_clash H :=
  cbv [key_string online_peer_key online2_peer_key online_ip_key reachable_peer_key
       unknown_peer_key peer_seen_key peer_ip_key peer_country_key peer_city_key
       peer_region_key peer_full_key peer_pos_key peer_network_key peer_network_quick_key
       last_update_key] in H;
  rewrite ?Str.app_cons, ?Str.app_empty in H;
  first
    [ by simplify_eq
    | simplify_eq;
      match goal with
      | H : _ +:+ _ = _ +:+ _ |- _ =>
          apply Str.dot_suffix_inj in H as [? ?]; [by simplify_eq|by vm_compute..]
      end ].

Lemma network_quick_inj id1 id2 n1 n2 :
  key_string (KNetworkQuick id1 n1) = key_string (KNetworkQuick id2 n2) → id1 = id2 ∧ n1 = n2.
Proof.
  intros Heq. cbn [key_string] in Heq. rewrite !network_name_lower in Heq.
  unfold peer_network_quick_key in Heq. apply Str.app_inj_l in Heq.
  apply Str.dot_suffix_inj in Heq as [-> Hn]; [|by destruct n1|by destruct n2].
  split; [done|]. by destruct n1, n2.
Qed.

#[export] Instance key_string_Inj : Inj (=) (=) key_string.
Proof.
  intros k1 k2 Heq. destruct k1, k2; try (by key_clash Heq).
  by apply network_quick_inj in Heq as [-> ->].
Qed.

(** C34 (functional). The key schema is injective, for arbitrary peer ids: two
    keys are the same string only if they are of the same family and about the
    same peer. A peer id that a stranger chose, dots included, cannot make one
    record of marci overwrite another, nor a set be mistaken for a string. *)
Theorem key_string_inj (k1 k2 : key) : key_string k1 = key_string k2 ↔ k1 = k2.
Proof. split; [apply key_string_Inj|by intros ->]. Qed.
