(* ===== verification/IpInfo.v ===== *)
(** * IpInfo: the geolocation lookups of marci/src/main.rs

    [lookup_ipinfo] with its process-wide cache and its lazily created client,
    and the two queries built on it. ipinfo.io is the class [IpService]. *)
From S2P Require Import Prelude RustStd RustNet Types.

(** The fields of ipinfo's [IpDetails] that marci reads. *)
Record IpDetails := { country : string; city : string; region : string; loc : string }.

#[export] Instance IpDetails_eq_dec : EqDecision IpDetails.
Proof. solve_decision. Defined.

(** [IpInfo::new] with a token, and [IpInfo::lookup]. *)
Class IpService (I : Type) := {
  ip_error : Type;
  ip_new : option string → result I ip_error;
  ip_lookup : string → I → result IpDetails ip_error * I;
}.
Arguments ip_error I {_}.

(** The two statics: [IPINFO_CACHE] and [IPINFO], the latter empty until its
    first use. *)
Record IpState (I : Type) := {
  ipinfo_cache : gmap string IpDetails;
  ipinfo_cell : option I;
}.
Arguments ipinfo_cache {I} _.
Arguments ipinfo_cell {I} _.

Section Queries.
Context {I : Type} `{IpService I}.
(** The environment variables of the process. *)
Context (env : string → option string).

Definition ipinfo_token : option string :=
  match env "IPINFO_IO_TOKEN" with
  | Some token => if decide (token = "") then None else Some token
  | None => None
  end.

(** [ipinfo()]: the client, created on first use; [None] is the panic of [expect]. *)
Definition ipinfo (st : IpState I) : option I :=
  match ipinfo_cell st with
  | Some i => Some i
  | None => ok (ip_new ipinfo_token)
  end.

Definition lookup_ipinfo {E} (ip : string) : comp (IpState I) E (result IpDetails (ip_error I)) :=
  λ st,
  match ipinfo_cache st !! ip with
  | Some ipdetails => (Ret (Ok ipdetails), st)
  | None =>
      match ipinfo st with
      | None => (Panic, st)
      | Some i =>
          match ip_lookup ip i with
          | (Ok ipdetails, i) =>
              (Ret (Ok ipdetails),
               {| ipinfo_cache := <[ip := ipdetails]> (ipinfo_cache st); ipinfo_cell := Some i |})
          | (Err err, i) =>
              (Ret (Err err), {| ipinfo_cache := ipinfo_cache st; ipinfo_cell := Some i |})
          end
      end
  end.

Fixpoint query_endpoints {E} (l : list EndpointInfo) : comp (IpState I) E (option IpDetails) :=
  match l with
  | [] => mret None
  | addr :: l =>
      res ← lookup_ipinfo (Net.ip_string (address addr));
      match res with Ok res => mret (Some res) | Err _ => query_endpoints l end
  end.

Definition query_by_reachable {E} (reachable : ReachableInfo) :
  comp (IpState I) E (option IpDetails) := query_endpoints (addresses (peer reachable)).

Definition query_by_ip {E} (ip : EndpointInfo) : comp (IpState I) E (option IpDetails) :=
  res ← lookup_ipinfo (Net.ip_string (address ip));
  match res with Ok res => mret (Some res) | Err _ => mret None end.

(** ** Properties *)

(** The client exists or can be created. *)
Definition ip_ready (st : IpState I) : Prop := ipinfo st ≠ None.

(** A sequence of lookups, whatever they answer. *)
Fixpoint lookups (l : list string) (st : IpState I) : IpState I :=
  match l with
  | [] => st
  | ip :: l => lookups l (lookup_ipinfo (E:=Empty_set) ip st).2
  end.

Lemma lookup_ipinfo_hit {E} ip d st :
  ipinfo_cache st !! ip = Some d → lookup_ipinfo (E:=E) ip st = (Ret (Ok d), st).
Proof. intros Hc. unfold lookup_ipinfo. by rewrite Hc. Qed.

Lemma lookup_ipinfo_caches {E} ip d st st' :
  lookup_ipinfo (E:=E) ip st = (Ret (Ok d), st') → ipinfo_cache st' !! ip = Some d.
Proof.
  unfold lookup_ipinfo. destruct (ipinfo_cache st !! ip) as [d'|] eqn:Hc.
  - by intros [= <- <-].
  - destruct (ipinfo st) as [i|]; [|done].
    destruct (ip_lookup ip i) as [[d'|e] i']; [|done].
    intros [= <- <-]. apply lookup_insert_eq.
Qed.

Lemma lookup_ipinfo_grows {E} ip st :
  ipinfo_cache st ⊆ ipinfo_cache (lookup_ipinfo (E:=E) ip st).2.
Proof.
  unfold lookup_ipinfo. destruct (ipinfo_cache st !! ip) as [d'|] eqn:Hc; [done|].
  destruct (ipinfo st) as [i|]; [|done].
  destruct (ip_lookup ip i) as [[d'|e] i']; [|done]. by apply insert_subseteq.
Qed.

Lemma lookups_grow l st : ipinfo_cache st ⊆ ipinfo_cache (lookups l st).
Proof.
  revert st. induction l as [|ip l IH]; intros st; [done|]. cbn.
  etrans; [apply (lookup_ipinfo_grows (E:=Empty_set))|apply IH].
Qed.

(** A successful lookup is final: after it, and after any other
    lookups, the same address is answered with the same details, without asking
    the service and without changing the state. *)
Lemma lookup_ipinfo_final {E E'} ip d st st' l :
  lookup_ipinfo (E:=E) ip st = (Ret (Ok d), st') →
  lookup_ipinfo (E:=E') ip (lookups l st') = (Ret (Ok d), lookups l st').
Proof.
  intros Heq. apply lookup_ipinfo_hit. eapply lookup_weaken; [|apply lookups_grow].
  by eapply lookup_ipinfo_caches.
Qed.

Lemma lookup_ipinfo_runs {E} ip st :
  ip_ready st → runs (lookup_ipinfo (E:=E) ip) st (λ _ st', ip_ready st').
Proof.
  unfold runs, lookup_ipinfo. intros Hr.
  destruct (ipinfo_cache st !! ip); [done|].
  unfold ip_ready in *. destruct (ipinfo st) as [i|]; [|done].
  by destruct (ip_lookup ip i) as [[d'|e] i'].
Qed.

Lemma query_endpoints_runs {E} l st :
  ip_ready st → runs (query_endpoints (E:=E) l) st (λ _ st', ip_ready st').
Proof.
  revert st. induction l as [|x l IH]; intros st Hr; [done|]. cbn. apply runs_bind.
  eapply runs_mono; [by apply lookup_ipinfo_runs|]. intros [d|e] st' Hr'; [done|by apply IH].
Qed.

Lemma query_by_ip_runs {E} x st :
  ip_ready st → runs (query_by_ip (E:=E) x) st (λ _ st', ip_ready st').
Proof.
  intros Hr. apply runs_bind. eapply runs_mono; [by apply lookup_ipinfo_runs|].
  by intros [d|e] st'.
Qed.

(** Details that are cached for the text of an address, or that the service gives
    for it. *)
Definition known_details (st : IpState I) (ip : string) (d : IpDetails) : Prop :=
  ipinfo_cache st !! ip = Some d ∨ ∃ i i', ip_lookup ip i = (Ok d, i').

(** Whatever a lookup answers was known, and it adds nothing that was not. *)
Lemma lookup_ipinfo_known {E} ip st :
  let r := lookup_ipinfo (E:=E) ip st in
  (∀ d, r.1 = Ret (Ok d) → known_details st ip d) ∧
  ∀ a d, known_details r.2 a d → known_details st a d.
Proof.
  unfold lookup_ipinfo, known_details. destruct (ipinfo_cache st !! ip) as [d|] eqn:Hd.
  { split; [|done]. intros d' [= <-]. by left. }
  destruct (ipinfo st) as [i|]; [|done]. destruct (ip_lookup ip i) as [[d|e] i'] eqn:Hl; [|done].
  cbn. split; [intros d' [= <-]; eauto|]. intros a d' [Ha|?]; [|by right].
  apply lookup_insert_Some in Ha as [[<- <-]|[_ ?]]; [right; eauto|by left].
Qed.

Lemma query_endpoints_known {E} l st :
  let r := query_endpoints (E:=E) l st in
  (∀ d, r.1 = Ret (Some d) → ∃ x, x ∈ l ∧ known_details st (Net.ip_string (address x)) d) ∧
  ∀ a d, known_details r.2 a d → known_details st a d.
Proof.
  revert st. induction l as [|x l IH]; intros st; [done|]. cbn [query_endpoints].
  pose proof (lookup_ipinfo_known (E:=E) (Net.ip_string (address x)) st) as [Hr Hk].
  unfold mbind, comp_bind. destruct (lookup_ipinfo _ st) as [[[d|e]|e|] st1]; cbn in Hr, Hk |- *; [|destruct (IH st1) as [Hr' Hk']|done..].
  - split; [|done]. intros d' [= <-]. exists x. split; [apply list_elem_of_here|by apply Hr].
  - split; [|auto]. intros d (y & Hy & Hd)%Hr'. exists y. split; [by apply list_elem_of_further|auto].
Qed.

Lemma query_by_ip_known {E} x st :
  let r := query_by_ip (E:=E) x st in
  (∀ d, r.1 = Ret (Some d) → known_details st (Net.ip_string (address x)) d) ∧
  ∀ a d, known_details r.2 a d → known_details st a d.
Proof.
  pose proof (lookup_ipinfo_known (E:=E) (Net.ip_string (address x)) st) as [Hr Hk].
  unfold query_by_ip, mbind, comp_bind. destruct (lookup_ipinfo _ st) as [[[d|e]|e|] st1]; [|done..].
  split; [|done]. intros d' [= <-]. by apply Hr.
Qed.

Section Truth.
(** What the service knows: [truth a d] says that [d] are details of [a]. *)
Context (truth : Net.IpAddr → IpDetails → Prop).
Context (service_truthful :
  ∀ a i d i', ip_lookup (Net.ip_string a) i = (Ok d, i') → truth a d).

(** What is cached under an address is about that address. *)
Definition cache_truthful (st : IpState I) : Prop :=
  ∀ a d, ipinfo_cache st !! Net.ip_string a = Some d → truth a d.

Lemma lookup_ipinfo_truthful {E} a st :
  cache_truthful st → ip_ready st →
  runs (lookup_ipinfo (E:=E) (Net.ip_string a)) st (λ r st',
    cache_truthful st' ∧ ip_ready st' ∧ ∀ d, r = Ok d → truth a d).
Proof.
  intros Hc Hr. unfold runs, lookup_ipinfo.
  destruct (ipinfo_cache st !! _) as [d|] eqn:Hd; [naive_solver|].
  unfold ip_ready in *. destruct (ipinfo st) as [i|]; [|done].
  destruct (ip_lookup _ i) as [[d|e] i'] eqn:Hl; [|done].
  pose proof (service_truthful _ _ _ _ Hl) as Ht. split_and!; [|done|naive_solver].
  intros b d' Hb. cbn in Hb. apply lookup_insert_Some in Hb as [[Heq <-]|[_ Hb]]; [|by apply Hc].
  by apply Net.ip_string_inj in Heq as <-.
Qed.

(** C37 (safety). With a truthful service, the details that [query_by_reachable]
    returns are details of one of the peer's own addresses, and it comes back
    empty-handed, never with a panic, otherwise: the cache, keyed by the text of
    an address, never answers for another address. *)
Theorem query_by_reachable_truthful {E} (reachable : ReachableInfo) st :
  cache_truthful st → ip_ready st →
  runs (query_by_reachable (E:=E) reachable) st (λ r st',
    cache_truthful st' ∧ ip_ready st' ∧
    match r with
    | Some d => ∃ x, x ∈ addresses (peer reachable) ∧ truth (address x) d
    | None => True
    end).
Proof.
  unfold query_by_reachable. generalize (addresses (peer reachable)) as l.
  intros l. revert st. induction l as [|x l IH]; intros st Hc Hr; [done|]. cbn [query_endpoints].
  apply runs_bind. eapply runs_mono; [by apply lookup_ipinfo_truthful|].
  intros [d|e] st' (Hc' & Hr' & Ht).
  - apply runs_ret. split_and!; [done..|]. exists x. split; [apply list_elem_of_here|by apply Ht].
  - eapply runs_mono; [by apply IH|]. intros [d|] st'' (Hc'' & Hr'' & Hd); [|done].
    split_and!; [done..|]. destruct Hd as (y & Hy & Hd). exists y.
    split; [by apply list_elem_of_further|done].
Qed.
End Truth.
End Queries.

(** ** A service that knows one address and counts its queries, for the witnesses *)
Module OneAddress.
Definition known : Net.Ipv4Addr := Net.Octets4 Byte.x34 Byte.x21 Byte.x4b Byte.x2d.
Definition details : IpDetails :=
  {| country := "US"; city := "Boardman"; region := "Oregon"; loc := "45.8399,-119.7006" |}.

#[global] Instance one_address : IpService nat := {|
  ip_error := unit;
  ip_new _ := Ok 0;
  ip_lookup ip n := (if decide (ip = Net.ipv4_string known) then Ok details else Err tt, S n);
|}.

Definition no_env (_ : string) : option string := None.
Definition fresh_state : IpState nat := {| ipinfo_cache := ∅; ipinfo_cell := None |}.
Definition endpoint : EndpointInfo := {| address := Net.V4 known; port := 8124 |}.
Definition other_endpoint : EndpointInfo := {| address := Net.V4 Net.localhost; port := 8114 |}.
Definition node : NodeMetaInfo :=
  {| peer_id := "QmPH"; addresses := [other_endpoint; endpoint]; network := Mirana |}.
Definition reachable : ReachableInfo := reachable_info_new node node.

Lemma lookup_ipinfo_final_witness :
  let st := (lookup_ipinfo (E:=Empty_set) no_env (Net.ipv4_string known) fresh_state).2 in
  lookup_ipinfo (E:=Empty_set) no_env (Net.ipv4_string known) (lookups no_env ["127.0.0.1"] st) =
    (Ret (Ok details), lookups no_env ["127.0.0.1"] st).
Proof.
  apply (lookup_ipinfo_final (E:=Empty_set) no_env _ details fresh_state).
  vm_compute. reflexivity.
Defined.

Lemma query_by_reachable_truthful_witness :
  runs (query_by_reachable (E:=Empty_set) no_env reachable) fresh_state (λ r st',
    cache_truthful (λ a d, a = Net.V4 known ∧ d = details) st' ∧ ip_ready no_env st' ∧
    match r with
    | Some d => ∃ x, x ∈ addresses (peer reachable) ∧ address x = Net.V4 known ∧ d = details
    | None => True
    end).
Proof.
  apply (query_by_reachable_truthful no_env (λ a d, a = Net.V4 known ∧ d = details)).
  - intros a i d i'. cbn. case_decide as Hd; [|done]. intros [= <- _].
    split; [|done]. by apply Net.ip_string_inj.
  - intros a d. cbn. rewrite lookup_empty. done.
  - done.
Defined.
End OneAddress.
