(* ===== verification/Marci.v ===== *)
(** * Marci: the message handlers of marci/src/main.rs

    One definition per branch of the [select!] loop, as computations over the
    world marci lives in: the Redis connection, the geolocation statics, the
    broker and the clock. An early return through [?] leaves [main]. *)
From S2P Require Import Prelude RustStd RustNet Types Redis Services Keys IpInfo.
From Stdlib Require Import Ascii.

(** ** Configuration *)
Record Config := {
  ckb_node_default_timeout : N;
  ckb_node_ex_timeout : N;
  ckb_node_unknown_default_timeout : N;
  ckb_node_default_witnesses : N;
  marci_broadcast_interval : N;
}.

(** [env::var(name).unwrap_or(d).parse::<u64>()] *)
Definition env_u64 (env : string → option string) (name d : string) : option N :=
  Int.parse_u64 (default d (env name)).

(** The five [?] at the start of [main]; [None] is the parse error it returns. *)
Definition load_config (env : string → option string) : option Config :=
  t ← env_u64 env "CKB_NODE_DEFAULT_TIMEOUT" "5184000";
  ex ← env_u64 env "CKB_NODE_EX_DEFAULT_TIMEOUT" "86400";
  u ← env_u64 env "CKB_NODE_UNKNOWN_DEFAULT_TIMEOUT" "1209600";
  wit ← env_u64 env "CKB_NODE_DEFAULT_WITNESSES" "3";
  b ← env_u64 env "MERCI_DEFAULT_INTERVAL" "180";
  Some {| ckb_node_default_timeout := t;
          ckb_node_ex_timeout := ex;
          ckb_node_unknown_default_timeout := u;
          ckb_node_default_witnesses := wit;
          marci_broadcast_interval := b |}.

(** ** The world *)
Record World (R I M C : Type) := MkWorld {
  w_redis : R;
  w_ip : IpState I;
  w_mqtt : M;
  w_clock : C;
}.
Arguments MkWorld {R I M C} _ _ _ _.
Arguments w_redis {R I M C} _.
Arguments w_ip {R I M C} _.
Arguments w_mqtt {R I M C} _.
Arguments w_clock {R I M C} _.

#[export] Instance redis_lens {R I M C} : Lens (World R I M C) R.
Proof.
  refine {| lget := w_redis; lset s w := MkWorld s (w_ip w) (w_mqtt w) (w_clock w) |};
    by intros; try destruct w.
Defined.
#[export] Instance ip_lens {R I M C} : Lens (World R I M C) (IpState I).
Proof.
  refine {| lget := w_ip; lset s w := MkWorld (w_redis w) s (w_mqtt w) (w_clock w) |};
    by intros; try destruct w.
Defined.
#[export] Instance mqtt_lens {R I M C} : Lens (World R I M C) M.
Proof.
  refine {| lget := w_mqtt; lset s w := MkWorld (w_redis w) (w_ip w) s (w_clock w) |};
    by intros; try destruct w.
Defined.
#[export] Instance clock_lens {R I M C} : Lens (World R I M C) C.
Proof.
  refine {| lget := w_clock; lset s w := MkWorld (w_redis w) (w_ip w) (w_mqtt w) s |};
    by intros; try destruct w.
Defined.

(** [Box<dyn Error>] as the handlers fill it. *)
Inductive MarciError (R M : Type) `{Redis R} `{Mqtt M} :=
| BoxedRedis (e : redis_error R)
| BoxedMqtt (e : mqtt_error M).
Arguments BoxedRedis {R M _ _} e.
Arguments BoxedMqtt {R M _ _} e.

Section Handlers.
Context {R I M C : Type} `{Redis R} `{IpService I} `{Mqtt M} `{Clock C}.
Context `{Json EndpointInfo} `{Json NodeMetaInfo}.
Context (env : string → option string) (cfg : Config).

Abbreviation handler := (comp (World R I M C) (MarciError R M)).

(** [con.command(..).await?] *)
Definition await {A} (c : handler (result A (redis_error R))) : handler A :=
  r ← c; question BoxedRedis r.

(** [_check_peer_online], which nothing calls. *)
Definition check_peer_online (peer_id : string) : handler bool :=
  keys ← con_keys peer_id;
  mret (bool_decide (peer_id ∈ unwrap_or [] keys)).

Definition store_geo (id : string) (ip : IpDetails) : handler unit :=
  await (con_set (peer_country_key id) (country ip));;
  await (con_set (peer_city_key id) (city ip));;
  await (con_set (peer_region_key id) (region ip));;
  await (con_set (peer_pos_key id) (loc ip)).

(** [Some(msg) = online_rx.recv()] *)
Definition handle_online (peer : PeerInfo) : handler unit :=
  let id := peer_id (info peer) in
  let timeout := ckb_node_default_timeout cfg in
  got ← con_get_string (online_peer_key id);
  match got with
  | Ok _ =>
      secs ← unwrap (Int.i64_of_u64 timeout);
      await (con_expire (online_peer_key id) secs)
  | Err _ =>
      if is_ex peer
      then await (con_set_ex (online2_peer_key id) (version peer) timeout)
      else await (con_set_ex (online_peer_key id) (version peer) timeout)
  end;;
  match addresses (info peer) with
  | addr :: _ =>
      await (con_set_ex (online_ip_key id) (json_text addr) timeout);;
      geo ← zoom (query_by_ip env addr);
      match geo with Some ip => store_geo id ip | None => mret tt end
  | [] => mret tt
  end;;
  await (con_set (peer_full_key id) (arg_bool (full peer)));;
  t ← now;
  await (con_set (peer_seen_key id) (arg_u64 (unix_secs t)));;
  await (con_del (unknown_peer_key id)).

(** [Some(msg) = unknown_rx.recv()] *)
Definition handle_unknown (peer : NodeMetaInfo) : handler unit :=
  let id := peer_id peer in
  got ← con_get_string (online_peer_key id);
  match got with
  | Ok _ =>
      secs ← unwrap (Int.i64_of_u64 (ckb_node_default_timeout cfg));
      await (con_expire (online_peer_key id) secs)
  | Err _ =>
      n ← con_scard (reachable_peer_key id);
      let witnesses := unwrap_or 0%N n in
      if decide (ckb_node_default_witnesses cfg ≤ witnesses)%N then
        await (con_set_ex (unknown_peer_key id) "unknown" (ckb_node_unknown_default_timeout cfg));;
        await (con_del (reachable_peer_key id))
      else mret tt
  end;;
  t ← now;
  await (con_set (peer_seen_key id) (arg_u64 (unix_secs t))).

(** [con.set::<_, u64, u64>("service.last_update", ..).await.unwrap_or_default()] *)
Definition touch_service : handler unit :=
  t ← now;
  con_set last_update_key (arg_u64 (unix_secs t));;
  mret tt.

(** [Some(msg) = reachable_rx.recv()] *)
Definition handle_reachable (msg : ReachableInfo) : handler unit :=
  let id := peer_id (peer msg) in
  let net := network (peer msg) in
  await (con_sadd (reachable_peer_key id) (peer_id (from msg)));;
  await (con_set (peer_network_quick_key id (Str.to_lowercase (into_str net))) (arg_u64 0));;
  for_each (addresses (peer msg)) (λ ip, await (con_sadd (peer_ip_key id) (json_text ip)));;
  await (con_set (peer_network_key id) (into_str net));;
  t ← now;
  await (con_set (peer_seen_key id) (arg_u64 (unix_secs t)));;
  got ← con_get_string (peer_country_key id);
  (if decide (unwrap_or "" got = "") then
     geo ← zoom (query_by_reachable env msg);
     match geo with Some ip => store_geo id ip | None => mret tt end
   else mret tt);;
  touch_service.

(** [key.rsplit_once('.').map(|(_, part)| part).unwrap_or("")] *)
Definition key_to_peer_id (key : string) : string :=
  default "" (snd <$> Str.rsplit_once "." key).

(** One round of the broadcast loop. *)
Definition request_dial (peer_id : string) : handler unit :=
  raw ← con_smembers (peer_ip_key peer_id);
  net ← con_get_string (peer_network_key peer_id);
  let meta_info :=
    {| peer_id := peer_id;
       addresses := omap of_json (unwrap_or [] raw);
       network := network_from_string (unwrap_or "" net) |} in
  r ← publish "peer/needs_dial" (json_text meta_info);
  question BoxedMqtt r.

(** [_ = reachable_broadcast_interval.tick()] *)
Definition handle_tick : handler unit :=
  keys ← await (con_keys "peer.reachable.*");
  for_each (map key_to_peer_id keys) request_dial;;
  touch_service.
End Handlers.

(** ** Start-up *)
Definition config_variables : list string :=
  ["CKB_NODE_DEFAULT_TIMEOUT"; "CKB_NODE_EX_DEFAULT_TIMEOUT"; "CKB_NODE_UNKNOWN_DEFAULT_TIMEOUT";
   "CKB_NODE_DEFAULT_WITNESSES"; "MERCI_DEFAULT_INTERVAL"].

Lemma env_u64_none env name d :
  is_Some (Int.parse_u64 d) →
  env_u64 env name d = None ↔ ∃ v, env name = Some v ∧ Int.parse_u64 v = None.
Proof.
  intros [n Hd]. unfold env_u64. destruct (env name) as [v|]; cbn; [naive_solver|].
  rewrite Hd. naive_solver.
Qed.

(** Marci refuses to start exactly when one of its five variables is set
    to something that is not a 64-bit number; whatever the rest of the environment,
    unset variables do no harm. *)
Lemma load_config_fails (env : string → option string) :
  load_config env = None ↔
  ∃ name v, name ∈ config_variables ∧ env name = Some v ∧ Int.parse_u64 v = None.
Proof.
  assert (load_config env = None ↔
    env_u64 env "CKB_NODE_DEFAULT_TIMEOUT" "5184000" = None ∨
    env_u64 env "CKB_NODE_EX_DEFAULT_TIMEOUT" "86400" = None ∨
    env_u64 env "CKB_NODE_UNKNOWN_DEFAULT_TIMEOUT" "1209600" = None ∨
    env_u64 env "CKB_NODE_DEFAULT_WITNESSES" "3" = None ∨
    env_u64 env "MERCI_DEFAULT_INTERVAL" "180" = None) as ->.
  { unfold load_config.
    destruct (env_u64 env "CKB_NODE_DEFAULT_TIMEOUT" _); cbn [mbind option_bind]; [|tauto].
    destruct (env_u64 env "CKB_NODE_EX_DEFAULT_TIMEOUT" _); cbn [mbind option_bind]; [|tauto].
    destruct (env_u64 env "CKB_NODE_UNKNOWN_DEFAULT_TIMEOUT" _); cbn [mbind option_bind]; [|tauto].
    destruct (env_u64 env "CKB_NODE_DEFAULT_WITNESSES" _); cbn [mbind option_bind]; [|tauto].
    destruct (env_u64 env "MERCI_DEFAULT_INTERVAL" _); cbn [mbind option_bind]; [|tauto].
    intuition congruence. }
  rewrite !env_u64_none by (by vm_compute; eexists). unfold config_variables. split.
  - intros Hor. destruct_or!; destruct Hor as (v & ? & ?); eexists _, v; (split; [|done]); set_solver.
  - intros (name & v & Hin & ? & ?). set_unfold in Hin. destruct_or?; subst; eauto 8.
Qed.
