(* ===== verification/MarciSpec.v ===== *)
(** * MarciSpec: what marci's handlers do to the database

    For each handler a function on the stored map, and the theorem that the
    handler, on services that follow their laws, returns and leaves exactly that
    map. *)
From S2P Require Import Prelude RustStd RustNet Types Redis Services Keys IpInfo Marci.
From Stdlib Require Import Ascii.

(** ** The abstract specification *)
Section Spec.
Context {R : Type} `{Redis R} `{Json EndpointInfo}.
Context (cfg : Config).
Implicit Types (m : store) (id : string) (geo : option IpDetails) (secs : N).

Definition geo_spec id geo m : store :=
  match geo with
  | Some d =>
      put (peer_pos_key id) (loc d) (put (peer_region_key id) (region d)
        (put (peer_city_key id) (city d) (put (peer_country_key id) (country d) m)))
  | None => m
  end.

(** A peer said to be online: its online record is refreshed, or created in the
    ordinary or the external family; its endpoint and location are recorded, it
    is marked seen and no longer unknown. *)
Definition online_mark (p : PeerInfo) m : store :=
  let id := peer_id (info p) in
  if decide (is_str m (online_peer_key id))
  then touch (online_peer_key id) (ckb_node_default_timeout cfg) m
  else if is_ex p
  then put_ex (online2_peer_key id) (version p) (ckb_node_default_timeout cfg) m
  else put_ex (online_peer_key id) (version p) (ckb_node_default_timeout cfg) m.

Definition online_endpoint (p : PeerInfo) geo m : store :=
  let id := peer_id (info p) in
  match addresses (info p) with
  | addr :: _ =>
      geo_spec id geo (put_ex (online_ip_key id) (json_text addr) (ckb_node_default_timeout cfg) m)
  | [] => m
  end.

Definition online_spec (p : PeerInfo) geo secs m : store :=
  let id := peer_id (info p) in
  delete (unknown_peer_key id)
    (put (peer_seen_key id) (arg_u64 secs)
      (put (peer_full_key id) (arg_bool (full p))
        (online_endpoint p geo (online_mark p m)))).

(** A peer that could not be dialled: if it is online its record is refreshed;
    otherwise, once enough witnesses reported it, it becomes unknown and its
    witnesses are forgotten. *)
Definition unknown_spec (p : NodeMetaInfo) secs m : store :=
  let id := peer_id p in
  put (peer_seen_key id) (arg_u64 secs)
    (if decide (is_str m (online_peer_key id))
     then touch (online_peer_key id) (ckb_node_default_timeout cfg) m
     else if decide (ckb_node_default_witnesses cfg ≤
                     N.of_nat (size (set_at m (reachable_peer_key id))))%N
     then delete (reachable_peer_key id)
            (put_ex (unknown_peer_key id) "unknown" (ckb_node_unknown_default_timeout cfg) m)
     else m).

Definition add_endpoints id (l : list EndpointInfo) m : store :=
  fold_left (λ m ip, add_member (peer_ip_key id) (json_text ip) m) l m.

(** A peer that another peer knows: one more witness, its endpoints and its
    network; its location when it has none yet. *)
Definition reachable_record (msg : ReachableInfo) secs m : store :=
  let id := peer_id (peer msg) in
  let net := network (peer msg) in
  put (peer_seen_key id) (arg_u64 secs)
    (put (peer_network_key id) (into_str net)
      (add_endpoints id (addresses (peer msg))
        (put (peer_network_quick_key id (Str.to_lowercase (into_str net))) (arg_u64 0)
          (add_member (reachable_peer_key id) (peer_id (from msg)) m)))).

Definition reachable_spec (msg : ReachableInfo) geo secs secs' m : store :=
  let m := reachable_record msg secs m in
  put last_update_key (arg_u64 secs')
    (if decide (default "" (str_at m (peer_country_key (peer_id (peer msg)))) = "")
     then geo_spec (peer_id (peer msg)) geo m else m).

Definition tick_spec secs m : store := put last_update_key (arg_u64 secs) m.
End Spec.

(** ** Lemmas on the store *)

Lemma is_str_some (m : store) k : is_str m k ↔ is_Some (str_at m k).
Proof.
  unfold is_str, str_at. destruct (m !! k) as [[[] ?]|]; split; try done; by intros [? ?].
Qed.

Lemma is_str_put (m : store) k k' v : k ≠ k' → is_str (put k' v m) k ↔ is_str m k.
Proof. intros Hk. unfold is_str, put. by rewrite lookup_insert_ne. Qed.

Lemma is_str_add_member (m : store) k k' x : is_str (add_member k' x m) k ↔ is_str m k.
Proof.
  unfold is_str, add_member. destruct (decide (k = k')) as [->|Hk].
  - destruct (m !! k') as [[[] ?]|] eqn:Hm; rewrite ?lookup_insert_eq, ?Hm; done.
  - destruct (m !! k') as [[[] ?]|]; by rewrite ?lookup_insert_ne.
Qed.

(** ** Symbolic execution over the concrete world *)
Section Rules.
Context {R I M C : Type} `{RedisLaws R} `{IpService I} `{MqttLaws M} `{Clock C}.
Context `{Json EndpointInfo} `{Json NodeMetaInfo}.
Context (env : string → option string) (cfg : Config).

Definition healthy (w : World R I M C) : Prop :=
  up (w_redis w) ∧ ip_ready env (w_ip w) ∧ mqtt_up (w_mqtt w).

(** The timeouts are ones the server accepts. *)
Definition config_ok : Prop :=
  (0 < ckb_node_default_timeout cfg ≤ ttl_max)%N ∧
  (0 < ckb_node_unknown_default_timeout cfg ≤ ttl_max)%N.

Implicit Types (s : R) (i : IpState I) (m : M) (c : C).
Implicit Types (Q : unit → World R I M C → Prop).

Lemma await_set k v s i m c Q :
  up s → (∀ s', up s' → view s' = put k v (view s) → Q tt (MkWorld s' i m c)) →
  runs (await (con_set k v)) (MkWorld s i m c) Q.
Proof. intros ? HQ. apply runs_bind, runs_set; [done|]. intros s' ??. by apply HQ. Qed.

Lemma await_set_ex k v t s i m c Q :
  up s → (0 < t ≤ ttl_max)%N →
  (∀ s', up s' → view s' = put_ex k v t (view s) → Q tt (MkWorld s' i m c)) →
  runs (await (con_set_ex k v t)) (MkWorld s i m c) Q.
Proof. intros ?? HQ. apply runs_bind, runs_set_ex; [done..|]. intros s' ??. by apply HQ. Qed.

Lemma await_expire k t s i m c Q :
  up s → (0 < t ≤ ttl_max)%N →
  (∀ s', up s' → view s' = touch k t (view s) → Q tt (MkWorld s' i m c)) →
  runs (await (con_expire k t)) (MkWorld s i m c) Q.
Proof. intros ?? HQ. apply runs_bind, runs_expire; [done..|]. intros s' ??. by apply HQ. Qed.

Lemma await_del k s i m c Q :
  up s → (∀ s', up s' → view s' = delete k (view s) → Q tt (MkWorld s' i m c)) →
  runs (await (con_del k)) (MkWorld s i m c) Q.
Proof. intros ? HQ. apply runs_bind, runs_del; [done|]. intros s' ??. by apply HQ. Qed.

Lemma await_sadd k x s i m c Q :
  up s → ¬ is_str (view s) k →
  (∀ s', up s' → view s' = add_member k x (view s) → Q tt (MkWorld s' i m c)) →
  runs (await (con_sadd k x)) (MkWorld s i m c) Q.
Proof. intros ?? HQ. apply runs_bind, runs_sadd; [done..|]. intros s' ??. by apply HQ. Qed.

(** The timeout fits the [i64] that EXPIRE takes. *)
Lemma unwrap_timeout t s i m c (Q : N → World R I M C → Prop) :
  (t ≤ ttl_max)%N → Q t (MkWorld s i m c) →
  runs (E:=MarciError R M) (unwrap (Int.i64_of_u64 t)) (MkWorld s i m c) Q.
Proof.
  intros Ht HQ. pose proof ttl_max_i64. unfold Int.i64_of_u64.
  by rewrite decide_True by (etrans; done).
Qed.

Ltac redis_step :=
  match goal with
  | |- runs (_ ≫= _) _ _ => apply runs_bind
  | |- runs (mret _) _ _ => apply runs_ret
  | |- runs (await (con_set _ _)) _ _ => apply await_set; [done|]
  | |- runs (await (con_set_ex _ _ _)) _ _ => apply await_set_ex; [done..|]
  | |- runs (await (con_expire _ _)) _ _ => apply await_expire; [done..|]
  | |- runs (await (con_del _)) _ _ => apply await_del; [done|]
  | |- runs now _ _ => apply runs_now; cbn [lget lset clock_lens w_redis w_ip w_mqtt w_clock]
  end; cbv beta; try (intros ?s ?Hup ?Hview).

Lemma store_geo_spec id geo s i m c Q :
  up s →
  (∀ s', up s' → view s' = geo_spec id geo (view s) → Q tt (MkWorld s' i m c)) →
  runs (match geo with Some ip => store_geo id ip | None => mret tt end) (MkWorld s i m c) Q.
Proof.
  intros Hup HQ. destruct geo as [ip|]; [|apply HQ; done]. unfold store_geo.
  repeat redis_step. apply HQ; [done|]. cbn. congruence.
Qed.

(** What a geolocation query answers in a given state. *)
Definition answer {A} (d : A) (r : outcome (MarciError R M) A * IpState I) : A :=
  match r.1 with Ret a => a | _ => d end.
Definition geo_of (l : list EndpointInfo) (i : IpState I) : option IpDetails :=
  match l with [] => None | addr :: _ => answer None (query_by_ip env addr i) end.

Lemma run_query_by_ip addr s i m c (Q : option IpDetails → World R I M C → Prop) :
  ip_ready env i →
  (∀ i', ip_ready env i' → Q (answer None (query_by_ip env addr i)) (MkWorld s i' m c)) →
  runs (E:=MarciError R M) (zoom (query_by_ip env addr)) (MkWorld s i m c) Q.
Proof.
  intros Hi HQ. apply runs_zoom. cbn [lget ip_lens w_ip].
  pose proof (query_by_ip_runs (E:=MarciError R M) env addr i Hi) as Hr.
  unfold runs, answer in *. destruct (query_by_ip env addr i) as [[g|e|] i'] eqn:Hq; try done.
  by apply HQ.
Qed.

Lemma run_query_by_reachable msg s i m c (Q : option IpDetails → World R I M C → Prop) :
  ip_ready env i →
  (∀ i', ip_ready env i' → Q (answer None (query_by_reachable env msg i)) (MkWorld s i' m c)) →
  runs (E:=MarciError R M) (zoom (query_by_reachable env msg)) (MkWorld s i m c) Q.
Proof.
  intros Hi HQ. apply runs_zoom. cbn [lget ip_lens w_ip].
  pose proof (query_endpoints_runs (E:=MarciError R M) env (addresses (peer msg)) i Hi) as Hr.
  fold (query_by_reachable (E:=MarciError R M) env msg) in Hr.
  unfold runs, answer in *. destruct (query_by_reachable env msg i) as [[g|e|] i'] eqn:Hq; try done.
  by apply HQ.
Qed.


(** The first statement of the online and unknown handlers: a live online
    record is refreshed. *)
Lemma run_refresh k s i m c (no : comp (World R I M C) (MarciError R M) unit)
    (F : store → store) Q :
  up s → (ckb_node_default_timeout cfg ≤ ttl_max)%N → (0 < ckb_node_default_timeout cfg)%N →
  (∀ s', up s' → view s' = view s → ¬ is_str (view s) k →
     runs no (MkWorld s' i m c) (λ _ w', ∃ s'', w' = MkWorld s'' i m c ∧ up s'' ∧
       view s'' = F (view s))) →
  (∀ s', up s' →
     view s' = (if decide (is_str (view s) k)
                then touch k (ckb_node_default_timeout cfg) (view s) else F (view s)) →
     Q tt (MkWorld s' i m c)) →
  runs (got ← con_get_string k;
        match got with
        | Ok _ =>
            secs ← unwrap (Int.i64_of_u64 (ckb_node_default_timeout cfg));
            await (con_expire k secs)
        | Err _ => no
        end) (MkWorld s i m c) Q.
Proof.
  intros Hup Ht Hpos Hno HQ. apply runs_bind, runs_get_string; [done|]. intros r s1 Hup1 Hv1 Hr.
  cbn [lget lset redis_lens w_redis w_ip w_mqtt w_clock] in *.
  destruct r as [v|e]; cbn in Hr.
  - rewrite decide_True in HQ by (rewrite is_str_some; eauto).
    apply runs_bind, unwrap_timeout; [done|]. redis_step. apply HQ; [done|]. congruence.
  - assert (¬ is_str (view s) k) as Hk by (rewrite is_str_some, <- Hr; by intros [? ?]).
    rewrite decide_False in HQ by done.
    eapply runs_mono; [by apply Hno|]. intros [] w' (s2 & -> & Hup2 & Hv2). by apply HQ.
Qed.

Lemma online_runs (p : PeerInfo) (w : World R I M C) :
  config_ok → healthy w →
  runs (handle_online env cfg p) w (λ _ w',
    healthy w' ∧ sent (w_mqtt w') = sent (w_mqtt w) ∧
    view (w_redis w') =
      online_spec cfg p (geo_of (addresses (info p)) (w_ip w))
        (unix_secs (clock_now (w_clock w)).1) (view (w_redis w))).
Proof.
  intros [[Hpos Ht] _] (Hup & Hip & Hmq). destruct w as [s i m c]. cbn in Hup, Hip, Hmq.
  unfold handle_online. cbv zeta. apply runs_assoc, runs_bind.
  apply run_refresh with (F := λ st,
    if is_ex p then put_ex (online2_peer_key (peer_id (info p))) (version p) (ckb_node_default_timeout cfg) st
    else put_ex (online_peer_key (peer_id (info p))) (version p) (ckb_node_default_timeout cfg) st);
    [done..| |].
  { intros s' Hup' Hv' _. destruct (is_ex p); redis_step; eexists; split_and!; try done; congruence. }
  intros s1 Hup1 Hv1. fold (online_mark cfg p (view s)) in Hv1. apply runs_bind.
  apply runs_mono with (Q := λ _ w', ∃ s' i', w' = MkWorld s' i' m c ∧ up s' ∧ ip_ready env i' ∧
    view s' = online_endpoint cfg p (geo_of (addresses (info p)) i) (online_mark cfg p (view s))).
  { unfold online_endpoint, geo_of. destruct (addresses (info p)) as [|addr l].
    - apply runs_ret. by eexists _, _.
    - do 2 redis_step. redis_step. apply run_query_by_ip; [done|]. intros i' Hi'.
      apply store_geo_spec; [done|]. intros s' Hup' Hv'.
      eexists _, _. split_and!; [done..|]. congruence. }
  intros [] ? (s2 & i' & -> & Hup2 & Hi' & Hv2).
  repeat redis_step. split_and!; [done..|]. cbn. unfold online_spec. congruence.
Qed.

(** C10 (refinement). On services that follow their laws the online handler
    returns, publishes nothing, and leaves the database exactly as [online_spec]
    says: an existing online record keeps its version and only has its time to
    live renewed; a new one goes to the family the message names; first endpoint,
    location, fullness and time are recorded; the unknown record is removed. *)
Theorem handle_online_refines (p : PeerInfo) (w : World R I M C) :
  config_ok → healthy w →
  runs (handle_online env cfg p) w (λ _ w',
    healthy w' ∧ sent (w_mqtt w') = sent (w_mqtt w) ∧
    view (w_redis w') =
      online_spec cfg p (geo_of (addresses (info p)) (w_ip w))
        (unix_secs (clock_now (w_clock w)).1) (view (w_redis w))).
Proof. apply online_runs. Qed.

Lemma unknown_runs (p : NodeMetaInfo) (w : World R I M C) :
  config_ok → healthy w →
  runs (handle_unknown cfg p) w (λ _ w',
    healthy w' ∧ sent (w_mqtt w') = sent (w_mqtt w) ∧
    view (w_redis w') =
      unknown_spec cfg p (unix_secs (clock_now (w_clock w)).1) (view (w_redis w))).
Proof.
  intros [[Hpos Ht] Hu] (Hup & Hip & Hmq). destruct w as [s i m c]. cbn in Hup, Hip, Hmq.
  unfold handle_unknown, unknown_spec. cbv zeta. apply runs_assoc, runs_bind.
  set (id := peer_id p).
  apply run_refresh with (F := λ st,
    if decide (ckb_node_default_witnesses cfg ≤ N.of_nat (size (set_at st (reachable_peer_key id))))%N
    then delete (reachable_peer_key id)
           (put_ex (unknown_peer_key id) "unknown" (ckb_node_unknown_default_timeout cfg) st)
    else st); [done..| |].
  { intros s' Hup' Hv' _. apply runs_bind, runs_scard; [done|]. intros r s2 Hup2 Hv2 Hr.
    cbn [lget lset redis_lens w_redis w_ip w_mqtt w_clock] in *. rewrite Hr, Hv'.
    case_decide; repeat redis_step; eexists; split_and!; try done; congruence. }
  intros s1 Hup1 Hv1. repeat redis_step. split_and!; [done..|]. cbn. congruence.
Qed.

(** C11 (refinement). On services that follow their laws the unknown handler
    returns, publishes nothing and implements [unknown_spec]: a peer with an
    online record is only refreshed; any other becomes unknown exactly when the
    configured number of distinct witnesses reported it, and its witnesses are
    then forgotten. *)
Theorem handle_unknown_refines (p : NodeMetaInfo) (w : World R I M C) :
  config_ok → healthy w →
  runs (handle_unknown cfg p) w (λ _ w',
    healthy w' ∧ sent (w_mqtt w') = sent (w_mqtt w) ∧
    view (w_redis w') =
      unknown_spec cfg p (unix_secs (clock_now (w_clock w)).1) (view (w_redis w))).
Proof. apply unknown_runs. Qed.

Lemma run_touch_service s i m c Q :
  up s →
  (∀ s' c', up s' → view s' = put last_update_key (arg_u64 (unix_secs (clock_now c).1)) (view s) →
     Q tt (MkWorld s' i m c')) →
  runs (E:=MarciError R M) touch_service (MkWorld s i m c) Q.
Proof.
  intros Hup HQ. unfold touch_service. redis_step. redis_step. apply runs_bind, runs_set; [done|].
  intros s' Hup' Hv'. apply runs_ret. by apply HQ.
Qed.

Lemma run_add_endpoints k (l : list EndpointInfo) s i m c Q :
  up s → ¬ is_str (view s) k →
  (∀ s', up s' → view s' = fold_left (λ st ip, add_member k (json_text ip) st) l (view s) →
     Q tt (MkWorld s' i m c)) →
  runs (for_each l (λ ip, await (con_sadd k (json_text ip)))) (MkWorld s i m c) Q.
Proof.
  intros Hup Hk HQ.
  apply runs_for_each with (I := λ pre w, ∃ s', w = MkWorld s' i m c ∧ up s' ∧ ¬ is_str (view s') k ∧
    view s' = fold_left (λ st ip, add_member k (json_text ip) st) pre (view s)).
  - by exists s.
  - intros pre x post w _ (s1 & -> & Hup1 & Hk1 & Hv1). apply await_sadd; [done..|].
    intros s2 Hup2 Hv2. exists s2. split_and!; [done..| |].
    + by rewrite Hv2, is_str_add_member.
    + by rewrite fold_left_app, <- Hv1.
  - intros w (s' & -> & Hup' & _ & Hv'). by apply HQ.
Qed.

Lemma reachable_runs (msg : ReachableInfo) (w : World R I M C) :
  healthy w →
  ¬ is_str (view (w_redis w)) (reachable_peer_key (peer_id (peer msg))) →
  ¬ is_str (view (w_redis w)) (peer_ip_key (peer_id (peer msg))) →
  runs (handle_reachable env msg) w (λ _ w',
    healthy w' ∧ sent (w_mqtt w') = sent (w_mqtt w) ∧
    view (w_redis w') =
      reachable_spec msg (answer None (query_by_reachable env msg (w_ip w)))
        (unix_secs (clock_now (w_clock w)).1)
        (unix_secs (clock_now (clock_now (w_clock w)).2).1) (view (w_redis w))).
Proof.
  intros (Hup & Hip & Hmq) Hreach Hips. destruct w as [s i m c].
  cbn in Hup, Hip, Hmq, Hreach, Hips. unfold handle_reachable, reachable_spec.
  set (id := peer_id (peer msg)) in *.
  redis_step. apply await_sadd; [done..|]. intros s1 Hup1 Hv1. do 2 redis_step.
  redis_step. apply run_add_endpoints; [done| |].
  { rewrite Hview, is_str_put by (by intros ?%(inj key_string (KIp id) (KNetworkQuick id (network (peer msg))))).
    by rewrite Hv1, is_str_add_member. }
  intros s2 Hup2 Hv2. repeat redis_step. apply runs_get_string; [done|].
  intros r s5 Hup5 Hv5 Hr. cbn [lget lset redis_lens w_redis w_ip w_mqtt w_clock] in *.
  assert (view s5 = reachable_record msg (unix_secs (clock_now c).1) (view s)) as Hrec.
  { unfold reachable_record, add_endpoints. fold id. congruence. }
  rewrite <- Hrec. rewrite <- Hv5 in Hr.
  assert (unwrap_or "" r = default "" (str_at (view s5) (peer_country_key id))) as ->.
  { rewrite <- Hr. by destruct r. }
  redis_step.
  apply runs_mono with (Q := λ _ w', ∃ s' i', w' = MkWorld s' i' m (clock_now c).2 ∧ up s' ∧
    ip_ready env i' ∧ view s' =
      (if decide (default "" (str_at (view s5) (peer_country_key id)) = "")
       then geo_spec id (answer None (query_by_reachable env msg i)) (view s5) else view s5)).
  { case_decide; [|apply runs_ret; by eexists _, _].
    redis_step. apply run_query_by_reachable; [done|]. intros i' Hi'.
    apply store_geo_spec; [done|]. intros s' Hup' Hv'. by eexists _, _. }
  intros [] ? (s6 & i' & -> & Hup6 & Hi' & Hv6).
  apply run_touch_service; [done|]. intros s7 c' Hup7 Hv7. split_and!; [done..|].
  cbn. by rewrite Hv7, Hv6.
Qed.

(** C12 (refinement). On services that follow their laws, and when the two sets it
    adds to are not strings in the database, the reachable handler returns,
    publishes nothing and implements [reachable_spec]: the reporter becomes a
    witness, every endpoint is added to those known, the network is recorded
    under both keys, and a location is looked up only if none is recorded. *)
Theorem handle_reachable_refines (msg : ReachableInfo) (w : World R I M C) :
  healthy w →
  ¬ is_str (view (w_redis w)) (reachable_peer_key (peer_id (peer msg))) →
  ¬ is_str (view (w_redis w)) (peer_ip_key (peer_id (peer msg))) →
  runs (handle_reachable env msg) w (λ _ w',
    healthy w' ∧ sent (w_mqtt w') = sent (w_mqtt w) ∧
    view (w_redis w') =
      reachable_spec msg (answer None (query_by_reachable env msg (w_ip w)))
        (unix_secs (clock_now (w_clock w)).1)
        (unix_secs (clock_now (clock_now (w_clock w)).2).1) (view (w_redis w))).
Proof. apply reachable_runs. Qed.

(** ** The broadcast *)

(** What is published about a peer: all its endpoints that parse, in some order,
    and its network, the main network when none is recorded. *)
Definition dial_request (st : store) (id payload : string) : Prop :=
  ∃ raw, NoDup raw ∧ (∀ x, x ∈ raw ↔ x ∈ set_at st (peer_ip_key id)) ∧
    payload = json_text {|
      peer_id := id;
      addresses := omap of_json raw;
      network := network_from_string (default "" (str_at st (peer_network_key id))) |}.

Lemma run_request_dial id s i m c Q :
  up s → mqtt_up m →
  (∀ s' m' payload, up s' → mqtt_up m' → view s' = view s → dial_request (view s) id payload →
     sent m' = sent m ++ [("peer/needs_dial", payload)] → Q tt (MkWorld s' i m' c)) →
  runs (request_dial id) (MkWorld s i m c) Q.
Proof.
  intros Hup Hmq HQ. unfold request_dial. redis_step. apply runs_smembers; [done|].
  intros raw s1 Hup1 Hv1 Hnd Hraw. redis_step. apply runs_get_string; [done|].
  intros net s2 Hup2 Hv2 Hnet. cbn [lget lset redis_lens w_redis w_ip w_mqtt w_clock] in *.
  cbv zeta. redis_step. apply runs_publish; [done|]. intros m' Hmq' Hsent.
  cbn [lget lset mqtt_lens w_redis w_ip w_mqtt w_clock] in *.
  eapply HQ; [done|done|congruence| |exact Hsent].
  exists (unwrap_or [] raw). split_and!; [done..|]. rewrite <- Hv1, <- Hnet. by destruct net.
Qed.

Lemma key_to_peer_id_reachable id :
  Str.has_char "." id = false → key_to_peer_id (reachable_peer_key id) = id.
Proof.
  intros Hid. unfold key_to_peer_id.
  change (reachable_peer_key id) with ("peer.reachable" +:+ String "." id).
  by rewrite Str.rsplit_once_app.
Qed.

(** The ids found in the keys of the witness sets. *)
Lemma reachable_ids (st : store) keys :
  (∀ id, reachable_peer_key id ∈ dom st → Str.has_char "." id = false) →
  NoDup keys →
  (∀ k, k ∈ keys ↔ k ∈ dom st ∧ ∃ x, k = "peer.reachable." +:+ x +:+ "") →
  NoDup (map key_to_peer_id keys) ∧
  ∀ id, id ∈ map key_to_peer_id keys ↔ reachable_peer_key id ∈ dom st.
Proof.
  intros Hdots Hnd Hkeys.
  assert (∀ k, k ∈ keys → k = reachable_peer_key (key_to_peer_id k) ∧ k ∈ dom st) as Hk.
  { intros k [Hdom [x ->]]%Hkeys. rewrite Str.app_nil_r in *. fold (reachable_peer_key x) in *.
    by rewrite key_to_peer_id_reachable by by apply Hdots. }
  split.
  - apply (NoDup_fmap_1 reachable_peer_key). rewrite <- list_fmap_compose.
    rewrite (list_fmap_ext _ id); [by rewrite list_fmap_id|].
    intros n k Hn%list_elem_of_lookup_2. by destruct (Hk k Hn).
  - intros id. rewrite list_elem_of_fmap. split.
    + intros (k & -> & Hin). destruct (Hk k Hin) as [Heq Hd]. by rewrite <- Heq.
    + intros Hd. exists (reachable_peer_key id). split.
      * by rewrite key_to_peer_id_reachable by by apply Hdots.
      * apply Hkeys. split; [done|]. exists id. by rewrite Str.app_nil_r.
Qed.

(** What a tick does, whatever the ids look like. *)
Lemma tick_runs (w : World R I M C) :
  healthy w →
  runs handle_tick w (λ _ w',
    healthy w' ∧
    view (w_redis w') = tick_spec (unix_secs (clock_now (w_clock w)).1) (view (w_redis w)) ∧
    ∃ keys payloads,
      NoDup keys ∧
      (∀ k, k ∈ keys ↔ k ∈ dom (view (w_redis w)) ∧ ∃ x, k = "peer.reachable." +:+ x +:+ "") ∧
      Forall2 (dial_request (view (w_redis w))) (map key_to_peer_id keys) payloads ∧
      sent (w_mqtt w') = sent (w_mqtt w) ++ map (pair "peer/needs_dial") payloads).
Proof.
  intros (Hup & Hip & Hmq). destruct w as [s i m c]. cbn in Hup, Hip, Hmq.
  unfold handle_tick. redis_step. unfold await. redis_step.
  change "peer.reachable.*" with ("peer.reachable." +:+ "*" +:+ "").
  apply runs_keys_star; [done|by repeat split..|]. intros keys s1 Hup1 Hv1 Hnd Hkeys.
  cbn [lget lset redis_lens w_redis w_ip w_mqtt w_clock] in *.
  apply runs_of with (a := keys) (w' := MkWorld s1 i m c); [done|]. redis_step.
  apply runs_for_each with (I := λ pre w, ∃ s' m' payloads, w = MkWorld s' i m' c ∧ up s' ∧
    mqtt_up m' ∧ view s' = view s ∧ Forall2 (dial_request (view s)) pre payloads ∧
    sent m' = sent m ++ map (pair "peer/needs_dial") payloads).
  - exists s1, m, []. split_and!; try done. by rewrite app_nil_r.
  - intros pre id post w _ (s' & m' & ps & -> & Hup' & Hmq' & Hv' & Hall & Hsent).
    apply run_request_dial; [done..|]. intros s2 m2 payload Hup2 Hmq2 Hv2 Hd Hs2.
    rewrite Hv' in Hd. exists s2, m2, (ps ++ [payload]). split_and!; [done..|congruence| |].
    + by apply Forall2_app; [|constructor].
    + by rewrite Hs2, Hsent, map_app, <- app_assoc.
  - intros w (s' & m' & ps & -> & Hup' & Hmq' & Hv' & Hall & Hsent).
    apply run_touch_service; [done|]. intros s2 c' Hup2 Hv2. split_and!; [done..| |].
    + cbn. by rewrite Hv2, Hv'.
    + by exists keys, ps.
Qed.

(** C13 (refinement). A tick publishes on [peer/needs_dial] exactly one request per
    peer that has witnesses, carrying that peer's recorded endpoints and network;
    apart from the time of the last update the database is unchanged. Peer ids
    are base58 text, which has no dot. *)
Theorem handle_tick_refines (w : World R I M C) :
  healthy w →
  (∀ id, reachable_peer_key id ∈ dom (view (w_redis w)) → Str.has_char "." id = false) →
  runs handle_tick w (λ _ w',
    healthy w' ∧
    view (w_redis w') = tick_spec (unix_secs (clock_now (w_clock w)).1) (view (w_redis w)) ∧
    ∃ ids payloads,
      NoDup ids ∧ (∀ id, id ∈ ids ↔ reachable_peer_key id ∈ dom (view (w_redis w))) ∧
      Forall2 (dial_request (view (w_redis w))) ids payloads ∧
      sent (w_mqtt w') = sent (w_mqtt w) ++ map (pair "peer/needs_dial") payloads).
Proof.
  intros Hw Hdots. eapply runs_mono; [by apply tick_runs|].
  intros [] w' (Hw' & Hv & keys & payloads & Hnd & Hkeys & Hall & Hsent).
  destruct (reachable_ids _ keys Hdots Hnd Hkeys) as [Hnd' Hids]. eauto 10.
Qed.
End Rules.
