(* ===== verification/MarciInv.v ===== *)
(** * MarciInv: the well-formedness of marci's database

    Each key family holds one type of value, expiring or not, and some records
    imply others. Every handler's specification preserves this, and so does the
    passing of time. *)
From S2P Require Import Prelude RustStd RustNet Types Redis Keys IpInfo Marci MarciSpec.

(** ** Reading the store through [key] *)
Section Access.
Implicit Types (m : store) (k : key).

Definition has m k : Prop := is_Some (m !! key_string k).
#[export] Instance has_dec m k : Decision (has m k).
Proof. unfold has. apply _. Defined.
Definition text_at m k : option string := str_at m (key_string k).

Lemma lookup_key_insert m k k' e :
  <[key_string k' := e]> m !! key_string k = if decide (k = k') then Some e else m !! key_string k.
Proof.
  case_decide as Hk; [subst; apply lookup_insert_eq|].
  apply lookup_insert_ne. by intros ?%(inj key_string).
Qed.

Lemma lookup_key_delete m k k' :
  delete (key_string k') m !! key_string k = if decide (k = k') then None else m !! key_string k.
Proof.
  case_decide as Hk; [subst; apply lookup_delete_eq|].
  apply lookup_delete_ne. by intros ?%(inj key_string).
Qed.

Lemma lookup_key_touch m k k' t :
  touch (key_string k') t m !! key_string k =
    if decide (k = k') then (λ e, Entry (e_value e) (Some t)) <$> m !! key_string k
    else m !! key_string k.
Proof.
  unfold touch. case_decide as Hk; [subst; apply lookup_alter_eq|].
  apply lookup_alter_ne. by intros ?%(inj key_string).
Qed.

Lemma lookup_key_add m k k' x :
  add_member (key_string k') x m !! key_string k =
    if decide (k = k') then
      match m !! key_string k with
      | Some (Entry (RSet s) t) => Some (Entry (RSet ({[x]} ∪ s)) t)
      | Some e => Some e
      | None => Some (Entry (RSet {[x]}) None)
      end
    else m !! key_string k.
Proof.
  unfold add_member. case_decide as Hk; [subst k'|].
  - destruct (m !! key_string k) as [[[v|s] t]|] eqn:Hm; rewrite ?lookup_insert_eq; done.
  - destruct (m !! key_string k') as [[[v|s] t]|]; rewrite ?lookup_key_insert, ?decide_False; done.
Qed.

Lemma has_put m k k' v : has (put (key_string k') v m) k ↔ k = k' ∨ has m k.
Proof. unfold has, put. rewrite lookup_key_insert. case_decide; naive_solver. Qed.
Lemma has_put_ex m k k' v t : has (put_ex (key_string k') v t m) k ↔ k = k' ∨ has m k.
Proof. unfold has, put_ex. rewrite lookup_key_insert. case_decide; naive_solver. Qed.
Lemma has_touch m k k' t : has (touch (key_string k') t m) k ↔ has m k.
Proof. unfold has. rewrite lookup_key_touch. case_decide; [|done]. by rewrite fmap_is_Some. Qed.
Lemma has_delete m k k' : has (delete (key_string k') m) k ↔ k ≠ k' ∧ has m k.
Proof.
  unfold has. rewrite lookup_key_delete. case_decide; [|naive_solver].
  split; [by intros [? ?]|by intros [? _]].
Qed.
Lemma has_add m k k' x : has (add_member (key_string k') x m) k ↔ k = k' ∨ has m k.
Proof.
  unfold has. rewrite lookup_key_add. case_decide as Hk; [|naive_solver].
  split; [by left|]. intros _. destruct (m !! key_string k) as [[[v|s] t]|]; eauto.
Qed.

Lemma text_put m k k' v :
  text_at (put (key_string k') v m) k = if decide (k = k') then Some v else text_at m k.
Proof. unfold text_at, str_at, put. rewrite lookup_key_insert. by case_decide. Qed.
Lemma text_put_ex m k k' v t :
  text_at (put_ex (key_string k') v t m) k = if decide (k = k') then Some v else text_at m k.
Proof. unfold text_at, str_at, put_ex. rewrite lookup_key_insert. by case_decide. Qed.
Lemma text_touch m k k' t : text_at (touch (key_string k') t m) k = text_at m k.
Proof.
  unfold text_at, str_at. rewrite lookup_key_touch. case_decide; [|done].
  by destruct (m !! key_string k) as [[[v|s] u]|].
Qed.
Lemma text_delete m k k' :
  text_at (delete (key_string k') m) k = if decide (k = k') then None else text_at m k.
Proof. unfold text_at, str_at. rewrite lookup_key_delete. by case_decide. Qed.
Lemma text_add m k k' x : text_at (add_member (key_string k') x m) k = text_at m k.
Proof.
  unfold text_at, str_at. rewrite lookup_key_add. case_decide; [|done].
  by destruct (m !! key_string k) as [[[v|s] u]|].
Qed.
End Access.

(** The formats, as [key]s. *)
Ltac keyify :=
  change online_peer_key with (λ id, key_string (KOnline id)) in *;
  change online2_peer_key with (λ id, key_string (KOnline2 id)) in *;
  change online_ip_key with (λ id, key_string (KOnlineIp id)) in *;
  change reachable_peer_key with (λ id, key_string (KReachable id)) in *;
  change unknown_peer_key with (λ id, key_string (KUnknown id)) in *;
  change peer_seen_key with (λ id, key_string (KSeen id)) in *;
  change peer_ip_key with (λ id, key_string (KIp id)) in *;
  change peer_country_key with (λ id, key_string (KCountry id)) in *;
  change peer_city_key with (λ id, key_string (KCity id)) in *;
  change peer_region_key with (λ id, key_string (KRegion id)) in *;
  change peer_full_key with (λ id, key_string (KFull id)) in *;
  change peer_pos_key with (λ id, key_string (KPos id)) in *;
  change peer_network_key with (λ id, key_string (KNetwork id)) in *;
  change last_update_key with (key_string KLastUpdate) in *;
  repeat match goal with
  | |- context [peer_network_quick_key ?id (Str.to_lowercase (into_str ?n))] =>
      change (peer_network_quick_key id (Str.to_lowercase (into_str n)))
        with (key_string (KNetworkQuick id n))
  end;
  cbv beta in *.

#[export] Hint Rewrite has_put has_put_ex has_touch has_delete has_add : rust.
#[export] Hint Rewrite text_put text_put_ex text_touch text_delete text_add : rust.

(** ** The invariant *)
Section Invariant.
Context {R : Type} `{Redis R} `{Json EndpointInfo}.
Implicit Types (m : store) (k : key) (e : entry) (id : string).

(** What may be stored under a key. *)
Definition typed k e : Prop :=
  match k with
  | KOnline _ | KOnline2 _ => ∃ v t, e = Entry (RStr v) (Some t) ∧ (0 < t)%N
  | KUnknown _ => ∃ t, e = Entry (RStr "unknown") (Some t) ∧ (0 < t)%N
  | KOnlineIp _ => ∃ (x : EndpointInfo) t, e = Entry (RStr (json_text x)) (Some t) ∧ (0 < t)%N
  | KReachable _ => ∃ s, e = Entry (RSet s) None ∧ s ≠ ∅
  | KIp _ => ∃ s, e = Entry (RSet s) None ∧ s ≠ ∅ ∧
      ∀ x, x ∈ s → ∃ y : EndpointInfo, x = json_text y
  | KSeen _ | KLastUpdate => ∃ n, e = Entry (RStr (arg_u64 n)) None
  | KCountry _ | KCity _ | KRegion _ | KPos _ => ∃ v, e = Entry (RStr v) None
  | KFull _ => ∃ b, e = Entry (RStr (arg_bool b)) None
  | KNetwork _ => ∃ n, e = Entry (RStr (into_str n)) None
  | KNetworkQuick _ _ => e = Entry (RStr (arg_u64 0)) None
  end.

Definition well_typed m : Prop := ∀ k e, m !! key_string k = Some e → typed k e.

Record store_ok m : Prop := {
  ok_typed : well_typed m;
  (** No peer is both online and unknown. *)
  ok_exclusive id : has m (KOnline id) → ¬ has m (KUnknown id);
  (** A peer with witnesses has a network, under both keys. *)
  ok_network id : has m (KReachable id) →
    ∃ n, text_at m (KNetwork id) = Some (into_str n) ∧ has m (KNetworkQuick id n);
  (** A peer with a status has been seen; an online one is marked full or not. *)
  ok_seen id :
    has m (KOnline id) ∨ has m (KOnline2 id) ∨ has m (KUnknown id) ∨ has m (KReachable id) →
    has m (KSeen id);
  ok_full id : has m (KOnline id) ∨ has m (KOnline2 id) → has m (KFull id);
}.

Lemma store_ok_empty : store_ok ∅.
Proof.
  assert (∀ k, ¬ has ∅ k) as He by (intros k [? Hk]; by rewrite lookup_empty in Hk).
  split; try (intros; naive_solver). intros k e. by rewrite lookup_empty.
Qed.

(** *** Typing *)
Lemma well_typed_insert m k e :
  well_typed m → typed k e → well_typed (<[key_string k := e]> m).
Proof.
  intros Hm He k' e'. rewrite lookup_key_insert. case_decide; [by intros [= <-]; subst|apply Hm].
Qed.

Lemma well_typed_put m k v :
  well_typed m → typed k (Entry (RStr v) None) → well_typed (put (key_string k) v m).
Proof. apply well_typed_insert. Qed.

Lemma well_typed_put_ex m k v t :
  well_typed m → typed k (Entry (RStr v) (Some t)) → well_typed (put_ex (key_string k) v t m).
Proof. apply well_typed_insert. Qed.

Lemma well_typed_touch m id t :
  well_typed m → (0 < t)%N → well_typed (touch (key_string (KOnline id)) t m).
Proof.
  intros Hm Ht k e. rewrite lookup_key_touch. case_decide as Hk; [subst k|apply Hm].
  destruct (m !! _) as [e'|] eqn:He; [|done]. intros [= <-].
  destruct (Hm _ _ He) as (v & t' & -> & _). by exists v, t.
Qed.

Lemma well_typed_delete m k : well_typed m → well_typed (delete (key_string k) m).
Proof. intros Hm k' e. rewrite lookup_key_delete. case_decide; [done|apply Hm]. Qed.

Lemma well_typed_witness m id x : well_typed m → well_typed (add_member (key_string (KReachable id)) x m).
Proof.
  intros Hm k e. rewrite lookup_key_add. case_decide as Hk; [subst k|apply Hm].
  destruct (m !! _) as [e'|] eqn:He.
  - destruct (Hm _ _ He) as (s & -> & Hs). intros [= <-]. eexists. split; [done|]. set_solver.
  - intros [= <-]. eexists. split; [done|]. set_solver.
Qed.

Lemma well_typed_endpoint m id (x : EndpointInfo) :
  well_typed m → well_typed (add_member (key_string (KIp id)) (json_text x) m).
Proof.
  intros Hm k e. rewrite lookup_key_add. case_decide as Hk; [subst k|apply Hm].
  destruct (m !! _) as [e'|] eqn:He.
  - destruct (Hm _ _ He) as (s & -> & Hs & Hall). intros [= <-]. eexists. split_and!; [done|set_solver|].
    intros y [->%elem_of_singleton|Hy]%elem_of_union; eauto.
  - intros [= <-]. eexists. split_and!; [done|set_solver|]. intros y ->%elem_of_singleton. eauto.
Qed.

Lemma is_str_not_set m id : well_typed m → ¬ is_str m (key_string (KReachable id)) ∧ ¬ is_str m (key_string (KIp id)).
Proof.
  intros Hm. unfold is_str. split.
  - destruct (m !! _) as [e|] eqn:He; [|by intros ?]. destruct (Hm _ _ He) as (s & -> & _). by intros ?.
  - destruct (m !! _) as [e|] eqn:He; [|by intros ?]. destruct (Hm _ _ He) as (s & -> & _). by intros ?.
Qed.

Lemma is_str_has m id : well_typed m → is_str m (key_string (KOnline id)) ↔ has m (KOnline id).
Proof.
  intros Hm. unfold is_str, has. destruct (m !! _) as [e|] eqn:He.
  - destruct (Hm _ _ He) as (v & t & -> & _). naive_solver.
  - split; [done|]. by intros [? ?].
Qed.
End Invariant.
#[export] Hint Resolve well_typed_put well_typed_put_ex well_typed_touch well_typed_delete
  well_typed_witness well_typed_endpoint : rust.

(** ** Preservation *)
Section Preservation.
Context {R : Type} `{Redis R} `{Json EndpointInfo}.
Context (cfg : Config).
Context (Hpos : (0 < ckb_node_default_timeout cfg)%N)
        (Hupos : (0 < ckb_node_unknown_default_timeout cfg)%N).
Implicit Types (m : store) (k : key) (id : string).

Definition geo_key k : bool :=
  match k with KCountry _ | KCity _ | KRegion _ | KPos _ => true | _ => false end.

(** The location keys are in none of the relations between records. *)
Lemma has_geo m id geo k : geo_key k = false → has (geo_spec id geo m) k ↔ has m k.
Proof.
  intros Hk. destruct geo as [d|]; [|done]. cbn. keyify. autorewrite with rust.
  destruct k; naive_solver.
Qed.
Lemma text_geo m id geo k : geo_key k = false → text_at (geo_spec id geo m) k = text_at m k.
Proof.
  intros Hk. destruct geo as [d|]; [|done]. cbn. keyify. autorewrite with rust.
  by destruct k; repeat (rewrite decide_False by done).
Qed.

Lemma well_typed_geo m id geo : well_typed m → well_typed (geo_spec id geo m).
Proof.
  intros Hm. destruct geo as [d|]; [|done]. cbn. keyify.
  repeat (apply well_typed_put; [|by eexists]). done.
Qed.

Ltac put_steps :=
  repeat match goal with
  | |- well_typed (put _ _ _) => apply well_typed_put; [|by eexists]
  | |- well_typed (put_ex _ _ _ _) => apply well_typed_put_ex; [|first [by eexists _, _ | by eexists]]
  | |- well_typed (touch _ _ _) => apply well_typed_touch; [|done]
  | |- well_typed (delete _ _) => apply well_typed_delete
  | |- well_typed (geo_spec _ _ _) => apply well_typed_geo
  | |- well_typed (add_member _ (json_text _) _) => apply well_typed_endpoint
  | |- well_typed (add_member _ _ _) => apply well_typed_witness
  | |- well_typed (if ?b then _ else _) => destruct b
  end.

Lemma online_spec_typed p geo secs m : well_typed m → well_typed (online_spec cfg p geo secs m).
Proof.
  intros Hm. unfold online_spec, online_endpoint, online_mark. keyify.
  put_steps. destruct (addresses (info p)); put_steps; done.
Qed.

Lemma has_online_mark p m k :
  well_typed m →
  has (online_mark cfg p m) k ↔
    has m k ∨ (¬ has m (KOnline (peer_id (info p))) ∧
               k = if is_ex p then KOnline2 (peer_id (info p)) else KOnline (peer_id (info p))).
Proof.
  intros Hm. unfold online_mark. keyify. case_decide as Hs; rewrite is_str_has in Hs by done.
  - autorewrite with rust. tauto.
  - destruct (is_ex p); autorewrite with rust; tauto.
Qed.

Lemma has_online_endpoint p geo m k :
  geo_key k = false → k ≠ KOnlineIp (peer_id (info p)) →
  has (online_endpoint cfg p geo m) k ↔ has m k.
Proof.
  intros Hg Hk. unfold online_endpoint. keyify. destruct (addresses (info p)); [done|].
  rewrite has_geo by done. autorewrite with rust. tauto.
Qed.

Lemma text_online_mark p m id :
  text_at (online_mark cfg p m) (KNetwork id) = text_at m (KNetwork id).
Proof. unfold online_mark. keyify. repeat case_match; by autorewrite with rust. Qed.

Lemma text_online_endpoint p geo m id :
  text_at (online_endpoint cfg p geo m) (KNetwork id) = text_at m (KNetwork id).
Proof.
  unfold online_endpoint. keyify. destruct (addresses (info p)); [done|].
  rewrite text_geo by done. by autorewrite with rust.
Qed.

Lemma online_spec_ok p geo secs m : store_ok m → store_ok (online_spec cfg p geo secs m).
Proof.
  intros [Ht Hex Hnet Hseen Hfull]. split; [by apply online_spec_typed|..];
    unfold online_spec; keyify; intros id; autorewrite with rust;
    rewrite ?text_online_endpoint, ?text_online_mark;
    repeat (rewrite has_online_endpoint by done); rewrite ?has_online_mark by done.
  - specialize (Hex id). destruct (is_ex p); naive_solver.
  - intros Hr. destruct (Hnet id) as (n & Hn & Hq); [by destruct (is_ex p); naive_solver|].
    exists n. rewrite !decide_False by done. split; [done|]. autorewrite with rust.
    rewrite has_online_endpoint, has_online_mark by done. naive_solver.
  - specialize (Hseen id). destruct (decide (id = peer_id (info p))) as [->|]; [naive_solver|].
    destruct (is_ex p); naive_solver.
  - specialize (Hfull id). destruct (decide (id = peer_id (info p))) as [->|]; [naive_solver|].
    destruct (is_ex p); naive_solver.
Qed.

Lemma unknown_spec_ok p secs m : store_ok m → store_ok (unknown_spec cfg p secs m).
Proof.
  intros [Ht Hex Hnet Hseen Hfull]. unfold unknown_spec. keyify.
  assert (∀ id m', has m' (KReachable id) → (∀ j, has m' (KReachable j) → has m (KReachable j)) →
    (∀ n, text_at m (KNetwork id) = n → text_at m' (KNetwork id) = n) →
    (∀ n, has m (KNetworkQuick id n) → has m' (KNetworkQuick id n)) →
    ∃ n, text_at m' (KNetwork id) = Some (into_str n) ∧ has m' (KNetworkQuick id n)) as Hkept.
  { intros id m' Hr Hj Hn' Hq'. destruct (Hnet id) as (n & Hn & Hq); [by apply Hj|]. eauto. }
  case_decide as Hs; rewrite is_str_has in Hs by done; [|case_decide as Hw];
    (split; [by put_steps|intros id|intros id|intros id|intros id]);
    try (intros Hr; apply Hkept; [done|..]; intros j; autorewrite with rust;
         [naive_solver|by rewrite ?decide_False by done|by eauto]);
    autorewrite with rust;
    specialize (Hex id); specialize (Hseen id); specialize (Hfull id);
    destruct (decide (id = peer_id p)) as [->|]; naive_solver.
Qed.

Lemma unknown_spec_typed p secs m : well_typed m → well_typed (unknown_spec cfg p secs m).
Proof.
  intros Hm. unfold unknown_spec. keyify. repeat case_decide; by put_steps.
Qed.

Lemma tick_spec_typed secs m : well_typed m → well_typed (tick_spec secs m).
Proof. intros Hm. unfold tick_spec. keyify. by put_steps. Qed.

Lemma tick_spec_ok secs m : store_ok m → store_ok (tick_spec secs m).
Proof.
  intros [Ht Hex Hnet Hseen Hfull]. unfold tick_spec. keyify.
  split; [by put_steps|intros id; autorewrite with rust..].
  - specialize (Hex id); naive_solver.
  - intros [?|Hr]; [done|]. destruct (Hnet id) as (n & Hn & Hq); [done|].
    exists n. rewrite decide_False by done. autorewrite with rust. naive_solver.
  - specialize (Hseen id). naive_solver.
  - specialize (Hfull id). naive_solver.
Qed.

Lemma add_endpoints_cons id x l m :
  add_endpoints id (x :: l) m = add_endpoints id l (add_member (peer_ip_key id) (json_text x) m).
Proof. done. Qed.

Lemma has_add_endpoints id l m k : k ≠ KIp id → has (add_endpoints id l m) k ↔ has m k.
Proof.
  intros Hk. revert m. induction l as [|x l IH]; intros m; [done|]. rewrite add_endpoints_cons, IH.
  keyify. autorewrite with rust. tauto.
Qed.
Lemma text_add_endpoints id l m k : text_at (add_endpoints id l m) k = text_at m k.
Proof.
  revert m. induction l as [|x l IH]; intros m; [done|]. rewrite add_endpoints_cons, IH.
  keyify. by autorewrite with rust.
Qed.
Lemma well_typed_add_endpoints id l m : well_typed m → well_typed (add_endpoints id l m).
Proof.
  revert m. induction l as [|x l IH]; intros m Hm; [done|]. rewrite add_endpoints_cons. apply IH. keyify. by put_steps.
Qed.

Lemma reachable_record_typed msg secs m : well_typed m → well_typed (reachable_record msg secs m).
Proof.
  intros Hm. unfold reachable_record. keyify.
  apply well_typed_put; [|by eexists]. apply well_typed_put; [|by eexists].
  apply well_typed_add_endpoints. apply well_typed_put; [|done]. by put_steps.
Qed.

Lemma reachable_record_ok msg secs m : store_ok m → store_ok (reachable_record msg secs m).
Proof.
  intros [Ht Hex Hnet Hseen Hfull]. unfold reachable_record.
  keyify.
  split; [by apply reachable_record_typed|..].
  all: intros id; autorewrite with rust; rewrite ?text_add_endpoints;
    rewrite ?has_add_endpoints by done; autorewrite with rust.
  - specialize (Hex id). clear -Hex. intuition congruence.
  - intros Hr. rewrite decide_False by done. case_decide as Hid; simplify_eq.
    + eexists. split; [done|]. autorewrite with rust. rewrite has_add_endpoints by done.
      autorewrite with rust. clear. intuition congruence.
    + destruct (Hnet id) as (n & Hn & Hq); [clear -Hr Hid; intuition congruence|]. exists n.
      split; [done|].
      autorewrite with rust. rewrite has_add_endpoints by done. autorewrite with rust. auto.
  - specialize (Hseen id). clear -Hseen.
    destruct (decide (id = peer_id (peer msg))) as [->|]; intuition congruence.
  - specialize (Hfull id). clear -Hfull. intuition congruence.
Qed.

Lemma geo_spec_ok id geo m : store_ok m → store_ok (geo_spec id geo m).
Proof.
  intros [Ht Hex Hnet Hseen Hfull]. split; [by put_steps|intros j..];
    rewrite ?has_geo by done; [naive_solver| |naive_solver|naive_solver].
  intros Hr. destruct (Hnet j Hr) as (n & Hn & Hq). exists n.
  rewrite text_geo, has_geo by done. done.
Qed.

Lemma reachable_spec_ok msg geo secs secs' m :
  store_ok m → store_ok (reachable_spec msg geo secs secs' m).
Proof.
  intros Hm. unfold reachable_spec. cbv zeta. apply tick_spec_ok.
  case_decide; [apply geo_spec_ok|]; by apply reachable_record_ok.
Qed.

Lemma reachable_spec_typed msg geo secs secs' m :
  well_typed m → well_typed (reachable_spec msg geo secs secs' m).
Proof.
  intros Hm. unfold reachable_spec. cbv zeta. apply tick_spec_typed.
  case_decide; [apply well_typed_geo|]; by apply reachable_record_typed.
Qed.

Lemma has_expires m m' k : expires_to m m' → has m' k → has m k.
Proof.
  intros He [e Hk]. specialize (He (key_string k)). unfold has.
  destruct (m !! key_string k) as [e'|]; [by eexists|]. congruence.
Qed.

Lemma lookup_expires m m' k v :
  expires_to m m' → m !! key_string k = Some (Entry v None) → m' !! key_string k = Some (Entry v None).
Proof. intros He Hk. specialize (He (key_string k)). by rewrite Hk in He. Qed.

Lemma typed_younger k v t t' :
  (0 < t')%N → typed k (Entry v (Some t)) → typed k (Entry v (Some t')).
Proof.
  intros Ht'. destruct k; cbn; intros Hty;
    repeat match goal with
    | H : ∃ _, _ |- _ => destruct H
    | H : _ ∧ _ |- _ => destruct H
    end; simplify_eq; eauto 6.
Qed.

Lemma expires_typed m m' : well_typed m → expires_to m m' → well_typed m'.
Proof.
  intros Ht He k e Hk. specialize (He (key_string k)). specialize (Ht k).
  destruct (m !! key_string k) as [[v [t|]]|]; [| |congruence].
  - destruct He as [He|(t' & [Ht' _] & He)]; [congruence|]. rewrite He in Hk. injection Hk as <-.
    by eapply typed_younger, Ht.
  - rewrite He in Hk. injection Hk as <-. by apply Ht.
Qed.

(** Records without a time to live survive. *)
Lemma has_permanent m m' k :
  well_typed m → expires_to m m' →
  match k with KFull _ | KSeen _ | KNetworkQuick _ _ | KNetwork _ => True | _ => False end →
  has m k → has m' k ∧ text_at m' k = text_at m k.
Proof.
  intros Ht He Hk [e Hm]. pose proof (Ht _ _ Hm) as Hty.
  assert (∃ v, e = Entry v None) as [v ->] by (destruct k; cbn in Hty; naive_solver).
  pose proof (lookup_expires _ _ _ _ He Hm) as Hm'. unfold has, text_at, str_at.
  rewrite Hm, Hm'. eauto.
Qed.

Lemma expires_ok m m' : store_ok m → expires_to m m' → store_ok m'.
Proof.
  intros [Ht Hex Hnet Hseen Hfull] He. split.
  - by eapply expires_typed.
  - intros id Ho Hu. eapply (Hex id); by eapply has_expires.
  - intros id Hr. destruct (Hnet id) as (n & Hn & Hq); [by eapply has_expires|]. exists n.
    assert (has m (KNetwork id)) as Hh.
    { unfold text_at, str_at in Hn. unfold has. destruct (m !! _); [eauto|done]. }
    destruct (has_permanent m m' (KNetwork id)) as [_ ->]; [done..|].
    split; [done|]. by eapply has_permanent.
  - intros id Hs. assert (has m (KSeen id)) as Hh.
    { apply Hseen. destruct_or!; eauto using has_expires. }
    by eapply has_permanent.
  - intros id Hs. assert (has m (KFull id)) as Hh.
    { apply Hfull. destruct_or!; eauto using has_expires. }
    by eapply has_permanent.
Qed.
End Preservation.
