(* ===== verification/MarciGeo.v ===== *)
(** * MarciGeo: where marci's locations come from

    Every location a handler writes is one that the IP service gives, or that was
    cached, for an address of the message; and no handler adds anything else to the
    cache. *)
From S2P Require Import Prelude RustStd RustNet Types Redis Services Keys IpInfo Marci MarciSpec.

Section Geo.
Context {R I M C : Type} `{Redis R} `{IpService I} `{Mqtt M} `{Clock C}.
Context `{Json EndpointInfo} `{Json NodeMetaInfo}.
Context (env : string → option string) (cfg : Config).

Abbreviation handler := (comp (World R I M C) (MarciError R M)).
Implicit Types (w : World R I M C) (i : IpState I) (l : list EndpointInfo).

(** The details of one of the addresses. *)
Definition found i l (d : IpDetails) : Prop :=
  ∃ x, x ∈ l ∧ known_details i (Net.ip_string (address x)) d.

Lemma geo_of_found l i d :
  geo_of (R:=R) (M:=M) env l i = Some d → found i (take 1 l) d.
Proof.
  destruct l as [|x l]; [done|]. cbn [geo_of take firstn]. unfold answer.
  destruct (query_by_ip_known (E:=MarciError R M) env x i) as [Hq _].
  destruct (query_by_ip env x i) as [[o|e|] i']; [|done..]. cbn in *. intros ->. exists x.
  split; [apply list_elem_of_here|by apply Hq].
Qed.

Lemma reachable_found (r : ReachableInfo) i d :
  answer (R:=R) (M:=M) None (query_by_reachable env r i) = Some d → found i (addresses (peer r)) d.
Proof.
  unfold answer, query_by_reachable.
  destruct (query_endpoints_known (E:=MarciError R M) env (addresses (peer r)) i) as [Hq _].
  destruct (query_endpoints env _ i) as [[o|e|] i']; [|done..]. cbn in *. intros ->. by apply Hq.
Qed.

(** *** What the handlers leave in the cache *)

(** However the code ends, nothing is known that was not known before. *)
Definition invents_nothing {A} (c : handler A) : Prop :=
  ∀ w a d, known_details (w_ip (c w).2) a d → known_details (w_ip w) a d.

Lemma invents_bind {A B} (c : handler A) (k : A → handler B) :
  invents_nothing c → (∀ a, invents_nothing (k a)) → invents_nothing (c ≫= k).
Proof.
  intros Hc Hk w a d. unfold mbind, comp_bind. specialize (Hc w a d).
  destruct (c w) as [[x|e|] w']; cbn in *; [|done..]. intros Hd. by apply Hc, (Hk x).
Qed.

(** Code that leaves the locations alone. *)
Lemma invents_same {A} (c : handler A) :
  (∀ w, w_ip (c w).2 = w_ip w) → invents_nothing c.
Proof. intros Hc w a d. by rewrite Hc. Qed.

Lemma invents_redis {A} (f : R → A * R) : invents_nothing (call f).
Proof. apply invents_same. intros w. done. Qed.
Lemma invents_mqtt {A} (f : M → A * M) : invents_nothing (call f).
Proof. apply invents_same. intros w. done. Qed.
Lemma invents_clock {A} (f : C → A * C) : invents_nothing (call f).
Proof. apply invents_same. intros w. done. Qed.

Lemma invents_zoom {A} (c : comp (IpState I) (MarciError R M) A) :
  (∀ i a d, known_details (c i).2 a d → known_details i a d) → invents_nothing (zoom c).
Proof. intros Hc w a d. unfold zoom. cbn. specialize (Hc (w_ip w) a d). by destruct (c (w_ip w)). Qed.

Lemma invents_query_by_ip x : invents_nothing (zoom (query_by_ip env x)).
Proof. apply invents_zoom. intros i. apply query_by_ip_known. Qed.
Lemma invents_query_by_reachable r : invents_nothing (zoom (query_by_reachable env r)).
Proof. apply invents_zoom. intros i. apply query_endpoints_known. Qed.

Lemma invents_for_each {A} (l : list A) (body : A → handler unit) :
  (∀ x, invents_nothing (body x)) → invents_nothing (for_each l body).
Proof.
  intros Hb. induction l as [|x l IH]; [by apply invents_same|]. cbn [for_each]. by apply invents_bind.
Qed.

(** One construct of a handler at a time. *)
Ltac invents :=
  repeat first
    [ apply invents_query_by_ip | apply invents_query_by_reachable
    | apply invents_redis | apply invents_mqtt | apply invents_clock
    | apply invents_for_each; intros
    | apply invents_bind; intros
    | progress unfold await, con_get_string, con_get_with, con_set, con_set_ex, con_expire, con_del,
        con_sadd, con_scard, con_smembers, con_keys, publish, now, question, unwrap
    | case_match | apply invents_same; done ].

Lemma invents_store_geo id d : invents_nothing (store_geo id d).
Proof. unfold store_geo. invents. Qed.
Lemma invents_online p : invents_nothing (handle_online env cfg p).
Proof. unfold handle_online. invents; apply invents_store_geo. Qed.
Lemma invents_unknown p : invents_nothing (handle_unknown cfg p).
Proof. unfold handle_unknown. invents. Qed.
Lemma invents_reachable r : invents_nothing (handle_reachable env r).
Proof. unfold handle_reachable, touch_service. invents; apply invents_store_geo. Qed.
Lemma invents_tick : invents_nothing handle_tick.
Proof. unfold handle_tick, request_dial, touch_service. invents. Qed.
End Geo.
