(* ===== verification/MarciLoop.v ===== *)
(** * MarciLoop: the two tasks of marci/src/main.rs

    The reader task decodes what the broker delivers and feeds three bounded
    channels; the main task selects a ready branch and runs its handler to the
    end. A step relation over both, with time passing on the database, and what
    holds in every reachable state. *)
From S2P Require Import Prelude RustStd RustNet Types Redis Services Keys IpInfo.
From S2P Require Import Marci MarciSpec MarciInv MarciGeo.

(** What the reader sends into a channel. *)
Inductive delivery :=
| ToOnline (p : PeerInfo)
| ToReachable (r : ReachableInfo)
| ToUnknown (p : NodeMetaInfo).

Section Dispatch.
Context `{Json PeerInfo} `{Json ReachableInfo} `{Json NodeMetaInfo}.

(** The [match msg.topic()]. *)
Definition dispatch (topic payload : string) : option delivery :=
  if decide (topic = "peer/online") then ToOnline <$> of_json payload
  else if decide (topic = "peer/online2") then ToOnline <$> of_json payload
  else if decide (topic = "peer/reachable") then ToReachable <$> of_json payload
  else if decide (topic = "peer/unknown") then ToUnknown <$> of_json payload
  else None.
End Dispatch.

(** Where the reader task is: at [mqtt_con.next()], at a [send], in the reconnect
    loop after so many failures, or past its loop. *)
Inductive reader :=
| Waiting
| Sending (d : delivery)
| Reconnecting (rconn_attempt : N)
| Ended.

(** What its awaits answer. *)
Inductive answer_event :=
| Incoming (topic payload : string)
| Lost
| EndOfStream
| Reconnected (success : bool)
| Sent.

(** The branches of [select!], and the message each takes. *)
Inductive arm := OnlineArm | UnknownArm | ReachableArm | TickArm.
Inductive taken :=
| TookOnline (p : PeerInfo)
| TookUnknown (p : NodeMetaInfo)
| TookReachable (r : ReachableInfo)
| TookTick.

Section Loop.
Context {R I M C : Type} {Q : Type → Type}.
Context `{Redis R} `{IpService I} `{Mqtt M} `{Clock C} `{Mpsc Q}.
Context `{Json EndpointInfo} `{Json NodeMetaInfo} `{Json PeerInfo} `{Json ReachableInfo}.
Context (env : string → option string) (cfg : Config).

Abbreviation world := (World R I M C).

Record Loop := MkLoop {
  l_world : world;
  online_q : Q PeerInfo;
  reachable_q : Q ReachableInfo;
  unknown_q : Q NodeMetaInfo;
  l_reader : reader;
  (** How [main] ended, if it has. *)
  l_exit : option (outcome (MarciError R M) unit);
}.

(** Before the first message: the three channels are created. *)
Definition start (w : world) : Loop :=
  MkLoop w (mpsc_channel 100) (mpsc_channel 500) (mpsc_channel 100) Waiting None.

Definition set_reader (r : reader) (st : Loop) : Loop :=
  MkLoop (l_world st) (online_q st) (reachable_q st) (unknown_q st) r (l_exit st).

(** The reader's client is the one that [main] publishes with, [pub_context]. *)
Definition set_client (mq : M) (st : Loop) : Loop :=
  MkLoop (lset mq (l_world st)) (online_q st) (reachable_q st) (unknown_q st) (l_reader st) (l_exit st).

(** [.send(msg).await], done when there is room. *)
Definition enqueue (d : delivery) (st : Loop) : option Loop :=
  let '(MkLoop w oq rq uq r x) := st in
  match d with
  | ToOnline p => (λ oq, MkLoop w oq rq uq r x) <$> mpsc_send p oq
  | ToReachable p => (λ rq, MkLoop w oq rq uq r x) <$> mpsc_send p rq
  | ToUnknown p => (λ uq, MkLoop w oq rq uq r x) <$> mpsc_send p uq
  end.

(** The reader task, from one await to the next; [None]: not what it awaits, or not
    what the client answers. *)
Definition read (e : answer_event) (st : Loop) : option Loop :=
  match l_reader st, e with
  | Waiting, Incoming topic payload =>
      Some (match dispatch topic payload with
            | Some d => set_reader (Sending d) st
            | None => st
            end)
  | Waiting, Lost =>
      Some (set_reader (Reconnecting 0) (set_client (mqtt_lost (w_mqtt (l_world st))) st))
  | Waiting, EndOfStream => Some (set_reader Ended st)
  | Reconnecting n, Reconnected success =>
      let r := mqtt_reconnect (w_mqtt (l_world st)) in
      if decide (is_ok r.1 = success)
      then Some (set_reader (if success then Waiting else Reconnecting (n + 1)) (set_client r.2 st))
      else None
  | Sending d, Sent => set_reader Waiting <$> enqueue d st
  | _, _ => None
  end.

(** The handler that a message is for. *)
Definition handle (t : taken) : comp world (MarciError R M) unit :=
  match t with
  | TookOnline p => handle_online env cfg p
  | TookUnknown p => handle_unknown cfg p
  | TookReachable r => handle_reachable env r
  | TookTick => handle_tick
  end.

(** After a handler: the loop goes on unless it left through [?] or a panic. *)
Definition resume (t : taken) (st : Loop) : Loop :=
  let '(MkLoop w oq rq uq r _) := st in
  match handle t w with
  | (Ret tt, w') => MkLoop w' oq rq uq r None
  | (o, w') => MkLoop w' oq rq uq r (Some o)
  end.

(** One round of [select!] that takes the branch [a]; [None]: it is not ready. *)
Definition select (a : arm) (st : Loop) : option (taken * Loop) :=
  let '(MkLoop w oq rq uq r x) := st in
  t ← match a with
      | OnlineArm => '(p, oq) ← mpsc_recv oq; Some (TookOnline p, MkLoop w oq rq uq r x)
      | UnknownArm => '(p, uq) ← mpsc_recv uq; Some (TookUnknown p, MkLoop w oq rq uq r x)
      | ReachableArm => '(p, rq) ← mpsc_recv rq; Some (TookReachable p, MkLoop w oq rq uq r x)
      | TickArm => Some (TookTick, st)
      end;
  Some (t.1, resume t.1 t.2).
End Loop.
Arguments Loop R I M C Q {_ _}.

(** ** The executions *)
Inductive label :=
| LRead (e : answer_event)
| LTook (t : taken)
| LElapse.

Section Runs.
Context {R I M C : Type} {Q : Type → Type}.
Context `{RedisLaws R} `{IpService I} `{MqttLaws M} `{Clock C} `{MpscLaws Q}.
Context `{Json EndpointInfo} `{Json NodeMetaInfo} `{Json PeerInfo} `{Json ReachableInfo}.
Context (env : string → option string) (cfg : Config).

Abbreviation state := (Loop R I M C Q).
Implicit Types (st : state) (tr : list label) (m : store).

Definition db st : store := view (w_redis (l_world st)).

(** The process takes steps until [main] ends. Handlers touch no channel, and of what
    they use the reader only touches the client, so a handler may count as one step;
    time passes between handlers: keys expire, the client loses its connection or
    gets it back without the reader, and the clock may show anything. *)
Inductive step : state → label → state → Prop :=
| step_read e st st' :
    l_exit st = None → read e st = Some st' → step st (LRead e) st'
| step_select a t st st' :
    l_exit st = None → select env cfg a st = Some (t, st') → step st (LTook t) st'
| step_elapse s s' i mq mq' c c' oq rq uq r :
    expires_to (view s) (view s') → (up s → up s') →
    (mqtt_up mq → mqtt_up mq') → sent mq' = sent mq →
    step (MkLoop (MkWorld s i mq c) oq rq uq r None) LElapse
         (MkLoop (MkWorld s' i mq' c') oq rq uq r None).

Inductive steps st : list label → state → Prop :=
| steps_nil : steps st [] st
| steps_snoc tr st1 l st2 : steps st tr st1 → step st1 l st2 → steps st (tr ++ [l]) st2.

(** A time that the clock may show. *)
Definition shown (secs : N) : Prop := ∃ c : C, secs = unix_secs (clock_now c).1.

(** What a handler may do to the database, when [i] is known of locations. *)
Definition effect (i : IpState I) (t : taken) m m' : Prop :=
  match t with
  | TookOnline p =>
      ∃ geo secs, (∀ d, geo = Some d → found i (take 1 (addresses (info p))) d) ∧ shown secs ∧
        m' = online_spec cfg p geo secs m
  | TookUnknown p => ∃ secs, shown secs ∧ m' = unknown_spec cfg p secs m
  | TookReachable r =>
      ∃ geo secs secs', (∀ d, geo = Some d → found i (addresses (peer r)) d) ∧
        shown secs ∧ shown secs' ∧ m' = reachable_spec r geo secs secs' m
  | TookTick => ∃ secs, shown secs ∧ m' = tick_spec secs m
  end.

Lemma handle_effect t (w : World R I M C) :
  config_ok cfg → healthy env w → well_typed (view (w_redis w)) →
  runs (handle env cfg t) w (λ _ w', healthy env w' ∧ effect (w_ip w) t (view (w_redis w)) (view (w_redis w'))).
Proof.
  intros Hc Hw Hok. assert (∀ c : C, shown (unix_secs (clock_now c).1)) as Hsh by by eexists.
  destruct t as [p|p|r|]; cbn.
  - eapply runs_mono; [by apply online_runs|]. intros _ w' (? & _ & ->). split; [done|].
    do 2 eexists. split; [apply geo_of_found|]. by split; [apply Hsh|].
  - eapply runs_mono; [by eapply unknown_runs|]. intros _ w' (? & _ & ->). eauto 6.
  - destruct (is_str_not_set (view (w_redis w)) (peer_id (peer r))) as [Hr Hi]; [done|].
    eapply runs_mono; [by apply reachable_runs|]. intros _ w' (? & _ & ->). split; [done|].
    do 3 eexists. split; [apply reachable_found|]. by split_and!; [apply Hsh..|].
  - eapply runs_mono; [by apply tick_runs|]. intros _ w' (? & -> & _). eauto 6.
Qed.

Lemma effect_typed i t m m' : config_ok cfg → well_typed m → effect i t m m' → well_typed m'.
Proof.
  intros [[? _] [? _]] Hm. destruct t; cbn.
  - intros (geo & secs & _ & _ & ->). by apply online_spec_typed.
  - intros (secs & _ & ->). by apply unknown_spec_typed.
  - intros (geo & secs & secs' & _ & _ & _ & ->). by apply reachable_spec_typed.
  - intros (secs & _ & ->). by apply tick_spec_typed.
Qed.

(** What is read back and decoded: by marci's tick and by exposed. *)
Record decodable m : Prop := {
  full_decodes id s : text_at m (KFull id) = Some s → is_Some (from_bool s);
  network_decodes id s : text_at m (KNetwork id) = Some s → into_str (network_from_string s) = s;
  online_ip_decodes id s :
    text_at m (KOnlineIp id) = Some s → is_Some (of_json (A:=EndpointInfo) s);
  endpoint_decodes id s :
    s ∈ set_at m (key_string (KIp id)) → is_Some (of_json (A:=EndpointInfo) s);
}.

Lemma well_typed_decodable `{!JsonLaws EndpointInfo} m : well_typed m → decodable m.
Proof.
  intros Hm. split; intros id s; unfold text_at, str_at, set_at; destruct (m !! _) as [e|] eqn:He;
    try (done || set_solver); pose proof (Hm _ _ He) as Ht; cbn in Ht.
  - destruct Ht as [b ->]. intros [= <-]. rewrite bool_law. by eexists.
  - destruct Ht as [n ->]. intros [= <-]. by destruct n.
  - destruct Ht as (x & t & -> & _). intros [= <-]. rewrite of_json_text. by eexists.
  - destruct Ht as (l & -> & _ & Hl). intros (x & ->)%Hl. rewrite of_json_text. by eexists.
Qed.

Lemma effect_ok i t m m' : config_ok cfg → store_ok m → effect i t m m' → store_ok m'.
Proof.
  intros [[? _] [? _]] Hm. destruct t; cbn.
  - intros (geo & secs & _ & _ & ->). by apply online_spec_ok.
  - intros (secs & _ & ->). by apply unknown_spec_ok.
  - intros (geo & secs & secs' & _ & _ & _ & ->). by apply reachable_spec_ok.
  - intros (secs & _ & ->). by apply tick_spec_ok.
Qed.

(** C14 (type). The schema of the database is a type system that the handlers are
    sound for. On healthy services and a database whose keys hold values of their
    kinds, whatever else may be wrong with its content, every handler returns, so
    no command meets a value of a wrong kind, and leaves a database that is well
    typed again; of a well typed one every flag, network and endpoint decodes. *)
Theorem handlers_type_sound `{!JsonLaws EndpointInfo} t (w : World R I M C) :
  config_ok cfg → healthy env w → well_typed (view (w_redis w)) →
  decodable (view (w_redis w)) ∧
  runs (handle env cfg t) w (λ _ w',
    healthy env w' ∧ well_typed (view (w_redis w')) ∧ decodable (view (w_redis w'))).
Proof.
  intros Hc Hw Ht. split; [by apply well_typed_decodable|].
  eapply runs_mono; [by apply handle_effect|]. intros _ w' [? He].
  pose proof (effect_typed _ _ _ _ Hc Ht He). split_and!; [done..|by apply well_typed_decodable].
Qed.

(** *** What each kind of step changes *)
Lemma enqueue_kept d st st' :
  enqueue d st = Some st' →
  l_world st' = l_world st ∧ l_reader st' = l_reader st ∧ l_exit st' = l_exit st.
Proof. destruct st, d; cbn; intros Hs; apply fmap_Some in Hs as (? & _ & ->); done. Qed.

(** The reader touches the client and nothing else of the world. *)
Lemma read_kept e st st' :
  read e st = Some st' →
  w_redis (l_world st') = w_redis (l_world st) ∧ w_ip (l_world st') = w_ip (l_world st) ∧
  l_exit st' = l_exit st.
Proof.
  unfold read. destruct (l_reader st), e as [t p| | |b|]; try done; intros Hr; simplify_eq; try done.
  - by destruct (dispatch t p).
  - apply fmap_Some in Hr as (st1 & (Hw & ? & ?)%enqueue_kept & ->). cbn. by rewrite Hw.
  - case_decide; [|done]. by injection Hr as <-.
Qed.

(** The client is kept up and loses nothing it took. *)
Lemma read_client e st st' :
  read e st = Some st' →
  (mqtt_up (w_mqtt (l_world st)) → mqtt_up (w_mqtt (l_world st'))) ∧
  sent (w_mqtt (l_world st')) = sent (w_mqtt (l_world st)).
Proof.
  unfold read. destruct (l_reader st), e as [t p| | |b|]; try done; intros Hr; simplify_eq; try done.
  - by destruct (dispatch t p).
  - apply lost_law.
  - apply fmap_Some in Hr as (st1 & (Hw & ? & ?)%enqueue_kept & ->). cbn. by rewrite Hw.
  - case_decide; [|done]. injection Hr as <-. apply reconnect_law.
Qed.

(** A round of [select!] takes a message off its channel and runs its handler. *)
Lemma select_inv a t st st' :
  select env cfg a st = Some (t, st') →
  ∃ st1, l_world st1 = l_world st ∧ l_reader st1 = l_reader st ∧ st' = resume env cfg t st1 ∧
    capacity (online_q st1) = capacity (online_q st) ∧
    capacity (reachable_q st1) = capacity (reachable_q st) ∧
    capacity (unknown_q st1) = capacity (unknown_q st) ∧
    match t with
    | TookOnline p => queued (online_q st) = p :: queued (online_q st1)
    | _ => queued (online_q st) = queued (online_q st1)
    end ∧
    match t with
    | TookReachable p => queued (reachable_q st) = p :: queued (reachable_q st1)
    | _ => queued (reachable_q st) = queued (reachable_q st1)
    end ∧
    match t with
    | TookUnknown p => queued (unknown_q st) = p :: queued (unknown_q st1)
    | _ => queued (unknown_q st) = queued (unknown_q st1)
    end.
Proof.
  destruct st as [w oq rq uq r x]. unfold select. intros Hs.
  apply bind_Some in Hs as ([t1 st1] & Ha & [= <- <-]). exists st1.
  destruct a; [apply bind_Some in Ha as ([p q] & Hq%mpsc_recv_inv & [= <- <-])..|
    injection Ha as <- <-]; destruct_and?; done.
Qed.

Lemma resume_queues t st :
  online_q (resume env cfg t st) = online_q st ∧
  reachable_q (resume env cfg t st) = reachable_q st ∧
  unknown_q (resume env cfg t st) = unknown_q st ∧
  l_reader (resume env cfg t st) = l_reader st.
Proof. destruct st as [w oq rq uq r x]. unfold resume. by destruct (handle env cfg t w) as [[[]| |] w']. Qed.

(** *** Safety *)
Record sane st : Prop := {
  sane_running : l_exit st = None;
  sane_healthy : healthy env (l_world st);
  sane_store : store_ok (db st);
  sane_online : length (queued (online_q st)) ≤ capacity (online_q st) ∧ capacity (online_q st) = 100;
  sane_reachable : length (queued (reachable_q st)) ≤ capacity (reachable_q st) ∧ capacity (reachable_q st) = 500;
  sane_unknown : length (queued (unknown_q st)) ≤ capacity (unknown_q st) ∧ capacity (unknown_q st) = 100;
}.

Lemma start_sane w : healthy env w → store_ok (view (w_redis w)) → sane (start w).
Proof.
  intros Hw Hok. split; try done; cbn.
  - destruct (channel_law (A:=PeerInfo) 100) as [-> ->]. cbn. lia.
  - destruct (channel_law (A:=ReachableInfo) 500) as [-> ->]. cbn. lia.
  - destruct (channel_law (A:=NodeMetaInfo) 100) as [-> ->]. cbn. lia.
Qed.

Lemma enqueue_sane d st st' : sane st → enqueue d st = Some st' → sane st'.
Proof.
  intros [? ? ? ? ? ?] He. pose proof (enqueue_kept _ _ _ He) as (Hw & _ & Hx).
  split; unfold db in *; rewrite ?Hw, ?Hx; try done;
    (destruct st, d; apply fmap_Some in He as (q & Hq%mpsc_send_inv & ->); cbn in *; [..];
     destruct Hq as (? & Hq & ?); try done; rewrite Hq, length_app; cbn; lia).
Qed.

Lemma read_sane e st st' : sane st → read e st = Some st' → sane st'.
Proof.
  intros Hs. unfold read.
  assert (∀ r st1, sane st1 → sane (set_reader r st1)) as Hset by (intros r st1 []; by split).
  assert (∀ mq, (mqtt_up (w_mqtt (l_world st)) → mqtt_up mq) → sane (set_client mq st)) as Hcl.
  { intros mq Hmq. destruct Hs as [? (? & ? & ?) ? ? ? ?]. split; [done| |done..]. split_and!; auto. }
  destruct (l_reader st), e as [t p| | |b|]; try done; intros Hr; simplify_eq; auto.
  - destruct (dispatch t p); auto.
  - apply Hset, Hcl, lost_law.
  - apply fmap_Some in Hr as (st1 & Hr & ->). apply Hset. by eapply enqueue_sane.
  - case_decide; [|done]. injection Hr as <-. apply Hset, Hcl, reconnect_law.
Qed.

Lemma resume_effect t st :
  config_ok cfg → healthy env (l_world st) → store_ok (db st) →
  l_exit (resume env cfg t st) = None ∧ healthy env (l_world (resume env cfg t st)) ∧
  effect (w_ip (l_world st)) t (db st) (db (resume env cfg t st)).
Proof.
  intros Hc Hw Hok. pose proof (handle_effect t (l_world st) Hc Hw (ok_typed _ Hok)) as Hr. revert Hr.
  unfold db, runs, resume. destruct st as [w oq rq uq r x]. cbn [l_world].
  by destruct (handle env cfg t w) as [[[]| |] w'].
Qed.

Lemma select_sane a t st st' :
  config_ok cfg → sane st → select env cfg a st = Some (t, st') →
  sane st' ∧ effect (w_ip (l_world st)) t (db st) (db st').
Proof.
  intros Hc [? Hw Hok Ho Hr Hu] (st1 & Hw1 & _ & -> & Hoc & Hrc & Huc & Hoq & Hrq & Huq)%select_inv.
  assert (db st1 = db st) as Hdb by (unfold db; by rewrite Hw1). rewrite <- Hdb, <- Hw1 in *.
  destruct (resume_effect t st1 Hc Hw Hok) as (Hx & Hw' & He). split; [|done].
  destruct (resume_queues t st1) as (Eo & Er & Eu & _).
  split; rewrite ?Eo, ?Er, ?Eu; try done; [by eapply effect_ok|..];
    rewrite ?Hoc, ?Hrc, ?Huc; (split; [|lia]).
  - destruct t; rewrite Hoq in Ho; cbn in Ho; lia.
  - destruct t; rewrite Hrq in Hr; cbn in Hr; lia.
  - destruct t; rewrite Huq in Hu; cbn in Hu; lia.
Qed.

Lemma step_sane st l st' : config_ok cfg → sane st → step st l st' → sane st'.
Proof.
  intros Hc Hs Hstep. destruct Hstep as [e st st' _ Hr|a t st st' _ Ha|].
  - by eapply read_sane.
  - by eapply select_sane.
  - destruct Hs as [? (? & ? & ?) Hok ? ? ?]. unfold db in Hok. cbn in *. split; cbn; try done.
    + split_and!; cbn; auto.
    + by eapply expires_ok.
Qed.

Lemma steps_sane st tr st' : config_ok cfg → sane st → steps st tr st' → sane st'.
Proof. intros Hc Hs. induction 1; [done|by eapply step_sane]. Qed.

(** C1 (safety). Started on healthy services, on an empty database or one that an
    earlier run left, marci never leaves its loop: no message sequence, valid or
    not, in any interleaving with timers, expiry and lost connections, makes a
    handler fail or panic. In every reachable state the database is well formed,
    in particular no peer is both online and unknown, and the channels are within
    their bounds. *)
Theorem marci_never_fails (w : World R I M C) tr st :
  config_ok cfg → healthy env w → store_ok (view (w_redis w)) →
  steps (start w) tr st →
  l_exit st = None ∧ healthy env (l_world st) ∧ store_ok (db st) ∧
  length (queued (online_q st)) ≤ 100 ∧ length (queued (reachable_q st)) ≤ 500 ∧
  length (queued (unknown_q st)) ≤ 100.
Proof.
  intros Hc Hw Hok Hst. destruct (steps_sane _ _ _ Hc (start_sane w Hw Hok) Hst) as [].
  split_and!; try done; lia.
Qed.

(** *** Order and completeness of the deliveries *)
Definition to_online (d : delivery) : option PeerInfo :=
  match d with ToOnline p => Some p | _ => None end.
Definition to_reachable (d : delivery) : option ReachableInfo :=
  match d with ToReachable p => Some p | _ => None end.
Definition to_unknown (d : delivery) : option NodeMetaInfo :=
  match d with ToUnknown p => Some p | _ => None end.

Definition arrival (l : label) : option delivery :=
  match l with LRead (Incoming topic payload) => dispatch topic payload | _ => None end.
Definition took_online (l : label) : option PeerInfo :=
  match l with LTook (TookOnline p) => Some p | _ => None end.
Definition took_reachable (l : label) : option ReachableInfo :=
  match l with LTook (TookReachable p) => Some p | _ => None end.
Definition took_unknown (l : label) : option NodeMetaInfo :=
  match l with LTook (TookUnknown p) => Some p | _ => None end.

(** The message the reader is waiting to send. *)
Definition in_flight st : list delivery :=
  match l_reader st with Sending d => [d] | _ => [] end.

(** What has arrived is what was handled, followed by what waits. *)
Definition accounted tr st : Prop :=
  let arrived := omap arrival tr in
  omap to_online arrived = omap took_online tr ++ queued (online_q st) ++ omap to_online (in_flight st) ∧
  omap to_reachable arrived =
    omap took_reachable tr ++ queued (reachable_q st) ++ omap to_reachable (in_flight st) ∧
  omap to_unknown arrived =
    omap took_unknown tr ++ queued (unknown_q st) ++ omap to_unknown (in_flight st).

Lemma start_accounted w : accounted [] (start w).
Proof.
  unfold accounted. cbn. destruct (channel_law (A:=PeerInfo) 100) as [-> _].
  destruct (channel_law (A:=ReachableInfo) 500) as [-> _].
  by destruct (channel_law (A:=NodeMetaInfo) 100) as [-> _].
Qed.

Lemma accounted_snoc tr l st st' : accounted tr st → step st l st' → accounted (tr ++ [l]) st'.
Proof.
  intros (Ho & Hr & Hu) Hstep. unfold accounted. rewrite !omap_app.
  destruct Hstep as [e st st' _ He|a t st st' _ Ha|].
  - rewrite Ho, Hr, Hu. cbn [omap list_omap took_online took_reachable took_unknown].
    rewrite !app_nil_r. revert He. unfold read, in_flight.
    destruct (l_reader st) eqn:Hrd, e as [topic p| | |b|]; try done; intros He; simplify_eq; cbn.
    all: try by rewrite ?app_nil_r.
    + destruct (dispatch topic p) as [[]|]; cbn; rewrite ?Hrd; by rewrite ?app_nil_r, <- ?app_assoc.
    + apply fmap_Some in He as (st1 & He & ->). cbn.
      clear Hrd. destruct st, d; cbn in He; apply fmap_Some in He as (q & Hq & ->);
        apply mpsc_send_inv in Hq as (_ & Hq & _); cbn;
        by rewrite Hq, ?app_nil_r.
    + case_decide; [|done]. injection He as <-. destruct b; cbn; by rewrite ?app_nil_r.
  - apply select_inv in Ha as (st1 & _ & Hrd & -> & _ & _ & _ & Hoq & Hrq & Huq).
    destruct (resume_queues t st1) as (-> & -> & -> & Hrd'). unfold in_flight in *.
    rewrite Hrd', Hrd. cbn [omap list_omap arrival]. rewrite !app_nil_r, Ho, Hr, Hu.
    destruct t; rewrite Hoq, Hrq, Huq; cbn; by rewrite ?app_nil_r, <- ?app_assoc.
  - cbn in *. by rewrite !app_nil_r.
Qed.

(** C30 (functional). No valid message is lost, duplicated or reordered, whatever
    the load: at any time the announcements of a kind that arrived are, in order of
    arrival, the ones handled, the ones in that kind's channel, and the one the
    reader is waiting to send. *)
Theorem deliveries_in_order (w : World R I M C) tr st :
  steps (start w) tr st → accounted tr st.
Proof. induction 1; [apply start_accounted|by eapply accounted_snoc]. Qed.

(** *** A scheduler, to run concrete executions *)
Inductive action := DoRead (e : answer_event) | DoSelect (a : arm).

Definition act (x : action) st : option (label * state) :=
  match l_exit st with
  | Some _ => None
  | None =>
      match x with
      | DoRead e => pair (LRead e) <$> read e st
      | DoSelect a => (λ r, (LTook r.1, r.2)) <$> select env cfg a st
      end
  end.

Fixpoint exec (l : list action) (tr : list label) st : option (list label * state) :=
  match l with
  | [] => Some (tr, st)
  | x :: l => '(lab, st') ← act x st; exec l (tr ++ [lab]) st'
  end.

Lemma act_step x st lab st' : act x st = Some (lab, st') → step st lab st'.
Proof.
  unfold act. destruct (l_exit st) eqn:Hx; [done|].
  destruct x as [e|a]; intros Ha; apply fmap_Some in Ha as (r & Hr & [= -> ->]).
  - by apply step_read.
  - destruct r. by eapply step_select.
Qed.

Lemma exec_steps l st0 tr st tr' st' :
  steps st0 tr st → exec l tr st = Some (tr', st') → steps st0 tr' st'.
Proof.
  revert tr st. induction l as [|x l IH]; intros tr st Hs; cbn.
  - by intros [= <- <-].
  - destruct (act x st) as [[lab st1]|] eqn:Ha; [|done]. apply act_step in Ha.
    apply IH. by eapply steps_snoc.
Qed.

(** *** The backlog *)
Definition backlog st : nat :=
  length (queued (online_q st)) + length (queued (reachable_q st)) + length (queued (unknown_q st)).

Lemma recv_ready {A} (q : Q A) : queued q ≠ [] → ∃ x q', mpsc_recv q = Some (x, q').
Proof. intros Hq. pose proof (recv_law q) as Hr. destruct (queued q); naive_solver. Qed.

(** While a message waits some branch is ready, and taking it leaves one less. *)
Lemma backlog_step st :
  config_ok cfg → sane st → backlog st ≠ 0 →
  ∃ a lab st', act (DoSelect a) st = Some (lab, st') ∧ sane st' ∧ S (backlog st') = backlog st.
Proof.
  intros Hc Hs Hb.
  assert (∃ a t st', a ≠ TickArm ∧ t ≠ TookTick ∧ select env cfg a st = Some (t, st')) as (a & t & st' & Ha & Htick & Hsel).
  { unfold backlog in Hb. destruct st as [w oq rq uq r x]. cbn in Hb.
    destruct (queued oq) eqn:Hoq; [destruct (queued rq) eqn:Hrq; [destruct (queued uq) eqn:Huq; [done|]|]|].
    - destruct (recv_ready uq) as (y & q' & Hr); [by rewrite Huq|].
      eexists UnknownArm, _, _. split_and!; [done| |cbn; by rewrite Hr]. done.
    - destruct (recv_ready rq) as (y & q' & Hr); [by rewrite Hrq|].
      eexists ReachableArm, _, _. split_and!; [done| |cbn; by rewrite Hr]. done.
    - destruct (recv_ready oq) as (y & q' & Hr); [by rewrite Hoq|].
      eexists OnlineArm, _, _. split_and!; [done| |cbn; by rewrite Hr]. done. }
  exists a, (LTook t), st'. split_and!.
  - unfold act. rewrite (sane_running _ Hs). by rewrite Hsel.
  - by eapply select_sane.
  - apply select_inv in Hsel as (st1 & _ & _ & -> & _ & _ & _ & Hoq & Hrq & Huq).
    unfold backlog. destruct (resume_queues t st1) as (-> & -> & -> & _).
    destruct t; [..|done]; rewrite Hoq, Hrq, Huq; cbn; lia.
Qed.

(** C33 (liveness). Whatever waits in the channels gets handled: from every
    reachable state, as many rounds of [select!] as messages wait empty all three
    channels, with the process still running and the database well formed. *)
Theorem backlog_drains (w : World R I M C) tr st :
  config_ok cfg → healthy env w → store_ok (view (w_redis w)) →
  steps (start w) tr st →
  ∃ arms tr' st', length arms = backlog st ∧ exec (map DoSelect arms) tr st = Some (tr', st') ∧
    backlog st' = 0 ∧ l_exit st' = None ∧ store_ok (db st').
Proof.
  intros Hc Hw Hok Hsteps. pose proof (steps_sane _ _ _ Hc (start_sane w Hw Hok) Hsteps) as Hs.
  clear Hsteps. remember (backlog st) as n eqn:Hn. revert tr st Hs Hn.
  induction n as [|n IH]; intros tr st Hs Hn.
  - exists [], tr, st. destruct Hs. split_and!; auto.
  - destruct (backlog_step st Hc Hs) as (a & lab & st1 & Ha & Hs1 & Hb1); [lia|].
    destruct (IH (tr ++ [lab]) st1 Hs1) as (arms & tr' & st' & Hl & He & Hrest); [lia|].
    exists (a :: arms), tr', st'. cbn [map exec length]. rewrite Ha, Hl. eauto.
Qed.
End Runs.
