(* ===== verification/MarciHistory.v ===== *)
(** * MarciHistory: where the contents of marci's database come from

    Two invariants that relate the database to the messages handled so far: each
    record was justified by a message, and a peer is unknown only if enough different
    peers reported it; and the locations are those of addresses in messages. *)
From S2P Require Import Prelude RustStd RustNet Types Redis Services Keys IpInfo.
From S2P Require Import Marci MarciSpec MarciInv MarciGeo MarciLoop.

(** ** The sets in the store *)
Section Sets.
Implicit Types (m : store) (k : key).

Definition members m k : gset string := set_at m (key_string k).

Lemma members_put m k k' v :
  members (put (key_string k') v m) k = if decide (k = k') then ∅ else members m k.
Proof. unfold members, set_at, put. rewrite lookup_key_insert. by case_decide. Qed.
Lemma members_put_ex m k k' v t :
  members (put_ex (key_string k') v t m) k = if decide (k = k') then ∅ else members m k.
Proof. unfold members, set_at, put_ex. rewrite lookup_key_insert. by case_decide. Qed.
Lemma members_touch m k k' t : members (touch (key_string k') t m) k = members m k.
Proof.
  unfold members, set_at. rewrite lookup_key_touch. case_decide; [|done].
  by destruct (m !! key_string k) as [[[v|s] u]|].
Qed.
Lemma members_delete m k k' :
  members (delete (key_string k') m) k = if decide (k = k') then ∅ else members m k.
Proof. unfold members, set_at. rewrite lookup_key_delete. by case_decide. Qed.
Lemma members_add m k k' x y :
  y ∈ members (add_member (key_string k') x m) k → y ∈ members m k ∨ (k = k' ∧ y = x).
Proof.
  unfold members, set_at. rewrite lookup_key_add. case_decide; [|auto].
  destruct (m !! key_string k) as [[[v|s] u]|]; set_solver.
Qed.

Lemma members_expires m m' k y : expires_to m m' → y ∈ members m' k → y ∈ members m k.
Proof.
  intros He. specialize (He (key_string k)). unfold members, set_at.
  destruct (m !! key_string k) as [[v [t|]]|]; [|by rewrite He..].
  by destruct He as [->|(t' & _ & ->)].
Qed.

Lemma text_expires m m' k v : expires_to m m' → text_at m' k = Some v → text_at m k = Some v.
Proof.
  intros He. specialize (He (key_string k)). unfold text_at, str_at.
  destruct (m !! key_string k) as [[w [t|]]|]; [|by rewrite He..].
  by destruct He as [->|(t' & _ & ->)].
Qed.
End Sets.
#[export] Hint Rewrite members_put members_put_ex members_touch members_delete : rust.

(** ** The handlers and the records that others depend on *)
Section Effects.
Context {R : Type} `{Redis R} `{Json EndpointInfo}.
Context (cfg : Config).
Implicit Types (m : store) (k : key) (id : string).

Lemma members_geo m id geo k : geo_key k = false → members (geo_spec id geo m) k = members m k.
Proof.
  intros Hk. destruct geo as [d|]; [|done]. cbn. keyify. autorewrite with rust.
  by destruct k; repeat (rewrite decide_False by done).
Qed.

Lemma text_mark p m k :
  text_at (online_mark cfg p m) k =
    if decide (is_str m (key_string (KOnline (peer_id (info p))))) then text_at m k
    else if decide (k = if is_ex p then KOnline2 (peer_id (info p)) else KOnline (peer_id (info p)))
    then Some (version p) else text_at m k.
Proof. unfold online_mark. keyify. case_decide; [|destruct (is_ex p)]; by autorewrite with rust. Qed.

Lemma members_mark p m k :
  (∀ id, k ≠ KOnline id) → (∀ id, k ≠ KOnline2 id) → members (online_mark cfg p m) k = members m k.
Proof.
  intros H1 H2. unfold online_mark. keyify.
  case_decide; [|destruct (is_ex p)]; autorewrite with rust; by rewrite ?decide_False by done.
Qed.

Lemma has_mark p m k :
  (∀ id, k ≠ KOnline id) → (∀ id, k ≠ KOnline2 id) → has (online_mark cfg p m) k ↔ has m k.
Proof.
  intros H1 H2. unfold online_mark. keyify.
  case_decide; [|destruct (is_ex p)]; autorewrite with rust; clear -H1 H2; intuition congruence.
Qed.

Lemma text_endpoint p geo m k :
  geo_key k = false → (∀ id, k ≠ KOnlineIp id) →
  text_at (online_endpoint cfg p geo m) k = text_at m k.
Proof.
  intros Hg Hk. unfold online_endpoint. keyify. destruct (addresses (info p)); [done|].
  rewrite text_geo by done. autorewrite with rust. by rewrite decide_False by done.
Qed.

(** The endpoint of an online peer is the first of the message. *)
Lemma text_online_ip p geo m id v :
  text_at (online_endpoint cfg p geo m) (KOnlineIp id) = Some v →
  text_at m (KOnlineIp id) = Some v ∨
  (peer_id (info p) = id ∧ ∃ a, head (addresses (info p)) = Some a ∧ v = json_text a).
Proof.
  unfold online_endpoint. keyify. destruct (addresses (info p)) as [|a l]; [by left|].
  rewrite text_geo by done. autorewrite with rust.
  case_decide as Hk; [|by left]. injection Hk as ->. intros [= <-]. eauto.
Qed.

Lemma members_endpoint p geo m k :
  geo_key k = false → (∀ id, k ≠ KOnlineIp id) →
  members (online_endpoint cfg p geo m) k = members m k.
Proof.
  intros Hg Hk. unfold online_endpoint. keyify. destruct (addresses (info p)); [done|].
  rewrite members_geo by done. autorewrite with rust. by rewrite decide_False by done.
Qed.

Lemma members_endpoints id l m k y :
  y ∈ members (add_endpoints id l m) k →
  y ∈ members m k ∨ (k = KIp id ∧ ∃ x, x ∈ l ∧ y = json_text x).
Proof.
  revert m. induction l as [|x l IH]; intros m; [by left|]. rewrite add_endpoints_cons.
  intros [Hy|(-> & z & Hz & ->)]%IH.
  - keyify. apply members_add in Hy as [Hy|[-> ->]]; [by left|].
    right. split; [done|]. exists x. split; [apply list_elem_of_here|done].
  - right. split; [done|]. exists z. split; [by apply list_elem_of_further|done].
Qed.
End Effects.

(** ** The history invariant *)
Section History.
Context {R I M C : Type} {Q : Type → Type}.
Context `{RedisLaws R} `{IpService I} `{MqttLaws M} `{Clock C} `{MpscLaws Q}.
Context `{Json EndpointInfo} `{Json NodeMetaInfo} `{Json PeerInfo} `{Json ReachableInfo}.
Context (env : string → option string) (cfg : Config).
Implicit Types (tr : list label) (m : store) (id : string).

Definition witness_of id (l : label) : option string :=
  r ← took_reachable l;
  if decide (peer_id (peer r) = id) then Some (peer_id (from r)) else None.

(** The distinct peers that reported [id] as reachable. *)
Definition witnesses_of id tr : gset string := list_to_set (omap (witness_of id) tr).

(** A reachable message about [id] carried the endpoint [e]. *)
Definition reported tr id (e : EndpointInfo) : Prop :=
  ∃ r, LTook (TookReachable r) ∈ tr ∧ peer_id (peer r) = id ∧ e ∈ addresses (peer r).

(** The peer that a message is about. *)
Definition subject (t : taken) : option string :=
  match t with
  | TookOnline p => Some (peer_id (info p))
  | TookUnknown p => Some (peer_id p)
  | TookReachable r => Some (peer_id (peer r))
  | TookTick => None
  end.

(** Every record but the locations, which [places] is about. *)
Record history tr m : Prop := {
  h_witness id x : x ∈ members m (KReachable id) → x ∈ witnesses_of id tr;
  h_endpoint id x : x ∈ members m (KIp id) →
    ∃ e, reported tr id e ∧ x = json_text e;
  h_network id s : text_at m (KNetwork id) = Some s →
    ∃ r, LTook (TookReachable r) ∈ tr ∧ peer_id (peer r) = id ∧ s = into_str (network (peer r));
  h_online id v : text_at m (KOnline id) = Some v →
    ∃ p, LTook (TookOnline p) ∈ tr ∧ peer_id (info p) = id ∧ version p = v ∧ is_ex p = false;
  h_online2 id v : text_at m (KOnline2 id) = Some v →
    ∃ p, LTook (TookOnline p) ∈ tr ∧ peer_id (info p) = id ∧ version p = v ∧ is_ex p = true;
  h_unknown id s : text_at m (KUnknown id) = Some s →
    (ckb_node_default_witnesses cfg ≤ N.of_nat (size (witnesses_of id tr)))%N ∧
    ∃ p, LTook (TookUnknown p) ∈ tr ∧ peer_id p = id;
  h_quick id n : has m (KNetworkQuick id n) →
    ∃ r, LTook (TookReachable r) ∈ tr ∧ peer_id (peer r) = id ∧ network (peer r) = n;
  h_online_ip id s : text_at m (KOnlineIp id) = Some s →
    ∃ p a, LTook (TookOnline p) ∈ tr ∧ peer_id (info p) = id ∧
      head (addresses (info p)) = Some a ∧ s = json_text a;
  h_full id s : text_at m (KFull id) = Some s →
    ∃ p, LTook (TookOnline p) ∈ tr ∧ peer_id (info p) = id ∧ s = arg_bool (full p);
  h_seen id s : text_at m (KSeen id) = Some s →
    ∃ t secs, LTook t ∈ tr ∧ subject t = Some id ∧ shown (C:=C) secs ∧ s = arg_u64 secs;
  h_last_update s : text_at m KLastUpdate = Some s → ∃ secs, shown (C:=C) secs ∧ s = arg_u64 secs;
}.

Lemma witnesses_app id tr tr' :
  witnesses_of id (tr ++ tr') = witnesses_of id tr ∪ witnesses_of id tr'.
Proof. unfold witnesses_of. by rewrite omap_app, list_to_set_app_L. Qed.

(** More messages justify no less. *)
Lemma history_app tr l m : history tr m → history (tr ++ l) m.
Proof.
  intros [Hw He Hn Ho Ho2 Hu Hq Hip Hf Hs Hl]. split.
  - intros id x Hx%Hw. rewrite witnesses_app. set_solver.
  - intros id x Hx. destruct (He _ _ Hx) as (e & (r & ? & ?) & ?). exists e. split; [|done]. exists r. set_solver.
  - intros id x Hx. destruct (Hn _ _ Hx) as (r & ? & ?). exists r. set_solver.
  - intros id x Hx. destruct (Ho _ _ Hx) as (r & ? & ?). exists r. set_solver.
  - intros id x Hx. destruct (Ho2 _ _ Hx) as (r & ? & ?). exists r. set_solver.
  - intros id x Hx. destruct (Hu _ _ Hx) as (Hk & r & ? & ?). split; [|exists r; set_solver].
    etrans; [exact Hk|]. rewrite witnesses_app.
    assert (size (witnesses_of id tr) ≤ size (witnesses_of id tr ∪ witnesses_of id l)); [|lia].
    apply subseteq_size. set_solver.
  - intros id n Hx. destruct (Hq _ _ Hx) as (r & ? & ?). exists r. set_solver.
  - intros id x Hx. destruct (Hip _ _ Hx) as (p & a & ? & ?). exists p, a. set_solver.
  - intros id x Hx. destruct (Hf _ _ Hx) as (p & ? & ?). exists p. set_solver.
  - intros id x Hx. destruct (Hs _ _ Hx) as (t & secs & ? & ?). exists t, secs. set_solver.
  - done.
Qed.

Lemma history_empty tr : history tr ∅.
Proof.
  split; intros id; [intros x..|]; unfold members, set_at, text_at, str_at, has; rewrite lookup_empty; set_solver.
Qed.

Lemma history_expires tr m m' : expires_to m m' → history tr m → history tr m'.
Proof.
  intros Hx [Hw He Hn Ho Ho2 Hu Hq Hip Hf Hs Hl]. split; intros id; [intros x..|]; intros Hi;
    (eapply members_expires in Hi || eapply text_expires in Hi || eapply has_expires in Hi); eauto.
Qed.

(** A time under another key than those of times. *)
Lemma tick_history secs tr m :
  shown (C:=C) secs → history tr m → history tr (tick_spec secs m).
Proof.
  intros Hsh [Hw He Hn Ho Ho2 Hu Hq Hip Hf Hs Hl]. unfold tick_spec. keyify.
  split; intros id; [intros x..|]; autorewrite with rust; rewrite ?decide_False by done; auto; try by apply Hu.
  - intros Hx. apply Hq. clear -Hx. intuition congruence.
  - rewrite decide_True by done. intros [= <-]. eauto.
Qed.

Lemma seen_history t id secs tr m :
  LTook t ∈ tr → subject t = Some id → shown (C:=C) secs →
  history tr m → history tr (put (peer_seen_key id) (arg_u64 secs) m).
Proof.
  intros Ht Hsub Hsh [Hw He Hn Ho Ho2 Hu Hq Hip Hf Hs Hl]. keyify.
  split; intros id'; [intros x..|]; autorewrite with rust; rewrite ?(decide_False (P:=_ = _)) by done; auto; try by apply Hu.
  - intros Hx. apply Hq. clear -Hx. intuition congruence.
  - case_decide as Hid; [|apply Hs]. injection Hid as ->. intros [= <-]. eauto 6.
Qed.

Lemma online_history p geo secs tr m :
  LTook (TookOnline p) ∈ tr → shown (C:=C) secs →
  history tr m → history tr (online_spec cfg p geo secs m).
Proof.
  intros Hp Hsh Hm.
  assert (history tr (put (peer_full_key (peer_id (info p))) (arg_bool (full p))
    (online_endpoint cfg p geo (online_mark cfg p m)))) as Hm1.
  { destruct Hm as [Hw He Hn Ho Ho2 Hu Hq Hip Hf Hs Hl]. keyify.
    split; intros id; [intros x..|]; autorewrite with rust;
      rewrite ?(decide_False (P:=_ = KFull _)) by done;
      rewrite ?has_online_endpoint by done; rewrite ?has_mark by done;
      rewrite ?members_endpoint by done; rewrite ?members_mark by done;
      rewrite ?(text_endpoint _ _ _ _ (KFull _)), ?text_endpoint by done; rewrite ?text_mark by done; auto;
      try (by apply Hu); try (intros Hk; apply Hq; clear -Hk; intuition congruence);
      try (intros [Hx|(<- & a & ? & ->)]%text_online_ip; [revert Hx; rewrite text_mark|by eauto 6]);
      repeat case_decide; auto; destruct (is_ex p) eqn:Hx; simplify_eq; auto;
      first [by apply Hu | intros [= <-]; eauto 6]. }
  unfold online_spec. eapply (seen_history (TookOnline p)) in Hm1; [|done..].
  destruct Hm1 as [Hw He Hn Ho Ho2 Hu Hq Hip Hf Hs Hl]. keyify.
  split; intros id; [intros x..|]; rewrite ?members_delete, ?text_delete, ?has_delete;
    repeat (rewrite (decide_False (P:=_ = KUnknown _)) by done); auto.
  - case_decide; [done|]. apply Hu.
  - intros [_ Hx]. by apply Hq.
Qed.

Lemma unknown_history p secs tr m :
  LTook (TookUnknown p) ∈ tr → shown (C:=C) secs →
  history tr m → history tr (unknown_spec cfg p secs m).
Proof.
  intros Hp Hsh Hm. unfold unknown_spec. apply (seen_history (TookUnknown p)); [done..|].
  destruct Hm as [Hw He Hn Ho Ho2 Hu Hq Hip Hf Hs Hl]. keyify.
  case_decide; [|case_decide as Hk]; (split; intros id; [intros x..|]);
    autorewrite with rust; rewrite ?(decide_False (P:=_ = KUnknown _)) by done;
    rewrite ?(decide_False (P:=_ = KReachable _)) by done; auto; try by apply Hu.
  - case_decide; [done|]. auto.
  - case_decide as Hid; [|by apply Hu]. injection Hid as ->. intros _. split; [|eauto].
    etrans; [exact Hk|]. assert (members m (KReachable (peer_id p)) ⊆ witnesses_of (peer_id p) tr) as Hsub
      by (intros y; apply Hw).
    apply subseteq_size in Hsub. unfold members in Hsub. lia.
  - intros Hx. apply Hq. clear -Hx. intuition congruence.
Qed.

Lemma geo_history id geo tr m : history tr m → history tr (geo_spec id geo m).
Proof.
  intros [Hw He Hn Ho Ho2 Hu Hq Hip Hf Hs Hl].
  split; intros j; [intros x..|]; rewrite ?members_geo, ?text_geo, ?has_geo by done; auto; by apply Hu.
Qed.

Lemma record_history r secs tr m :
  LTook (TookReachable r) ∈ tr → shown (C:=C) secs →
  history tr m → history tr (reachable_record r secs m).
Proof.
  intros Hr Hsh Hm. unfold reachable_record. apply (seen_history (TookReachable r)); [done..|].
  destruct Hm as [Hw He Hn Ho Ho2 Hu Hq Hip Hf Hs Hl]. keyify.
  split; intros id; [intros x..|]; autorewrite with rust; rewrite ?text_add_endpoints, ?has_add_endpoints by done;
    autorewrite with rust; rewrite ?decide_False by done; auto; try by apply Hu.
  - intros [Hx|[? _]]%members_endpoints; [|done]. autorewrite with rust in Hx.
    rewrite decide_False in Hx by done. apply members_add in Hx as [Hx|[[= ->] ->]]; [by auto|].
    unfold witnesses_of. apply elem_of_list_to_set, list_elem_of_omap.
    exists (LTook (TookReachable r)). split; [done|]. cbn. by rewrite decide_True.
  - intros [Hx|([= ->] & e & Hin & ->)]%members_endpoints; [|exists e; split; [by exists r|done]].
    autorewrite with rust in Hx. rewrite decide_False in Hx by done.
    apply members_add in Hx as [Hx|[? _]]; [by auto|done].
  - case_decide as Hid; [|by auto]. injection Hid as ->. intros [= <-]. eauto.
  - intros Hx. destruct (decide (KNetworkQuick id x = KNetworkQuick (peer_id (peer r)) (network (peer r))))
      as [[= -> ->]|Hne]; [by eauto|]. apply Hq. clear -Hx Hne. intuition congruence.
Qed.

Lemma effect_history i t tr m m' :
  effect (C:=C) cfg i t m m' → history tr m → history (tr ++ [LTook t]) m'.
Proof.
  intros He Hm. assert (LTook t ∈ tr ++ [LTook t]) as Hin by set_solver.
  apply (history_app _ [LTook t]) in Hm. destruct t; cbn in He.
  - destruct He as (geo & secs & _ & ? & ->). by apply online_history.
  - destruct He as (secs & ? & ->). by apply unknown_history.
  - destruct He as (geo & secs & secs' & _ & ? & ? & ->). unfold reachable_spec. cbv zeta.
    apply (tick_history secs'); [done|]. case_decide; [apply geo_history|]; by apply record_history.
  - destruct He as (secs & ? & ->). by apply tick_history.
Qed.

(** *** The locations *)

(** Details that were known at the start, or that the IP service gives, for an
    address that a message about the peer carried; of an online message, the first. *)
Definition located (i : IpState I) tr id (d : IpDetails) : Prop :=
  (∃ r, LTook (TookReachable r) ∈ tr ∧ peer_id (peer r) = id ∧ found i (addresses (peer r)) d) ∨
  (∃ p, LTook (TookOnline p) ∈ tr ∧ peer_id (info p) = id ∧ found i (take 1 (addresses (info p))) d).

(** The four records of a peer's location are absent, or those of one location. *)
Definition place m id (o : option IpDetails) : Prop :=
  text_at m (KCountry id) = country <$> o ∧ text_at m (KCity id) = city <$> o ∧
  text_at m (KRegion id) = region <$> o ∧ text_at m (KPos id) = loc <$> o.
Definition places (i : IpState I) tr m : Prop :=
  ∀ id, ∃ o, place m id o ∧ ∀ d, o = Some d → located i tr id d.

(** Two stores with the same locations. *)
Definition same_places m m' : Prop := ∀ k, geo_key k = true → text_at m' k = text_at m k.

Lemma same_places_places i tr m m' : same_places m m' → places i tr m → places i tr m'.
Proof. intros Hs Hp id. destruct (Hp id) as (o & (? & ? & ? & ?) & ?). exists o. unfold place. by rewrite !Hs. Qed.

Lemma places_app i tr l m : places i tr m → places i (tr ++ l) m.
Proof.
  intros Hp id. destruct (Hp id) as (o & ? & Ho). exists o. split; [done|].
  intros d [(r & ? & ?)|(p & ? & ?)]%Ho; [left; exists r|right; exists p]; set_solver.
Qed.

Lemma place_geo id geo m id' :
  place (geo_spec id geo m) id' (if decide (id = id') then geo else None) ∨
  ((id = id' → geo = None) ∧ ∀ o, place m id' o → place (geo_spec id geo m) id' o).
Proof.
  destruct geo as [d|]; [|by right]. destruct (decide (id = id')) as [<-|Hne].
  - left. unfold place. cbn. keyify. autorewrite with rust.
    split_and!; repeat case_decide; congruence.
  - right. split; [done|]. intros o. unfold place. cbn. keyify. autorewrite with rust.
    by rewrite !decide_False by congruence.
Qed.

Lemma geo_places i tr id geo m :
  (∀ d, geo = Some d → located i tr id d) → places i tr m → places i tr (geo_spec id geo m).
Proof.
  intros Hg Hp id'. destruct (place_geo id geo m id') as [Hpl|[_ Hpl]].
  - eexists. split; [exact Hpl|]. case_decide; [by subst|done].
  - destruct (Hp id') as (o & Ho & ?). exists o. split; [by apply Hpl|done].
Qed.

Lemma expires_places i tr m m' :
  well_typed m → expires_to m m' → places i tr m → places i tr m'.
Proof.
  intros Hty He. apply same_places_places. intros k Hk. specialize (He (key_string k)).
  unfold text_at, str_at. destruct (m !! key_string k) as [[v t]|] eqn:Hv; [|by rewrite He].
  pose proof (Hty _ _ Hv) as Ht. destruct k; try done; destruct Ht as [x Ht]; injection Ht as -> ->.
  all: by rewrite He.
Qed.

Lemma effect_places i i0 t tr m m' :
  (∀ a d, known_details i a d → known_details i0 a d) →
  effect (C:=C) cfg i t m m' → places i0 tr m → places i0 (tr ++ [LTook t]) m'.
Proof.
  intros Hk He Hm. apply (places_app _ _ [LTook t]) in Hm.
  assert (LTook t ∈ tr ++ [LTook t]) as Hin by set_solver.
  assert (∀ l d, found i l d → found i0 l d) as Hf by (intros l d (x & ? & ?); exists x; auto).
  destruct t as [p|p|r|]; cbn [effect] in He.
  - destruct He as (geo & secs & Hg & _ & ->).
    assert (places i0 (tr ++ [LTook (TookOnline p)]) (online_endpoint cfg p geo (online_mark cfg p m))) as Hm1.
    { unfold online_endpoint. destruct (addresses (info p)) as [|a l] eqn:Ha.
      + eapply same_places_places; [|exact Hm]. intros k Hgk. rewrite text_mark.
        repeat case_decide; destruct (is_ex p); by subst.
      + apply geo_places; [intros d Hd; right; exists p; rewrite Ha; auto|].
        eapply same_places_places; [|exact Hm]. intros k Hgk. keyify. autorewrite with rust.
        rewrite decide_False by by intros ->. rewrite text_mark.
        repeat case_decide; destruct (is_ex p); by subst. }
    eapply same_places_places; [|exact Hm1]. intros k Hgk. unfold online_spec. keyify.
    autorewrite with rust. by rewrite !decide_False by by intros ->.
  - destruct He as (secs & _ & ->). eapply same_places_places; [|exact Hm]. intros k Hgk.
    unfold unknown_spec. keyify. autorewrite with rust. rewrite decide_False by by intros ->.
    repeat case_decide; autorewrite with rust; by rewrite ?decide_False by by intros ->.
  - destruct He as (geo & secs & secs' & Hg & _ & _ & ->).
    assert (places i0 (tr ++ [LTook (TookReachable r)]) (reachable_record r secs m)) as Hm1.
    { eapply same_places_places; [|exact Hm]. intros k Hgk. unfold reachable_record. keyify.
      autorewrite with rust. rewrite !decide_False by by intros ->. rewrite text_add_endpoints.
      autorewrite with rust. by rewrite decide_False by by intros ->. }
    eapply same_places_places with (m := if decide _ then _ else _); [|unfold reachable_spec; cbv zeta].
    { intros k Hgk. unfold reachable_spec, tick_spec. cbv zeta. keyify. autorewrite with rust.
      by rewrite decide_False by by intros ->. }
    case_decide; [|done]. apply geo_places; [|done]. intros d Hd. left. exists r. auto.
  - destruct He as (secs & _ & ->). eapply same_places_places; [|exact Hm]. intros k Hgk.
    unfold tick_spec. keyify. autorewrite with rust. by rewrite decide_False by by intros ->.
Qed.

Lemma handle_invents t (w : World R I M C) a d :
  known_details (w_ip (handle env cfg t w).2) a d → known_details (w_ip w) a d.
Proof.
  destruct t; [apply invents_online|apply invents_unknown|apply invents_reachable|apply invents_tick].
Qed.

Lemma steps_history (w : World R I M C) tr (st : Loop R I M C Q) :
  config_ok cfg → healthy env w → view (w_redis w) = ∅ →
  steps env cfg (start w) tr st → sane env st ∧ history tr (db st).
Proof.
  intros Hc Hw Hdb. induction 1 as [|tr st1 l st2 Hs IH Hstep].
  - split; [apply start_sane; [done|rewrite Hdb; apply store_ok_empty]|].
    unfold db. cbn. rewrite Hdb. apply history_empty.
  - destruct IH as [Hsane Hh]. split; [by eapply step_sane|].
    destruct Hstep as [e st st' _ He|a t st st' _ Ha|].
    + apply read_kept in He as [Hl _]. unfold db in *. rewrite Hl. by apply history_app.
    + eapply effect_history; [by eapply select_sane|done].
    + apply history_app. unfold db in *. cbn in *. by eapply history_expires.
Qed.

Lemma steps_places (w : World R I M C) tr (st : Loop R I M C Q) :
  config_ok cfg → healthy env w → view (w_redis w) = ∅ →
  steps env cfg (start w) tr st →
  (∀ a d, known_details (w_ip (l_world st)) a d → known_details (w_ip w) a d) ∧
  places (w_ip w) tr (db st).
Proof.
  intros Hc Hw Hdb Hs. induction Hs as [|tr st1 l st2 Hs IH Hstep].
  - split; [done|]. intros id. exists None. split; [|done]. unfold place, db. cbn. rewrite Hdb.
    unfold text_at, str_at. by rewrite !lookup_empty.
  - destruct IH as [Hk Hp]. destruct (steps_history w tr st1 Hc Hw Hdb Hs) as [Hsane _].
    destruct Hstep as [e st st' _ He|a t st st' _ Ha|].
    + apply read_kept in He as (Hl & Hi & _). unfold db in *. rewrite Hl, Hi. split; [done|]. by apply places_app.
    + pose proof (select_sane env cfg a t st st' Hc Hsane Ha) as [_ He]. split; [|by eapply effect_places].
      intros x d Hd. apply Hk. apply select_inv in Ha as (st0 & <- & _ & -> & _).
      apply (handle_invents t). revert Hd. unfold resume. destruct st0 as [w0 oq rq uq r x0]. cbn [l_world].
      by destruct (handle env cfg t w0) as [[[]| |] w'].
    + split; [done|]. apply places_app. unfold db in *. cbn in *. eapply expires_places; [|done..].
      exact (ok_typed _ (sane_store _ _ Hsane)).
Qed.

(** C6 (safety). Marci makes nothing up and a stranger alone cannot make a peer
    unknown. From an empty database, in every reachable state, each record of a peer
    comes from messages about that peer that marci has handled: its endpoints,
    networks and witnesses from reachable messages; its version, of the kind that the
    key's family says, its full flag and its online endpoint, the first of the
    message, from online messages; a time last seen is one that the clock shows, and
    recorded only for a peer that a message was about. A peer is recorded as unknown only if it was
    announced unreachable and at least the configured number of different peers had
    reported it. Country, city, region and position are those of one location, which
    the IP service gives, or which was cached at the start, for an address of a
    reachable message or the first of an online message about that peer. *)
Theorem records_have_sources (w : World R I M C) tr (st : Loop R I M C Q) :
  config_ok cfg → healthy env w → view (w_redis w) = ∅ →
  steps env cfg (start w) tr st →
  history tr (db st) ∧ places (w_ip w) tr (db st).
Proof. intros Hc Hw Hdb Hs. split; [by eapply steps_history|by eapply steps_places]. Qed.

Lemma dial_requests_sourced `{!JsonLaws EndpointInfo} tr m ids payloads :
  history tr m → Forall2 (dial_request m) ids payloads →
  ∃ requests, payloads = map json_text requests ∧
    ∀ req e, req ∈ requests → e ∈ addresses req → reported tr (peer_id req) e.
Proof.
  intros Hh. induction 1 as [|id payload ids payloads (raw & _ & Hraw & ->) _ (requests & -> & Hr)].
  - exists []. split; [done|]. set_solver.
  - eexists (_ :: requests). split; [done|].
    intros req e [->|Hin]%elem_of_cons He; [|by eapply Hr]. cbn in *.
    apply list_elem_of_omap in He as (x & Hx%Hraw & He).
    destruct (h_endpoint _ _ Hh id x Hx) as (e' & Hrep & ->).
    rewrite of_json_text in He. by injection He as ->.
Qed.

(** C32 (safety). Every dial request that a tick publishes is for endpoints that
    reachable messages about the same peer carried: none is invented, and none
    belongs to another peer. *)
Theorem dial_requests_have_sources `{!JsonLaws EndpointInfo} (w : World R I M C) tr
    (st st' : Loop R I M C Q) t :
  config_ok cfg → healthy env w → view (w_redis w) = ∅ →
  steps env cfg (start w) tr st → select env cfg TickArm st = Some (t, st') →
  ∃ requests,
    sent (w_mqtt (l_world st')) =
      sent (w_mqtt (l_world st)) ++ map (pair "peer/needs_dial") (map json_text requests) ∧
    ∀ req e, req ∈ requests → e ∈ addresses req → reported tr (peer_id req) e.
Proof.
  intros Hc Hw Hdb Hs Ht. destruct (steps_history w tr st Hc Hw Hdb Hs) as [[_ Hh _ _ _ _] Hhist].
  destruct st as [ws oq rq uq r x]. cbn in Ht. injection Ht as <- <-. unfold resume, handle.
  pose proof (tick_runs env ws Hh) as Hr. unfold runs in Hr.
  destruct (handle_tick ws) as [[[]|e|] w']; [|done..].
  destruct Hr as (_ & _ & keys & payloads & _ & _ & Hall & Hsent).
  destruct (dial_requests_sourced tr _ _ _ Hhist Hall) as (requests & -> & Hreq). eauto.
Qed.
End History.
