(* ===== verification/MarciFaults.v ===== *)
(** * MarciFaults: marci on services that fail

    The theorems of MarciSpec.v and MarciLoop.v are about services that answer
    and on which a handler is one step. Here any command of any handler may fail
    and time may pass between any two: what holds of the database then. *)
From S2P Require Import Prelude RustStd RustNet Types Redis RedisFaults Services Keys IpInfo.
From S2P Require Import Marci MarciSpec MarciInv MarciLoop.

(** ** The invariant, peer by peer *)
Section Damage.
Context {R : Type} `{Redis R} `{Json EndpointInfo}.
Implicit Types (m : store) (k : key) (id : string) (D : gset string).

(** What [store_ok] says about one peer. *)
Definition exclusive_ok m id : Prop := has m (KOnline id) → ¬ has m (KUnknown id).
Definition network_ok m id : Prop := has m (KReachable id) →
  ∃ n, text_at m (KNetwork id) = Some (into_str n) ∧ has m (KNetworkQuick id n).
Definition seen_ok m id : Prop :=
  has m (KOnline id) ∨ has m (KOnline2 id) ∨ has m (KUnknown id) ∨ has m (KReachable id) →
  has m (KSeen id).
Definition full_ok m id : Prop := has m (KOnline id) ∨ has m (KOnline2 id) → has m (KFull id).
Definition peer_ok m id : Prop := exclusive_ok m id ∧ network_ok m id ∧ seen_ok m id ∧ full_ok m id.

(** The database is well formed, but for the records of the peers in [D], which
    are only well typed. *)
Definition almost D m : Prop := well_typed m ∧ ∀ id, id ∉ D → peer_ok m id.

Lemma store_ok_almost m : store_ok m ↔ almost ∅ m.
Proof.
  split.
  - intros [Ht Hex Hnet Hseen Hfull]. split; [done|]. intros id _.
    exact (conj (Hex id) (conj (Hnet id) (conj (Hseen id) (Hfull id)))).
  - intros [Ht Hp]. assert (∀ id, peer_ok m id) as Hall by (intros id; apply Hp; set_solver).
    split; [done|intros id; destruct (Hall id) as (Hex & Hnet & Hseen & Hfull); assumption..].
Qed.

Lemma almost_mono D D' m : D ⊆ D' → almost D m → almost D' m.
Proof. intros Hs [Ht Hp]. split; [done|]. intros id Hid. apply Hp. set_solver. Qed.

Lemma almost_restore D id m : almost ({[id]} ∪ D) m → (id ∉ D → peer_ok m id) → almost D m.
Proof.
  intros [Ht Hp] Hid. split; [done|]. intros j Hj. destruct (decide (j = id)) as [->|]; [by apply Hid|].
  apply Hp. set_solver.
Qed.

(** The peer a key is about. *)
Definition key_peer k : option string :=
  match k with
  | KOnline id | KOnline2 id | KOnlineIp id | KReachable id | KUnknown id | KSeen id | KIp id
  | KCountry id | KCity id | KRegion id | KFull id | KPos id | KNetwork id
  | KNetworkQuick id _ => Some id
  | KLastUpdate => None
  end.

(** A write to a record of a peer in [D] leaves the others alone. *)
Lemma peer_ok_frame m m' id :
  (∀ k, key_peer k = Some id → m' !! key_string k = m !! key_string k) → peer_ok m id → peer_ok m' id.
Proof.
  intros Hk. assert (∀ k, key_peer k = Some id → has m' k ↔ has m k) as Hh
    by (intros k Hi; unfold has; by rewrite Hk).
  assert (∀ k, key_peer k = Some id → text_at m' k = text_at m k) as Htx
    by (intros k Hi; unfold text_at, str_at; by rewrite Hk).
  unfold peer_ok, exclusive_ok, network_ok, seen_ok, full_ok.
  rewrite !Hh, !Htx by done. intros (Hex & Hnet & Hseen & Hfull). split_and!; auto.
  intros Hr. destruct (Hnet Hr) as (n & Hn & Hq). exists n. by rewrite Hh.
Qed.

Definition within D k : Prop := match key_peer k with Some id => id ∈ D | None => True end.

Lemma within_other D k k' id : within D k → id ∉ D → key_peer k' = Some id → k' ≠ k.
Proof. intros Hw Hid Hk ->. unfold within in Hw. by rewrite Hk in Hw. Qed.

Lemma almost_put D k v m :
  within D k → typed k (Entry (RStr v) None) → almost D m → almost D (put (key_string k) v m).
Proof.
  intros Hw Hty [Ht Hp]. split; [by apply well_typed_put|]. intros id Hid.
  eapply peer_ok_frame; [|by apply Hp]. intros k' Hk'. unfold put. rewrite lookup_key_insert.
  by rewrite decide_False by (by eapply within_other).
Qed.

Lemma almost_put_ex D k v t m :
  within D k → typed k (Entry (RStr v) (Some t)) → almost D m → almost D (put_ex (key_string k) v t m).
Proof.
  intros Hw Hty [Ht Hp]. split; [by apply well_typed_put_ex|]. intros id Hid.
  eapply peer_ok_frame; [|by apply Hp]. intros k' Hk'. unfold put_ex. rewrite lookup_key_insert.
  by rewrite decide_False by (by eapply within_other).
Qed.

Lemma almost_touch D id t m :
  id ∈ D → (0 < t)%N → almost D m → almost D (touch (key_string (KOnline id)) t m).
Proof.
  intros Hw Ht0 [Ht Hp]. split; [by apply well_typed_touch|]. intros j Hj.
  eapply peer_ok_frame; [|by apply Hp]. intros k' Hk'. rewrite lookup_key_touch.
  by rewrite decide_False by (by eapply (within_other D (KOnline id))).
Qed.

Lemma almost_delete D k m : within D k → almost D m → almost D (delete (key_string k) m).
Proof.
  intros Hw [Ht Hp]. split; [by apply well_typed_delete|]. intros id Hid.
  eapply peer_ok_frame; [|by apply Hp]. intros k' Hk'. rewrite lookup_key_delete.
  by rewrite decide_False by (by eapply within_other).
Qed.

Lemma almost_add D k x m :
  within D k → well_typed (add_member (key_string k) x m) → almost D m →
  almost D (add_member (key_string k) x m).
Proof.
  intros Hw Hty [Ht Hp]. split; [done|]. intros id Hid.
  eapply peer_ok_frame; [|by apply Hp]. intros k' Hk'. rewrite lookup_key_add.
  by rewrite decide_False by (by eapply within_other).
Qed.

(** *** The network of a peer, under writes to other records *)
Definition network_key k : bool :=
  match k with KReachable _ | KNetwork _ | KNetworkQuick _ _ => true | _ => false end.

Lemma network_frame m m' id :
  (∀ k, network_key k = true → m' !! key_string k = m !! key_string k) →
  network_ok m' id ↔ network_ok m id.
Proof.
  intros Hk. assert (∀ k, network_key k = true → has m' k ↔ has m k) as Hh
    by (intros k Hi; unfold has; by rewrite Hk).
  unfold network_ok. rewrite Hh by done.
  assert (text_at m' (KNetwork id) = text_at m (KNetwork id)) as -> by (unfold text_at, str_at; by rewrite Hk).
  assert (∀ n, has m' (KNetworkQuick id n) ↔ has m (KNetworkQuick id n)) as Hq by (intros; by apply Hh).
  by setoid_rewrite Hq.
Qed.

Lemma other_key k k' : network_key k = false → network_key k' = true → k' ≠ k.
Proof. by intros ?? ->; congruence. Qed.

Lemma network_put k v m id :
  network_key k = false → network_ok (put (key_string k) v m) id ↔ network_ok m id.
Proof.
  intros Hk. apply network_frame. intros k' Hk'. unfold put. rewrite lookup_key_insert.
  by rewrite decide_False by (by eapply other_key).
Qed.
Lemma network_put_ex k v t m id :
  network_key k = false → network_ok (put_ex (key_string k) v t m) id ↔ network_ok m id.
Proof.
  intros Hk. apply network_frame. intros k' Hk'. unfold put_ex. rewrite lookup_key_insert.
  by rewrite decide_False by (by eapply other_key).
Qed.
Lemma network_touch k t m id :
  network_key k = false → network_ok (touch (key_string k) t m) id ↔ network_ok m id.
Proof.
  intros Hk. apply network_frame. intros k' Hk'. rewrite lookup_key_touch.
  by rewrite decide_False by (by eapply other_key).
Qed.
Lemma network_delete k m id :
  network_key k = false → network_ok (delete (key_string k) m) id ↔ network_ok m id.
Proof.
  intros Hk. apply network_frame. intros k' Hk'. rewrite lookup_key_delete.
  by rewrite decide_False by (by eapply other_key).
Qed.
Lemma network_witnessless m id j :
  network_ok m id → network_ok (delete (key_string (KReachable j)) m) id.
Proof.
  unfold network_ok. intros Hn. rewrite has_delete. intros [_ Hr].
  destruct (Hn Hr) as (n & Ht & Hq). exists n. rewrite text_delete, has_delete, decide_False by done. auto.
Qed.

(** ** What time does not undo *)
Definition lasting (P : store → Prop) : Prop :=
  ∀ m m', well_typed m → expires_to m m' → P m → P m'.

Lemma lasting_and (P Q : store → Prop) : lasting P → lasting Q → lasting (λ m, P m ∧ Q m).
Proof. intros HP HQ m m' Ht He [? ?]. split; eauto. Qed.
Lemma lasting_if (X : Prop) (P : store → Prop) : lasting P → lasting (λ m, X → P m).
Proof. intros HP m m' Ht He Hx HX. eauto. Qed.
Lemma lasting_const (X : Prop) : lasting (λ _, X).
Proof. by intros m m' _ _. Qed.

Definition permanent k : bool :=
  match k with KFull _ | KSeen _ | KNetworkQuick _ _ | KNetwork _ => true | _ => false end.

Lemma lasting_has k : permanent k → lasting (λ m, has m k).
Proof. intros Hk m m' Ht He Hh. eapply has_permanent in Hh as [? _]; eauto. by destruct k. Qed.
Lemma lasting_absent k : lasting (λ m, ¬ has m k).
Proof. intros m m' Ht He Hn Hh. eapply Hn, has_expires; eauto. Qed.
Lemma lasting_text id v : lasting (λ m, text_at m (KNetwork id) = Some v).
Proof.
  intros m m' Ht He Hv. assert (has m (KNetwork id)) as Hh.
  { unfold text_at, str_at in Hv. unfold has. destruct (m !! _); [eauto|done]. }
  eapply has_permanent in Hh as [_ Heq]; eauto. by rewrite Heq.
Qed.

Lemma lasting_exclusive id : lasting (λ m, exclusive_ok m id).
Proof. intros m m' Ht He Hx Ho Hu. apply Hx; eauto using has_expires. Qed.
Lemma lasting_network id : lasting (λ m, network_ok m id).
Proof.
  intros m m' Ht He Hx Hr. destruct Hx as (n & Hn & Hq); [eauto using has_expires|].
  exists n. split; [by eapply lasting_text|]. by eapply (lasting_has (KNetworkQuick id n)).
Qed.
Lemma lasting_seen id : lasting (λ m, seen_ok m id).
Proof.
  intros m m' Ht He Hx Hs. eapply (lasting_has (KSeen id)); [done..|]. apply Hx.
  destruct_or!; eauto using has_expires.
Qed.
Lemma lasting_full id : lasting (λ m, full_ok m id).
Proof.
  intros m m' Ht He Hx Hs. eapply (lasting_has (KFull id)); [done..|]. apply Hx.
  destruct_or!; eauto using has_expires.
Qed.
Lemma lasting_peer id : lasting (λ m, peer_ok m id).
Proof.
  unfold peer_ok. repeat apply lasting_and; auto using lasting_exclusive, lasting_network, lasting_seen, lasting_full.
Qed.

Lemma almost_expires D m m' : almost D m → expires_to m m' → almost D m'.
Proof.
  intros [Ht Hp] He. split; [by eapply expires_typed|]. intros id Hid.
  eapply lasting_peer; eauto.
Qed.
End Damage.
#[export] Hint Rewrite @network_put @network_put_ex @network_touch @network_delete using done : rust.
#[export] Hint Resolve lasting_and lasting_if lasting_const lasting_has lasting_absent lasting_text
  lasting_exclusive lasting_network lasting_seen lasting_full lasting_peer : rust.

(** ** A program logic for handlers on such services *)
Section Logic.
Context {R I M C : Type} `{RedisWeakLaws R} `{IpService I} `{Mqtt M} `{Clock C}.
Context `{Json EndpointInfo} `{Json NodeMetaInfo}.
Context (env : string → option string) (cfg : Config).
Implicit Types (w : World R I M C) (m : store) (D : gset string) (P Q : store → Prop).

Abbreviation handler := (comp (World R I M C) (MarciError R M)).

(** The broker may refuse a message. *)
Definition mqtt_fails : Prop := ∃ topic payload (s : M) e, (mqtt_publish topic payload s).1 = Err e.
Definition unreliable : Prop := flaky ∨ mqtt_fails.

Definition ready w : Prop := usable (w_redis w) ∧ ip_ready env (w_ip w).
Definition stored_in w : store := stored (w_redis w).

(** From a database that satisfies [P], the code ends with one that satisfies [J],
    or through [?]; at any rate it is well formed but for the peers in [D]. *)
Definition keeps D P {A} (c : handler A) (J : A → store → Prop) : Prop :=
  ∀ w, ready w → almost D (stored_in w) → P (stored_in w) →
    tries c w (λ a w', ready w' ∧ almost D (stored_in w') ∧ J a (stored_in w'))
              (λ _ w', unreliable ∧ almost D (stored_in w')).

Lemma keeps_ret D P {A} (a : A) (J : A → store → Prop) :
  (∀ m, P m → J a m) → keeps D P (mret a) J.
Proof. intros HJ w ? ? ?. apply tries_ret. auto. Qed.

Lemma keeps_bind D P {A B} (c : handler A) (k : A → handler B) J L :
  keeps D P c J → (∀ a, keeps D (J a) (k a) L) → keeps D P (c ≫= k) L.
Proof.
  intros Hc Hk w Hw Hd HP. apply tries_bind. eapply tries_mono; [by apply Hc| |done].
  intros a w' (? & ? & ?). by apply Hk.
Qed.

Lemma keeps_conseq D P P' {A} (c : handler A) (J J' : A → store → Prop) :
  keeps D P c J → (∀ m, P' m → P m) → (∀ a m, J a m → J' a m) → keeps D P' c J'.
Proof.
  intros Hc HP HJ w Hw Hd Hm. eapply tries_mono; [by apply Hc; auto| |done].
  intros a w' (? & ? & ?). auto.
Qed.

Lemma keeps_for_each D P {A} (l : list A) (body : A → handler unit) :
  (∀ x, keeps D P (body x) (λ _, P)) → keeps D P (for_each l body) (λ _, P).
Proof.
  intros Hb. induction l as [|x l IH]; [by apply keeps_ret|]. cbn [for_each].
  eapply keeps_bind; [apply Hb|]. by intros [].
Qed.

(** A write, awaited. *)
Lemma keeps_write D P Q (f : R → result unit (redis_error R) * R) eff refuses :
  writes flaky usable stored f eff refuses → lasting P →
  (∀ m, almost D m → almost D (eff m)) → (∀ m, well_typed m → ¬ refuses m) →
  (∀ m, well_typed m → P m → Q (eff m)) →
  keeps D P (await (call f)) (λ _, Q).
Proof.
  intros Hf Hl HD Hr HQ w [Hu Hi] Hd HP. unfold await. apply tries_bind.
  destruct (Hf _ Hu) as (r & s' & m & Heq & Hu' & He & Hres). eapply tries_call; [exact Heq|].
  assert (almost D m) as Hdm by by eapply almost_expires.
  assert (P m) as HPm by (eapply Hl; [apply Hd|done..]).
  destruct r as [[]|e]; unfold tries; cbn; unfold ready, stored_in; cbn.
  - rewrite Hres. split_and!; [done|done|auto|]. apply HQ; [apply Hdm|done].
  - split; [left|]; destruct Hres as [[Hre _]|[Hfl Hv]]; [by destruct (Hr m (proj1 Hdm))|done
      |by destruct (Hr m (proj1 Hdm))|]. destruct Hv as [-> | ->]; auto.
Qed.

(** A write whose result is dropped. *)
Lemma keeps_dropped_write D P (f : R → result unit (redis_error R) * R) eff refuses :
  writes flaky usable stored f eff refuses → lasting P →
  (∀ m, almost D m → almost D (eff m)) →
  (∀ m, well_typed m → P m → P (eff m)) →
  keeps D P (call f) (λ _, P).
Proof.
  intros Hf Hl HD HQ w [Hu Hi] Hd HP.
  destruct (Hf _ Hu) as (r & s' & m & Heq & Hu' & He & Hres). eapply tries_call; [exact Heq|].
  assert (almost D m) as Hdm by by eapply almost_expires.
  assert (P m) as HPm by (eapply Hl; [apply Hd|done..]).
  unfold ready, stored_in; cbn.
  assert (stored s' = m ∨ stored s' = eff m) as [-> | ->]
    by (destruct r; [by right|destruct Hres as [[_ ?]|[_ ?]]; auto]); [done|].
  split_and!; [done|done|by apply HD..|]. apply HQ; [apply Hdm|done].
Qed.

(** A read. *)
Lemma keeps_read D P {A} (f : R → result A (redis_error R) * R) ok refuses :
  reads flaky usable stored f ok refuses → lasting P →
  keeps D P (call f) (λ r m, P m ∧ match r with Ok a => ok m a | Err _ => refuses m ∨ unreliable end).
Proof.
  intros Hf Hl w [Hu Hi] Hd HP.
  destruct (Hf _ Hu) as (r & s' & Heq & Hu' & He & Hres). eapply tries_call; [exact Heq|].
  unfold ready, stored_in; cbn. split_and!; [done|done|by eapply almost_expires| |].
  - eapply Hl; [apply Hd|done..].
  - destruct r; [done|]. destruct Hres; [by left|]. right. by left.
Qed.

Lemma keeps_get_string D P k :
  lasting P →
  keeps D P (con_get_string k) (λ r m, P m ∧
    match r with Ok v => str_at m k = Some v | Err _ => str_at m k = None ∨ unreliable end).
Proof.
  intros Hl. unfold con_get_string, con_get_with.
  eapply keeps_bind; [by eapply keeps_read; [apply weak_get|]|].
  intros [[v|]|e]; apply keeps_ret; intros m [HP Hr]; (split; [done|]); cbn.
  - by destruct Hr as [Hr _].
  - left. by destruct Hr as [Hr _].
  - destruct Hr as [Hs|?]; [left|by right]. unfold is_set, str_at in *. by destruct (m !! k) as [[[] ?]|].
Qed.

(** *** The commands, on the keys of the schema *)
Lemma keeps_set D P Q k v :
  lasting P → within D k → typed k (Entry (RStr v) None) →
  (∀ m, well_typed m → P m → Q (put (key_string k) v m)) →
  keeps D P (await (con_set (key_string k) v)) (λ _, Q).
Proof.
  intros. eapply keeps_write; [apply weak_set|done| |by intros m _ []|done].
  intros m. by apply almost_put.
Qed.

Lemma keeps_set_ex D P Q k v t :
  lasting P → (0 < t ≤ max_ttl)%N → within D k → typed k (Entry (RStr v) (Some t)) →
  (∀ m, well_typed m → P m → Q (put_ex (key_string k) v t m)) →
  keeps D P (await (con_set_ex (key_string k) v t)) (λ _, Q).
Proof.
  intros. eapply keeps_write; [by apply weak_set_ex|done| |by intros m _ []|done].
  intros m. by apply almost_put_ex.
Qed.

Lemma keeps_expire D P Q id t :
  lasting P → (0 < t ≤ max_ttl)%N → id ∈ D →
  (∀ m, well_typed m → P m → Q (touch (key_string (KOnline id)) t m)) →
  keeps D P (await (con_expire (key_string (KOnline id)) t)) (λ _, Q).
Proof.
  intros ? [? ?] ??. eapply keeps_write; [by apply weak_expire|done| |by intros m _ []|done].
  intros m. by apply almost_touch.
Qed.

Lemma keeps_del D P Q k :
  lasting P → within D k → (∀ m, well_typed m → P m → Q (delete (key_string k) m)) →
  keeps D P (await (con_del (key_string k))) (λ _, Q).
Proof.
  intros. eapply keeps_write; [apply weak_del|done| |by intros m _ []|done].
  intros m. by apply almost_delete.
Qed.

Lemma keeps_sadd D P Q k x :
  lasting P → within D k → (∀ m, well_typed m → ¬ is_str m (key_string k)) →
  (∀ m, well_typed m → well_typed (add_member (key_string k) x m)) →
  (∀ m, well_typed m → P m → Q (add_member (key_string k) x m)) →
  keeps D P (await (con_sadd (key_string k) x)) (λ _, Q).
Proof.
  intros ??? Ht ?. eapply keeps_write; [apply weak_sadd|done| |done|done].
  intros m Hm. apply almost_add; [done| |done]. apply Ht, Hm.
Qed.

(** What does not touch the database. *)
Lemma keeps_now D P : keeps D P now (λ _, P).
Proof. intros w Hw Hd HP. unfold now. eapply tries_call; [apply surjective_pairing|]. auto. Qed.

Lemma keeps_zoom D P {A} (c : comp (IpState I) (MarciError R M) A) :
  (∀ i, ip_ready env i → runs c i (λ _ i', ip_ready env i')) → keeps D P (zoom c) (λ _, P).
Proof.
  intros Hc w [Hu Hi] Hd HP. apply runs_tries, runs_zoom. eapply runs_mono; [by apply Hc|].
  intros a i' Hi'. exact (conj (conj Hu Hi') (conj Hd HP)).
Qed.

Lemma keeps_publish D P topic payload :
  keeps D P (r ← publish topic payload; question BoxedMqtt r) (λ _, P).
Proof.
  intros w Hw Hd HP. apply tries_bind. eapply tries_call; [apply surjective_pairing|].
  destruct (mqtt_publish topic payload (lget w)).1 as [[]|e] eqn:Hr; unfold tries; cbn; [done|].
  split; [|done]. right. by eexists _, _, _, e.
Qed.

(** The timeouts are ones the server accepts. *)
Definition config_fits : Prop :=
  (0 < ckb_node_default_timeout cfg ≤ max_ttl)%N ∧
  (0 < ckb_node_unknown_default_timeout cfg ≤ max_ttl)%N.

Lemma keeps_timeout D P t :
  (t ≤ max_ttl)%N → keeps D P (unwrap (Int.i64_of_u64 t)) (λ n m, n = t ∧ P m).
Proof.
  intros Ht. pose proof max_ttl_i64. unfold Int.i64_of_u64. rewrite decide_True by (etrans; done).
  by apply keeps_ret.
Qed.

(** *** The handlers *)
#[local] Hint Resolve keeps_now : rust.

(** Location records are in none of the relations. *)
Definition geo_blind P : Prop := ∀ k v m, geo_key k = true → P m → P (put (key_string k) v m).

Lemma keeps_geo D P id geo :
  lasting P → geo_blind P → id ∈ D →
  keeps D P (match geo with Some ip => store_geo id ip | None => mret tt end) (λ _, P).
Proof.
  intros Hl Hg Hid. destruct geo as [ip|]; [|by apply keeps_ret]. unfold store_geo. keyify.
  do 3 (apply (keeps_bind _ _ _ _ (λ _, P)); [apply keeps_set; [done|done|by eexists|auto]|intros []]).
  apply keeps_set; [done|done|by eexists|auto].
Qed.

Lemma geo_blind_network D id : geo_blind (λ m, id ∉ D → network_ok m id).
Proof. intros k v m Hk Hn Hid. rewrite network_put; [by apply Hn|by destruct k]. Qed.

Lemma geo_blind_peer D id : geo_blind (λ m, id ∉ D → peer_ok m id).
Proof.
  intros k v m Hk Hn Hid. destruct (Hn Hid) as (Hex & Hnet & Hseen & Hfull).
  unfold peer_ok, exclusive_ok, seen_ok, full_ok in *. autorewrite with rust.
  rewrite network_put by by destruct k. destruct k; try done; split_and!; naive_solver.
Qed.

Lemma keeps_touch_service D P :
  lasting P → (∀ v m, P m → P (put last_update_key v m)) → keeps D P touch_service (λ _, P).
Proof.
  intros Hl HP. unfold touch_service. eapply keeps_bind; [apply keeps_now|]. intros t.
  apply (keeps_bind _ _ _ _ (λ _, P)); [|intros r; by apply keeps_ret].
  eapply keeps_dropped_write; [apply weak_set|done| |auto].
  intros m. apply (almost_put D KLastUpdate); [done|]. by eexists.
Qed.

Lemma keeps_pure (X : Prop) D P {A} (c : handler A) J :
  (X → keeps D P c J) → keeps D (λ m, X ∧ P m) c J.
Proof. intros Hc w Hw Hd [HX HP]. by apply Hc. Qed.

Ltac next J := apply (keeps_bind _ _ _ _ J).

(** The refresh of an online record that the online and unknown handlers start with. *)
Lemma keeps_refresh D P id :
  config_fits → lasting P → id ∈ D →
  (∀ t m, P m → P (touch (key_string (KOnline id)) t m)) →
  keeps D P (secs ← unwrap (Int.i64_of_u64 (ckb_node_default_timeout cfg));
             await (con_expire (key_string (KOnline id)) secs)) (λ _, P).
Proof.
  intros [[Ht Ht'] _] Hl Hid HP. eapply keeps_bind; [by apply keeps_timeout|].
  intros n. apply keeps_pure. intros ->. apply keeps_expire; auto.
Qed.

Lemma online_keeps D p :
  let id := peer_id (info p) in config_fits →
  keeps ({[id]} ∪ D) (λ m, id ∉ D → network_ok m id)
    (handle_online env cfg p) (λ _ m, id ∉ D → peer_ok m id).
Proof.
  intros id Hc. unfold handle_online. fold id. cbv zeta. destruct (Hc) as [Ht _].
  assert (id ∈ ({[id]} ∪ D : gset string)) as Hid by set_solver.
  set (D' := {[id]} ∪ D) in *. set (N m := id ∉ D → network_ok m id).
  assert (lasting N) as HN by (apply lasting_if; auto with rust). keyify.
  next (λ _ : result string (redis_error R), N).
  { eapply keeps_conseq; [by apply keeps_get_string|done|]. by intros r m []. }
  intros got. next (λ _ : unit, N).
  { destruct got; [apply keeps_refresh; [done..|]|destruct (is_ex p)].
    - intros t m. unfold N. by autorewrite with rust.
    - apply keeps_set_ex; [done..|by eexists _, _; split; [|apply Ht]|].
      intros m _. unfold N. by autorewrite with rust.
    - apply keeps_set_ex; [done..|by eexists _, _; split; [|apply Ht]|].
      intros m _. unfold N. by autorewrite with rust. }
  intros []. next (λ _ : unit, N).
  { destruct (addresses (info p)) as [|addr l]; [by apply keeps_ret|]. next (λ _ : unit, N).
    - apply keeps_set_ex; [done..|by eexists _, _; split; [|apply Ht]|].
      intros m _. unfold N. by autorewrite with rust.
    - intros []. next (λ _ : option IpDetails, N); [apply keeps_zoom; intros; by apply query_by_ip_runs|].
      intros geo. apply keeps_geo; [done|apply geo_blind_network|done]. }
  intros []. next (λ (_ : unit) m, N m ∧ has m (KFull id)).
  { apply keeps_set; [done|done|by eexists|]. intros m _. unfold N. autorewrite with rust. auto. }
  intros []. next (λ (_ : Z) m, N m ∧ has m (KFull id)); [apply keeps_now|]. intros t.
  next (λ (_ : unit) m, N m ∧ has m (KFull id) ∧ has m (KSeen id)).
  { apply keeps_set; [auto with rust|done|by eexists|]. intros m _. unfold N. autorewrite with rust. tauto. }
  intros []. apply keeps_del; [auto with rust|done|]. intros m _ (Hn & Hf & Hs) Hd.
  unfold peer_ok, exclusive_ok, seen_ok, full_ok. autorewrite with rust.
  specialize (Hn Hd). clear -Hn Hf Hs. intuition congruence.
Qed.

Lemma absent_of_text m id : well_typed m → str_at m (key_string (KOnline id)) = None → ¬ has m (KOnline id).
Proof.
  intros Ht Hs [e He]. destruct (Ht _ _ He) as (v & t & -> & _). unfold str_at in Hs. by rewrite He in Hs.
Qed.

(** The unknown handler, on services that work. *)
Lemma unknown_keeps D p :
  let id := peer_id p in config_fits →
  keeps ({[id]} ∪ D) (λ m, id ∉ D → peer_ok m id)
    (handle_unknown cfg p) (λ _ m, id ∉ D → ¬ unreliable → peer_ok m id).
Proof.
  intros id Hc. unfold handle_unknown. fold id. cbv zeta. destruct (Hc) as [_ Hu].
  assert (id ∈ ({[id]} ∪ D : gset string)) as Hid by set_solver.
  set (D' := {[id]} ∪ D) in *.
  set (U m := id ∉ D → ¬ unreliable → exclusive_ok m id ∧ network_ok m id ∧ full_ok m id).
  assert (lasting U) as HU by (apply lasting_if, lasting_if; auto with rust). keyify.
  next (λ (r : result string (redis_error R)) m, U m ∧
    (is_ok r = false → ¬ unreliable → ¬ has m (KOnline id))).
  { intros w Hw Hd HP. eapply tries_mono; [apply (keeps_get_string D' U); [done..|]| |done].
    { intros Hd' _. by destruct (HP Hd') as (? & ? & _ & ?). }
    intros r w' (Hw' & Hd' & HU' & Hr). split_and!; [done..|]. intros Hf Hn.
    destruct r; [done|]. destruct Hr as [Hr|?]; [|done]. apply absent_of_text; [apply Hd'|done]. }
  intros got. next (λ _ : unit, U).
  { destruct got as [v|e].
    - eapply keeps_conseq; [apply (keeps_refresh D' U id); [done..|]|by intros m []|done].
      intros t m. unfold U, exclusive_ok, full_ok. by autorewrite with rust.
    - next (λ (_ : result N (redis_error R)) m, U m ∧ (¬ unreliable → ¬ has m (KOnline id))).
      + eapply keeps_conseq; [eapply keeps_read; [apply weak_scard|]|intros m [HUm Hn]; exact (conj HUm (Hn eq_refl))|by intros r m []].
        auto using lasting_and, lasting_if, lasting_absent.
      + intros n. case_decide; [|by apply keeps_ret; intros m []]. next (λ _ : unit, U).
        * apply keeps_set_ex; [auto using lasting_and, lasting_if, lasting_absent|done..|by eexists; split; [|apply Hu]|].
          intros m _. unfold U, exclusive_ok, full_ok. autorewrite with rust.
          intros [HUm Hn] Hd Hr. specialize (HUm Hd Hr). specialize (Hn Hr). clear -HUm Hn. intuition congruence.
        * intros []. apply keeps_del; [done..|]. intros m _. unfold U, exclusive_ok, full_ok.
          autorewrite with rust. intros HUm Hd Hr. destruct (HUm Hd Hr) as (? & Hn & ?).
          split; [|split]; [|by apply network_witnessless|]; clear Hn; intuition congruence. }
  intros []. next (λ _ : Z, U); [apply keeps_now|]. intros t.
  apply keeps_set; [done..|by eexists|]. intros m _ HUm Hd Hr. specialize (HUm Hd Hr).
  unfold peer_ok, exclusive_ok, seen_ok, full_ok in *. autorewrite with rust. clear -HUm.
  intuition congruence.
Qed.

Lemma reachable_keeps D r :
  let id := peer_id (peer r) in
  keeps ({[id]} ∪ D) (λ m, id ∉ D → peer_ok m id)
    (handle_reachable env r) (λ _ m, id ∉ D → peer_ok m id).
Proof.
  intros id. unfold handle_reachable. fold id. cbv zeta. set (n := network (peer r)).
  assert (id ∈ ({[id]} ∪ D : gset string)) as Hid by set_solver.
  set (D' := {[id]} ∪ D) in *. set (V m := id ∉ D → exclusive_ok m id ∧ full_ok m id).
  assert (lasting V) as HV by (apply lasting_if; auto with rust). keyify.
  next (λ _ : unit, V).
  { eapply (keeps_conseq _ V _ _ (λ _, V)); [|by intros m HP Hd; destruct (HP Hd) as (? & _ & _ & ?)|done].
    apply keeps_sadd; [done..|by intros m [? _]%(is_str_not_set m id)|auto with rust|].
    intros m _. unfold V, exclusive_ok, full_ok. autorewrite with rust. clear. intuition congruence. }
  intros []. next (λ (_ : unit) m, V m ∧ has m (KNetworkQuick id n)).
  { apply keeps_set; [done..|]. intros m _. unfold V, exclusive_ok, full_ok. autorewrite with rust.
    clear. intuition congruence. }
  intros []. next (λ (_ : unit) m, V m ∧ has m (KNetworkQuick id n)).
  { apply keeps_for_each. intros x.
    apply keeps_sadd; [auto with rust|done|by intros m [_ ?]%(is_str_not_set m id)|auto with rust|].
    intros m _. unfold V, exclusive_ok, full_ok. autorewrite with rust. clear. intuition congruence. }
  intros []. next (λ (_ : unit) m, V m ∧ network_ok m id).
  { apply keeps_set; [auto with rust|done|by eexists|]. intros m _.
    unfold V, exclusive_ok, full_ok, network_ok. autorewrite with rust. intros [HVm Hq].
    split; [clear -HVm; intuition congruence|]. intros _. exists n. rewrite decide_True by done.
    autorewrite with rust. auto. }
  intros []. next (λ (_ : Z) m, V m ∧ network_ok m id); [apply keeps_now|]. intros t.
  set (G m := id ∉ D → peer_ok m id).
  assert (lasting G) as HG by (apply lasting_if; auto with rust).
  next (λ _ : unit, G).
  { apply keeps_set; [auto with rust|done|by eexists|]. intros m _ [HVm Hn] Hd. specialize (HVm Hd).
    unfold peer_ok, exclusive_ok, seen_ok, full_ok in *. autorewrite with rust. clear -HVm Hn.
    intuition congruence. }
  intros []. next (λ _ : result string (redis_error R), G).
  { eapply keeps_conseq; [by apply keeps_get_string|done|]. by intros ? m []. }
  intros got. next (λ _ : unit, G).
  { case_decide; [|by apply keeps_ret]. next (λ _ : option IpDetails, G).
    - apply keeps_zoom. intros. by apply query_endpoints_runs.
    - intros geo. apply keeps_geo; [done|apply geo_blind_peer|done]. }
  intros []. apply keeps_touch_service; [done|]. intros v m HGm Hd. specialize (HGm Hd).
  keyify. unfold peer_ok, exclusive_ok, seen_ok, full_ok in *. autorewrite with rust.
  clear -HGm. intuition congruence.
Qed.

Lemma tick_keeps D : keeps D (λ _, True) handle_tick (λ _ _, True).
Proof.
  unfold handle_tick. next (λ (_ : list string) (_ : store), True).
  { intros w Hw Hd HP. unfold await. apply tries_bind.
    eapply tries_mono; [apply (keeps_read D (λ _, True)); [|apply lasting_const|done..]| |done].
    { change "peer.reachable.*" with ("peer.reachable." +:+ "*" +:+ "").
      by apply weak_keys; repeat split. }
    intros r w' (Hw' & Hd' & _ & Hr). destruct r as [l|e]; unfold tries; cbn; [done|].
    destruct Hr as [[]|?]; done. }
  intros keys. next (λ (_ : unit) (_ : store), True).
  { apply (keeps_for_each D (λ _, True)). intros id. unfold request_dial.
    next (λ (_ : result (list string) (redis_error R)) (_ : store), True).
    { eapply keeps_conseq; [eapply (keeps_read D (λ _, True)); [apply weak_smembers|apply lasting_const]|done|done]. }
    intros raw. next (λ (_ : result string (redis_error R)) (_ : store), True).
    { eapply keeps_conseq; [apply (keeps_get_string D (λ _, True)), lasting_const|done|done]. }
    intros net. apply (keeps_publish D (λ _, True)). }
  intros []. by apply (keeps_touch_service D (λ _, True)); [apply lasting_const|].
Qed.
End Logic.
(** ** The handlers and the loop *)
Section Faults.
Context {R I M C : Type} {Q : Type → Type}.
Context `{RedisWeakLaws R} `{IpService I} `{Mqtt M} `{Clock C} `{MpscLaws Q}.
Context `{Json EndpointInfo} `{Json NodeMetaInfo} `{Json PeerInfo} `{Json ReachableInfo}.
Context (env : string → option string) (cfg : Config).
Implicit Types (w : World R I M C) (st : Loop R I M C Q) (tr : list label) (D : gset string).

(** The peer whose records a message's handler writes. *)
Definition struck (t : taken) : gset string :=
  match t with
  | TookOnline p => {[peer_id (info p)]}
  | TookUnknown p => {[peer_id p]}
  | TookReachable r => {[peer_id (peer r)]}
  | TookTick => ∅
  end.
Definition votes (t : taken) : gset string :=
  match t with TookUnknown p => {[peer_id p]} | _ => ∅ end.

Lemma handle_contains t D w :
  config_fits cfg → ready env w → almost D (stored_in w) →
  tries (handle env cfg t) w
    (λ _ w', ready env w' ∧ almost (votes t ∪ D) (stored_in w') ∧
       (¬ unreliable (R:=R) (M:=M) → almost D (stored_in w')))
    (λ _ w', unreliable (R:=R) (M:=M) ∧ almost (struck t ∪ D) (stored_in w')).
Proof.
  intros Hc Hw Hd.
  assert (∀ id, almost ({[id]} ∪ D) (stored_in w)) as Hd' by (intros; by apply (almost_mono D); [set_solver|]).
  destruct t as [p|p|r|]; cbn [handle votes struck].
  - eapply tries_mono; [apply (online_keeps env cfg D p); [done..|]| |done].
    { intros Hid. by apply Hd. }
    intros _ w' (Hw' & Ha & Hp). rewrite union_empty_l_L.
    assert (almost D (stored_in w')) by by eapply almost_restore. done.
  - eapply tries_mono; [apply (unknown_keeps env cfg D p); [done..|]| |done].
    { intros Hid. by apply Hd. }
    intros _ w' (Hw' & Ha & Hp). split_and!; [apply Hw'..|done|]. intros Hr. eapply almost_restore; [done|]. auto.
  - eapply tries_mono; [apply (reachable_keeps env D r); [done..|]| |done].
    { intros Hid. by apply Hd. }
    intros _ w' (Hw' & Ha & Hp). rewrite union_empty_l_L.
    assert (almost D (stored_in w')) by by eapply almost_restore. done.
  - rewrite !union_empty_l_L. eapply tries_mono; [by apply (tick_keeps env D)| |done].
    by intros _ w' (? & ? & _).
Qed.

(** C15 (error). Whatever fails while a handler runs (any Redis command, before or
    after it took effect, or the broker), the handler does not panic: it returns, or
    leaves with the error. On every path each record still has the type of its key,
    and no peer's records lose their consistency but those of the peer the message
    is about; and the records of that one only if the handler left, or misread a
    failed read in the vote on an unknown peer. *)
Theorem handler_contains_faults t D w :
  config_fits cfg → ready env w → almost D (stored_in w) →
  tries (handle env cfg t) w
    (λ _ w', ready env w' ∧ almost (votes t ∪ D) (stored_in w') ∧
       (¬ unreliable (R:=R) (M:=M) → almost D (stored_in w')))
    (λ _ w', unreliable (R:=R) (M:=M) ∧ almost (struck t ∪ D) (stored_in w')).
Proof. apply handle_contains. Qed.

(** The peers voted on so far, and the one the last handler was about. *)
Definition voted tr : gset string :=
  ⋃ map (λ l, match l with LTook t => votes t | _ => ∅ end) tr.
Definition last_struck tr : gset string :=
  match last tr with Some (LTook t) => struck t | _ => ∅ end.

(** What holds of marci at any time: while it runs, and once it has stopped. *)
Definition contained tr st : Prop :=
  match l_exit st with
  | None => ready env (l_world st) ∧ almost (voted tr) (stored_in (l_world st)) ∧
      (¬ unreliable (R:=R) (M:=M) → store_ok (stored_in (l_world st)))
  | Some o => (∃ e, o = Raise e) ∧ unreliable (R:=R) (M:=M) ∧
      almost (last_struck tr ∪ voted tr) (stored_in (l_world st))
  end.

Lemma voted_snoc tr l :
  voted (tr ++ [l]) = voted tr ∪ match l with LTook t => votes t | _ => ∅ end.
Proof. unfold voted. rewrite map_app, union_list_app_L. cbn. by rewrite union_empty_r_L. Qed.

Lemma act_contained x tr st l st' :
  config_fits cfg → contained tr st → act env cfg x st = Some (l, st') → contained (tr ++ [l]) st'.
Proof.
  intros Hc Hst. unfold act, contained in *. destruct (l_exit st) eqn:Hx; [done|].
  destruct Hst as (Hw & Hd & Hok). destruct x as [e|a]; intros Ha; apply fmap_Some in Ha as (r & Hr & Heq).
  - injection Heq as -> ->. apply read_kept in Hr as (Hr & Hi & ->).
    unfold ready, stored_in in *. rewrite Hx, Hr, Hi, voted_snoc, union_empty_r_L. done.
  - destruct r as [t st1]. injection Heq as -> ->.
    apply select_inv in Hr as (st2 & Hw2 & _ & -> & _). rewrite <- Hw2 in Hw, Hd, Hok. clear Hw2.
    rewrite voted_snoc, (union_comm_L (voted tr)).
    assert (last_struck (tr ++ [LTook t]) = struck t) as -> by (unfold last_struck; by rewrite last_snoc).
    pose proof (handle_contains t (voted tr) (l_world st2) Hc Hw Hd) as Hh1.
    assert (¬ unreliable (R:=R) (M:=M) → almost ∅ (stored_in (l_world st2))) as Hd0
      by (intros Hr; by apply store_ok_almost, Hok).
    pose proof (λ Hr, handle_contains t ∅ (l_world st2) Hc Hw (Hd0 Hr)) as Hh2.
    revert Hh1 Hh2. unfold tries, resume. destruct st2 as [w oq rq uq r x]. cbn [l_world].
    destruct (handle env cfg t w) as [[[]|e|] w']; cbn; [| |done].
    + intros (? & ? & _) Hh2. split_and!; [done..|]. intros Hr. by apply store_ok_almost, Hh2.
    + intros [Hr Ha] _. split_and!; [by eexists|done|]. eapply almost_mono; [|exact Ha]. set_solver.
Qed.

Lemma exec_contained acts tr st tr' st' :
  config_fits cfg → contained tr st → exec env cfg acts tr st = Some (tr', st') → contained tr' st'.
Proof.
  intros Hc. revert tr st. induction acts as [|x acts IH]; intros tr st Hst; cbn.
  - by intros [= <- <-].
  - destruct (act env cfg x st) as [[l st1]|] eqn:Ha; [|done]. apply IH. by eapply act_contained.
Qed.

(** C4 (invariant). Marci on services that fail at any time, with time passing
    between any two commands. Whatever the broker delivers and however its branches
    are scheduled: while marci runs its database is well formed but for peers that
    were voted on; if it stops, then through an error of Redis or the broker and
    never by a panic, and at most one more peer is affected, the one whose message
    it was handling. If nothing fails, it never stops and the whole database is
    well formed. *)
Theorem faults_are_contained acts w tr st :
  config_fits cfg → ready env w → store_ok (stored_in w) →
  exec env cfg acts [] (start w) = Some (tr, st) → contained tr st.
Proof.
  intros Hc Hw Hok. apply exec_contained; [done|]. unfold contained. cbn. split_and!; [apply Hw..| |done].
  by apply (almost_mono ∅), store_ok_almost.
Qed.
End Faults.
