(* ===== verification/Message.v ===== *)
(** * Message: src/message.rs

    The two discovery messages the program can build. The molecule types of
    ckb-types are generated code outside the repository: they are the class
    [Packed], with their builders, accessors and parsers. *)
From S2P Require Import Prelude RustStd RustNet Types Network.
From Stdlib Require Strings.Byte.
Import Strings.Byte.

Abbreviation Bytes := (list byte).

(** [packed::*]: a builder per type, [from_compatible_slice], [as_bytes] and the
    accessors the program calls. *)
Class Packed := {
  PUint16 : Type; PPortOpt : Type; PUint32 : Type; PBool : Type;
  PNode : Type; PGetNodes : Type; PNodes : Type;
  DiscoveryPayload : Type; DiscoveryMessage : Type;
  uint16_from_slice : Bytes → option PUint16;
  port_opt_default : PPortOpt;
  port_opt_some : PUint16 → PPortOpt;
  pack_u32 : N → PUint32;
  pack_bool : bool → PBool;
  build_node : list Bytes → PNode;
  build_get_nodes : PPortOpt → PUint32 → PUint32 → PGetNodes;
  build_nodes : PBool → list PNode → PNodes;
  payload_get_nodes : PGetNodes → DiscoveryPayload;
  payload_nodes : PNodes → DiscoveryPayload;
  build_message : DiscoveryPayload → DiscoveryMessage;
  as_bytes : DiscoveryMessage → Bytes;
  discovery_from_compatible_slice : Bytes → option DiscoveryMessage;
  (** [message.payload().to_enum()] *)
  message_payload : DiscoveryMessage → PGetNodes + PNodes;
  nodes_items : PNodes → list PNode;
  node_addresses : PNode → list Bytes;
  (** [message.identify().raw_data()], then [client_version] and [flag] *)
  identify_message_from_compatible_slice : Bytes → option Bytes;
  identify_from_compatible_slice : Bytes → option (Bytes * N);
}.

(** Two bytes are a [Uint16]; what was built is what is read. *)
Class PackedLaws `{Packed} := {
  uint16_two_bytes a b : is_Some (uint16_from_slice [a; b]);
  message_reads m : discovery_from_compatible_slice (as_bytes m) = Some m;
  payload_reads_get g : message_payload (build_message (payload_get_nodes g)) = inl g;
  payload_reads_nodes n : message_payload (build_message (payload_nodes n)) = inr n;
  items_read a l : nodes_items (build_nodes a l) = l;
  addresses_read l : node_addresses (build_node l) = l;
}.

(** [u16::to_le_bytes] *)
Definition byte_of (n : N) : byte := default x00 (of_N (n mod 256)).
Definition u16_to_le_bytes (n : N) : Bytes := [byte_of n; byte_of (n / 256)].

Section Messages.
Context `{Packed} `{MultiaddrLib}.

Definition build_discovery_get_nodes {E} (listening_port : option N)
    (max_nodes self_defined_flag : N) : outcome E DiscoveryMessage :=
  port ←
    (match listening_port with
     | None => Ret port_opt_default
     | Some port =>
         match uint16_from_slice (u16_to_le_bytes port) with
         | Some p => Ret (port_opt_some p)
         | None => Panic
         end
     end);
  Ret (build_message (payload_get_nodes
         (build_get_nodes port (pack_u32 max_nodes) (pack_u32 self_defined_flag)))).

Definition build_discovery_nodes (active_push : bool) (addresses : list Multiaddr) :
  DiscoveryMessage :=
  let nodes := map (λ address, build_node [addr_to_vec address]) addresses in
  build_message (payload_nodes (build_nodes (pack_bool active_push) nodes)).
End Messages.

(** ** Properties *)
Section Properties.
Context `{PackedLaws} `{MultiaddrLib}.

(** A nodes message carries its addresses: what another node reads
    from its bytes is one node per address, in order, with exactly that address. *)
Lemma build_discovery_nodes_reads active_push (addresses : list Multiaddr) :
  ∃ nodes,
    message_payload <$> discovery_from_compatible_slice
      (as_bytes (build_discovery_nodes active_push addresses)) = Some (inr nodes) ∧
    map node_addresses (nodes_items nodes) = map (λ a, [addr_to_vec a]) addresses.
Proof.
  eexists. rewrite message_reads. cbn [fmap option_fmap option_map]. unfold build_discovery_nodes.
  rewrite payload_reads_nodes. split; [done|]. rewrite items_read, map_map.
  apply map_ext. intros a. apply addresses_read.
Qed.

(** Asking for nodes never panics, for any port, and is read back as a
    request, so that no node can mistake it for an answer. *)
Lemma build_discovery_get_nodes_reads {E} port max_nodes flag :
  ∃ m g, build_discovery_get_nodes (E:=E) port max_nodes flag = Ret m ∧
    message_payload <$> discovery_from_compatible_slice (as_bytes m) = Some (inl g).
Proof.
  unfold build_discovery_get_nodes. destruct port as [port|]; cbn [mbind outcome_bind].
  - unfold u16_to_le_bytes. destruct (uint16_two_bytes (byte_of port) (byte_of (port / 256))) as [p ->].
    eexists _, _. split; [done|]. rewrite message_reads. cbn. by rewrite payload_reads_get.
  - eexists _, _. split; [done|]. rewrite message_reads. cbn. by rewrite payload_reads_get.
Qed.
End Properties.
