(* ===== verification/Handler.v ===== *)
(** * Handler: src/handler.rs

    The p2p callbacks: what is published and which sessions are closed when peers
    identify themselves, answer a discovery request or cannot be dialled. The p2p
    service is the class [P2p]; [tokio::spawn] records the publication that the
    spawned task performs. *)
From S2P Require Import Prelude RustStd RustNet Types Compress Protocols Network Services Message.
From Stdlib Require Strings.Byte.

(** tentacle's service and session controls. *)
Class P2p (P : Type) `{MultiaddrLib} := {
  p2p_error : Type;
  p2p_send_message : N → N → list Byte.byte → P → result unit p2p_error * P;
  p2p_disconnect : N → P → result unit p2p_error * P;
  p2p_dial : Multiaddr → P → result unit p2p_error * P;
  p2p_set_service_notify : N → N → N → P → result unit p2p_error * P;
}.

(** [Handler]: its network; the broker client is shared by all handlers. *)
Record Handler := { network_type : CKBNetworkType }.
Definition handler_new (network : CKBNetworkType) : Handler := {| network_type := network |}.
Definition handler_clone (self : Handler) : Handler := {| network_type := network_type self |}.

(** The services a handler calls, and the publications its spawned tasks make. *)
Record HWorld (P M : Type) := MkHWorld {
  h_p2p : P;
  h_mqtt : M;
  h_spawned : list (string * string);
}.
Arguments MkHWorld {P M} _ _ _.
Arguments h_p2p {P M} _.
Arguments h_mqtt {P M} _.
Arguments h_spawned {P M} _.

#[export] Instance p2p_lens {P M} : Lens (HWorld P M) P.
Proof.
  refine {| lget := h_p2p; lset s w := MkHWorld s (h_mqtt w) (h_spawned w) |};
    by intros; try destruct w.
Defined.
#[export] Instance h_mqtt_lens {P M} : Lens (HWorld P M) M.
Proof.
  refine {| lget := h_mqtt; lset s w := MkHWorld (h_p2p w) s (h_spawned w) |};
    by intros; try destruct w.
Defined.

(** What [ProtocolContextMutRef] tells: the protocol and the session. *)
Record Context_ `{MultiaddrLib} := {
  proto_id : N;
  session_id : N;
  session_address : Multiaddr;
}.

Inductive ServiceError `{MultiaddrLib} :=
| DialerError (address : Multiaddr)
| ProtocolSelectError (session : N)
| OtherServiceError.

Inductive ServiceEvent :=
| SessionOpen (session : N)
| SessionClose (session : N)
| OtherServiceEvent.

(** [(client_flag | 0b1) == 0b1 || (client_flag & 0b11110) == 0b11110] *)
Definition is_full (client_flag : N) : bool :=
  bool_decide (N.lor client_flag 1 = 1%N) || bool_decide (N.land client_flag 30 = 30%N).

Section Handlers.
Context {P M : Type} `{MultiaddrLib} `{!P2p P} `{Mqtt M} `{Packed} `{Snap}.
Context `{Json NodeMetaInfo} `{Json PeerInfo} `{Json ReachableInfo}.

Abbreviation handler := (comp (HWorld P M) Empty_set).

Definition spawn_publish (topic payload : string) : handler unit := λ w,
  (Ret tt, MkHWorld (h_p2p w) (h_mqtt w) (h_spawned w ++ [(topic, payload)])).

(** [let _ = context.disconnect(..).await] *)
Definition disconnect (session : N) : handler unit := call (p2p_disconnect session);; mret tt.
Definition dial (node : Multiaddr) : handler unit := call (p2p_dial node);; mret tt.

Definition lift {A} (o : outcome Empty_set A) : handler A := λ w, (o, w).

(** The three protocols a handler serves; Sync is framed by [compress]. *)
Definition build_protocol_metas (self : Handler) :
  list (ProtocolMeta (Bytes → outcome Empty_set Bytes) (Bytes → outcome ErrorKind Bytes) Handler) :=
  [with_service_handle (handler_clone self) (meta_builder Identify);
   with_service_handle (handler_clone self) (meta_builder Discovery);
   with_service_handle (handler_clone self) (with_compression compress decompress (meta_builder Sync))].

Definition connected_discovery (context : Context_) : handler unit :=
  discovery_get_node_message ← lift (build_discovery_get_nodes None 1000 14);
  call (p2p_send_message (session_id context) (proto_id context)
          (as_bytes discovery_get_node_message));;
  mret tt.

Definition received_identify (self : Handler) (context : Context_) (data : Bytes) : handler unit :=
  need_disconnect ←
    (match identify_message_from_compatible_slice data with
     | Some raw_data =>
         match identify_from_compatible_slice raw_data with
         | Some (client_version_vec, client_flag) =>
             let client_version := Utf8.from_utf8_lossy client_version_vec in
             let full := is_full client_flag in
             let peer_info :=
               {| info := addr_to_node_meta (session_address context) (network_type self);
                  version := client_version; full := full; is_ex := false |} in
             spawn_publish "peer/online" (json_text peer_info);;
             mret (negb (full || bool_decide (N.land client_flag 2 = 2%N)))
         | None => mret true
         end
     | None => mret true
     end);
  if (need_disconnect : bool) then disconnect (session_id context) else mret tt.

(** [Multiaddr::try_from(bytes).unwrap()] *)
Definition parse_address (bytes : Bytes) : handler Multiaddr := unwrap (ok (addr_try_from bytes)).

(** [for address in &addresses[1..]] *)
Fixpoint push_endpoints (addresses : list Bytes) : handler (list EndpointInfo) :=
  match addresses with
  | [] => mret []
  | address :: rest =>
      endpoint ← parse_address address;
      more ← push_endpoints rest;
      mret (addr_to_endpoint endpoint :: more)
  end.

Definition set_addresses (meta : NodeMetaInfo) (l : list EndpointInfo) : NodeMetaInfo :=
  {| peer_id := peer_id meta; addresses := l; network := network meta |}.

(** One round of [for node in discovery_nodes.items()]. *)
Definition report_node (self : Handler) (context : Context_) (from : NodeMetaInfo)
    (node : PNode) : handler unit :=
  match node_addresses node with
  | [] => mret tt
  | first :: rest =>
      a ← parse_address first;
      let meta := addr_to_node_meta a (network_type self) in
      more ← push_endpoints rest;
      let meta := set_addresses meta (addresses meta ++ more) in
      let meta := set_addresses meta
        (filter (λ e, Net.is_loopback (address e) = false) (addresses meta)) in
      spawn_publish "peer/reachable" (json_text (reachable_info_new meta from));;
      disconnect (session_id context)
  end.

Definition received_discovery (self : Handler) (context : Context_) (data : Bytes) : handler unit :=
  match discovery_from_compatible_slice data with
  | Some message =>
      match message_payload message with
      | inr discovery_nodes =>
          let from := addr_to_node_meta (session_address context) (network_type self) in
          for_each (nodes_items discovery_nodes) (report_node self context from)
      | inl _ => mret tt
      end
  | None => mret tt
  end.

Definition handle_error (self : Handler) (error : ServiceError) : handler unit :=
  match error with
  | DialerError address =>
      publish "peer/unknown" (json_text (addr_to_node_meta address (network_type self)));;
      mret tt
  | ProtocolSelectError session => disconnect session
  | OtherServiceError => mret tt
  end.

(** Sessions that open or close are only logged. *)
Definition handle_event (event : ServiceEvent) : handler unit :=
  match event with
  | SessionOpen _ => mret tt
  | SessionClose _ => mret tt
  | OtherServiceEvent => mret tt
  end.

(** The loop over the boot nodes, of [init] and of [notify]. *)
Definition dial_bootnodes (self : Handler) : handler unit :=
  bootnodes ← lift (get_bootnodes (network_type self));
  for_each bootnodes dial.

Definition init (self : Handler) (proto : N) : handler unit :=
  if decide (proto = protocol_id Identify) then
    dial_bootnodes self;;
    r ← call (p2p_set_service_notify (protocol_id Identify) (12 * 60 * 60) 1);
    unwrap_result r
  else mret tt.

Definition connected (context : Context_) : handler unit :=
  if decide (proto_id context = protocol_id Discovery) then connected_discovery context
  else mret tt.

(** The name a protocol is logged under. *)
Definition protocol_name (proto : N) : string :=
  if decide (proto = protocol_id Discovery) then "Discovery"
  else if decide (proto = protocol_id Identify) then "Identify"
  else if decide (proto = protocol_id Sync) then "Sync"
  else "Unknown".

Definition disconnected (context : Context_) : handler unit :=
  let _ := protocol_name (proto_id context) in mret tt.

Definition received (self : Handler) (context : Context_) (data : Bytes) : handler unit :=
  if decide (proto_id context = protocol_id Discovery) then received_discovery self context data
  else if decide (proto_id context = protocol_id Identify) then received_identify self context data
  else mret tt.

Definition notify (self : Handler) (token : N) : handler unit :=
  if decide (token = 1%N) then dial_bootnodes self else mret tt.

(** The callbacks of the two traits, as the p2p service makes them. *)
Inductive callback :=
| Init (proto : N)
| Connected (context : Context_)
| Disconnected (context : Context_)
| Received (context : Context_) (data : Bytes)
| Notify (token : N)
| HandleError (error : ServiceError)
| HandleEvent (event : ServiceEvent).

Definition run_callback (self : Handler) (c : callback) : handler unit :=
  match c with
  | Init proto => init self proto
  | Connected context => connected context
  | Disconnected context => disconnected context
  | Received context data => received self context data
  | Notify token => notify self token
  | HandleError error => handle_error self error
  | HandleEvent event => handle_event event
  end.
End Handlers.

(** ** Properties *)

(** *** Flags *)
Lemma lor_one (flag : N) : N.lor flag 1 = 1%N ↔ (flag ≤ 1)%N.
Proof.
  split; [|by intros Hf; assert (flag = 0 ∨ flag = 1)%N as [-> | ->] by lia].
  destruct flag as [|[p|p|]]; cbn; try lia; intros [=].
Qed.

Lemma land_mask (flag : N) : N.land flag 30 = 30%N ↔ ∀ i, (1 ≤ i ≤ 4)%N → N.testbit flag i = true.
Proof.
  split.
  - intros Hl i Hi. assert (N.testbit (N.land flag 30) i = true) as Ht.
    { rewrite Hl. assert (i = 1 ∨ i = 2 ∨ i = 3 ∨ i = 4)%N as [-> |[-> |[-> | ->]]] by lia; done. }
    rewrite N.land_spec in Ht. by apply andb_true_iff in Ht as [? _].
  - intros Hb. apply N.bits_inj. intros i. rewrite N.land_spec.
    destruct (decide (1 ≤ i ≤ 4)%N) as [Hi|Hi]; [by rewrite Hb|].
    assert (N.testbit 30 i = false) as ->; [|apply andb_false_r].
    destruct (decide (i = 0)%N) as [->|]; [done|]. apply N.bits_above_log2.
    change (N.log2 30) with 4%N. lia.
Qed.

Lemma land_two (flag : N) : N.land flag 2 = 2%N ↔ N.testbit flag 1 = true.
Proof.
  split.
  - intros Hl. assert (N.testbit (N.land flag 2) 1 = true) as Ht by by rewrite Hl.
    rewrite N.land_spec in Ht. by apply andb_true_iff in Ht as [? _].
  - intros Hb. apply N.bits_inj. intros i. rewrite N.land_spec.
    destruct (decide (i = 1)%N) as [->|Hi]; [by rewrite Hb|].
    assert (N.testbit 2 i = false) as ->; [|apply andb_false_r].
    change 2%N with (2^1)%N. by apply N.pow2_bits_false.
Qed.

Section Properties.
Context {P M : Type} `{MultiaddrLaws} `{!P2p P} `{MqttLaws M} `{Packed} `{Snap}.
Context `{Json NodeMetaInfo} `{Json PeerInfo} `{Json ReachableInfo}.
Implicit Types (w : HWorld P M) (self : Handler) (context : Context_).

(** What the p2p service is like after a session was disconnected [n] times. *)
Definition disconnected_p2p (session : N) (n : nat) (p : P) : P :=
  Nat.iter n (λ p, (p2p_disconnect session p).2) p.

Lemma disconnected_succ session n p :
  disconnected_p2p session n (p2p_disconnect session p).2 = disconnected_p2p session (S n) p.
Proof. unfold disconnected_p2p. by rewrite Nat.iter_succ_r. Qed.

(** *** Identify *)

(** The version and flag an identify payload carries, if it is well formed. *)
Definition identify_payload (data : Bytes) : option (Bytes * N) :=
  identify_message_from_compatible_slice data ≫= identify_from_compatible_slice.

(** A full node: a flag of 0 or 1, or one with the four service bits. *)
Definition full_node (flag : N) : Prop :=
  (flag ≤ 1)%N ∨ ∀ i, (1 ≤ i ≤ 4)%N → N.testbit flag i = true.

Lemma is_full_spec flag : is_full flag = true ↔ full_node flag.
Proof. unfold is_full, full_node. by rewrite orb_true_iff, !bool_decide_eq_true, lor_one, land_mask. Qed.

Lemma keeps_spec flag :
  negb (is_full flag || bool_decide (N.land flag 2 = 2%N)) = false ↔
  (flag ≤ 1)%N ∨ N.testbit flag 1 = true.
Proof.
  rewrite negb_false_iff, orb_true_iff, is_full_spec, bool_decide_eq_true, land_two. unfold full_node.
  split; [|naive_solver]. intros [[?|Hall]|?]; [by left| |by right]. right. by apply Hall.
Qed.

(** C19 (functional). An identify message is answered by its content alone. A well
    formed one is announced, once, as the session's peer being online, with its
    version made valid UTF-8 and with full set exactly for a full node; the session
    then stays open exactly if the flag is at most 1 or has the discovery bit. A
    malformed one is announced to nobody and closes the session. The comment in the code
    asks for more: it has every node closed that is not full or lacks the discovery
    protocol. A node that is not full but has the discovery bit stays connected, and
    so does one with flag 0 or 1, which counts as full without having that bit. *)
Theorem received_identify_total self context data w :
  runs (received_identify self context data) w (λ _ w',
    h_mqtt w' = h_mqtt w ∧
    match identify_payload data with
    | Some (version_bytes, flag) =>
        ∃ full, (full = true ↔ full_node flag) ∧
          h_spawned w' = h_spawned w ++
            [("peer/online", json_text {|
                info := addr_to_node_meta (session_address context) (network_type self);
                version := Utf8.from_utf8_lossy version_bytes; full := full; is_ex := false |})] ∧
          h_p2p w' = disconnected_p2p (session_id context)
            (if decide ((flag ≤ 1)%N ∨ N.testbit flag 1 = true) then 0 else 1) (h_p2p w)
    | None => h_spawned w' = h_spawned w ∧
              h_p2p w' = disconnected_p2p (session_id context) 1 (h_p2p w)
    end).
Proof.
  unfold received_identify, identify_payload.
  destruct (identify_message_from_compatible_slice data) as [raw|]; cbn [mbind option_bind];
    [|by repeat split].
  destruct (identify_from_compatible_slice raw) as [[v flag]|]; [|by repeat split].
  apply runs_bind, runs_bind. eapply runs_of; [done|]. apply runs_ret.
  pose proof (keeps_spec flag) as Hk.
  destruct (negb (is_full flag || bool_decide (N.land flag 2 = 2%N))).
  - split; [done|]. exists (is_full flag). split; [apply is_full_spec|]. split; [done|].
    rewrite decide_False; [done|]. rewrite <- Hk. done.
  - apply runs_ret. split; [done|]. exists (is_full flag). split; [apply is_full_spec|]. split; [done|].
    rewrite decide_True; [done|]. by apply Hk.
Qed.

(** *** Discovery *)
Definition parses (bytes : Bytes) : option Multiaddr := ok (addr_try_from bytes).

(** The report about a node whose first address is [a]. *)
Definition report self (a : Multiaddr) (rest : list Multiaddr) : NodeMetaInfo := {|
  peer_id := peer_id (addr_to_node_meta a (network_type self));
  addresses := filter dialable (map addr_to_endpoint (a :: rest));
  network := network_type self;
|}.

(** What a node's address list amounts to: nothing, a report, or ([None]) a panic. *)
Definition node_report self (addresses : list Bytes) : option (option NodeMetaInfo) :=
  match addresses with
  | [] => Some None
  | first :: rest => a ← parses first; l ← mapM parses rest; Some (Some (report self a l))
  end.

Lemma push_endpoints_eq l w :
  push_endpoints (M:=M) l w =
    match mapM parses l with Some l => (Ret (map addr_to_endpoint l), w) | None => (Panic, w) end.
Proof.
  induction l as [|b l IH]; [done|]. cbn [push_endpoints mapM].
  change (mapM parses (b :: l)) with (y ← parses b; ys ← mapM parses l; mret (y :: ys)).
  unfold parse_address. change (parses b) with (ok (addr_try_from b)).
  destruct (addr_try_from b) as [a|e]; [|reflexivity].
  cbn [ok unwrap mbind option_bind]. unfold mbind, comp_bind. cbn. rewrite IH.
  by destruct (mapM parses l).
Qed.

Definition publish_report (context : Context_) (from meta : NodeMetaInfo) w : HWorld P M :=
  MkHWorld (p2p_disconnect (session_id context) (h_p2p w)).2 (h_mqtt w)
    (h_spawned w ++ [("peer/reachable", json_text (reachable_info_new meta from))]).

Lemma report_node_eq self context from node w :
  report_node self context from node w =
    match node_report self (node_addresses node) with
    | None => (Panic, w)
    | Some None => (Ret tt, w)
    | Some (Some meta) => (Ret tt, publish_report context from meta w)
    end.
Proof.
  unfold report_node, node_report. destruct (node_addresses node) as [|b l]; [done|].
  unfold parse_address. change (parses b) with (ok (addr_try_from b)).
  destruct (addr_try_from b) as [a|e]; [|reflexivity]. cbn [ok unwrap mbind option_bind].
  erewrite bind_ret by reflexivity. cbv zeta.
  destruct (mapM parses l) as [l'|] eqn:Hl.
  2: { erewrite bind_panic; [reflexivity|]. by rewrite push_endpoints_eq, Hl. }
  erewrite bind_ret; [|by rewrite push_endpoints_eq, Hl].
  rewrite addr_to_node_meta_read. cbn [mbind option_bind].
  unfold report. rewrite addr_to_node_meta_read. done.
Qed.

Lemma mapM_parses_none (l : list Bytes) : mapM parses l = None ↔ ∃ b, b ∈ l ∧ parses b = None.
Proof.
  rewrite mapM_None, Exists_exists. done.
Qed.

Lemma node_report_none self addresses :
  node_report self addresses = None ↔ ∃ b, b ∈ addresses ∧ parses b = None.
Proof.
  destruct addresses as [|b l]; cbn [node_report]; [split; [done|by intros (? & ?%elem_of_nil & _)]|].
  change (mapM parses) with (mapM (M:=option) parses).
  destruct (parses b) as [a|] eqn:Hb; cbn [mbind option_bind].
  - destruct (mapM parses l) as [l'|] eqn:Hl; cbn.
    + split; [done|]. intros (c & [->|Hc]%elem_of_cons & Hn); [congruence|].
      assert (mapM parses l = None) by (apply mapM_parses_none; eauto). congruence.
    + split; [|done]. intros _. apply mapM_parses_none in Hl as (c & Hc & Hn).
      exists c. split; [by apply list_elem_of_further|done].
  - split; [|done]. intros _. exists b. split; [apply list_elem_of_here|done].
Qed.

(** The reports about the nodes of an answer; [None] when an address is no address. *)
Definition reports self (nodes : list PNode) : option (list NodeMetaInfo) :=
  omap id <$> mapM (λ n, node_report self (node_addresses n)) nodes.

Lemma for_each_report self context from nodes w :
  match reports self nodes with
  | Some l => for_each nodes (report_node self context from) w =
      (Ret tt, MkHWorld (disconnected_p2p (session_id context) (length l) (h_p2p w)) (h_mqtt w)
        (h_spawned w ++ map (λ meta, ("peer/reachable", json_text (reachable_info_new meta from))) l))
  | None => (for_each nodes (report_node self context from) w).1 = Panic
  end.
Proof.
  revert w. induction nodes as [|n nodes IH]; intros w.
  { cbn. rewrite app_nil_r. by destruct w. }
  unfold reports. cbn [mapM for_each].
  change (mapM (λ n, node_report self (node_addresses n)) (n :: nodes)) with
    (y ← node_report self (node_addresses n);
     ys ← mapM (λ n, node_report self (node_addresses n)) nodes; mret (y :: ys)).
  pose proof (report_node_eq self context from n w) as Hn.
  destruct (node_report self (node_addresses n)) as [[meta|]|]; cbn [mbind option_bind fmap option_fmap option_map].
  - specialize (IH (publish_report context from meta w)). unfold reports in IH.
    destruct (mapM _ nodes) as [ys|]; cbn in IH |- *; rewrite (bind_ret _ _ _ _ _ Hn); [|done].
    rewrite IH. unfold publish_report. cbn [h_p2p h_mqtt h_spawned].
    rewrite disconnected_succ, <- app_assoc. done.
  - specialize (IH w). unfold reports in IH.
    destruct (mapM _ nodes) as [ys|]; cbn in IH |- *; by rewrite (bind_ret _ _ _ _ _ Hn).
  - by rewrite (bind_panic _ _ _ _ Hn).
Qed.

(** The nodes of a discovery answer. *)
Definition discovery_nodes (data : Bytes) : list PNode :=
  match message_payload <$> discovery_from_compatible_slice data with
  | Some (inr nodes) => nodes_items nodes
  | _ => []
  end.

Lemma received_discovery_eq self context data w :
  received_discovery self context data w =
    for_each (discovery_nodes data)
      (report_node self context (addr_to_node_meta (session_address context) (network_type self))) w.
Proof.
  unfold received_discovery, discovery_nodes.
  destruct (discovery_from_compatible_slice data) as [m|]; [|done]. cbn.
  by destruct (message_payload m).
Qed.

(** C18 (functional). If every address of a discovery answer is one, each node with
    addresses is published exactly once, in order, as reachable from the session's
    peer: with the id of its first address and the endpoints of all of them that
    are not loopback. The session is closed, unless nothing was published.
    Anything else than an answer is ignored. *)
Theorem received_discovery_reports self context data l w :
  reports self (discovery_nodes data) = Some l →
  runs (received_discovery self context data) w (λ _ w',
    h_mqtt w' = h_mqtt w ∧
    h_p2p w' = disconnected_p2p (session_id context) (length l) (h_p2p w) ∧
    h_spawned w' = h_spawned w ++ map (λ meta, ("peer/reachable", json_text
      (reachable_info_new meta (addr_to_node_meta (session_address context) (network_type self))))) l ∧
    ∀ meta x, meta ∈ l → x ∈ addresses meta → dialable x ∧ network meta = network_type self).
Proof.
  intros Hl. unfold runs. rewrite received_discovery_eq.
  pose proof (for_each_report self context (addr_to_node_meta (session_address context)
    (network_type self)) (discovery_nodes data) w) as Hf. rewrite Hl in Hf. rewrite Hf.
  split_and!; [done..|]. intros meta x Hm Hx. unfold reports in Hl.
  apply fmap_Some in Hl as (rs & Hrs & ->). apply list_elem_of_omap in Hm as (r & Hr & Hid).
  cbn in Hid. subst r. apply mapM_Some in Hrs. apply list_elem_of_lookup in Hr as [i Hi].
  destruct (Forall2_lookup_r _ _ _ _ _ Hrs Hi) as (n & _ & Hn). clear -Hn Hx.
  destruct (node_addresses n) as [|b rest]; [done|]. cbn in Hn.
  destruct (parses b) as [a|]; [|done]. cbn in Hn. destruct (mapM parses rest) as [l|]; [|done].
  injection Hn as <-. unfold report in *. cbn [addresses network] in *. split; [|done]. by apply list_elem_of_filter in Hx as [? _].
Qed.

(** C39 (error). A remote peer can make the discovery callback panic, and this is
    how: it does exactly when the answer holds an address that is not one. *)
Theorem received_discovery_panics self context data w :
  (received_discovery self context data w).1 = Panic ↔
  ∃ node b, node ∈ discovery_nodes data ∧ b ∈ node_addresses node ∧ parses b = None.
Proof.
  rewrite received_discovery_eq.
  pose proof (for_each_report self context (addr_to_node_meta (session_address context)
    (network_type self)) (discovery_nodes data) w) as Hf.
  assert (reports self (discovery_nodes data) = None ↔
    ∃ node b, node ∈ discovery_nodes data ∧ b ∈ node_addresses node ∧ parses b = None) as <-.
  { unfold reports. rewrite fmap_None, mapM_None, Exists_exists. setoid_rewrite node_report_none.
    naive_solver. }
  destruct (reports self (discovery_nodes data)); [|done]. by rewrite Hf.
Qed.

(** *** The rest of the service *)

(** Received bytes reach the handler of their own protocol: those of
    Sync, and of any other protocol, are dropped without any effect. *)
Lemma received_dispatch self context data w :
  received self context data w =
    if decide (proto_id context = 1%N) then received_discovery self context data w
    else if decide (proto_id context = 2%N) then received_identify self context data w
    else (Ret tt, w).
Proof. unfold received. cbn [protocol_id]. by repeat case_decide. Qed.

Lemma handler_clone_eq self : handler_clone self = self.
Proof. by destruct self. Qed.

(** The handler is registered for three different protocols, the
    Sync messages and only those are framed, and what the Sync hooks frame they
    also unframe. *)
Lemma metas_frame_sync `{!SnapLaws} self m :
  m ∈ build_protocol_metas self →
  meta_handler m = Some self ∧
  NoDup (map meta_id (build_protocol_metas self)) ∧
  match meta_before_send m, meta_before_receive m with
  | Some send, Some receive =>
      meta_id m = protocol_id Sync ∧
      ∀ src, (N.of_nat (length src) ≤ MAX_UNCOMPRESSED_LEN)%N →
        ∃ framed, send src = Ret framed ∧ receive framed = Ret src
  | None, None => meta_id m = protocol_id Identify ∨ meta_id m = protocol_id Discovery
  | _, _ => False
  end.
Proof.
  intros Hm. assert (NoDup (map meta_id (build_protocol_metas self))) as Hnd.
  { apply (bool_decide_unpack _). vm_compute. exact I. }
  unfold build_protocol_metas in Hm. rewrite handler_clone_eq in Hm. set_unfold in Hm. destruct Hm as [-> |[-> | [-> | []]]]; cbn;
    (split; [done|]; split; [exact Hnd|]); auto. split; [done|].
  intros src Hsrc. by apply compress_inverse.
Qed.

(** *** The boot nodes *)

(** The addresses dialled, in order. *)
Definition dials (l : list Multiaddr) (p : P) : P := fold_left (λ p a, (p2p_dial a p).2) l p.

Lemma for_each_dial_p2p l w :
  for_each l dial w = (Ret tt, MkHWorld (dials l (h_p2p w)) (h_mqtt w) (h_spawned w)).
Proof.
  revert w. induction l as [|a l IH]; intros w; [by destruct w|]. cbn [for_each].
  erewrite bind_ret by reflexivity. by rewrite IH.
Qed.

Lemma dial_bootnodes_eq self nodes w :
  get_bootnodes (E:=Empty_set) (network_type self) = Ret nodes →
  dial_bootnodes self w = (Ret tt, MkHWorld (dials nodes (h_p2p w)) (h_mqtt w) (h_spawned w)).
Proof.
  intros Hn. unfold dial_bootnodes, lift. rewrite Hn. erewrite bind_ret by reflexivity.
  apply for_each_dial_p2p.
Qed.

(** C21 (functional). Bootstrapping: when the Identify protocol starts, every boot
    node of the network is dialled, in order, and a notification every twelve hours
    with token 1 is asked for, a refusal of which panics; that notification, and no
    other, dials them all again. Nothing is published, and no other protocol does
    anything when it starts. *)
Theorem bootnodes_are_dialled self nodes w :
  get_bootnodes (E:=Empty_set) (network_type self) = Ret nodes →
  let p := dials nodes (h_p2p w) in
  let r := p2p_set_service_notify (protocol_id Identify) 43200 1 p in
  init self (protocol_id Identify) w =
    (match r.1 with Ok _ => Ret tt | Err _ => Panic end, MkHWorld r.2 (h_mqtt w) (h_spawned w)) ∧
  notify self 1 w = (Ret tt, MkHWorld p (h_mqtt w) (h_spawned w)) ∧
  (∀ proto, proto ≠ protocol_id Identify → init self proto w = (Ret tt, w)) ∧
  (∀ token, token ≠ 1%N → notify self token w = (Ret tt, w)).
Proof.
  intros Hn p r. unfold init, notify. pose proof (dial_bootnodes_eq self nodes w Hn) as Hd.
  split_and!.
  - rewrite decide_True by done. rewrite (bind_ret _ _ _ _ _ Hd). erewrite bind_ret by reflexivity.
    change (12 * 60 * 60)%N with 43200%N. unfold r, p. cbn [lget p2p_lens h_p2p lset h_mqtt h_spawned].
    by destruct (p2p_set_service_notify _ _ _ _) as [[[]|e] p'].
  - by rewrite decide_True.
  - intros proto Hp. by rewrite decide_False.
  - intros token Ht. by rewrite decide_False.
Qed.
End Properties.
