(* ===== verification/Dialer.v ===== *)
(** * Dialer: src/main.rs

    The discovery program: a p2p service per network, and the task that dials what
    marci asks for. *)
From S2P Require Import Prelude RustStd RustNet Types Compress Protocols Network Services Broker Message Handler.
From Stdlib Require Strings.Byte.

(** The controls of the two services. *)
Record Controllers (P : Type) := MkControllers { mirana_controller : P; pudge_controller : P }.
Arguments MkControllers {P} _ _.
Arguments mirana_controller {P} _.
Arguments pudge_controller {P} _.

(** What the MQTT stream yields: a message, or that the connection was lost. *)
Inductive stream_event := StreamMessage (topic payload : string) | StreamLost.

(** The library's key pairs, handshakes and yamux configuration. *)
Class ServiceLib := {
  SecioKeyPair : Type;
  HandshakeType : Type;
  secio_handshake : SecioKeyPair → HandshakeType;
  YamuxConfig : Type;
  yamux_default : YamuxConfig;
}.

(** What a service is built from. *)
Record ServiceSettings (Meta : Type) `{ServiceLib} := {
  protocols : list Meta;
  forever : bool;
  handshake_type : HandshakeType;
  yamux_config : YamuxConfig;
  recv_buffer_size : N;
  send_buffer_size : N;
  timeout_secs : N;
  service_handler : Handler;
}.
Arguments protocols {Meta _} _.
Arguments service_handler {Meta _} _.

(** The two components the MQTT task moves in. *)
Record TaskWorld (P B : Type) := MkTaskWorld { t_controllers : Controllers P; t_client : B }.
Arguments MkTaskWorld {P B} _ _.
Arguments t_controllers {P B} _.
Arguments t_client {P B} _.

#[export] Instance controllers_lens {P B} : Lens (TaskWorld P B) (Controllers P).
Proof.
  refine {| lget := t_controllers; lset k w := MkTaskWorld k (t_client w) |}; by intros; try destruct w.
Defined.
#[export] Instance client_lens {P B} : Lens (TaskWorld P B) B.
Proof.
  refine {| lget := t_client; lset b w := MkTaskWorld (t_controllers w) b |}; by intros; try destruct w.
Defined.

(** A task or a [main] that has not ended yet. *)
Inductive progress := Finished | StillRunning.

(** A round of the [select!] over the two services: one of the [run] futures
    completed, or panicked. *)
Inductive service_event := MiranaRan | PudgeRan | ServicePanicked.

Section Dialer.
Context {P B : Type} `{MultiaddrLib} `{!P2p P} `{Snap} `{Json NodeMetaInfo} `{ServiceLib} `{Mqtt B}.

(** [builder_fn]: the service of a network, with the protocols of its handler and the
    key pair generated for it. *)
Definition builder_fn (secp256k1_generated : SecioKeyPair) (network : CKBNetworkType) :=
  let handler := handler_new network in {|
    protocols := build_protocol_metas handler;
    forever := true;
    handshake_type := secio_handshake secp256k1_generated;
    yamux_config := yamux_default;
    recv_buffer_size := 24 * 1024 * 1024;
    send_buffer_size := 24 * 1024 * 1024;
    timeout_secs := 30;
    service_handler := handler;
  |}.

(** [mirana_service], [pudge_service]. *)
Definition services (key1 key2 : SecioKeyPair) := (builder_fn key1 Mirana, builder_fn key2 Pudge).

Abbreviation task := (comp (Controllers P) Empty_set).

(** The [match node.network]; a failed dial is only logged. *)
Definition dial_on (network : CKBNetworkType) (addr : Multiaddr) : task unit := λ w,
  match network with
  | Pudge => (Ret tt, MkControllers (mirana_controller w) (p2p_dial addr (pudge_controller w)).2)
  | Mirana => (Ret tt, MkControllers (p2p_dial addr (mirana_controller w)).2 (pudge_controller w))
  | Dev => (Panic, w)
  end.

(** [match msg.topic()] *)
Definition on_message (topic payload : string) : task unit :=
  if decide (topic = "peer/needs_dial") then
    match of_json (A:=NodeMetaInfo) payload with
    | Some node => for_each (omap ok (meta_info_to_addr node)) (dial_on (network node))
    | None => mret tt
    end
  else mret tt.

(** The MQTT task on a stream that yields [events] and ends; then the task panics.
    Having lost the connection it stays in the reconnect loop until that ends: with
    too little fuel for it, it is still running. *)
Fixpoint mqtt_task (fuel : nat) (events : list stream_event) :
  comp (TaskWorld P B) Empty_set progress :=
  match events with
  | [] => panic
  | StreamMessage topic payload :: events => zoom (on_message topic payload);; mqtt_task fuel events
  | StreamLost :: events =>
      attempts ← reconnect_loop (B:=B) fuel 0;
      match attempts with
      | Some _ => mqtt_task fuel events
      | None => mret StillRunning
      end
  end.

(** The task of the services: whichever has run, the loop goes on. *)
Fixpoint service_task (rounds : list service_event) : outcome Empty_set progress :=
  match rounds with
  | [] => Ret StillRunning
  | MiranaRan :: rounds | PudgeRan :: rounds => service_task rounds
  | ServicePanicked :: _ => Panic
  end.
End Dialer.

(** ** Properties *)
Section Properties.
Context {P : Type} `{MultiaddrLaws} `{!P2p P} `{JsonLaws NodeMetaInfo}.
Implicit Types (w : Controllers P).

(** The addresses dialled on the service of a network. *)
Definition dialled (n : CKBNetworkType) (l : list Multiaddr) w : Controllers P :=
  match n with
  | Mirana => MkControllers (dials l (mirana_controller w)) (pudge_controller w)
  | Pudge => MkControllers (mirana_controller w) (dials l (pudge_controller w))
  | Dev => w
  end.

Lemma for_each_dial n l w :
  n ≠ Dev → for_each l (dial_on n) w = (Ret tt, dialled n l w).
Proof.
  intros Hn. revert w. induction l as [|a l IH]; intros w.
  - by destruct n, w.
  - cbn [for_each]. rewrite (bind_ret _ _ _ tt (dialled n [a] w)) by (by destruct n).
    rewrite IH. by destruct n.
Qed.

Lemma on_needs_dial (node : NodeMetaInfo) addrs w :
  meta_info_to_addr node = map Ok addrs →
  on_message "peer/needs_dial" (json_text node) w = for_each addrs (dial_on (network node)) w.
Proof.
  intros Hm. unfold on_message. rewrite decide_True, of_json_text, Hm by done.
  f_equal. clear. induction addrs as [|a l IH]; [done|]. cbn. by rewrite IH.
Qed.

(** C20 (functional). A dial request for a peer of the main or the test network is
    carried out completely, and on that network's service only: one dial per
    endpoint that is not loopback, in order, each to an address that reads back as
    that endpoint and that peer. *)
Theorem needs_dial_dials key (node : NodeMetaInfo) w :
  peer_key key → peer_id node = peer_text key →
  Forall (λ x, (port x ≤ Int.u16_max)%N) (addresses node) →
  network node ≠ Dev →
  ∃ addrs,
    on_message "peer/needs_dial" (json_text node) w = (Ret tt, dialled (network node) addrs w) ∧
    map (λ m, addr_to_node_meta m (network node)) addrs =
    map (λ x, {| peer_id := peer_id node; addresses := [x]; network := network node |})
        (filter dialable (addresses node)).
Proof.
  intros Hk Hid Hp Hn. destruct (meta_info_reads_back key node Hk Hid Hp) as (addrs & Ha & Hr).
  exists addrs. split; [|done]. rewrite (on_needs_dial _ _ _ Ha). by apply for_each_dial.
Qed.

(** A dial request for a peer of the development network kills the task
    as soon as there is an endpoint to dial: it reaches [unreachable!]. *)
Lemma dev_request_panics key (node : NodeMetaInfo) x w :
  peer_key key → peer_id node = peer_text key →
  Forall (λ x, (port x ≤ Int.u16_max)%N) (addresses node) →
  network node = Dev → x ∈ addresses node → dialable x →
  (on_message "peer/needs_dial" (json_text node) w).1 = Panic.
Proof.
  intros Hk Hid Hp Hn Hx Hd. destruct (meta_info_reads_back key node Hk Hid Hp) as (addrs & Ha & Hr).
  rewrite (on_needs_dial _ _ _ Ha), Hn. destruct addrs as [|a l]; [|done].
  assert (x ∈ filter dialable (addresses node)) as Hin by by apply list_elem_of_filter.
  destruct (filter dialable (addresses node)); [by apply elem_of_nil in Hin|done].
Qed.
End Properties.
