(* ===== verification/Exposed.v ===== *)
(** * Exposed: exposed/src/main.rs and exposed/src/model.rs

    The HTTP service that reads marci's database. The handlers are computations
    over the Redis connection, the clock and the worker's cache. Routing, CORS and
    the printing of JSON are actix's; the regex and chrono crates are the class
    [TextLib]. *)
From S2P Require Import Prelude RustStd RustFloat RustNet Types Redis Services Keys.
From Stdlib Require Import Ascii.

(** [Regex::new] with the first group of [captures]; and [DateTime::<Utc>::from(t).into()]
    on seconds since the epoch ([None]: it panics). *)
Class TextLib := {
  Rx : Type;
  regex_new : string → option Rx;
  captures1 : Rx → string → option string;
  utc_round : N → option N;
}.

(** The times chrono represents come back unchanged. *)
Class TextLaws `{TextLib} := {
  utc_max : N;
  utc_max_i64 : (utc_max ≤ Int.i64_max)%N;
  utc_law n : (n ≤ utc_max)%N → utc_round n = Some n;
}.

(** [last_seen] is a [SystemTime], kept as its seconds since the epoch. *)
Record Peer := {
  p_id : Z;
  p_version : string;
  p_version_short : string;
  p_last_seen : option N;
  p_country : option string;
  p_city : option string;
  p_latitude : option f64;
  p_longitude : option f64;
  p_node_type : Z;
}.

Record PeerStatus := { s_peer_id : string; s_in_map : bool; s_info : option Peer }.
Record ServiceStatus := { last_update : N }.

(** The HTTP responses; [cached] tells the ones with the cache-control header. *)
Inductive response :=
| JsonPeers (cached : bool) (body : list Peer)
| JsonStatus (body : ServiceStatus)
| JsonPeerStatus (body : PeerStatus)
| InternalServerError.

#[export] Instance Peer_eq_dec : EqDecision Peer.
Proof. solve_decision. Defined.

Record QueryParams := {
  q_network : string;
  q_offline_timeout : N;
  q_unknown_offline_timeout : N;
}.

(** The defaults of [QueryParams]; [None] is the panic of [unwrap]. *)
Definition default_network : string := "mirana".
Definition default_timeout (env : string → option string) : option N :=
  Int.parse_u64 (default "43200" (env "MARCI_DEFAULT_TIMEOUT")).
Definition default_unknown_timeout (env : string → option string) : option N :=
  Int.parse_u64 (default "1440" (env "MARCI_DEFAULT_UNKNOWN_TIMEOUT")).

(** One worker: the shared connection, the clock and the worker's [ServiceData]. *)
Record Service (R C : Type) := MkService {
  x_client : R;
  x_clock : C;
  x_data : list Peer;
  x_last_cache_update : Z;
}.
Arguments MkService {R C} _ _ _ _.
Arguments x_client {R C} _.
Arguments x_clock {R C} _.
Arguments x_data {R C} _.
Arguments x_last_cache_update {R C} _.

#[export] Instance client_lens {R C} : Lens (Service R C) R.
Proof.
  refine {| lget := x_client;
            lset s w := MkService s (x_clock w) (x_data w) (x_last_cache_update w) |};
    by intros; try destruct w.
Defined.
#[export] Instance service_clock_lens {R C} : Lens (Service R C) C.
Proof.
  refine {| lget := x_clock;
            lset s w := MkService (x_client w) s (x_data w) (x_last_cache_update w) |};
    by intros; try destruct w.
Defined.

(** The loop that collects what [body] pushes. *)
Fixpoint for_collect {W E A B} (l : list A) (body : A → comp W E (option B)) :
  comp W E (list B) :=
  match l with
  | [] => mret []
  | x :: l =>
      y ← body x;
      rest ← for_collect l body;
      mret (match y with Some y => y :: rest | None => rest end)
  end.

Definition node_type_from_full (full : option bool) : Z :=
  match full with Some true => 0 | Some false => 1 | None => 0 end.

(** [key.rsplit('.').collect::<Vec<_>>()[1]] *)
Definition reachable_keys_to_peer_ids {E} (keys : list string) : outcome E (list string) :=
  (fix go keys :=
     match keys with
     | [] => Ret []
     | key :: keys => id ← index (Str.rsplit "." key) 1; ids ← go keys; Ret (id :: ids)
     end) keys.

Definition keys_to_peer_ids (keys : list string) : list string :=
  map (λ key, default "" (snd <$> Str.rsplit_once "." key)) keys.

(** [SystemTime] holds seconds in an [i64]. *)
Definition last_seen_of `{TextLib} (timestamp : N) : option N :=
  if decide (timestamp ≤ Int.i64_max)%N then utc_round timestamp else None.

Definition version_pattern : string := "^(.*?)[^0-9.].*$".

Definition short_version `{TextLib} (version : string) : string :=
  match regex_new version_pattern with
  | Some regex =>
      match captures1 regex version with
      | Some first => first
      | None => version
      end
  | None => version
  end.

Section Handlers.
Context {R C : Type} `{Redis R} `{Clock C} `{TextLib}.

Abbreviation handler E := (comp (Service R C) E).

Definition of_outcome {E A} (o : outcome E A) : handler E A := λ w, (o, w).

Definition ask {A} (c : handler (redis_error R) (result A (redis_error R))) :
  handler (redis_error R) A := r ← c; question id r.

Definition get_position {E} (peer_id : string) : handler E (option f64 * option f64) :=
  got ← con_get_string ("peer_info." +:+ peer_id +:+ ".pos");
  mret (match got with
        | Ok loc =>
            let lat_lon := Str.split "," loc in
            (lat_lon !! 0 ≫= f64_from_str, lat_lon !! 1 ≫= f64_from_str)
        | Err _ => (None, None)
        end).

Definition get_peer_info {E} (peer_id : string) :
  handler E (option string * option string * option f64 * option f64 * option bool * N) :=
  country ← con_get_option_string ("peer_info." +:+ peer_id +:+ ".country");
  city ← con_get_option_string ("peer_info." +:+ peer_id +:+ ".city");
  '(latitude, longitude) ← get_position peer_id;
  full ← con_get_option_bool ("peer_info." +:+ peer_id +:+ ".full");
  timestamp ← con_get_u64 ("peer_info." +:+ peer_id +:+ ".last_seen");
  mret (unwrap_or None country, unwrap_or None city, latitude, longitude,
        unwrap_or None full, unwrap_or 0%N timestamp).

(** The [Peer] of a status response. *)
Definition status_peer {E} (peer_id version version_short : string) : handler E Peer :=
  '(country, city, latitude, longitude, full, timestamp) ← get_peer_info peer_id;
  last_seen ← unwrap (last_seen_of timestamp);
  mret {| p_id := 0;
          p_version := version;
          p_version_short := version_short;
          p_last_seen := Some last_seen;
          p_country := country;
          p_city := city;
          p_latitude := latitude;
          p_longitude := longitude;
          p_node_type := node_type_from_full full |}.

Definition peer_in_map {E} (peer_id : string) : handler E response :=
  online_keys ← con_keys ("peer.online." +:+ peer_id);
  if decide (unwrap_or [] online_keys ≠ []) then
    version ← con_get_string ("peer.online." +:+ peer_id);
    let version := unwrap_or "" version in
    p ← status_peer peer_id version (short_version version);
    mret (JsonPeerStatus {| s_peer_id := peer_id; s_in_map := true; s_info := Some p |})
  else
    online2_keys ← con_keys ("peer.online2." +:+ peer_id);
    if decide (unwrap_or [] online2_keys ≠ []) then
      version ← con_get_string ("peer.online2." +:+ peer_id);
      let version := unwrap_or "" version in
      p ← status_peer peer_id version (short_version version);
      mret (JsonPeerStatus {| s_peer_id := peer_id; s_in_map := true; s_info := Some p |})
    else
      unknown_keys ← con_keys ("peer.unknown." +:+ peer_id);
      if decide (unwrap_or [] unknown_keys ≠ []) then
        p ← status_peer peer_id "" "Unknown";
        mret (JsonPeerStatus {| s_peer_id := peer_id; s_in_map := true; s_info := Some p |})
      else mret (JsonPeerStatus {| s_peer_id := peer_id; s_in_map := false; s_info := None |}).

(** The body of the loop of [get_peers]; [None] is its [continue]. *)
Definition peer_entry (online_peers online2_peers unknown_peers : list string)
    (entry : nat * string) : handler (redis_error R) (option Peer) :=
  let '(index, peer_id) := entry in
  if decide ((peer_id ∉ online_peers) ∧ (peer_id ∉ online2_peers) ∧ (peer_id ∉ unknown_peers))
  then mret None
  else
    version ←
      (if decide (peer_id ∈ online_peers) then ask (con_get_string ("peer.online." +:+ peer_id))
       else if decide (peer_id ∈ online2_peers)
       then ask (con_get_string ("peer.online2." +:+ peer_id))
       else mret "");
    let version_short :=
      if decide ((peer_id ∉ online_peers) ∧ (peer_id ∉ online2_peers)) then "Unknown"
      else short_version version in
    country ← con_get_option_string ("peer_info." +:+ peer_id +:+ ".country");
    city ← con_get_option_string ("peer_info." +:+ peer_id +:+ ".city");
    '(latitude, longitude) ← get_position peer_id;
    full ← con_get_option_bool ("peer_info." +:+ peer_id +:+ ".full");
    timestamp ← con_get_u64 ("peer_info." +:+ peer_id +:+ ".last_seen");
    last_seen ← unwrap (last_seen_of (unwrap_or 0%N timestamp));
    mret (Some {| p_id := Int.as_i32 (N.of_nat index);
                  p_version := version;
                  p_version_short := version_short;
                  p_last_seen := Some last_seen;
                  p_country := unwrap_or None country;
                  p_city := unwrap_or None city;
                  p_latitude := latitude;
                  p_longitude := longitude;
                  p_node_type := node_type_from_full (unwrap_or None full) |}).

Definition get_peers (network : CKBNetworkType) (offline_min unknown_offline_min : N) :
  handler (redis_error R) (list Peer) :=
  keys ← (match network with
          | Mirana => ask (con_keys "network.peer.*.mirana")
          | Pudge => ask (con_keys "network.peer.*.pudge")
          | Dev => panic
          end);
  peer_ids ← of_outcome (reachable_keys_to_peer_ids keys);
  online_keys ← ask (con_keys "peer.online.*");
  online2_keys ← ask (con_keys "peer.online2.*");
  unknown_keys ← ask (con_keys "peer.unknown.*");
  for_collect (imap pair peer_ids)
    (peer_entry (keys_to_peer_ids online_keys) (keys_to_peer_ids online2_keys)
       (keys_to_peer_ids unknown_keys)).

(** [now.duration_since(t).unwrap_or_default().as_secs()] *)
Definition secs_since (t now : Z) : Z := Z.max 0 (now - t) / 1000000000.

(** The worker's cache. *)
Definition read_data {E} : handler E (list Peer) := λ w, (Ret (x_data w), w).
Definition read_last_cache_update {E} : handler E Z := λ w, (Ret (x_last_cache_update w), w).
Definition update_cache {E} (peers : list Peer) (t : Z) : handler E unit := λ w,
  (Ret tt, MkService (x_client w) (x_clock w) peers t).

(** *** The stages of [peer_handler], between which other requests may run *)

(** Is the cached list missing or too old? *)
Definition cache_is_stale {E} : handler E bool :=
  data ← read_data;
  if decide (data = []) then mret true
  else
    t ← now;
    last ← read_last_cache_update;
    mret (bool_decide (30 < secs_since last t)%Z).

Definition fetch_peers {E} (q : QueryParams) : handler E (result (list Peer) (redis_error R)) :=
  returning (get_peers (network_from_string (q_network q))
               (q_offline_timeout q) (q_unknown_offline_timeout q)).

(** [contended]: another request of the worker holds the cache at the [try_lock]. *)
Definition answer_fetched {E} (contended : bool) (r : result (list Peer) (redis_error R)) :
  handler E response :=
  match r with
  | Ok peers =>
      if contended then mret (JsonPeers true peers)
      else
        t ← now;
        update_cache peers t;;
        mret (JsonPeers true peers)
  | Err _ => mret InternalServerError
  end.

Definition answer_cached {E} : handler E response :=
  data ← read_data;
  mret (JsonPeers true data).

(** The endpoint of [/] and [/peer]. *)
Definition peer_handler {E} (contended : bool) (q : QueryParams) : handler E response :=
  stale ← cache_is_stale;
  if (stale : bool) then
    r ← fetch_peers q;
    answer_fetched contended r
  else answer_cached.

Definition get_last_update : handler (redis_error R) ServiceStatus :=
  r ← con_get_u64 "service.last_update";
  match r with
  | Ok timestamp => mret {| last_update := timestamp |}
  | Err err => raise err
  end.

Definition last_update_handler {E} : handler E response :=
  r ← returning get_last_update;
  match r with
  | Ok status => mret (JsonStatus status)
  | Err _ => mret InternalServerError
  end.
End Handlers.

(** [add_node]: the status and body it answers; [Debug] of a string is a parameter. *)
Inductive node_response := NodeOk (body : string) | NotAcceptable (body : string).
Definition add_node (debug_string : string → string) (node_id : string)
    (peer_addr : option (Net.IpAddr * N)) : node_response :=
  match peer_addr with
  | Some (ip, _) =>
      NodeOk ("node_id: " +:+ node_id +:+ ", addr: " +:+ debug_string (Net.ip_string ip))
  | None => NotAcceptable ("{node_id: " +:+ node_id +:+ "}")
  end.
