(* ===== verification/ExposedSpec.v ===== *)
(** * ExposedSpec: what the HTTP service answers

    The list and the status of peers as functions of the stored map, and the
    theorems that the handlers compute them. *)
From S2P Require Import Prelude RustStd RustFloat RustNet Types Redis Services Keys MarciInv Exposed.
From Stdlib Require Import Ascii.

(** ** The abstract specification *)
Section Spec.
Context {R : Type} `{Redis R} `{TextLib}.
Implicit Types (st : store) (id : string).

(** Version and short version of a peer that is shown, [None] for one that is not. *)
Definition status_of st id : option (string * string) :=
  match text_at st (KOnline id) with
  | Some v => Some (v, short_version v)
  | None =>
      match text_at st (KOnline2 id) with
      | Some v => Some (v, short_version v)
      | None => if decide (has st (KUnknown id)) then Some ("", "Unknown") else None
      end
  end.

Definition seen_of st id : N := default 0%N (text_at st (KSeen id) ≫= from_u64).

Definition position_of st id : option f64 * option f64 :=
  match text_at st (KPos id) with
  | Some loc => (Str.split "," loc !! 0 ≫= f64_from_str, Str.split "," loc !! 1 ≫= f64_from_str)
  | None => (None, None)
  end.

Definition peer_of st (pid : Z) id (v : string * string) : Peer := {|
  p_id := pid;
  p_version := v.1;
  p_version_short := v.2;
  p_last_seen := Some (seen_of st id);
  p_country := text_at st (KCountry id);
  p_city := text_at st (KCity id);
  p_latitude := (position_of st id).1;
  p_longitude := (position_of st id).2;
  p_node_type := node_type_from_full (text_at st (KFull id) ≫= from_bool);
|}.

(** The entry of the list at an index, the status response. *)
Definition listed st (entry : nat * string) : option Peer :=
  peer_of st (Int.as_i32 (N.of_nat entry.1)) entry.2 <$> status_of st entry.2.

Definition status_response st id : PeerStatus := {|
  s_peer_id := id;
  s_in_map := bool_decide (is_Some (status_of st id));
  s_info := peer_of st 0 id <$> status_of st id;
|}.
End Spec.

(** What the service relies on in the database: the status records are strings,
    times are in chrono's range, ids contain no dot. *)
Section Servable.
Context {R : Type} `{Redis R} `{TextLaws}.

Record servable (st : store) : Prop := {
  online_text id : has st (KOnline id) → is_Some (text_at st (KOnline id));
  online2_text id : has st (KOnline2 id) → is_Some (text_at st (KOnline2 id));
  seen_range id : (seen_of st id ≤ utc_max)%N;
}.

Record dotless (st : store) : Prop := {
  dotless_online id : has st (KOnline id) → Str.has_char "." id = false;
  dotless_online2 id : has st (KOnline2 id) → Str.has_char "." id = false;
  dotless_unknown id : has st (KUnknown id) → Str.has_char "." id = false;
  dotless_quick id n : has st (KNetworkQuick id n) → Str.has_char "." id = false;
}.
End Servable.

Lemma has_text st k : is_Some (text_at st k) → has st k.
Proof. unfold text_at, str_at, has. destruct (st !! _); [eauto|by intros []]. Qed.

(** ** Ids from keys *)
Lemma key_to_id_app p id :
  Str.has_char "." id = false → default "" (snd <$> Str.rsplit_once "." (p +:+ String "." id)) = id.
Proof. intros Hid. by rewrite Str.rsplit_once_app. Qed.

Lemma keys_to_peer_ids_spec st keys p (fam : string → key) :
  (∀ id, key_string (fam id) = p +:+ String "." id) →
  (∀ id, has st (fam id) → Str.has_char "." id = false) →
  (∀ k, k ∈ keys ↔ k ∈ dom st ∧ ∃ x, k = (p +:+ ".") +:+ x +:+ "") →
  ∀ id, id ∈ keys_to_peer_ids keys ↔ has st (fam id).
Proof.
  intros Hfam Hdot Hkeys id. unfold keys_to_peer_ids. rewrite list_elem_of_fmap.
  assert (∀ x, (p +:+ ".") +:+ x +:+ "" = key_string (fam x)) as Hk.
  { intros x. by rewrite Hfam, Str.app_nil_r, Str.app_assoc. }
  assert (∀ x, key_string (fam x) ∈ dom st ↔ has st (fam x)) as Hd by (intros; apply elem_of_dom).
  split.
  - intros (k & -> & [Hin [x ->]]%Hkeys). rewrite Hk in *. apply Hd in Hin.
    rewrite Hfam, key_to_id_app by eauto. done.
  - intros Hh. exists (key_string (fam id)). split.
    + rewrite Hfam. symmetry. apply key_to_id_app. eauto.
    + apply Hkeys. rewrite Hd. split; [done|]. exists id. by rewrite Hk.
Qed.

Lemma quick_key_string id n :
  key_string (KNetworkQuick id n) = "network.peer." +:+ id +:+ "." +:+ into_str n.
Proof. cbn [key_string]. by rewrite network_name_lower. Qed.

Lemma quick_key_id {E} id n :
  Str.has_char "." id = false →
  index (E:=E) (Str.rsplit "." (key_string (KNetworkQuick id n))) 1 = Ret id.
Proof.
  intros Hid. rewrite quick_key_string.
  change ("network.peer." +:+ id +:+ "." +:+ into_str n)
    with ("network.peer" +:+ String "." (id +:+ String "." (into_str n))).
  rewrite Str.rsplit_app, Str.rsplit_app.
  rewrite (Str.rsplit_none "." (into_str n)) by (by destruct n).
  by rewrite (Str.rsplit_none "." id).
Qed.

Lemma reachable_keys_cons {E} k keys :
  reachable_keys_to_peer_ids (E:=E) (k :: keys) =
    (id ← index (Str.rsplit "." k) 1; ids ← reachable_keys_to_peer_ids keys; Ret (id :: ids)).
Proof. done. Qed.

(** The ids of a network: no panic, no duplicates, nobody missed. *)
Lemma reachable_keys_to_peer_ids_spec {E} st keys n :
  (∀ id, has st (KNetworkQuick id n) → Str.has_char "." id = false) →
  NoDup keys →
  (∀ k, k ∈ keys ↔ k ∈ dom st ∧ ∃ x, k = "network.peer." +:+ x +:+ "." +:+ into_str n) →
  ∃ ids, reachable_keys_to_peer_ids (E:=E) keys = Ret ids ∧ NoDup ids ∧
    ∀ id, id ∈ ids ↔ has st (KNetworkQuick id n).
Proof.
  intros Hdot Hnd Hkeys.
  assert (∀ l, (∀ k, k ∈ l → ∃ id, k = key_string (KNetworkQuick id n) ∧ has st (KNetworkQuick id n)) →
    ∃ ids, reachable_keys_to_peer_ids (E:=E) l = Ret ids ∧
           l = map (λ id, key_string (KNetworkQuick id n)) ids) as Hgo.
  { induction l as [|k l IH]; intros Hl; [by exists []|].
    destruct (Hl k) as (id & -> & Hh); [apply list_elem_of_here|].
    destruct IH as (ids & Hids & ->); [intros k Hk; apply Hl; by apply list_elem_of_further|].
    exists (id :: ids). split; [|done].
    rewrite reachable_keys_cons, quick_key_id by eauto. cbn [mbind outcome_bind]. by rewrite Hids. }
  destruct (Hgo keys) as (ids & Hids & ->).
  { intros k [Hin [x ->]]%Hkeys. exists x. rewrite quick_key_string. split; [done|].
    unfold has. rewrite quick_key_string. by apply elem_of_dom. }
  exists ids. split; [done|]. split; [by eapply NoDup_fmap_1|]. intros id. split.
  - intros Hin. unfold has. rewrite <- elem_of_dom. apply (Hkeys (key_string (KNetworkQuick id n))).
    apply list_elem_of_fmap. eauto.
  - intros Hh. assert (key_string (KNetworkQuick id n) ∈ map (λ id, key_string (KNetworkQuick id n)) ids) as Hin.
    { apply Hkeys. split; [by apply elem_of_dom|]. exists id. apply quick_key_string. }
    apply list_elem_of_fmap in Hin as (id' & Heq & Hin). apply (inj key_string) in Heq. by injection Heq as ->.
Qed.

(** ** The handlers *)
Section Rules.
Context {R C : Type} `{RedisLaws R} `{Clock C} `{TextLaws}.
Implicit Types (st : store) (id k : string) (w : Service R C).

(** The server is up and holds [st]; the rest of the worker is as in [w0]. *)
Definition serving st w0 w : Prop :=
  up (x_client w) ∧ view (x_client w) = st ∧ x_clock w = x_clock w0 ∧ x_data w = x_data w0 ∧
  x_last_cache_update w = x_last_cache_update w0.

Lemma serving_start w : up (x_client w) → serving (view (x_client w)) w w.
Proof. by repeat split. Qed.

Section Reads.
Context {E : Type} {st : store} {w0 : Service R C}.

Lemma serving_set w s :
  serving st w0 w → up s → view s = view (x_client w) → serving st w0 (lset s w).
Proof. intros (? & ? & ? & ? & ?) Hup Hv. repeat split; try done. cbn. congruence. Qed.

Lemma read_string k w (Q : _ → _ → Prop) :
  serving st w0 w → (∀ r w', serving st w0 w' → ok r = str_at st k → Q r w') →
  runs (E:=E) (con_get_string k) w Q.
Proof.
  intros Hs HQ. apply runs_get_string; [apply Hs|]. intros r s' ?? Hr.
  apply HQ; [by apply serving_set|]. destruct Hs as (_ & <- & _). done.
Qed.

Lemma read_option_string k w (Q : _ → _ → Prop) :
  serving st w0 w → (∀ r w', serving st w0 w' → unwrap_or None r = str_at st k → Q r w') →
  runs (E:=E) (con_get_option_string k) w Q.
Proof.
  intros Hs HQ. apply runs_get_option_string; [apply Hs|]. intros r s' ?? Hr.
  apply HQ; [by apply serving_set|]. destruct Hs as (_ & <- & _). done.
Qed.

Lemma read_option_bool k w (Q : _ → _ → Prop) :
  serving st w0 w → (∀ r w', serving st w0 w' → unwrap_or None r = str_at st k ≫= from_bool → Q r w') →
  runs (E:=E) (con_get_option_bool k) w Q.
Proof.
  intros Hs HQ. apply runs_get_option_bool; [apply Hs|]. intros r s' ?? Hr.
  apply HQ; [by apply serving_set|]. destruct Hs as (_ & <- & _). done.
Qed.

Lemma read_u64 k w (Q : _ → _ → Prop) :
  serving st w0 w →
  (∀ r w', serving st w0 w' → ok r = str_at st k ≫= from_u64 → Q r w') →
  runs (E:=E) (con_get_u64 k) w Q.
Proof.
  intros Hs HQ. apply runs_get_u64; [apply Hs|]. intros r s' ?? Hr.
  apply HQ; [by apply serving_set|]. destruct Hs as (_ & <- & _). done.
Qed.

Lemma read_keys_star before after w (Q : _ → _ → Prop) :
  serving st w0 w → glob_plain before → glob_plain after →
  (∀ l w', serving st w0 w' → NoDup l →
     (∀ k, k ∈ l ↔ k ∈ dom st ∧ ∃ x, k = before +:+ x +:+ after) → Q (Ok l) w') →
  runs (E:=E) (con_keys (before +:+ "*" +:+ after)) w Q.
Proof.
  intros Hs Hb Ha HQ. apply runs_keys_star; [apply Hs|done..|]. intros l s' ??? Hl.
  apply HQ; [by apply serving_set|done|]. destruct Hs as (_ & <- & _). done.
Qed.

Lemma read_keys_literal pat w (Q : _ → _ → Prop) :
  serving st w0 w → glob_plain pat →
  (∀ w', serving st w0 w' → Q (Ok (if decide (pat ∈ dom st) then [pat] else [])) w') →
  runs (E:=E) (con_keys pat) w Q.
Proof.
  intros Hs Hp HQ. apply runs_keys_literal; [apply Hs|done|]. intros s' ??.
  replace (view (lget w)) with st by (symmetry; apply Hs). apply HQ. by apply serving_set.
Qed.
End Reads.

Lemma unwrap_or_ok {A E} (d : A) (r : result A E) : unwrap_or d r = default d (ok r).
Proof. by destruct r. Qed.

Lemma last_seen_in_range n : (n ≤ utc_max)%N → last_seen_of n = Some n.
Proof.
  intros Hn. unfold last_seen_of. rewrite decide_True by (pose proof utc_max_i64; lia).
  by apply utc_law.
Qed.

Lemma run_position {E} st w0 id w (Q : _ → _ → Prop) :
  serving st w0 w → (∀ w', serving st w0 w' → Q (position_of st id) w') →
  runs (E:=E) (get_position id) w Q.
Proof.
  intros Hs HQ. unfold get_position. apply runs_bind. eapply read_string; [done|].
  intros r w' Hs' Hr. apply runs_ret. cbv zeta.
  replace (match r with Ok loc => _ | Err _ => _ end) with (position_of st id); [by apply HQ|].
  assert (ok r = text_at st (KPos id)) as Ht by exact Hr.
  unfold position_of. rewrite <- Ht. by destruct r.
Qed.

(** The reads that the list and the status response share. *)
Ltac read_details id Hs :=
  apply runs_bind; eapply read_option_string; [exact Hs|]; intros ?r ?w ?Hs ?Hcountry;
  apply runs_bind; eapply read_option_string; [eassumption|]; intros ?r ?w ?Hs ?Hcity;
  apply runs_bind; eapply (run_position _ _ id); [eassumption|]; intros ?w ?Hs;
  destruct (position_of _ id) as [?latitude ?longitude] eqn:?Hpos;
  apply runs_bind; eapply read_option_bool; [eassumption|]; intros ?r ?w ?Hs ?Hfull;
  apply runs_bind; eapply read_u64; [eassumption|]; intros ?r ?w ?Hs ?Hseen.

(** *** The list of peers *)
Lemma status_none st id :
  ¬ has st (KOnline id) → ¬ has st (KOnline2 id) →
  status_of st id = if decide (has st (KUnknown id)) then Some ("", "Unknown") else None.
Proof.
  intros Hn1 Hn2. unfold status_of.
  destruct (text_at st (KOnline id)) eqn:E1; [by destruct Hn1; apply has_text; rewrite E1|].
  destruct (text_at st (KOnline2 id)) eqn:E2; [by destruct Hn2; apply has_text; rewrite E2|]. done.
Qed.

(** The version that an entry reads. *)
Lemma entry_version st w0 (on on2 : list string) id w (Q : string → _ → Prop) :
  servable st →
  (∀ id, id ∈ on ↔ has st (KOnline id)) → (∀ id, id ∈ on2 ↔ has st (KOnline2 id)) →
  id ∈ on ∨ id ∈ on2 ∨ has st (KUnknown id) →
  serving st w0 w →
  (∀ v w', serving st w0 w' →
     status_of st id = Some (v, if decide ((id ∉ on) ∧ (id ∉ on2)) then "Unknown" else short_version v) →
     Q v w') →
  runs (if decide (id ∈ on) then ask (con_get_string ("peer.online." +:+ id))
        else if decide (id ∈ on2) then ask (con_get_string ("peer.online2." +:+ id))
        else mret "") w Q.
Proof.
  intros [Ht1 Ht2 _] Hon Hon2 Hsome Hs HQ.
  destruct (decide (id ∈ on)) as [Hc1|Hc1]; [|destruct (decide (id ∈ on2)) as [Hc2|Hc2]].
  - destruct (Ht1 id) as [v Hv]; [by apply Hon|]. apply runs_bind. eapply read_string; [done|].
    intros r w' Hs' Hr. change (ok r = text_at st (KOnline id)) in Hr. rewrite Hv in Hr.
    destruct r as [v'|]; [|done]. injection Hr as ->. apply runs_ret, HQ; [done|].
    unfold status_of. rewrite Hv, decide_False by tauto. done.
  - destruct (Ht2 id) as [v Hv]; [by apply Hon2|]. apply runs_bind. eapply read_string; [done|].
    intros r w' Hs' Hr. change (ok r = text_at st (KOnline2 id)) in Hr. rewrite Hv in Hr.
    destruct r as [v'|]; [|done]. injection Hr as ->. apply runs_ret, HQ; [done|].
    unfold status_of. rewrite Hv. rewrite decide_False by tauto.
    destruct (text_at st (KOnline id)) eqn:E1; [|done].
    destruct Hc1. apply Hon, has_text. by rewrite E1.
  - apply runs_ret, HQ; [done|]. rewrite decide_True by done.
    rewrite status_none by by rewrite <- ?Hon, <- ?Hon2. apply decide_True. tauto.
Qed.

Lemma peer_entry_runs st w0 (on on2 unk : list string) i id w :
  servable st →
  (∀ id, id ∈ on ↔ has st (KOnline id)) → (∀ id, id ∈ on2 ↔ has st (KOnline2 id)) →
  (∀ id, id ∈ unk ↔ has st (KUnknown id)) →
  serving st w0 w →
  runs (peer_entry on on2 unk (i, id)) w (λ r w', serving st w0 w' ∧ r = listed st (i, id)).
Proof.
  intros Hst Hon Hon2 Hunk Hs. unfold peer_entry, listed. cbn [fst snd].
  case_decide as Hnone.
  { destruct Hnone as (Hn1 & Hn2 & Hn3). apply runs_ret. split; [done|].
    rewrite status_none by by rewrite <- ?Hon, <- ?Hon2. rewrite decide_False by by rewrite <- Hunk.
    done. }
  apply runs_bind. eapply entry_version; [done..| |exact Hs|].
  { rewrite <- Hunk. destruct (decide (id ∈ on)); [by left|]. destruct (decide (id ∈ on2)); [by auto|].
    destruct (decide (id ∈ unk)); [by auto|tauto]. }
  intros v w1 Hs1 ->. cbv zeta. read_details id Hs1.
  rewrite (unwrap_or_ok (A:=N)), Hseen. change (default 0%N _) with (seen_of st id).
  rewrite last_seen_in_range by apply Hst. apply runs_bind, runs_ret, runs_ret. split; [done|].
  unfold peer_of. rewrite Hcountry, Hcity, Hpos, Hfull. done.
Qed.

Lemma collect_entries st w0 (on on2 unk : list string) l w :
  servable st →
  (∀ id, id ∈ on ↔ has st (KOnline id)) → (∀ id, id ∈ on2 ↔ has st (KOnline2 id)) →
  (∀ id, id ∈ unk ↔ has st (KUnknown id)) →
  serving st w0 w →
  runs (for_collect l (peer_entry on on2 unk)) w (λ r w', serving st w0 w' ∧ r = omap (listed st) l).
Proof.
  intros Hst Hon Hon2 Hunk. revert w. induction l as [|[i id] l IH]; intros w Hs; [done|].
  cbn [for_collect]. apply runs_bind. eapply runs_mono; [by eapply peer_entry_runs|].
  intros r w1 [Hs1 ->]. apply runs_bind. eapply runs_mono; [by apply IH|].
  intros r w2 [Hs2 ->]. apply runs_ret. split; [done|]. cbn. by destruct (listed st (i, id)).
Qed.

(** What [get_peers] returns: the entries of the peers of the network, each once. *)
Definition peers_listed st (n : CKBNetworkType) (peers : list Peer) : Prop :=
  ∃ ids, NoDup ids ∧ (∀ id, id ∈ ids ↔ has st (KNetworkQuick id n)) ∧
    peers = omap (listed st) (imap pair ids).

Lemma get_peers_runs n a b w :
  n ≠ Dev → up (x_client w) → servable (view (x_client w)) → dotless (view (x_client w)) →
  runs (get_peers n a b) w (λ peers w',
    serving (view (x_client w)) w w' ∧ peers_listed (view (x_client w)) n peers).
Proof.
  intros Hn Hup Hst Hd. pose proof (serving_start w Hup) as Hs. unfold get_peers.
  set (st := view (x_client w)) in *. apply runs_bind.
  apply runs_mono with (Q := λ keys w', serving st w w' ∧ NoDup keys ∧
    ∀ k, k ∈ keys ↔ k ∈ dom st ∧ ∃ x, k = "network.peer." +:+ x +:+ "." +:+ into_str n).
  { destruct n; [| |done]; apply runs_bind.
    - change "network.peer.*.mirana" with ("network.peer." +:+ "*" +:+ ".mirana").
      eapply read_keys_star; [done|by repeat split..|]. intros l w' Hs' Hnd Hl. by apply runs_ret.
    - change "network.peer.*.pudge" with ("network.peer." +:+ "*" +:+ ".pudge").
      eapply read_keys_star; [done|by repeat split..|]. intros l w' Hs' Hnd Hl. by apply runs_ret. }
  intros keys w1 (Hs1 & Hnd & Hkeys).
  destruct (reachable_keys_to_peer_ids_spec (E:=redis_error R) st keys n) as (ids & Hids & Hndi & Hin);
    [intros id; by apply dotless_quick|done..|].
  apply runs_bind. eapply runs_of; [by rewrite Hids|]. cbv beta.
  change "peer.online.*" with ("peer.online." +:+ "*" +:+ "").
  change "peer.online2.*" with ("peer.online2." +:+ "*" +:+ "").
  change "peer.unknown.*" with ("peer.unknown." +:+ "*" +:+ "").
  apply runs_bind, runs_bind. eapply read_keys_star; [done|by repeat split..|].
  intros on w2 Hs2 _ Hon. apply runs_ret.
  apply runs_bind, runs_bind. eapply read_keys_star; [done|by repeat split..|].
  intros on2 w3 Hs3 _ Hon2. apply runs_ret.
  apply runs_bind, runs_bind. eapply read_keys_star; [done|by repeat split..|].
  intros unk w4 Hs4 _ Hunk. apply runs_ret.
  eapply runs_mono; [eapply collect_entries; [done|..|exact Hs4]|].
  - eapply (keys_to_peer_ids_spec st on "peer.online" KOnline); [done|by apply dotless_online|done].
  - eapply (keys_to_peer_ids_spec st on2 "peer.online2" KOnline2); [done|by apply dotless_online2|done].
  - eapply (keys_to_peer_ids_spec st unk "peer.unknown" KUnknown); [done|by apply dotless_unknown|done].
  - intros peers w5 [Hs5 ->]. split; [done|]. by exists ids.
Qed.

(** C7 (refinement). On a database whose status records are text, whose times are
    in range and whose peer ids have no dot, listing a network returns, without an
    error or a panic, exactly the peers recorded for that network that are online
    or unknown: each once, with the version of its online record, and the location,
    kind and time recorded for it. The database is not changed. *)
Theorem get_peers_refines n a b w :
  n ≠ Dev → up (x_client w) → servable (view (x_client w)) → dotless (view (x_client w)) →
  runs (get_peers n a b) w (λ peers w',
    serving (view (x_client w)) w w' ∧ peers_listed (view (x_client w)) n peers).
Proof. apply get_peers_runs. Qed.

(** *** The cache *)
Definition fresh w : Prop :=
  x_data w ≠ [] ∧ (secs_since (x_last_cache_update w) (clock_now (x_clock w)).1 ≤ 30)%Z.
#[local] Instance fresh_dec w : Decision (fresh w).
Proof. unfold fresh. apply _. Defined.

Definition tick_clock w : Service R C := lset (clock_now (x_clock w)).2 w.

(** The check looks at the clock only if there is a list. *)
Definition clock_checked w : C :=
  if decide (x_data w = []) then x_clock w else (clock_now (x_clock w)).2.

Lemma stale_check {E} w :
  ∃ w', cache_is_stale (E:=E) w = (Ret (bool_decide (¬ fresh w)), w') ∧
    x_client w' = x_client w ∧ x_data w' = x_data w ∧ x_last_cache_update w' = x_last_cache_update w ∧
    (fresh w → w' = tick_clock w) ∧ x_clock w' = clock_checked w.
Proof.
  unfold cache_is_stale, read_data. erewrite bind_ret by reflexivity.
  unfold fresh, clock_checked. destruct (decide (x_data w = [])) as [Hd|Hd].
  { exists w. rewrite bool_decide_eq_true_2 by (by intros []). repeat split. by intros []. }
  exists (tick_clock w). split; [|by repeat split].
  erewrite bind_ret by reflexivity. unfold read_last_cache_update. erewrite bind_ret by reflexivity.
  cbn [x_last_cache_update lset service_clock_lens lget]. unfold mret, comp_ret. f_equal. f_equal.
  apply bool_decide_ext. generalize (secs_since (x_last_cache_update w) (clock_now (x_clock w)).1).
  intros z. split; [intros ? [_ ?]; lia|]. intros Hn. destruct (decide (z ≤ 30)%Z); [by destruct Hn|lia].
Qed.

Lemma handler_fresh {E} contended q w :
  fresh w → peer_handler (E:=E) contended q w = (Ret (JsonPeers true (x_data w)), tick_clock w).
Proof.
  intros Hf. destruct (stale_check (E:=E) w) as (w' & Hs & _ & _ & _ & Ht & _).
  rewrite (Ht Hf) in Hs. unfold peer_handler. rewrite (bind_ret _ _ _ _ _ Hs), bool_decide_eq_false_2 by auto. done.
Qed.

Lemma handler_stale {E} contended q w :
  ¬ fresh w → ∃ w1, x_client w1 = x_client w ∧ x_data w1 = x_data w ∧
    x_last_cache_update w1 = x_last_cache_update w ∧ x_clock w1 = clock_checked w ∧
    peer_handler (E:=E) contended q w = (r ← fetch_peers q; answer_fetched contended r) w1.
Proof.
  intros Hf. destruct (stale_check (E:=E) w) as (w1 & Hs & Hc & Hd & Hl & _ & Hk). exists w1. split_and!; [done..|].
  unfold peer_handler. by rewrite (bind_ret _ _ _ _ _ Hs), bool_decide_eq_true_2.
Qed.

(** While the cached list is not empty and at most 30 seconds old,
    a request is answered with it, without asking the database: for every request,
    so also for one about another network than the list is about. *)
Lemma cached_for_every_query {E} contended q w :
  fresh w → peer_handler (E:=E) contended q w = (Ret (JsonPeers true (x_data w)), tick_clock w).
Proof. apply handler_fresh. Qed.

(** C22 (refinement). A request about the main or the test network is always answered
    with a list: the cached one while it is fresh, which is then kept with its time,
    and otherwise the list of the network's peers. That one replaces the cached list,
    and the time of the cache becomes the clock's at that moment, unless another
    request of the worker holds the cache: then the cached list and its time stay. *)
Theorem peer_handler_refines {E} contended q w :
  network_from_string (q_network q) ≠ Dev →
  up (x_client w) → servable (view (x_client w)) → dotless (view (x_client w)) →
  runs (peer_handler (E:=E) contended q) w (λ r w', ∃ peers,
    r = JsonPeers true peers ∧ up (x_client w') ∧ view (x_client w') = view (x_client w) ∧
    if decide (fresh w)
    then peers = x_data w ∧ x_data w' = x_data w ∧ x_last_cache_update w' = x_last_cache_update w
    else peers_listed (view (x_client w)) (network_from_string (q_network q)) peers ∧
         if contended
         then x_data w' = x_data w ∧ x_last_cache_update w' = x_last_cache_update w
         else x_data w' = peers ∧ x_last_cache_update w' = (clock_now (clock_checked w)).1).
Proof.
  intros Hn Hup Hst Hd. case_decide as Hf.
  { eapply runs_of; [by apply handler_fresh|]. by exists (x_data w). }
  destruct (handler_stale (E:=E) contended q w Hf) as (w1 & Hw1 & Hdata & Hlast & Hclock & Heq).
  unfold runs. rewrite Heq. fold (runs (r ← fetch_peers (E:=E) q; answer_fetched contended r) w1).
  apply runs_bind, runs_returning. rewrite <- Hw1 in *. eapply runs_mono; [by apply get_peers_runs|].
  intros peers w2 [(Hup2 & Hv2 & Hc2 & Hd2 & Hl2) Hp]. unfold answer_fetched. destruct contended.
  - apply runs_ret. exists peers. split_and!; try done; by rewrite ?Hd2, ?Hl2.
  - apply runs_bind, runs_now. apply runs_bind. eapply runs_of; [done|]. apply runs_ret.
    exists peers. split_and!; try done. cbn. by rewrite <- Hclock, <- Hc2.
Qed.

(** C40 (error). A request about the development network that the cache does not
    answer always panics: [get_peers] reaches its [unreachable!]. *)
Theorem dev_query_panics {E} contended q w :
  network_from_string (q_network q) = Dev → ¬ fresh w →
  (peer_handler (E:=E) contended q w).1 = Panic.
Proof.
  intros Hq Hf. destruct (handler_stale (E:=E) contended q w Hf) as (w1 & _ & _ & _ & _ & ->).
  unfold fetch_peers. by rewrite Hq.
Qed.

(** *** The status of one peer *)
Lemma run_status_peer {E} st w0 id v sv w (Q : Peer → _ → Prop) :
  servable st → serving st w0 w →
  (∀ w', serving st w0 w' → Q (peer_of st 0 id (v, sv)) w') →
  runs (E:=E) (status_peer id v sv) w Q.
Proof.
  intros Hst Hs HQ. unfold status_peer, get_peer_info. apply runs_bind.
  read_details id Hs. apply runs_ret. rewrite (unwrap_or_ok (A:=N)), Hseen.
  change (default 0%N _) with (seen_of st id). rewrite last_seen_in_range by apply Hst.
  apply runs_bind, runs_ret, runs_ret. rewrite Hcountry, Hcity, Hfull.
  replace {| p_id := _ |} with (peer_of st 0 id (v, sv)); [by apply HQ|].
  unfold peer_of. by rewrite Hpos.
Qed.

Lemma dom_key st (k : key) : key_string k ∈ dom st ↔ has st k.
Proof. apply elem_of_dom. Qed.

Lemma run_probe {E A} st w0 (k : key) w (yes no : comp (Service R C) E A) Q :
  serving st w0 w → glob_plain (key_string k) →
  (∀ w', serving st w0 w' → has st k → runs yes w' Q) →
  (∀ w', serving st w0 w' → ¬ has st k → runs no w' Q) →
  runs (keys ← con_keys (key_string k); if decide (unwrap_or [] keys ≠ []) then yes else no) w Q.
Proof.
  intros Hs Hg Hyes Hno. apply runs_bind. eapply read_keys_literal; [done..|]. intros w' Hs'.
  cbn [unwrap_or]. destruct (decide (key_string k ∈ dom st)) as [Hd|Hd].
  - rewrite decide_True by done. apply Hyes; [done|]. by apply dom_key.
  - rewrite decide_False by (by intros []). apply Hno; [done|]. by rewrite <- dom_key.
Qed.

Lemma glob_plain_app p s : glob_plain p → glob_plain s → glob_plain (p +:+ s).
Proof. unfold glob_plain. rewrite !Str.has_char_app. intros (-> & -> & -> & ->) (-> & -> & -> & ->). done. Qed.

(** C23 (refinement). For a peer id without pattern characters the status request
    always gets an answer, and it is the right one: in the map exactly if the
    peer is online, in either family, or unknown, with what is recorded for it. *)
Theorem peer_in_map_refines {E} id w :
  glob_plain id → up (x_client w) → servable (view (x_client w)) →
  runs (peer_in_map (E:=E) id) w (λ r w',
    serving (view (x_client w)) w w' ∧
    r = JsonPeerStatus (status_response (view (x_client w)) id)).
Proof.
  intros Hg Hup Hst. pose proof (serving_start w Hup) as Hs. unfold peer_in_map.
  set (st := view (x_client w)) in *. unfold status_response.
  apply (run_probe st w (KOnline id)); [done|by apply (glob_plain_app "peer.online.")|..].
  { intros w1 Hs1 [v Hv]%(online_text _ Hst). apply runs_bind. eapply read_string; [done|].
    intros r w2 Hs2 Hr. change (ok r = text_at st (KOnline id)) in Hr.
    rewrite (unwrap_or_ok "" r), Hr, Hv. cbv zeta. apply runs_bind. eapply run_status_peer; [done..|].
    intros w3 Hs3. apply runs_ret. split; [done|]. unfold status_of. by rewrite Hv. }
  intros w1 Hs1 Hn1.
  apply (run_probe st w (KOnline2 id)); [done|by apply (glob_plain_app "peer.online2.")|..].
  { intros w2 Hs2 [v Hv]%(online2_text _ Hst). apply runs_bind. eapply read_string; [done|].
    intros r w3 Hs3 Hr. change (ok r = text_at st (KOnline2 id)) in Hr.
    rewrite (unwrap_or_ok "" r), Hr, Hv. cbv zeta. apply runs_bind. eapply run_status_peer; [done..|].
    intros w4 Hs4. apply runs_ret. split; [done|]. unfold status_of. rewrite Hv.
    destruct (text_at st (KOnline id)) eqn:E1; [|done]. destruct Hn1. apply has_text. by rewrite E1. }
  intros w2 Hs2 Hn2. rewrite (status_none st id) by done.
  apply (run_probe st w (KUnknown id)); [done|by apply (glob_plain_app "peer.unknown.")|..].
  - intros w3 Hs3 Hn3. apply runs_bind. eapply run_status_peer; [done..|].
    intros w4 Hs4. apply runs_ret. by rewrite decide_True.
  - intros w3 Hs3 Hn3. apply runs_ret. by rewrite decide_False.
Qed.

(** The id of a status request is used as a pattern: the id [*] is
    reported in the map, as a peer without version, as soon as any peer is online. *)
Lemma star_is_in_map {E} id w :
  up (x_client w) → servable (view (x_client w)) →
  has (view (x_client w)) (KOnline id) → ¬ has (view (x_client w)) (KOnline "*") →
  runs (peer_in_map (E:=E) "*") w (λ r _, ∃ p,
    r = JsonPeerStatus {| s_peer_id := "*"; s_in_map := true; s_info := Some p |} ∧ p_version p = "").
Proof.
  intros Hup Hst Hid Hstar. pose proof (serving_start w Hup) as Hs. unfold peer_in_map.
  set (st := view (x_client w)) in *. apply runs_bind.
  change ("peer.online." +:+ "*") with ("peer.online." +:+ "*" +:+ "").
  eapply read_keys_star; [done|by repeat split..|]. intros l w1 Hs1 _ Hl. cbn [unwrap_or].
  assert (key_string (KOnline id) ∈ l) as Hin.
  { apply Hl. rewrite dom_key. split; [done|]. exists id. by rewrite Str.app_nil_r. }
  rewrite decide_True by (by intros ->; apply elem_of_nil in Hin).
  apply runs_bind. eapply read_string; [done|]. intros r w2 Hs2 Hr.
  change (ok r = text_at st (KOnline "*")) in Hr.
  destruct (text_at st (KOnline "*")) eqn:E1; [by destruct Hstar; apply has_text; rewrite E1|].
  rewrite (unwrap_or_ok "" r), Hr. cbv zeta. apply runs_bind. eapply run_status_peer; [done..|].
  intros w3 Hs3. apply runs_ret. by eexists.
Qed.

(** The health request answers with the time marci recorded last,
    or with an error when there is none or it is not a number. *)
Lemma last_update_total {E} w :
  up (x_client w) →
  runs (last_update_handler (E:=E)) w (λ r w',
    serving (view (x_client w)) w w' ∧
    r = match text_at (view (x_client w)) KLastUpdate ≫= from_u64 with
        | Some t => JsonStatus {| last_update := t |}
        | None => InternalServerError
        end).
Proof.
  intros Hup. pose proof (serving_start w Hup) as Hs. unfold last_update_handler. apply runs_bind.
  assert (runs (E:=redis_error R) (con_get_u64 last_update_key) w (λ r w',
    serving (view (x_client w)) w w' ∧
    ok r = text_at (view (x_client w)) KLastUpdate ≫= from_u64)) as Hr
    by (eapply read_u64; [exact Hs|done]).
  apply runs_inv in Hr as (r & w1 & Heq & Hs1 & Hr).
  unfold runs, returning, get_last_update. erewrite bind_ret by exact Heq.
  rewrite <- Hr. by destruct r.
Qed.
End Rules.
