(* ===== verification/ExposedReads.v ===== *)
(** * ExposedReads: exposed only sends GET and KEYS

    Whatever relation between states of the database these two commands respect, the
    handlers respect: once for a server that follows its laws, which they leave as it
    was (ExposedServer.v), and once for a recording of its answers (ExposedFetch.v). *)
From S2P Require Import Prelude RustStd RustNet Types Redis Services Keys Exposed.

Section Within.
Context {R C : Type} `{Redis R} `{Clock C} `{TextLib}.
Context (P : R → R → Prop) `{!PreOrder P}.
Context (get_within : ∀ k s, P s (redis_get k s).2).
Context (keys_within : ∀ pat s, P s (redis_keys pat s).2).
Implicit Types (w : Service R C).

(** However the code ends, it has moved the database only by [P]. *)
Definition within {E A} (c : comp (Service R C) E A) : Prop :=
  ∀ w, P (x_client w) (x_client (c w).2).

(** Code that leaves the database alone. *)
Lemma within_same {E A} (c : comp (Service R C) E A) :
  (∀ w, x_client (c w).2 = x_client w) → within c.
Proof. intros Hc w. by rewrite Hc. Qed.

Lemma within_state {E A} (o : outcome E A) : within (λ w, (o, w)).
Proof. by apply within_same. Qed.

Lemma within_bind {E A B} (c : comp (Service R C) E A) (k : A → comp (Service R C) E B) :
  within c → (∀ a, within (k a)) → within (c ≫= k).
Proof.
  intros Hc Hk w. specialize (Hc w). unfold mbind, comp_bind.
  destruct (c w) as [[a|e|] w1]; cbn in *; [|done..]. etrans; [exact Hc|apply Hk].
Qed.

Lemma within_returning {E E' A} (c : comp (Service R C) E A) :
  within c → within (returning (E':=E') c).
Proof. intros Hc w. specialize (Hc w). unfold returning. by destruct (c w) as [[a|e|] w1]. Qed.

Lemma within_for_collect {E A B} (l : list A) (body : A → comp (Service R C) E (option B)) :
  (∀ x, within (body x)) → within (for_collect l body).
Proof.
  intros Hb. induction l as [|x l IH]; [apply within_state|]. cbn [for_collect].
  apply within_bind; [done|]. intros y. apply within_bind; [done|]. intros rest. apply within_state.
Qed.

Lemma within_get {E A} (convert : option string → option A) k :
  within (E:=E) (con_get_with (R:=R) (W:=Service R C) convert k).
Proof. apply within_bind; [|intros; apply within_state]. intros w. apply get_within. Qed.

Lemma within_keys {E} pat : within (E:=E) (con_keys (R:=R) (W:=Service R C) pat).
Proof. intros w. apply keys_within. Qed.

(** Goes through the handlers statement by statement. *)
Ltac reading :=
  cbv zeta; repeat first
    [ apply within_same; done | apply within_get | apply within_keys
    | apply within_returning | apply within_for_collect; intros [? ?] | apply within_bind; [|intros ?]
    | match goal with
      | |- within (match ?x with _ => _ end) => destruct x
      | |- within (if decide ?Q then _ else _) => destruct (decide Q)
      | |- within (unwrap _) => unfold unwrap
      | |- within (question _ _) => unfold question
      | |- within (ask _) => unfold ask
      | |- within (of_outcome _) => unfold of_outcome
      end ].

Lemma within_position {E} id : within (get_position (R:=R) (C:=C) (E:=E) id).
Proof. unfold get_position. reading. Qed.

Lemma within_status_peer {E} id v sv : within (status_peer (R:=R) (C:=C) (E:=E) id v sv).
Proof. unfold status_peer, get_peer_info. reading; apply within_position. Qed.

Lemma within_in_map {E} id : within (peer_in_map (R:=R) (C:=C) (E:=E) id).
Proof. unfold peer_in_map. repeat first [progress reading | apply within_status_peer]. Qed.

Lemma within_entry on on2 unk x : within (peer_entry (R:=R) (C:=C) on on2 unk x).
Proof. unfold peer_entry. reading; apply within_position. Qed.

Lemma within_get_peers n a b : within (get_peers (R:=R) (C:=C) n a b).
Proof. unfold get_peers. reading; apply within_entry. Qed.

Lemma within_fetch {E} q : within (fetch_peers (R:=R) (C:=C) (E:=E) q).
Proof. apply within_returning, within_get_peers. Qed.

Lemma within_peer_handler {E} contended q : within (peer_handler (R:=R) (C:=C) (E:=E) contended q).
Proof.
  unfold peer_handler, cache_is_stale, answer_fetched, answer_cached.
  reading; apply within_entry.
Qed.

Lemma within_last_update {E} : within (last_update_handler (R:=R) (C:=C) (E:=E)).
Proof. unfold last_update_handler, get_last_update. reading. Qed.
End Within.
