(* ===== verification/ExposedFetch.v ===== *)
(** * ExposedFetch: the fetch of a list, one command at a time

    [get_peers] waits for the database at every command, and what it reads may change
    in between. Here the same code runs on a recording of the answers it has had, up
    to the command it waits for next; and what it returns is related to what the
    database held at each of its commands. *)
From S2P Require Import Prelude RustStd RustFloat RustNet Types Redis Services Keys MarciInv.
From S2P Require Import Exposed ExposedSpec ExposedReads.
From Stdlib Require Import Ascii.

(** ** Recordings *)
Section Tape.
Context {R : Type} `{Redis R}.

(** The commands that read; the fetch sends no others. *)
Inductive command := CmdGet (k : string) | CmdKeys (pat : string) | CmdOther.

(** A command with its answer. *)
Inductive exchange :=
| Got (k : string) (r : result (option string) (redis_error R))
| Listed (pat : string) (r : result (list string) (redis_error R)).

Definition asks (e : exchange) : command :=
  match e with Got k _ => CmdGet k | Listed pat _ => CmdKeys pat end.

(** The answers that have not been used yet; and the first command without one. *)
Record tape := Tape { t_log : list exchange; t_asked : option command }.

Definition refuse {A} (c : command) (t : tape) : result A (redis_error R) * tape :=
  (Err type_error, Tape (t_log t) (Some (default c (t_asked t)))).

(** The commands on a recording; what follows the first one without an answer does
    not count. *)
Definition tape_get (k : string) (t : tape) : result (option string) (redis_error R) * tape :=
  match t with
  | Tape (Got k' r :: log) None => if decide (k = k') then (r, Tape log None) else refuse (CmdGet k) t
  | _ => refuse (CmdGet k) t
  end.
Definition tape_keys (pat : string) (t : tape) : result (list string) (redis_error R) * tape :=
  match t with
  | Tape (Listed pat' r :: log) None =>
      if decide (pat = pat') then (r, Tape log None) else refuse (CmdKeys pat) t
  | _ => refuse (CmdKeys pat) t
  end.

#[local] Instance tape_redis : Redis tape := {|
  redis_error := redis_error R;
  type_error := type_error;
  redis_get := tape_get;
  redis_set _ _ := refuse CmdOther;
  redis_set_ex _ _ _ := refuse CmdOther;
  redis_expire _ _ := refuse CmdOther;
  redis_del _ := refuse CmdOther;
  redis_sadd _ _ := refuse CmdOther;
  redis_scard _ := refuse CmdOther;
  redis_smembers _ := refuse CmdOther;
  redis_keys := tape_keys;
  arg_u64 := arg_u64;
  from_u64 := from_u64;
  arg_bool := arg_bool;
  from_bool := from_bool;
|}.

(** The server answers a command. *)
Definition perform (c : command) (s : R) : option (exchange * R) :=
  match c with
  | CmdGet k => let '(r, s') := redis_get k s in Some (Got k r, s')
  | CmdKeys pat => let '(r, s') := redis_keys pat s in Some (Listed pat r, s')
  | CmdOther => None
  end.
End Tape.
Arguments exchange R {_}.
Arguments tape R {_}.
#[local] Existing Instance tape_redis.

(** Where a fetch is after some answers: it waits for another one, or has ended. *)
Inductive fetch_state (R : Type) `{Redis R} :=
| Awaits (c : command)
| Done (o : outcome Empty_set (result (list Peer) (redis_error R))).
Arguments Awaits {R _} c.
Arguments Done {R _} o.

Section Resume.
Context {R C : Type} `{Redis R} `{Clock C} `{TextLib}.

Definition on_tape (log : list (exchange R)) (clock : C) : Service (tape R) C :=
  MkService (Tape log None) clock [] 0.

Definition resume_fetch (q : QueryParams) (log : list (exchange R)) (clock : C) : fetch_state R :=
  let '(o, x) := fetch_peers (R:=tape R) (E:=Empty_set) q (on_tape log clock) in
  match t_asked (x_client x) with
  | Some c => Awaits (R:=R) c
  | None => Done (R:=R) o
  end.
End Resume.

(** ** What a fetch has seen *)
Section Spec.
Context {R : Type} `{Redis R} `{TextLib}.
Implicit Types (st : store) (id : string) (rest : list store).

(** Version and short version of a peer, when the online families were listed at two
    moments and the unknown one at a third: the version was read later. *)
Definition status_seen st1 st2 st3 rest id (v : string * string) : Prop :=
  (has st1 (KOnline id) ∧ ∃ st, st ∈ rest ∧ text_at st (KOnline id) = Some v.1 ∧ v.2 = short_version v.1) ∨
  (¬ has st1 (KOnline id) ∧ has st2 (KOnline2 id) ∧
     ∃ st, st ∈ rest ∧ text_at st (KOnline2 id) = Some v.1 ∧ v.2 = short_version v.1) ∨
  (¬ has st1 (KOnline id) ∧ ¬ has st2 (KOnline2 id) ∧ has st3 (KUnknown id) ∧ v = ("", "Unknown")).

(** The entry about a peer, if it has one: each field is what was recorded at one
    of the later moments. *)
Definition entry_seen st1 st2 st3 rest (entry : nat * string) (o : option Peer) : Prop :=
  let id := entry.2 in
  match o with
  | None => ¬ has st1 (KOnline id) ∧ ¬ has st2 (KOnline2 id) ∧ ¬ has st3 (KUnknown id)
  | Some p =>
      p_id p = Int.as_i32 (N.of_nat entry.1) ∧
      status_seen st1 st2 st3 rest id (p_version p, p_version_short p) ∧
      (∃ st, st ∈ rest ∧ p_country p = text_at st (KCountry id)) ∧
      (∃ st, st ∈ rest ∧ p_city p = text_at st (KCity id)) ∧
      (∃ st, st ∈ rest ∧ (p_latitude p, p_longitude p) = position_of st id) ∧
      (∃ st, st ∈ rest ∧ p_node_type p = node_type_from_full (text_at st (KFull id) ≫= from_bool)) ∧
      (∃ st, st ∈ rest ∧ p_last_seen p = Some (seen_of st id))
  end.

(** The list, when the database held [moments] at the commands of the fetch: the peers
    of the network at the first, each once and with its entry. *)
Definition observed (moments : list store) (n : CKBNetworkType) (peers : list Peer) : Prop :=
  ∃ st0 st1 st2 st3 rest ids entries,
    moments = st0 :: st1 :: st2 :: st3 :: rest ∧
    NoDup ids ∧ (∀ id, id ∈ ids ↔ has st0 (KNetworkQuick id n)) ∧
    Forall2 (entry_seen st1 st2 st3 rest) (imap pair ids) entries ∧ peers = omap (λ o, o) entries.

(** A record of an online peer was there when its family was listed, and gone at a
    later command of the fetch. *)
Definition vanished (moments : list store) : Prop :=
  ∃ st0 st1 st2 st3 rest id st,
    moments = st0 :: st1 :: st2 :: st3 :: rest ∧ st ∈ rest ∧
    ((has st1 (KOnline id) ∧ ¬ has st (KOnline id)) ∨ (has st2 (KOnline2 id) ∧ ¬ has st (KOnline2 id))).
End Spec.

(** If the database did not change during the fetch, that is its list. *)
Lemma observed_still `{Redis R} `{TextLib} st moments n peers :
  Forall (λ st', st' = st) moments → observed moments n peers → peers_listed st n peers.
Proof.
  intros Hst (st0 & st1 & st2 & st3 & rest & ids & entries & -> & Hnd & Hids & Hall & ->).
  rewrite !Forall_cons in Hst. destruct Hst as (-> & -> & -> & -> & Hst).
  assert (∀ P : store → Prop, (∃ st', st' ∈ rest ∧ P st') → P st) as Hex.
  { intros P (st' & Hin & HP). rewrite Forall_forall in Hst. by rewrite <- (Hst _ Hin). }
  exists ids. split_and!; [done..|]. clear Hnd Hids Hst. revert Hall. generalize (imap pair ids) as l. intros l.
  induction 1 as [|[i id] o l entries Ho _ IH]; [done|]. cbn. rewrite IH. clear IH.
  replace (listed st (i, id)) with o; [by destruct o|]. unfold listed. cbn [fst snd].
  destruct o as [p|]; cbn [entry_seen fst snd] in Ho.
  - destruct Ho as (Hi & Hs & Hco%Hex & Hci%Hex & Hpos%Hex & Hfull%Hex & Hseen%Hex).
    assert (status_of st id = Some (p_version p, p_version_short p)) as ->.
    { unfold status_of. destruct Hs as [(_ & (Hv & Hsv)%Hex)|[(Hn & _ & (Hv & Hsv)%Hex)|(Hn & Hn2 & Hu & [= -> ->])]]; cbn in *.
      - by rewrite Hv, Hsv.
      - destruct (text_at st (KOnline id)) eqn:E; [|by rewrite Hv, Hsv]. destruct Hn. apply has_text. by rewrite E.
      - fold (status_of st id). rewrite status_none by done. by rewrite decide_True. }
    cbn. f_equal. destruct p. unfold peer_of. cbn in *. rewrite <- Hpos. cbn. congruence.
  - destruct Ho as (H1' & H2' & H3'). rewrite status_none by done. by rewrite decide_False.
Qed.

(** ** Recordings are not continued after the first missing answer *)
Section StillAsks.
Context {R : Type} `{Redis R}.
Implicit Types (t : tape R).

Definition still_asks t t' : Prop := ∀ c, t_asked t = Some c → t_asked t' = Some c.
#[export] Instance still_asks_preorder : PreOrder still_asks.
Proof. split; [by intros t c|]. intros t1 t2 t3 H12 H23 c Hc. by apply H23, H12. Qed.

Lemma get_still_asks k t : still_asks t (redis_get k t).2.
Proof.
  intros c Hc. destruct t as [log asked]. cbn in Hc. subst asked. by destruct log as [|[] log].
Qed.
Lemma keys_still_asks pat t : still_asks t (redis_keys pat t).2.
Proof.
  intros c Hc. destruct t as [log asked]. cbn in Hc. subst asked. by destruct log as [|[] log].
Qed.

End StillAsks.
#[export] Hint Resolve get_still_asks keys_still_asks : core.

Ltac reads_on :=
  intros; repeat first
    [ by apply (within_same still_asks)
    | by apply (within_get still_asks) | by apply (within_keys still_asks)
    | by apply (within_position (H:=tape_redis) still_asks)
    | by apply (within_entry (H:=tape_redis) still_asks)
    | apply (within_for_collect still_asks); intros [? ?]
    | apply (within_bind still_asks); [|intros ?]
    | match goal with
      | |- within _ (match ?x with _ => _ end) => destruct x
      | |- within _ (unwrap _) => unfold unwrap
      | |- within _ (question _ _) => unfold question
      | |- within _ (ask _) => unfold ask
      | |- within _ (of_outcome _) => unfold of_outcome
      end ].

(** ** The code on a recording *)

(** A database whose list can be served. *)
Definition presentable `{RedisLaws R} `{TextLaws} (s : R) : Prop :=
  up s ∧ servable (view s) ∧ dotless (view s).

Section Logic.
Context {R C : Type} `{RedisLaws R} `{Clock C} `{TextLaws}.
Implicit Types (log : list (exchange R)) (sts rest : list store) (t : tape R).

(** The server gave this answer when it held [st]. *)
Definition answered (e : exchange R) (st : store) : Prop :=
  ∃ s s', presentable s ∧ view s = st ∧ perform (asks e) s = Some (e, s').
Definition recorded log sts : Prop := Forall2 answered log sts.

(** Code that starts on a recording of answers the server gave while it held [sts]:
    either it waits for another answer, or it ends, with [Q] of its outcome and of the
    moments whose answers it did not use. *)
Definition paced {E A} (c : comp (Service (tape R) C) E A) sts (Q : outcome E A → list store → Prop) : Prop :=
  ∀ x log, x_client x = Tape log None → recorded log sts →
    is_Some (t_asked (x_client (c x).2)) ∨
    ∃ log' sts', x_client (c x).2 = Tape log' None ∧ recorded log' sts' ∧ Q (c x).1 sts'.

Lemma paced_mono {E A} (c : comp (Service (tape R) C) E A) sts (Q Q' : outcome E A → list store → Prop) :
  paced c sts Q → (∀ o sts', Q o sts' → Q' o sts') → paced c sts Q'.
Proof. intros Hc HQ x log Hx Hl. destruct (Hc x log Hx Hl) as [?|(? & ? & ? & ? & ?)]; eauto 8. Qed.

Lemma paced_state {E A} (o : outcome E A) sts (Q : outcome E A → list store → Prop) :
  Q o sts → paced (λ w, (o, w)) sts Q.
Proof. intros HQ x log Hx Hl. right. eauto. Qed.

Lemma paced_ret {E A} (a : A) sts (Q : outcome E A → list store → Prop) :
  Q (Ret a) sts → paced (mret a) sts Q.
Proof. apply paced_state. Qed.

Lemma paced_bind {E A B} (c : comp (Service (tape R) C) E A) (k : A → comp (Service (tape R) C) E B) sts Q :
  (∀ a, within still_asks (k a)) →
  paced c sts (λ o sts', match o with
                         | Ret a => paced (k a) sts' Q
                         | Raise e => Q (Raise e) sts'
                         | Panic => Q Panic sts'
                         end) →
  paced (c ≫= k) sts Q.
Proof.
  intros Hk Hc x log Hx Hl. unfold mbind, comp_bind.
  destruct (Hc x log Hx Hl) as [[cmd Hcmd]|(log' & sts' & Hx' & Hl' & HQ)].
  - left. destruct (c x) as [[a|e|] x']; cbn in *; [|by eexists..]. exists cmd. by apply Hk.
  - destruct (c x) as [[a|e|] x']; cbn in *; [by eapply HQ|right; eauto..].
Qed.

Lemma paced_returning {E E' A} (c : comp (Service (tape R) C) E A) sts (Q : outcome E' (result A E) → list store → Prop) :
  paced c sts (λ o sts', Q (match o with Ret a => Ret (Ok a) | Raise e => Ret (Err e) | Panic => Panic end) sts') →
  paced (returning c) sts Q.
Proof.
  intros Hc x log Hx Hl. specialize (Hc x log Hx Hl). unfold returning.
  by destruct (c x) as [[a|e|] x'].
Qed.

(** *** Commands *)
Lemma paced_get {E A} (convert : option string → option A) k sts (Q : outcome E (result A (redis_error R)) → list store → Prop) :
  (∀ st sts' r, sts = st :: sts' → servable st → dotless st →
     ok r = match st !! k with
            | None => convert None
            | Some (Entry (RStr v) _) => convert (Some v)
            | Some (Entry (RSet _) _) => None
            end → Q (Ret r) sts') →
  paced (con_get_with (R:=tape R) (W:=Service (tape R) C) convert k) sts Q.
Proof.
  intros HQ x log Hx Hl. unfold con_get_with, call. erewrite bind_ret by reflexivity.
  cbn [lget lset client_lens]. rewrite Hx. cbn [redis_get tape_redis].
  destruct Hl as [|e st log sts (s & s' & (Hup & Hst & Hd) & <- & He) Hl]; [left; cbn; eauto|].
  destruct e as [k' r|pat r]; [|left; cbn; eauto]. cbn [tape_get].
  destruct (decide (k = k')) as [<-|]; [|left; cbn; eauto]. right. cbn in *.
  destruct (get_law k s Hup) as (r0 & s0 & Hget & _ & _ & Hr). rewrite Hget in He. injection He as -> _.
  exists log, sts. split_and!; [done..|]. eapply HQ; [done..|].
  destruct (view s !! k) as [[[v|l] ttl]|]; [|destruct Hr as [err Hr]|]; rewrite Hr; [|done|]; cbn;
    [destruct (convert (Some v))|destruct (convert None)]; reflexivity.
Qed.

Lemma paced_keys_star {E} before after sts (Q : outcome E (result (list string) (redis_error R)) → list store → Prop) :
  glob_plain before → glob_plain after →
  (∀ st sts' l, sts = st :: sts' → servable st → dotless st → NoDup l →
     (∀ k, k ∈ l ↔ k ∈ dom st ∧ ∃ x, k = before +:+ x +:+ after) → Q (Ret (Ok l)) sts') →
  paced (con_keys (R:=tape R) (W:=Service (tape R) C) (before +:+ "*" +:+ after)) sts Q.
Proof.
  intros Hb Ha HQ x log Hx Hl. unfold con_keys, call. cbn [lget lset client_lens]. rewrite Hx.
  cbn [redis_keys tape_redis].
  destruct Hl as [|e st log sts (s & s' & (Hup & Hst & Hd) & <- & He) Hl]; [left; cbn; eauto|].
  destruct e as [k' r|pat r]; [left; cbn; eauto|]. cbn [tape_keys].
  destruct (decide _) as [<-|]; [|left; cbn; eauto]. right.
  destruct (keys_star_law before after Hb Ha s Hup) as (r0 & s0 & Hkeys & _ & _ & l & -> & Hnd & Hin).
  cbn [asks perform] in He. rewrite Hkeys in He. injection He as <- _.
  exists log, sts. split_and!; [done..|]. by eapply HQ.
Qed.

(** *** The statements of the fetch *)
Lemma paced_string {E} k sts (Q : outcome E (result string (redis_error R)) → list store → Prop) :
  (∀ st sts' r, sts = st :: sts' → servable st → dotless st → ok r = str_at st k → Q (Ret r) sts') →
  paced (con_get_string (R:=tape R) k) sts Q.
Proof.
  intros HQ. apply paced_get. intros st sts' r Hs Hst Hd Hr. apply (HQ st); [done..|].
  rewrite Hr. unfold str_at. by destruct (_ !! k) as [[[] ?]|].
Qed.

Lemma paced_option_string {E} k sts (Q : outcome E (result (option string) (redis_error R)) → list store → Prop) :
  (∀ st sts' r, sts = st :: sts' → unwrap_or None r = str_at st k → Q (Ret r) sts') →
  paced (con_get_option_string (R:=tape R) k) sts Q.
Proof.
  intros HQ. apply paced_get. intros st sts' r Hs _ _ Hr. apply (HQ st); [done..|].
  unfold str_at. destruct (_ !! k) as [[[] ?]|], r; cbn in *; congruence.
Qed.

Lemma paced_option_bool {E} k sts (Q : outcome E (result (option bool) (redis_error R)) → list store → Prop) :
  (∀ st sts' r, sts = st :: sts' → unwrap_or None r = str_at st k ≫= from_bool → Q (Ret r) sts') →
  paced (con_get_option_bool (R:=tape R) k) sts Q.
Proof.
  intros HQ. apply paced_get. intros st sts' r Hs _ _ Hr. apply (HQ st); [done..|].
  unfold str_at. cbn in Hr. destruct (_ !! k) as [[[v|] ?]|]; cbn in *.
  - destruct (from_bool v), r; cbn in *; congruence.
  - destruct r; cbn in *; congruence.
  - destruct r; cbn in *; congruence.
Qed.

Lemma paced_u64 {E} k sts (Q : outcome E (result N (redis_error R)) → list store → Prop) :
  (∀ st sts' r, sts = st :: sts' → servable st → ok r = str_at st k ≫= from_u64 → Q (Ret r) sts') →
  paced (con_get_u64 (R:=tape R) k) sts Q.
Proof.
  intros HQ. apply paced_get. intros st sts' r Hs Hst _ Hr. apply (HQ st); [done..|].
  rewrite Hr. unfold str_at. by destruct (_ !! k) as [[[] ?]|].
Qed.

Lemma paced_position {E} id sts (Q : outcome E (option f64 * option f64) → list store → Prop) :
  (∀ st sts', sts = st :: sts' → Q (Ret (position_of st id)) sts') →
  paced (get_position (R:=tape R) id) sts Q.
Proof.
  intros HQ. unfold get_position. apply paced_bind; [reads_on|]. apply paced_string.
  intros st sts' r Hs _ _ Hr. apply paced_ret.
  replace (match r with Ok loc => _ | Err _ => _ end) with (position_of st id); [by apply HQ|].
  assert (ok r = text_at st (KPos id)) as Ht by exact Hr.
  unfold position_of. rewrite <- Ht. by destruct r.
Qed.

Section Entries.
Context (st1 st2 st3 : store) (rest : list store) (on on2 unk : list string).
Context (on_listed : ∀ id, id ∈ on ↔ has st1 (KOnline id)).
Context (on2_listed : ∀ id, id ∈ on2 ↔ has st2 (KOnline2 id)).
Context (unk_listed : ∀ id, id ∈ unk ↔ has st3 (KUnknown id)).

(** A listed record of an online peer was gone later. *)
Definition gone : Prop :=
  ∃ id st, st ∈ rest ∧
    ((has st1 (KOnline id) ∧ ¬ has st (KOnline id)) ∨ (has st2 (KOnline2 id) ∧ ¬ has st (KOnline2 id))).

Lemma paced_version id sts (Q : outcome (redis_error R) string → list store → Prop) :
  id ∈ on ∨ id ∈ on2 ∨ id ∈ unk → sts ⊆ rest →
  (∀ v sts', sts' ⊆ rest →
     status_seen st1 st2 st3 rest id
       (v, if decide ((id ∉ on) ∧ (id ∉ on2)) then "Unknown" else short_version v) → Q (Ret v) sts') →
  (∀ e sts', sts' ⊆ rest → gone → Q (Raise e) sts') →
  paced (if decide (id ∈ on) then ask (con_get_string (R:=tape R) ("peer.online." +:+ id))
         else if decide (id ∈ on2) then ask (con_get_string ("peer.online2." +:+ id))
         else mret "") sts Q.
Proof.
  intros Hsome Hsub HQ HE. unfold status_seen in HQ.
  destruct (decide (id ∈ on)) as [Hc1|Hc1]; [|destruct (decide (id ∈ on2)) as [Hc2|Hc2]].
  - unfold ask. apply paced_bind; [reads_on|]. apply paced_string. intros st sts' r -> Hst _ Hr.
    change (ok r = text_at st (KOnline id)) in Hr. assert (sts' ⊆ rest) by set_solver.
    assert (st ∈ rest) by set_solver.  destruct r as [v|e]; cbn in Hr.
    + apply paced_ret, HQ; [done|]. rewrite decide_False by tauto. left. split; [by apply on_listed|by exists st].
    + apply paced_state, HE; [done|]. exists id, st. split; [done|]. left. split; [by apply on_listed|].
      intros [v Hv]%(online_text _ Hst). congruence.
  - unfold ask. apply paced_bind; [reads_on|]. apply paced_string. intros st sts' r -> Hst _ Hr.
    change (ok r = text_at st (KOnline2 id)) in Hr. assert (sts' ⊆ rest) by set_solver.
    assert (st ∈ rest) by set_solver.  destruct r as [v|e]; cbn in Hr.
    + apply paced_ret, HQ; [done|]. rewrite decide_False by tauto. right. left. rewrite <- on_listed, <- on2_listed.
      split_and!; [done..|by exists st].
    + apply paced_state, HE; [done|]. exists id, st. split; [done|]. right. split; [by apply on2_listed|].
      intros [v Hv]%(online2_text _ Hst). congruence.
  - apply paced_ret, HQ; [done|]. rewrite decide_True by done. right. right.
    rewrite <- on_listed, <- on2_listed, <- unk_listed. tauto.
Qed.

Lemma paced_entry i id sts :
  sts ⊆ rest →
  paced (peer_entry (R:=tape R) on on2 unk (i, id)) sts (λ o sts', sts' ⊆ rest ∧
    match o with
    | Ret r => entry_seen st1 st2 st3 rest (i, id) r
    | Raise _ => gone
    | Panic => False
    end).
Proof.
  intros Hsub. unfold peer_entry. case_decide as Hnone.
  { apply paced_ret. split; [done|]. cbn. rewrite <- on_listed, <- on2_listed, <- unk_listed. tauto. }
  apply paced_bind; [reads_on|]. apply paced_version; [|done| |done].
  { destruct (decide (id ∈ on)); [by left|]. destruct (decide (id ∈ on2)); [by auto|].
    destruct (decide (id ∈ unk)); [by auto|tauto]. }
  clear sts Hsub. intros v sts Hsub Hv. cbv zeta.
  apply paced_bind; [reads_on|]. apply paced_option_string. intros sta stsa country -> Hcountry.
  apply paced_bind; [reads_on|]. apply paced_option_string. intros stb stsb city -> Hcity.
  apply paced_bind; [reads_on|]. apply paced_position. intros stc stsc ->.
  destruct (position_of stc id) as [latitude longitude] eqn:Hpos.
  apply paced_bind; [reads_on|]. apply paced_option_bool. intros std stsd full -> Hfull.
  apply paced_bind; [reads_on|]. apply paced_u64. intros ste stse timestamp -> Hste Hseen.
  change (redis_error (tape R)) with (redis_error R).
  assert (unwrap_or 0%N timestamp = seen_of ste id) as -> by (rewrite unwrap_or_ok; exact (f_equal (default 0%N) Hseen)).
  rewrite last_seen_in_range by apply Hste. apply paced_bind; [reads_on|]. apply paced_ret, paced_ret.
  split; [set_solver|]. cbn. rewrite Hcountry, Hcity, Hfull.
  split_and!; [done..| | | | |].
  - exists sta. split; [set_solver|done].
  - exists stb. split; [set_solver|done].
  - exists stc. split; [set_solver|done].
  - exists std. split; [set_solver|done].
  - exists ste. split; [set_solver|done].
Qed.

Lemma paced_entries l sts :
  sts ⊆ rest →
  paced (for_collect l (peer_entry (R:=tape R) on on2 unk)) sts (λ o sts', sts' ⊆ rest ∧
    match o with
    | Ret peers => ∃ entries, Forall2 (entry_seen st1 st2 st3 rest) l entries ∧ peers = omap (λ o, o) entries
    | Raise _ => gone
    | Panic => False
    end).
Proof.
  revert sts. induction l as [|[i id] l IH]; intros sts Hsub; cbn [for_collect].
  { apply paced_ret. split; [done|]. exists []. by split; [constructor|]. }
  apply paced_bind; [reads_on|]. eapply paced_mono; [by apply paced_entry|].
  intros [r|e|] sts' [Hsub' Hr]; [|done..].
  apply paced_bind; [reads_on|]. eapply paced_mono; [by apply IH|].
  intros [peers|e|] sts'' [Hsub'' Hp]; [|done..]. destruct Hp as (entries & Hall & ->).
  apply paced_ret. split; [done|]. exists (r :: entries). split; [by constructor|]. by destruct r.
Qed.
End Entries.

(** A listing of a family that the fetch asks for. *)
Lemma paced_listing pat (fam : string → key) p sts (Q : outcome (redis_error R) (list string) → list store → Prop) :
  (∀ id, key_string (fam id) = p +:+ String "." id) → glob_plain p →
  (∀ st id, dotless st → has st (fam id) → Str.has_char "." id = false) →
  pat = (p +:+ ".") +:+ "*" +:+ "" →
  (∀ st sts' keys, sts = st :: sts' → (∀ id, id ∈ keys_to_peer_ids keys ↔ has st (fam id)) → Q (Ret keys) sts') →
  paced (ask (con_keys (R:=tape R) pat)) sts Q.
Proof.
  intros Hfam Hp Hdot -> HQ. unfold ask. apply paced_bind; [reads_on|].
  apply paced_keys_star; [|by repeat split|].
  { apply glob_plain_app; [done|by repeat split]. }
  intros st sts' l -> _ Hd _ Hl. apply paced_ret. apply (HQ st); [done|].
  eapply (keys_to_peer_ids_spec st l p fam); [done|intros id; by apply Hdot|exact Hl].
Qed.

Lemma paced_get_peers n a b sts :
  n ≠ Dev →
  paced (get_peers (R:=tape R) n a b) sts (λ o _,
    match o with Ret peers => observed sts n peers | Raise _ => vanished sts | Panic => False end).
Proof.
  intros Hn. unfold get_peers. apply paced_bind; [reads_on|].
  assert (∀ Q : outcome (redis_error R) (list string) → list store → Prop,
    (∀ st sts' keys, sts = st :: sts' → dotless st → NoDup keys →
       (∀ k, k ∈ keys ↔ k ∈ dom st ∧ ∃ x, k = "network.peer." +:+ x +:+ "." +:+ into_str n) → Q (Ret keys) sts') →
    paced (match n with
           | Mirana => ask (con_keys (R:=tape R) "network.peer.*.mirana")
           | Pudge => ask (con_keys "network.peer.*.pudge")
           | Dev => panic
           end) sts Q) as Hkeys.
  { intros Q HQ. destruct n; [| |done]; unfold ask; (apply paced_bind; [reads_on|]).
    - change "network.peer.*.mirana" with ("network.peer." +:+ "*" +:+ ".mirana").
      apply paced_keys_star; [by repeat split..|]. intros st sts' l -> _ Hd Hnd Hl. by eapply paced_ret, HQ.
    - change "network.peer.*.pudge" with ("network.peer." +:+ "*" +:+ ".pudge").
      apply paced_keys_star; [by repeat split..|]. intros st sts' l -> _ Hd Hnd Hl. by eapply paced_ret, HQ. }
  apply Hkeys. intros st0 sts1 keys -> Hd Hnd Hin. clear Hkeys.
  destruct (reachable_keys_to_peer_ids_spec (E:=redis_error (tape R)) st0 keys n) as (ids & Hids & Hndi & Hini);
    [intros id; by apply dotless_quick|done..|].
  apply paced_bind; [reads_on|]. unfold of_outcome.
  rewrite Hids. apply paced_state.
  apply paced_bind; [reads_on|].
  apply (paced_listing _ KOnline "peer.online"); [done|by repeat split|intros; by eapply dotless_online|done|].
  intros st1 sts2 on -> Hon. apply paced_bind; [reads_on|].
  apply (paced_listing _ KOnline2 "peer.online2"); [done|by repeat split|intros; by eapply dotless_online2|done|].
  intros st2 sts3 on2 -> Hon2. apply paced_bind; [reads_on|].
  apply (paced_listing _ KUnknown "peer.unknown"); [done|by repeat split|intros; by eapply dotless_unknown|done|].
  intros st3 rest unk -> Hunk.
  eapply paced_mono; [by eapply (paced_entries st1 st2 st3 rest); [exact Hon|exact Hon2|exact Hunk|]|].
  intros [peers|e|] sts' [_ Ho]; [| |done].
  - destruct Ho as (entries & Hall & ->). by exists st0, st1, st2, st3, rest, ids, entries.
  - destruct Ho as (id & st & ? & ?). by exists st0, st1, st2, st3, rest, id, st.
Qed.

(** What a fetch that has ended has seen. *)
Lemma fetch_done q log sts clock o :
  recorded log sts → resume_fetch (C:=C) q log clock = Done o →
  match o with
  | Ret (Ok peers) => observed sts (network_from_string (q_network q)) peers
  | Ret (Err _) => vanished sts
  | Raise e => match e with end
  | Panic => network_from_string (q_network q) = Dev
  end.
Proof.
  intros Hl. unfold resume_fetch, fetch_peers. set (n := network_from_string (q_network q)).
  destruct (decide (n = Dev)) as [->|Hn].
  { cbn. by intros [= <-]. }
  pose proof (paced_get_peers n (q_offline_timeout q) (q_unknown_offline_timeout q) sts Hn (on_tape log clock) log
    eq_refl Hl) as Hp. unfold returning. destruct (get_peers _ _ _ _) as [o' x']. cbn [fst snd] in Hp.
  destruct Hp as [[c Hc]|(log' & sts' & Hx & _ & Ho)].
  - destruct o' as [peers|e|]; rewrite Hc; done.
  - destruct o' as [peers|e|]; rewrite Hx; [by intros [= <-]..|done].
Qed.

(** Nothing but the two commands that read is sent. *)
Definition asks_to_read t t' : Prop := t_asked t ≠ Some CmdOther → t_asked t' ≠ Some CmdOther.
#[local] Instance asks_to_read_preorder : PreOrder asks_to_read.
Proof. split; [by intros t ?|]. intros t1 t2 t3 H12 H23 Ht. by apply H23, H12. Qed.

Lemma fetch_awaits_read q log clock : resume_fetch (C:=C) q log clock ≠ Awaits CmdOther.
Proof.
  assert (within asks_to_read (fetch_peers (R:=tape R) (C:=C) (E:=Empty_set) q)) as Hf.
  { apply within_fetch; [apply _|..].
    - intros k [l [c|]]; [by destruct l as [|[] l]|]. destruct l as [|[k' r|pat r] l]; try done.
      cbn. by case_decide.
    - intros k [l [c|]]; [by destruct l as [|[] l]|]. destruct l as [|[k' r|pat r] l]; try done.
      cbn. by case_decide. }
  specialize (Hf (on_tape log clock)). unfold resume_fetch. destruct (fetch_peers q _) as [o x].
  cbn in Hf. unfold asks_to_read in Hf. destruct (t_asked (x_client x)) as [c|]; [|done].
  intros [= ->]. by apply Hf.
Qed.
End Logic.
