(* ===== verification/ExposedGeo.v ===== *)
(** * ExposedGeo: the coordinates exposed shows

    marci records a position as the text that ipinfo.io answers; exposed reads two
    floating-point numbers out of it, the parser being that of RustFloat.v. *)
From S2P Require Import Prelude RustStd RustFloat RustNet Types Redis Services Keys MarciInv Exposed ExposedSpec.
From Stdlib Require Import Ascii.

Section Geo.
Context {R C : Type} `{RedisLaws R} `{Clock C} `{TextLaws}.
Implicit Types (w : Service R C).

(** The part [i] of a recorded position is shown as [x]. *)
Definition shows (recorded : option string) (i : nat) (x : option f64) : Prop :=
  match recorded ≫= λ loc, Str.split "," loc !! i, x with
  | Some s, Some x => reads_as s x
  | Some s, None => ∀ x, ¬ reads_as s x
  | None, x => x = None
  end.

Lemma shows_parsed recorded i :
  shows recorded i (recorded ≫= λ loc, Str.split "," loc !! i ≫= f64_from_str).
Proof.
  unfold shows. destruct recorded as [loc|]; [|done]. cbn [mbind option_bind].
  destruct (Str.split "," loc !! i) as [s|]; [|done]. cbn [mbind option_bind].
  destruct (f64_from_str s) as [x|] eqn:Hx; [by apply f64_from_str_reads|by apply f64_from_str_unreadable].
Qed.

(** C25 (bounds). The coordinates of a peer are what its recorded position says: each
    is the double closest to the decimal number written before, respectively after,
    the first comma, on a tie the even one, infinite exactly beyond the range of
    doubles; it is missing exactly if there is no record, no such part, or the part
    is not the text of a number. Reading them changes nothing. *)
Theorem positions_are_closest {E} id w :
  up (x_client w) →
  runs (get_position (E:=E) id) w (λ pos w',
    up (x_client w') ∧ view (x_client w') = view (x_client w) ∧
    shows (text_at (view (x_client w)) (KPos id)) 0 pos.1 ∧
    shows (text_at (view (x_client w)) (KPos id)) 1 pos.2).
Proof.
  intros Hup. eapply (run_position (view (x_client w)) w id); [done|].
  intros w' (? & ? & _). split_and!; [done..| |]; unfold position_of;
    [pose proof (shows_parsed (text_at (view (x_client w)) (KPos id)) 0) as Hs
    |pose proof (shows_parsed (text_at (view (x_client w)) (KPos id)) 1) as Hs];
    by destruct (text_at _ (KPos id)).
Qed.
End Geo.
