(* ===== verification/ExposedServer.v ===== *)
(** * ExposedServer: the HTTP server of exposed/src/main.rs

    The routing table, the query strings, and one request from end to end. Reading
    sockets and writing replies are actix's. *)
From S2P Require Import Prelude RustStd RustNet Types Redis Services Keys MarciInv Exposed ExposedSpec ExposedReads.
From Stdlib Require Import Ascii.

(** ** Requests *)
Inductive method := GET | POST | OtherMethod.
#[export] Instance method_eq_dec : EqDecision method.
Proof. solve_decision. Defined.

(** A request as actix hands it over: the query decoded into names and values, the
    body as text, and the address of the peer. *)
Record request := {
  r_method : method;
  r_path : string;
  r_query : list (string * string);
  r_body : string;
  r_peer : option (Net.IpAddr * N);
}.

Inductive endpoint := PeerList | Health | AddNode | StatusOfPeer.

(** The [.route(..)] calls; nothing else is served. *)
Definition route (m : method) (path : string) : option endpoint :=
  match m with
  | GET =>
      if decide (path = "/peer" ∨ path = "/") then Some PeerList
      else if decide (path = "/health") then Some Health
      else if decide (path = "/peer_status") then Some StatusOfPeer
      else None
  | POST => if decide (path = "/add_node") then Some AddNode else None
  | OtherMethod => None
  end.

(** *** Query strings *)

(** The fields of [QueryParams] met so far. *)
Record partial_query := {
  pq_network : option string;
  pq_offline_timeout : option N;
  pq_unknown_offline_timeout : option N;
}.

(** One pair: a field met twice or a number that is none is refused; other names
    are ignored. *)
Definition read_pair (p : string * string) (q : partial_query) : option partial_query :=
  let '(name, value) := p in
  if decide (name = "network") then
    match pq_network q with
    | Some _ => None
    | None => Some {| pq_network := Some value;
                      pq_offline_timeout := pq_offline_timeout q;
                      pq_unknown_offline_timeout := pq_unknown_offline_timeout q |}
    end
  else if decide (name = "offline_timeout") then
    match pq_offline_timeout q with
    | Some _ => None
    | None => n ← Int.parse_u64 value;
              Some {| pq_network := pq_network q;
                      pq_offline_timeout := Some n;
                      pq_unknown_offline_timeout := pq_unknown_offline_timeout q |}
    end
  else if decide (name = "unknown_offline_timeout") then
    match pq_unknown_offline_timeout q with
    | Some _ => None
    | None => n ← Int.parse_u64 value;
              Some {| pq_network := pq_network q;
                      pq_offline_timeout := pq_offline_timeout q;
                      pq_unknown_offline_timeout := Some n |}
    end
  else Some q.

Fixpoint read_pairs (pairs : list (string * string)) (q : partial_query) : option partial_query :=
  match pairs with
  | [] => Some q
  | p :: pairs => q ← read_pair p q; read_pairs pairs q
  end.

Definition no_fields : partial_query :=
  {| pq_network := None; pq_offline_timeout := None; pq_unknown_offline_timeout := None |}.

(** A refused query string. *)
Inductive bad_query := BadQuery.

Definition or_default {A} (field : option A) (d : option A) : outcome bad_query A :=
  match field with
  | Some a => Ret a
  | None => match d with Some a => Ret a | None => Panic end
  end.

(** [web::Query<QueryParams>]: what is missing takes its default, whose [unwrap]
    may panic. *)
Definition query_params (env : string → option string) (pairs : list (string * string)) :
  outcome bad_query QueryParams :=
  match read_pairs pairs no_fields with
  | None => Raise BadQuery
  | Some q =>
      offline ← or_default (pq_offline_timeout q) (default_timeout env);
      unknown ← or_default (pq_unknown_offline_timeout q) (default_unknown_timeout env);
      Ret {| q_network := default default_network (pq_network q);
             q_offline_timeout := offline;
             q_unknown_offline_timeout := unknown |}
  end.

(** [web::Query<PeerQueryParams>]: exactly one [peer_id]. *)
Definition peer_query_params (pairs : list (string * string)) : outcome bad_query string :=
  match filter (λ p, p.1 = "peer_id") pairs with
  | [(_, id)] => Ret id
  | _ => Raise BadQuery
  end.

(** *** One request *)
Inductive http_response :=
| Answer (r : response)
| NodeAnswer (r : node_response)
| BadRequest
| NotFound.

Section Respond.
Context {R C : Type} `{Redis R} `{Clock C} `{TextLib}.
Context (env : string → option string) (debug_string : string → string).

(** An extractor of the handler's arguments: what it refuses gets a bad request. *)
Definition extracting {E A} (o : outcome bad_query A) (k : A → comp (Service R C) E http_response) :
  comp (Service R C) E http_response :=
  match o with
  | Ret a => k a
  | Raise BadQuery => mret BadRequest
  | Panic => panic
  end.

Definition respond {E} (contended : bool) (r : request) : comp (Service R C) E http_response :=
  match route (r_method r) (r_path r) with
  | None => mret NotFound
  | Some PeerList =>
      extracting (query_params env (r_query r)) (λ q, a ← peer_handler contended q; mret (Answer a))
  | Some Health => a ← last_update_handler; mret (Answer a)
  | Some AddNode => mret (NodeAnswer (add_node debug_string (r_body r) (r_peer r)))
  | Some StatusOfPeer =>
      extracting (peer_query_params (r_query r)) (λ id, a ← peer_in_map id; mret (Answer a))
  end.
End Respond.

(** ** Requests only read the database *)
Section Server.
Context {R C : Type} `{RedisLaws R} `{Clock C} `{TextLib}.
Context (env : string → option string) (debug_string : string → string).

(** The server is still up and holds what it held. *)
Definition unchanged (s s' : R) : Prop := up s → up s' ∧ view s' = view s.
#[local] Instance unchanged_preorder : PreOrder unchanged.
Proof.
  split; [done|]. intros s1 s2 s3 H12 H23 Hup. destruct (H12 Hup) as [Hup2 Hv2].
  destruct (H23 Hup2) as [Hup3 Hv3]. split; [done|congruence].
Qed.

Lemma get_unchanged k s : unchanged s (redis_get k s).2.
Proof. intros Hup. by destruct (get_law k s Hup) as (r & s' & -> & Hup' & Hv & _). Qed.
Lemma keys_unchanged pat s : unchanged s (redis_keys pat s).2.
Proof. intros Hup. by destruct (keys_reads pat s Hup) as (r & s' & -> & Hup' & Hv). Qed.
#[local] Hint Resolve get_unchanged keys_unchanged : core.

(** C24 (safety). Requests only read: whatever is requested, with whatever query and
    in whatever state the worker is, and however the request ends, a panic included,
    the database is afterwards as it was before. *)
Theorem requests_read_only {E} contended r w :
  up (x_client w) →
  let w' := (respond (R:=R) (C:=C) (E:=E) env debug_string contended r w).2 in
  up (x_client w') ∧ view (x_client w') = view (x_client w).
Proof.
  intros Hup. assert (within unchanged (respond (R:=R) (C:=C) (E:=E) env debug_string contended r)) as Hr; [|by apply Hr].
  unfold respond. destruct (route (r_method r) (r_path r)) as [[]|]; [..|by apply (within_same unchanged)].
  - unfold extracting. destruct (query_params env (r_query r)) as [q|[]|]; [|by apply (within_same unchanged)..].
    apply (within_bind unchanged); [by apply within_peer_handler; [apply _|..]|].
    intros a. by apply (within_same unchanged).
  - apply (within_bind unchanged); [by apply within_last_update; [apply _|..]|].
    intros a. by apply (within_same unchanged).
  - by apply (within_same unchanged).
  - unfold extracting. destruct (peer_query_params (r_query r)) as [id|[]|]; [|by apply (within_same unchanged)..].
    apply (within_bind unchanged); [by apply within_in_map; [apply _|..]|].
    intros a. by apply (within_same unchanged).
Qed.
End Server.
