(* ===== verification/ExposedWorkers.v ===== *)
(** * ExposedWorkers: the workers of exposed and their interleaved requests

    The factory of [HttpServer::new] runs once per worker: the workers share the
    connection, behind a mutex, and have a cache each. A request of a worker is
    suspended at every [await], so that others run between the stages of its
    [peer_handler], and marci writes between any two commands of its fetch. The server
    as a step relation, and what may be answered. *)
From S2P Require Import Prelude RustStd RustNet Types Redis Services Keys MarciInv Exposed ExposedSpec.
From S2P Require Import ExposedFetch.

(** [ServiceData] without what is shared. *)
Record cache := Cache { c_data : list Peer; c_last : Z }.

(** Where a request of [peer_handler] is: at the check, at the cached list, at the lock
    of the connection, in its fetch with the answers it has had, or with what it
    fetched. *)
Inductive stage (R : Type) `{Redis R} :=
| Checking
| Reading
| Locking
| Fetching (log : list (exchange R))
| Answering (r : result (list Peer) (redis_error R)).
Arguments Checking {R _}.
Arguments Reading {R _}.
Arguments Locking {R _}.
Arguments Fetching {R _} log.
Arguments Answering {R _} r.

Record pending (R : Type) `{Redis R} := Pending {
  pd_worker : nat;
  pd_query : QueryParams;
  pd_stage : stage R;
}.
Arguments Pending {R _} _ _ _.
Arguments pd_worker {R _} _.
Arguments pd_query {R _} _.
Arguments pd_stage {R _} _.

Record server (R C : Type) `{Redis R} := MkServer {
  v_client : R;
  (** The request that holds the lock of the connection. *)
  v_lock : option nat;
  v_clock : C;
  v_workers : list cache;
  v_requests : gmap nat (pending R);
}.
Arguments MkServer {R C _} _ _ _ _ _.
Arguments v_client {R C _} _.
Arguments v_lock {R C _} _.
Arguments v_clock {R C _} _.
Arguments v_workers {R C _} _.
Arguments v_requests {R C _} _.

(** What a step of a request shows: the outcome of the check and when; a command of
    the fetch, with what the database held then; the end of the fetch; the cache
    replaced, and when; the reply; a panic. *)
Inductive event :=
| EvArrived (req worker : nat) (q : QueryParams)
| EvChecked (req : nat) (t : Z) (stale : bool)
| EvLocked (req : nat)
| EvRead (req : nat) (c : command) (st : store)
| EvFetched (req : nat) (n : CKBNetworkType) (peers : list Peer)
| EvRefused (req : nat)
| EvStored (req worker : nat) (t : Z) (peers : list Peer)
| EvAnswered (req : nat) (r : response)
| EvPanicked (req : nat)
| EvEnvironment.

Section Workers.
Context {R C : Type} `{RedisLaws R} `{Clock C} `{TextLib}.
Implicit Types (v : server R C) (q : QueryParams) (n i : nat).

(** [n] workers, each with its own [ServiceData]: an empty list of the year 1970. *)
Definition start_server (client : R) (clock : C) (n : nat) : server R C :=
  MkServer client None clock (replicate n (Cache [] 0)) ∅.

(** A worker as its handlers see it, and the server after one of them ran. *)
Definition service_of v (k : cache) : Service R C :=
  MkService (v_client v) (v_clock v) (c_data k) (c_last k).
Definition put_service v i (x : Service R C) (reqs : gmap nat (pending R)) : server R C :=
  MkServer (x_client x) (v_lock v) (x_clock x) (<[i := Cache (x_data x) (x_last_cache_update x)]> (v_workers v)) reqs.

(** The request [n] runs up to its next [await]: in the fetch, until the next command
    has been answered. [None]: it waits for the lock. [contended]: whether another
    request holds the worker's cache at the [try_lock]. A panic releases the lock. *)
Definition advance (contended : bool) n v : option (list event * server R C) :=
  p ← v_requests v !! n;
  let '(Pending i q s) := p in
  k ← v_workers v !! i;
  let x := service_of v k in
  let goto s := <[n := Pending i q s]> (v_requests v) in
  let gone := delete n (v_requests v) in
  match s with
  | Checking =>
      match cache_is_stale (E:=Empty_set) x with
      | (Ret stale, x') =>
          Some ([EvChecked n (clock_now (v_clock v)).1 stale],
                put_service v i x' (goto (if stale : bool then Locking else Reading)))
      | (_, x') => Some ([EvPanicked n], put_service v i x' gone)
      end
  | Reading =>
      match answer_cached (E:=Empty_set) x with
      | (Ret r, x') => Some ([EvAnswered n r], put_service v i x' gone)
      | (_, x') => Some ([EvPanicked n], put_service v i x' gone)
      end
  | Locking =>
      match v_lock v with
      | None => Some ([EvLocked n],
          MkServer (v_client v) (Some n) (v_clock v) (v_workers v) (goto (Fetching [])))
      | Some _ => None
      end
  | Fetching log =>
      match resume_fetch q log (v_clock v) with
      | Awaits c =>
          '(e, client) ← perform c (v_client v);
          Some ([EvRead n c (view (v_client v))],
            MkServer client (v_lock v) (v_clock v) (v_workers v) (goto (Fetching (log ++ [e]))))
      | Done (Ret r) =>
          Some ([match r with
                 | Ok peers => EvFetched n (network_from_string (q_network q)) peers
                 | Err _ => EvRefused n
                 end],
            MkServer (v_client v) None (v_clock v) (v_workers v) (goto (Answering r)))
      | Done _ => Some ([EvPanicked n], MkServer (v_client v) None (v_clock v) (v_workers v) gone)
      end
  | Answering r =>
      match answer_fetched (E:=Empty_set) contended r x with
      | (Ret a, x') =>
          Some (match r with
                | Ok peers => if contended then [] else [EvStored n i (clock_now (v_clock v)).1 peers]
                | Err _ => []
                end ++ [EvAnswered n a], put_service v i x' gone)
      | (_, x') => Some ([EvPanicked n], put_service v i x' gone)
      end
  end.
End Workers.

(** ** Executions *)
Section Steps.
Context {R C : Type} `{RedisLaws R} `{Clock C} `{TextLaws}.
Implicit Types (v : server R C) (q : QueryParams) (n i : nat) (tr : list event) (k : cache).

(** Requests arrive at some worker and advance in any order; marci writes to the
    database, keys expire, and the clock may show anything. *)
Inductive vstep : server R C → list event → server R C → Prop :=
| vstep_arrive v n i q :
    v_requests v !! n = None → i < length (v_workers v) →
    vstep v [EvArrived n i q]
      (MkServer (v_client v) (v_lock v) (v_clock v) (v_workers v) (<[n := Pending i q Checking]> (v_requests v)))
| vstep_advance v contended n evs v' :
    advance contended n v = Some (evs, v') → vstep v evs v'
| vstep_environment v s c :
    (presentable (v_client v) → presentable s) →
    vstep v [EvEnvironment] (MkServer s (v_lock v) c (v_workers v) (v_requests v)).

(** No request number is used twice. *)
Definition new_requests tr (evs : list event) : Prop :=
  ∀ n i q i' q', EvArrived n i q ∈ evs → EvArrived n i' q' ∉ tr.

Inductive vsteps v : list event → server R C → Prop :=
| vsteps_nil : vsteps v [] v
| vsteps_snoc tr v1 evs v2 :
    vsteps v tr v1 → vstep v1 evs v2 → new_requests tr evs → vsteps v (tr ++ evs) v2.

(** ** Where lists come from *)

(** What the database held at the commands that request [n] sent so far. *)
Definition moments tr n : list store :=
  omap (λ e, match e with EvRead m _ st => if decide (m = n) then Some st else None | _ => None end) tr.

(** The request [n] fetched this list: it is what could be seen of the network it asks
    for at the commands it sent. *)
Definition fetched tr n (peers : list Peer) : Prop :=
  ∃ i q tr1 tr2, tr = tr1 ++ EvFetched n (network_from_string (q_network q)) peers :: tr2 ∧
    EvArrived n i q ∈ tr1 ∧ observed (moments tr1 n) (network_from_string (q_network q)) peers.

(** The fetch of request [n] failed: a record that it had listed was gone when it
    read it. *)
Definition refused tr n : Prop :=
  ∃ i q tr1 tr2, tr = tr1 ++ EvRefused n :: tr2 ∧ EvArrived n i q ∈ tr1 ∧ vanished (moments tr1 n).

(** The cache is as it was made, or what a request of this worker stored. *)
Definition cache_ok tr i k : Prop :=
  k = Cache [] 0 ∨
  ∃ m, EvStored m i (c_last k) (c_data k) ∈ tr ∧ fetched tr m (c_data k).

(** The cache was stored at most 30 full seconds before the check of request [n] or,
    by another request of the worker, after it. *)
Definition recent tr n i k : Prop :=
  ∃ tr1 t tr2 m, tr = tr1 ++ EvChecked n t false :: tr2 ∧ fetched tr m (c_data k) ∧
    ((EvStored m i (c_last k) (c_data k) ∈ tr1 ∧ (secs_since (c_last k) t ≤ 30)%Z) ∨
     EvStored m i (c_last k) (c_data k) ∈ tr2).

(** What may be answered to request [n]: the list it fetched itself, or a recent one
    from the cache of a worker; an error if its fetch failed. *)
Definition answer_ok tr n (a : response) : Prop :=
  match a with
  | JsonPeers _ peers => fetched tr n peers ∨ ∃ i q k, EvArrived n i q ∈ tr ∧ recent tr n i k ∧ c_data k = peers
  | InternalServerError => refused tr n
  | _ => False
  end.

(** What is known of a request at its stage. *)
Definition request_ok tr v n i q (s : stage R) : Prop :=
  EvArrived n i q ∈ tr ∧
  match s with
  | Checking | Locking => moments tr n = []
  | Reading => ∀ k, v_workers v !! i = Some k → recent tr n i k
  | Fetching log => recorded log (moments tr n)
  | Answering (Ok peers) => fetched tr n peers
  | Answering (Err _) => refused tr n
  end.

Record server_ok tr v : Prop := {
  so_client : presentable (v_client v);
  so_caches i k : v_workers v !! i = Some k → cache_ok tr i k;
  so_requests n i q s : v_requests v !! n = Some (Pending i q s) → request_ok tr v n i q s;
  so_reads n : moments tr n ≠ [] → ∃ i q, EvArrived n i q ∈ tr;
  so_answers n a : EvAnswered n a ∈ tr → answer_ok tr n a;
  so_panics n : EvPanicked n ∈ tr →
    ∃ i q, EvArrived n i q ∈ tr ∧ network_from_string (q_network q) = Dev;
}.

(** *** More steps take nothing back *)
Lemma moments_app tr evs n : moments (tr ++ evs) n = moments tr n ++ moments evs n.
Proof. apply omap_app. Qed.

Lemma fetched_app tr evs n peers : fetched tr n peers → fetched (tr ++ evs) n peers.
Proof.
  intros (i & q & tr1 & tr2 & -> & ? & ?). exists i, q, tr1, (tr2 ++ evs).
  split_and!; [by rewrite <- app_assoc|done..].
Qed.

Lemma refused_app tr evs n : refused tr n → refused (tr ++ evs) n.
Proof.
  intros (i & q & tr1 & tr2 & -> & ? & ?). exists i, q, tr1, (tr2 ++ evs).
  split_and!; [by rewrite <- app_assoc|done..].
Qed.

Lemma cache_ok_app tr evs i k : cache_ok tr i k → cache_ok (tr ++ evs) i k.
Proof.
  intros [?|(m & ? & ?)]; [by left|]. right. exists m. split; [set_solver|by apply fetched_app].
Qed.

Lemma recent_app tr evs n i k : recent tr n i k → recent (tr ++ evs) n i k.
Proof.
  intros (tr1 & t & tr2 & m & -> & Hf & Hs). exists tr1, t, (tr2 ++ evs), m.
  split_and!; [by rewrite <- app_assoc|by apply fetched_app|]. destruct Hs; [by left|right; set_solver].
Qed.

Lemma answer_ok_app tr evs n a : answer_ok tr n a → answer_ok (tr ++ evs) n a.
Proof.
  destruct a; try done; [|by apply refused_app].
  intros [?|(i & q & k & ? & ? & ?)]; [left; by apply fetched_app|]. right. exists i, q, k. split_and!; [set_solver|by apply recent_app|done].
Qed.

(** *** What each stage does *)
Definition stage_effect (contended : bool) n i q k v (s : stage R) (evs : list event) v' : Prop :=
  let t := (clock_now (v_clock v)).1 in
  let net := network_from_string (q_network q) in
  let goto s := v_requests v' = <[n := Pending i q s]> (v_requests v) in
  let gone := v_requests v' = delete n (v_requests v) in
  match s with
  | Checking => v_workers v' = v_workers v ∧
      ((evs = [EvChecked n t true] ∧ goto Locking) ∨
       (evs = [EvChecked n t false] ∧ goto Reading ∧
        c_data k ≠ [] ∧ (secs_since (c_last k) t ≤ 30)%Z))
  | Reading => v_workers v' = v_workers v ∧ evs = [EvAnswered n (JsonPeers true (c_data k))] ∧ gone
  | Locking => v_workers v' = v_workers v ∧ evs = [EvLocked n] ∧ goto (Fetching [])
  | Fetching log => v_workers v' = v_workers v ∧
      ((∃ c e, evs = [EvRead n c (view (v_client v))] ∧ answered e (view (v_client v)) ∧
          goto (Fetching (log ++ [e]))) ∨
       (∃ o, resume_fetch q log (v_clock v) = Done o ∧
          match o with
          | Ret (Ok peers) => evs = [EvFetched n net peers] ∧ goto (Answering (Ok peers))
          | Ret (Err e) => evs = [EvRefused n] ∧ goto (Answering (Err e))
          | _ => evs = [EvPanicked n] ∧ gone
          end))
  | Answering (Ok peers) => gone ∧
      if contended
      then v_workers v' = v_workers v ∧ evs = [EvAnswered n (JsonPeers true peers)]
      else v_workers v' = <[i := Cache peers t]> (v_workers v) ∧
           evs = [EvStored n i t peers; EvAnswered n (JsonPeers true peers)]
  | Answering (Err _) => gone ∧ v_workers v' = v_workers v ∧ evs = [EvAnswered n InternalServerError]
  end.

Lemma put_same v i k x (reqs : gmap nat (pending R)) :
  v_workers v !! i = Some k → x_data x = c_data k → x_last_cache_update x = c_last k →
  v_workers (put_service v i x reqs) = v_workers v.
Proof. intros Hk Hd Hl. cbn. rewrite Hd, Hl. apply list_insert_id. by destruct k. Qed.

(** A command leaves the database presentable, and is an answer of it. *)
Lemma perform_answered c (s s' : R) e :
  presentable s → perform c s = Some (e, s') → presentable s' ∧ answered e (view s).
Proof.
  intros Hp He. assert (up s' ∧ view s' = view s ∧ asks e = c) as (Hup & Hv & Ha).
  { destruct Hp as [Hup _]. destruct c as [k|pat|]; cbn in He; [..|done].
    - destruct (get_law k s Hup) as (r & s1 & Hg & Hup' & Hv & _). rewrite Hg in He. by injection He as <- <-.
    - destruct (keys_reads pat s Hup) as (r & s1 & Hk & Hup' & Hv). rewrite Hk in He. by injection He as <- <-. }
  split; [unfold presentable; rewrite Hv; by destruct Hp|]. exists s, s'. by rewrite Ha.
Qed.

Lemma advance_inv contended n v evs v' :
  presentable (v_client v) → advance contended n v = Some (evs, v') →
  presentable (v_client v') ∧ ∃ i q s k,
    v_requests v !! n = Some (Pending i q s) ∧ v_workers v !! i = Some k ∧
    stage_effect contended n i q k v s evs v'.
Proof.
  intros Hp Ha. unfold advance in Ha. apply bind_Some in Ha as ([i q s] & Hn & Ha).
  apply bind_Some in Ha as (k & Hk & Ha). set (x := service_of v k) in *.
  assert (presentable (v_client v') ∧ stage_effect contended n i q k v s evs v') as [? ?]; [|eauto 8].
  destruct s as [| | |log|r]; cbv zeta in Ha; cbn [stage_effect].
  - destruct (stale_check (E:=Empty_set) x) as (x' & Hs & Hc & Hd & Hl & _). rewrite Hs in Ha.
    injection Ha as <- <-. split; [cbn; by rewrite Hc|]. split; [by apply (put_same v i k)|].
    destruct (bool_decide (¬ fresh x)) eqn:Hf; [by left|right]. apply bool_decide_eq_false, dec_stable in Hf.
    split_and!; [done..| |]; apply Hf.
  - injection Ha as <- <-. split; [done|]. split; [by apply (put_same v i k)|done].
  - destruct (v_lock v); [done|]. by injection Ha as <- <-.
  - destruct (resume_fetch q log (v_clock v)) as [c|o] eqn:Hf.
    + apply bind_Some in Ha as ([e client] & He & [= <- <-]).
      destruct (perform_answered _ _ _ _ Hp He) as [Hp' Hans]. split; [done|]. split; [done|]. left. by exists c, e.
    + destruct o as [[peers|e]|[]|]; injection Ha as <- <-; (split; [done|]); (split; [done|]); right;
        eexists; (split; [reflexivity|]); done.
  - destruct r as [peers|e]; cbn [answer_fetched] in Ha.
    + destruct contended; injection Ha as <- <-; (split; [done|]); (split; [done|]);
        (split; [|done]); [by apply (put_same v i k)|done].
    + injection Ha as <- <-. split; [done|]. split; [done|]. split; [by apply (put_same v i k)|done].
Qed.

(** *** Preservation *)
(** A cache that was replaced is recent for everybody who waits to read it. *)
Lemma recent_replaced tr evs n i k m k' :
  recent tr n i k → fetched tr m (c_data k') → EvStored m i (c_last k') (c_data k') ∈ evs →
  recent (tr ++ evs) n i k'.
Proof.
  intros (tr1 & t & tr2 & _ & Heq & _) Hf Hs. exists tr1, t, (tr2 ++ evs), m.
  split_and!; [by rewrite Heq, <- app_assoc|by apply fetched_app|]. right. set_solver.
Qed.

Lemma server_ok_step tr v evs v' :
  server_ok tr v → presentable (v_client v') → length (v_workers v') = length (v_workers v) →
  (∀ i k, v_workers v' !! i = Some k → v_workers v !! i = Some k ∨
     ∃ m, EvStored m i (c_last k) (c_data k) ∈ evs ∧ fetched tr m (c_data k)) →
  (∀ n i q s, v_requests v' !! n = Some (Pending i q s) →
     (v_requests v !! n = Some (Pending i q s) ∧ moments evs n = []) ∨ request_ok (tr ++ evs) v' n i q s) →
  (∀ n, moments evs n ≠ [] → ∃ i q, EvArrived n i q ∈ tr) →
  (∀ n a, EvAnswered n a ∈ evs → answer_ok (tr ++ evs) n a) →
  (∀ n, EvPanicked n ∈ evs →
     ∃ i q, EvArrived n i q ∈ tr ++ evs ∧ network_from_string (q_network q) = Dev) →
  server_ok (tr ++ evs) v'.
Proof.
  intros [Hc Hk Hr Hm Ha Hx] Hc' Hlen Hk' Hr' Hm' Ha' Hx'. split; [done|..].
  - intros i k [Hi|(m & Hs & Hf)]%Hk'; [by apply cache_ok_app, Hk|].
    right. exists m. split; [set_solver|by apply fetched_app].
  - intros n i q s [[Hn Hno]|Hn]%Hr'; [|exact Hn]. destruct (Hr _ _ _ _ Hn) as [Harr Hs].
    split; [set_solver|]. rewrite moments_app, Hno, app_nil_r.
    destruct s as [| | |log|[peers|e]]; try done; [|by apply fetched_app|by apply refused_app].
    intros k Hi. assert (i < length (v_workers v)) as [k0 Hk0]%lookup_lt_is_Some_2
      by (rewrite <- Hlen; by eapply lookup_lt_Some).
    specialize (Hs _ Hk0). destruct (Hk' _ _ Hi) as [Hi'|(m & Hst & Hf)]; [|by eapply recent_replaced].
    apply recent_app. congruence.
  - intros n. rewrite moments_app. intros Hn. destruct (decide (moments tr n = [])) as [He|He].
    + rewrite He in Hn. destruct (Hm' n Hn) as (i & q & ?). exists i, q. set_solver.
    + destruct (Hm n He) as (i & q & ?). exists i, q. set_solver.
  - intros n a [Hn|Hn]%elem_of_app; [by apply answer_ok_app, Ha|by apply Ha'].
  - intros n [Hn|Hn]%elem_of_app; [|by apply Hx']. destruct (Hx _ Hn) as (i & q & ? & ?).
    exists i, q. set_solver.
Qed.

Lemma pending_insert v v' n i q s :
  v_requests v' = <[n := Pending i q s]> (v_requests v) →
  ∀ n' i' q' s', v_requests v' !! n' = Some (Pending i' q' s') →
    (n' = n ∧ i' = i ∧ q' = q ∧ s' = s) ∨ (n' ≠ n ∧ v_requests v !! n' = Some (Pending i' q' s')).
Proof.
  intros -> n' i' q' s' [[<- Heq]|[? Hn]]%lookup_insert_Some; [|by right].
  left. by injection Heq as -> -> ->.
Qed.

Lemma pending_delete v v' n :
  v_requests v' = delete n (v_requests v) →
  ∀ n' p, v_requests v' !! n' = Some p → v_requests v !! n' = Some p.
Proof. by intros -> n' p [_ ?]%lookup_delete_Some. Qed.

(** A step of the request [n] after which it is at the stage [s]. *)
Lemma goto_ok tr v evs v' n i q s :
  server_ok tr v → presentable (v_client v') → v_workers v' = v_workers v →
  v_requests v' = <[n := Pending i q s]> (v_requests v) →
  (∀ m, m ≠ n → moments evs m = []) → EvArrived n i q ∈ tr →
  request_ok (tr ++ evs) v' n i q s →
  (∀ m a, EvAnswered m a ∉ evs) → (∀ m, EvPanicked m ∉ evs) →
  server_ok (tr ++ evs) v'.
Proof.
  intros Hok Hc' Hw Hq Hm Harr Hreq Hno Hno'. apply (server_ok_step tr v); rewrite ?Hw; try done; try by (intros; left).
  - intros n' i' q' s' [(-> & -> & -> & ->)|[Hne ?]]%(pending_insert _ _ _ _ _ _ Hq); [by right|left].
    split; [done|by apply Hm].
  - intros m Hne. destruct (decide (m = n)) as [->|Hmn]; [eauto|]. by destruct Hne; apply Hm.
  - intros m a Hin. by destruct (Hno m a).
  - intros m Hin. by destruct (Hno' m).
Qed.

(** The last step of the request [n]. *)
Lemma gone_ok tr v evs v' n :
  server_ok tr v → presentable (v_client v') → length (v_workers v') = length (v_workers v) →
  v_requests v' = delete n (v_requests v) →
  (∀ i k, v_workers v' !! i = Some k → v_workers v !! i = Some k ∨
     ∃ m, EvStored m i (c_last k) (c_data k) ∈ evs ∧ fetched tr m (c_data k)) →
  (∀ m, moments evs m = []) →
  (∀ m a, EvAnswered m a ∈ evs → answer_ok (tr ++ evs) m a) →
  (∀ m, EvPanicked m ∈ evs →
     ∃ i q, EvArrived m i q ∈ tr ++ evs ∧ network_from_string (q_network q) = Dev) →
  server_ok (tr ++ evs) v'.
Proof.
  intros Hok Hc' Hlen Hq Hw Hm Ha Hx. apply (server_ok_step tr v); try done.
  - intros n' i' q' s' ?%(pending_delete _ _ _ Hq). left. by rewrite Hm.
  - intros m Hne. by destruct Hne.
Qed.

Lemma advance_ok tr v contended n evs v' :
  server_ok tr v → advance contended n v = Some (evs, v') → server_ok (tr ++ evs) v'.
Proof.
  intros Hok Ha. pose proof Hok as [Hc Hk Hr _ _ _].
  destruct (advance_inv contended n v evs v' Hc Ha) as (Hc' & i & q & s & k & Hn & Hi & He).
  destruct (Hr _ _ _ _ Hn) as [Harr Hs]. destruct s as [| | |log|[peers|e]]; cbn [stage_effect] in He.
  - destruct He as [Hw [(-> & Hq)|(-> & Hq & Hne & Hage)]].
    + eapply (goto_ok tr v); try done; try set_solver. split; [set_solver|]. by rewrite moments_app, Hs.
    + eapply (goto_ok tr v); try done; try set_solver. split; [set_solver|].
      rewrite Hw. intros k' Hk'. assert (k' = k) as -> by congruence.
      destruct (Hk _ _ Hi) as [->|(m & Hm & Hf)]; [done|].
      exists tr, (clock_now (v_clock v)).1, [], m. split_and!; [done|by apply fetched_app|by left].
  - destruct He as (Hw & -> & Hq). apply (gone_ok tr v _ _ n); rewrite ?Hw; try done; try by (intros; left).
    + intros n' a [= -> ->]%list_elem_of_singleton. cbn. right. exists i, q, k.
      split_and!; [set_solver|by apply recent_app, Hs|done].
    + set_solver.
  - destruct He as (Hw & -> & Hq). eapply (goto_ok tr v); try done; try set_solver.
    split; [set_solver|]. rewrite moments_app, Hs. constructor.
  - destruct He as [Hw [(c & e & -> & Hans & Hq)|(o & Hf & Ho)]].
    + eapply (goto_ok tr v); try done; try set_solver.
      * intros m Hm. cbn. by rewrite decide_False.
      * split; [set_solver|]. rewrite moments_app. cbn. rewrite decide_True by done.
        by apply Forall2_app; [|constructor].
    + pose proof (fetch_done _ _ _ _ _ Hs Hf) as Hd. destruct o as [[peers|e]|[]|].
      * destruct Ho as [-> Hq]. eapply (goto_ok tr v); try done; try set_solver.
        split; [set_solver|]. by exists i, q, tr, [].
      * destruct Ho as [-> Hq]. eapply (goto_ok tr v); try done; try set_solver.
        split; [set_solver|]. by exists i, q, tr, [].
      * destruct Ho as [-> Hq]. apply (gone_ok tr v _ _ n); rewrite ?Hw; try done; try by (intros; left).
        -- set_solver.
        -- intros n' [= ->]%list_elem_of_singleton. exists i, q. set_solver.
  - destruct He as [Hq He]. assert (fetched (tr ++ evs) n peers) as Hf by by apply fetched_app.
    apply (gone_ok tr v _ _ n); try done.
    + destruct contended; destruct He as [-> _]; [done|by rewrite length_insert].
    + destruct contended; destruct He as [-> ->]; [by left|]. intros j k' Hj.
      apply list_lookup_insert_Some in Hj as [(<- & <- & _)|[_ Hj]]; [|by left].
      right. exists n. split; [cbn; set_solver|done].
    + intros m. by destruct contended; destruct He as [_ ->].
    + intros n' a Hin. assert (n' = n ∧ a = JsonPeers true peers) as [-> ->]
        by (destruct contended; destruct He as [_ ->]; set_solver). by left.
    + intros n' Hin. destruct contended; destruct He as [_ ->]; set_solver.
  - destruct He as (Hq & Hw & ->). apply (gone_ok tr v _ _ n); rewrite ?Hw; try done; try by (intros; left).
    + intros n' a [= -> ->]%list_elem_of_singleton. by apply refused_app.
    + set_solver.
Qed.

Lemma arrive_ok tr v n i q :
  server_ok tr v → (∀ i' q', EvArrived n i' q' ∉ tr) → server_ok (tr ++ [EvArrived n i q])
    (MkServer (v_client v) (v_lock v) (v_clock v) (v_workers v) (<[n := Pending i q Checking]> (v_requests v))).
Proof.
  intros Hok Hnew. apply (server_ok_step tr v); try done; [apply Hok|by left|..]; try set_solver.
  intros n' i' q' s' [(-> & -> & -> & ->)|[_ ?]]%(pending_insert v _ n i q Checking); [right|by left|done].
  split; [set_solver|]. rewrite moments_app. cbn. rewrite app_nil_r.
  destruct (decide (moments tr n = [])) as [|Hm]; [done|]. destruct (so_reads _ _ Hok n Hm) as (i' & q' & ?).
  by destruct (Hnew i' q').
Qed.

Lemma environment_ok tr v s c :
  (presentable (v_client v) → presentable s) → server_ok tr v →
  server_ok (tr ++ [EvEnvironment]) (MkServer s (v_lock v) c (v_workers v) (v_requests v)).
Proof.
  intros Hs Hok. apply (server_ok_step tr v); try done; [apply Hs, Hok|by left|by left|..]; set_solver.
Qed.

Lemma start_ok client clock w : presentable client → server_ok [] (start_server (C:=C) client clock w).
Proof.
  intros Hp. split; [done|..].
  - intros i k Hi. left. by apply lookup_replicate in Hi as [-> _].
  - intros n i q s Hn. cbn in Hn. by rewrite lookup_empty in Hn.
  - intros n Hn. by destruct Hn.
  - intros n a Ha. by apply elem_of_nil in Ha.
  - intros n Ha. by apply elem_of_nil in Ha.
Qed.

(** C8 (invariant). However the requests of any number of workers interleave, with
    each other and with marci's writes between any two commands of a fetch: a list
    request is answered either with what it fetched itself or with what the cache of
    its worker held; and that is a list some request fetched, stored at most 30 full
    seconds before this request looked, or after it looked. A fetched list is what
    could be seen of the network asked for: its peers are those listed by the first
    command, whether one is shown is decided by the listings of the three families
    that the next commands made, and each field is what the database held at a later
    command of that fetch; if nothing changed in between, it is the list of the
    database. A request is answered with an error only if the record of an online peer
    that its fetch had listed was gone at a later command of that fetch, and it panics
    only if it asks for the development network. *)
Theorem answers_are_lists client clock w tr v :
  presentable client → vsteps (start_server client clock w) tr v →
  (∀ n a, EvAnswered n a ∈ tr → answer_ok tr n a) ∧
  (∀ i k, v_workers v !! i = Some k → cache_ok tr i k) ∧
  (∀ n, EvPanicked n ∈ tr →
     ∃ i q, EvArrived n i q ∈ tr ∧ network_from_string (q_network q) = Dev).
Proof.
  intros Hp Hs. assert (server_ok tr v) as [_ Hk _ Ha Hx]; [|done].
  induction Hs as [|tr v1 evs v2 _ IH Hstep Hnew]; [by apply start_ok|].
  destruct Hstep as [v n i q Hn Hi| |]; [|by eapply advance_ok|by apply environment_ok].
  apply arrive_ok; [done|]. intros i' q'. eapply Hnew. apply list_elem_of_here.
Qed.

(** *** A scheduler, to run concrete executions *)
Inductive turn := Arrive (n i : nat) (q : QueryParams) | Advance (contended : bool) (n : nat).

Definition is_arrival n (e : event) : bool :=
  match e with EvArrived m _ _ => bool_decide (m = n) | _ => false end.

Definition take_turn (x : turn) tr v : option (list event * server R C) :=
  match x with
  | Arrive n i q =>
      match v_requests v !! n with
      | None =>
          if existsb (is_arrival n) tr then None
          else if decide (i < length (v_workers v)) then
            Some ([EvArrived n i q],
              MkServer (v_client v) (v_lock v) (v_clock v) (v_workers v) (<[n := Pending i q Checking]> (v_requests v)))
          else None
      | Some _ => None
      end
  | Advance contended n => advance contended n v
  end.

Fixpoint serve (l : list turn) tr v : option (list event * server R C) :=
  match l with
  | [] => Some (tr, v)
  | x :: l => '(evs, v') ← take_turn x tr v; serve l (tr ++ evs) v'
  end.

Lemma advance_no_arrival contended n v evs v' m i q :
  advance contended n v = Some (evs, v') → EvArrived m i q ∉ evs.
Proof.
  intros Ha. unfold advance in Ha. apply bind_Some in Ha as ([j p s] & _ & Ha).
  apply bind_Some in Ha as (k & _ & Ha). destruct s as [| | |log|r]; cbv zeta in Ha.
  - destruct (cache_is_stale _) as [[]]; injection Ha as <- _; set_solver.
  - destruct (answer_cached _) as [[]]; injection Ha as <- _; set_solver.
  - destruct (v_lock v); [done|]. injection Ha as <- _. set_solver.
  - destruct (resume_fetch _ _ _) as [c|[[]| |]]; [|injection Ha as <- _; set_solver..].
    apply bind_Some in Ha as ([e client] & _ & [= <- _]). set_solver.
  - destruct (answer_fetched _ _ _) as [[]]; [|injection Ha as <- _; set_solver..].
    destruct r, contended; injection Ha as <- _; set_solver.
Qed.

Lemma serve_steps l v0 tr v tr' v' :
  vsteps v0 tr v → serve l tr v = Some (tr', v') → vsteps v0 tr' v'.
Proof.
  revert tr v. induction l as [|x l IH]; intros tr v Hs; cbn [serve]; [by intros [= <- <-]|].
  intros Hx. apply bind_Some in Hx as ([evs v1] & Ht & Hl). apply (IH (tr ++ evs) v1); [|done].
  destruct x as [n i q|contended n]; cbn in Ht.
  - destruct (v_requests v !! n) eqn:Hn; [done|]. destruct (existsb _ tr) eqn:Hf; [done|].
    case_decide; [|done]. injection Ht as <- <-. eapply vsteps_snoc; [done|by apply vstep_arrive|].
    intros m j p j' p' [= -> -> ->]%list_elem_of_singleton Hin.
    assert (existsb (is_arrival n) tr = true); [|congruence].
    apply existsb_exists. eexists. split; [by apply list_elem_of_In|]. by apply bool_decide_eq_true.
  - eapply vsteps_snoc; [done|by eapply vstep_advance|].
    intros m j p j' p' Hin. by eapply advance_no_arrival in Hin.
Qed.
End Steps.
