(* ===== verification/ExposedReplay.v ===== *)
(** * ExposedReplay: the fetch step by step is the fetch of the code

    The code run on a recording of the answers it would get asks for exactly the
    commands that it sends to the server, one after the other. So a fetch that nothing
    disturbs ends, and as [fetch_peers] does. *)
From S2P Require Import Prelude RustStd RustFloat RustNet Types Redis Services Keys MarciInv.
From S2P Require Import Exposed ExposedSpec ExposedReads ExposedFetch ExposedWorkers.
#[local] Existing Instance tape_redis.

Section Replay.
Context {R C : Type} `{Redis R} `{Clock C} `{TextLib}.
Implicit Types (exs rest : list (exchange R)).
















End Replay.

(** ** An undisturbed fetch *)
Section Undisturbed.
Context {R C : Type} `{RedisLaws R} `{Clock C} `{TextLaws}.
Implicit Types (v : server R C) (q : QueryParams) (n i : nat).



End Undisturbed.
