(* ===== verification/System.v ===== *)
(** * System: the three programs together

    The discovery program and marci talk over the broker; marci and exposed share
    only the database, and what marci guarantees about it is what exposed relies
    on. Here the theorems about the programs combine. *)
From S2P Require Import Prelude RustStd RustNet Types Redis Services Keys IpInfo.
From S2P Require Import Network Message Handler Dialer.
From S2P Require Import Marci MarciSpec MarciInv MarciGeo MarciLoop MarciHistory Exposed ExposedSpec.
From Stdlib Require Import Ascii.

Section System.
Context {R Ip M C C' : Type} {Q : Type → Type}.
Context `{RedisLaws R} `{IpService Ip} `{MqttLaws M} `{ClockLaws C} `{Clock C'} `{MpscLaws Q}.
Context `{Json EndpointInfo} `{Json NodeMetaInfo} `{Json PeerInfo} `{Json ReachableInfo}.
Context `{TextLaws}.
Context (env : string → option string) (cfg : Config).
(** Chrono represents the times that marci's clock shows. *)
Context (clock_in_range : (clock_max ≤ utc_max)%N).
Implicit Types (tr : list label) (st : store) (id : string).

(** ** What marci guarantees of the database is what exposed relies on *)

(** Peer ids are base58 text: no handled message names one with a dot. *)
Definition dotless_label (l : label) : Prop :=
  match l with
  | LTook (TookOnline p) => Str.has_char "." (peer_id (info p)) = false
  | LTook (TookUnknown p) => Str.has_char "." (peer_id p) = false
  | LTook (TookReachable r) => Str.has_char "." (peer_id (peer r)) = false
  | _ => True
  end.

Lemma typed_text st k :
  well_typed st →
  match k with KOnline _ | KOnline2 _ | KUnknown _ => True | _ => False end →
  has st k → is_Some (text_at st k).
Proof.
  intros Ht Hk [e He]. pose proof (Ht _ _ He) as Hty. unfold text_at, str_at. rewrite He.
  destruct k; try done; cbn in Hty; naive_solver.
Qed.

Lemma well_typed_servable st :
  well_typed st → (∀ id, (seen_of st id ≤ utc_max)%N) → servable st.
Proof. intros Ht Hs. split; [intros id Hh; by apply typed_text..|done]. Qed.

Lemma history_dotless tr st :
  well_typed st → history (C:=C) cfg tr st → Forall dotless_label tr → dotless st.
Proof.
  intros Ht [_ _ _ Ho Ho2 Hu Hq _ _ _ _] Hd. rewrite Forall_forall in Hd. split; intros id.
  - intros [v Hv]%(typed_text st (KOnline id) Ht I). destruct (Ho _ _ Hv) as (p & Hp & <- & _). apply (Hd _ Hp).
  - intros [v Hv]%(typed_text st (KOnline2 id) Ht I). destruct (Ho2 _ _ Hv) as (p & Hp & <- & _). apply (Hd _ Hp).
  - intros [v Hv]%(typed_text st (KUnknown id) Ht I). destruct (Hu _ _ Hv) as (_ & p & Hp & <-). apply (Hd _ Hp).
  - intros n Hh. destruct (Hq _ _ Hh) as (r & Hr & <- & _). apply (Hd _ Hr).
Qed.

(** *** The times recorded are ones the clock showed *)
Definition timely st : Prop :=
  ∀ id v, text_at st (KSeen id) = Some v → ∃ n, v = arg_u64 n ∧ (n ≤ clock_max)%N.

Lemma timely_empty : timely ∅.
Proof. intros id v. unfold text_at, str_at. by rewrite lookup_empty. Qed.

Lemma timely_seen st : timely st → ∀ id, (seen_of st id ≤ utc_max)%N.
Proof.
  intros Ht id. unfold seen_of. destruct (text_at st (KSeen id)) as [v|] eqn:Hv; cbn; [|lia].
  destruct (Ht _ _ Hv) as (n & -> & Hn). pose proof utc_max_i64.
  assert (Int.i64_max ≤ Int.u64_max)%N by done. rewrite u64_law by lia. cbn. lia.
Qed.

Lemma shown_bound secs : shown (C:=C) secs → (secs ≤ clock_max)%N.
Proof. intros [c ->]. apply clock_law. Qed.

Lemma timely_put st id secs (st' : store) :
  (secs ≤ clock_max)%N → timely st' →
  (∀ j, text_at st (KSeen j) = if decide (KSeen j = KSeen id) then Some (arg_u64 secs) else text_at st' (KSeen j)) →
  timely st.
Proof.
  intros Hs Ht Heq j v. rewrite Heq. case_decide; [|apply Ht]. intros [= <-]. eauto.
Qed.

Lemma timely_effect (i : IpState Ip) t st st' : effect (C:=C) cfg i t st st' → timely st → timely st'.
Proof.
  intros He Ht. destruct t; cbn [effect] in He.
  - destruct He as (geo & secs & _ & Hs%shown_bound & ->). apply (timely_put _ (peer_id (info p)) secs st); [done..|]. intros j.
    unfold online_spec. keyify. autorewrite with rust. rewrite decide_False by done.
    case_decide; [done|]. rewrite decide_False by done. rewrite text_endpoint, text_mark by done.
    case_decide; [done|]. by rewrite decide_False by by destruct (is_ex p).
  - destruct He as (secs & Hs%shown_bound & ->). apply (timely_put _ (peer_id p) secs st); [done..|]. intros j.
    unfold unknown_spec. keyify. autorewrite with rust. case_decide; [done|].
    repeat case_decide; autorewrite with rust; by rewrite ?decide_False by done.
  - destruct He as (geo & secs & secs' & _ & Hs%shown_bound & _ & ->).
    apply (timely_put _ (peer_id (peer r)) secs st); [done..|]. intros j. unfold reachable_spec, tick_spec. cbv zeta. keyify.
    autorewrite with rust. rewrite decide_False by done.
    assert (text_at (reachable_record r secs st) (KSeen j) =
      if decide (KSeen j = KSeen (peer_id (peer r))) then Some (arg_u64 secs) else text_at st (KSeen j)) as Hr.
    { unfold reachable_record. keyify. autorewrite with rust. case_decide; [done|].
      rewrite decide_False, text_add_endpoints by done. autorewrite with rust. by rewrite decide_False. }
    destruct (decide (default "" _ = "")); [|exact Hr]. by rewrite text_geo by done.
  - destruct He as (secs & _ & ->). intros id v. unfold tick_spec. keyify. autorewrite with rust.
    rewrite decide_False by done. apply Ht.
Qed.

Lemma steps_timely (w : World R Ip M C) tr (st : Loop R Ip M C Q) :
  config_ok cfg → healthy env w → store_ok (view (w_redis w)) → timely (view (w_redis w)) →
  steps env cfg (start w) tr st → timely (db st).
Proof.
  intros Hc Hw Hok Ht Hs. induction Hs as [|tr st1 l st2 Hs IH Hstep]; [done|].
  pose proof (steps_sane _ _ _ _ _ Hc (start_sane env w Hw Hok) Hs) as Hsane.
  destruct Hstep as [e st st' _ He|a t st st' _ Ha|].
  - apply read_kept in He as [Hl _]. unfold db in *. by rewrite Hl.
  - eapply timely_effect; [by eapply select_sane|done].
  - intros id v Hv. eapply (IH id v). unfold db in *. cbn in *. by eapply text_expires.
Qed.

(** ** Soundness of the list *)

(** Why a peer may be shown on the page of a network. *)
Definition justified tr (n : CKBNetworkType) (p : Peer) : Prop :=
  ∃ id r, LTook (TookReachable r) ∈ tr ∧ peer_id (peer r) = id ∧ network (peer r) = n ∧
    ((∃ o, LTook (TookOnline o) ∈ tr ∧ peer_id (info o) = id ∧ p_version p = version o) ∨
     (p_version_short p = "Unknown" ∧ p_version p = "" ∧
      (ckb_node_default_witnesses cfg ≤ N.of_nat (size (witnesses_of id tr)))%N)).

Lemma listed_justified tr st n peers :
  well_typed st → history (C:=C) cfg tr st → peers_listed st n peers → Forall (justified tr n) peers.
Proof.
  intros Ht Hh (ids & _ & Hids & ->). apply Forall_forall. intros p Hp.
  apply list_elem_of_omap in Hp as ([i id] & Hin & Hp).
  assert (id ∈ ids) as Hid by by apply elem_of_lookup_imap in Hin as (? & ? & [= -> ->] & ?%list_elem_of_lookup_2).
  apply Hids, (h_quick _ _ _ Hh) in Hid as (r & Hr & Hpid & Hnet).
  exists id, r. split_and!; [done..|]. unfold listed in Hp.
  apply fmap_Some in Hp as ([v sv] & Hs & ->). cbn [snd fst] in Hs. unfold status_of in Hs.
  destruct (text_at st (KOnline id)) as [v1|] eqn:E1; [|destruct (text_at st (KOnline2 id)) as [v1|] eqn:E2].
  - injection Hs as -> <-. left. destruct (h_online _ _ _ Hh _ _ E1) as (o & Ho & Hio & Hv & _). eauto.
  - injection Hs as -> <-. left. destruct (h_online2 _ _ _ Hh _ _ E2) as (o & Ho & Hio & Hv & _). eauto.
  - case_decide as Hu; [|done]. injection Hs as <- <-. right. split; [done|]. split; [done|].
    apply (typed_text st (KUnknown id) Ht I) in Hu as [s Hs]. by destruct (h_unknown _ _ _ Hh _ _ Hs) as [Hk _].
Qed.

Lemma listed_sources (w : World R Ip M C) tr (st : Loop R Ip M C Q)
    (x : Service R C') n a b :
  config_ok cfg → healthy env w → view (w_redis w) = ∅ →
  steps env cfg (start w) tr st →
  Forall dotless_label tr →
  up (x_client x) → view (x_client x) = db st → n ≠ Dev →
  runs (get_peers n a b) x (λ peers x', view (x_client x') = db st ∧ Forall (justified tr n) peers).
Proof.
  intros Hc Hw Hdb Hs Hdot Hup Hx Hn.
  assert (∀ id, (seen_of (db st) id ≤ utc_max)%N) as Hseen.
  { apply timely_seen. eapply steps_timely; [done..| | |exact Hs]; rewrite Hdb; [apply store_ok_empty|apply timely_empty]. }
  destruct (steps_history env cfg w tr st Hc Hw Hdb Hs) as [Hsane Hh].
  pose proof (ok_typed _ (sane_store _ _ Hsane)) as Ht.
  eapply runs_mono.
  { apply get_peers_runs; rewrite ?Hx; try done; [by apply well_typed_servable|by eapply history_dotless]. }
  rewrite Hx. intros peers x' [(_ & Hv & _) Hp]. split; [done|]. by eapply listed_justified.
Qed.

(** C5 (safety). End to end: whatever messages marci received and in whatever order
    its tasks ran, a worker that reads its database answers the list request of a
    network, and every peer on the list was reported on that network, with a
    version that an online message about that peer carried, or else, shown as
    unknown, by at least the configured number of different peers. *)
Theorem listed_peers_have_sources (w : World R Ip M C) tr (st : Loop R Ip M C Q)
    (x : Service R C') n a b :
  config_ok cfg → healthy env w → view (w_redis w) = ∅ →
  steps env cfg (start w) tr st →
  Forall dotless_label tr →
  up (x_client x) → view (x_client x) = db st → n ≠ Dev →
  runs (get_peers n a b) x (λ peers x', view (x_client x') = db st ∧ Forall (justified tr n) peers).
Proof. by apply listed_sources. Qed.

(** ** Completeness of the list *)
Lemma reachable_keeps_status msg geo secs secs' st id :
  (text_at (reachable_spec msg geo secs secs' st) (KOnline id) = text_at st (KOnline id) ∧
   has (reachable_spec msg geo secs secs' st) (KNetworkQuick (peer_id (peer msg)) (network (peer msg)))).
Proof.
  unfold reachable_spec. cbv zeta.
  assert (text_at (reachable_record msg secs st) (KOnline id) = text_at st (KOnline id) ∧
          has (reachable_record msg secs st) (KNetworkQuick (peer_id (peer msg)) (network (peer msg)))) as [Ht Hh].
  { unfold reachable_record. keyify. autorewrite with rust.
    rewrite text_add_endpoints, has_add_endpoints by done. autorewrite with rust.
    rewrite !decide_False by done. split; [done|]. auto. }
  keyify. autorewrite with rust. rewrite decide_False by done.
  case_decide; rewrite ?text_geo, ?has_geo by done; auto.
Qed.

(** The version shown after an online message: a peer recorded as online keeps its. *)
Lemma online_shows p geo secs st :
  let id := peer_id (info p) in
  let v := default (version p) (text_at st (KOnline id)) in
  status_of (online_spec cfg p geo secs st) id = Some (v, short_version v) ∧
  text_at (online_spec cfg p geo secs st) (KFull id) = Some (arg_bool (full p)) ∧
  ∀ n, has st (KNetworkQuick id n) → has (online_spec cfg p geo secs st) (KNetworkQuick id n).
Proof.
  intros id v.
  assert (is_str st (key_string (KOnline id)) ↔ is_Some (text_at st (KOnline id))) as Hstr
    by apply is_str_some.
  unfold online_spec, status_of. keyify. autorewrite with rust.
  rewrite !(decide_False (P:=KOnline _ = _)), !(decide_False (P:=KOnline2 _ = _)) by done.
  rewrite !text_endpoint, !text_mark by done. fold id.
  split_and!.
  - destruct (text_at st (KOnline id)) as [v0|] eqn:Hv; subst v; cbn [default from_option].
    + by rewrite decide_True by (apply Hstr; eauto).
    + rewrite !(decide_False (P:=is_str _ _)) by (rewrite Hstr; by intros []). destruct (is_ex p).
      * rewrite (decide_False (P:=KOnline _ = _)) by done. by rewrite decide_True.
      * by rewrite decide_True.
  - rewrite decide_False by done. rewrite decide_False by done. by rewrite decide_True.
  - intros n Hn. autorewrite with rust. rewrite has_online_endpoint, has_mark by done.
    split; [done|]. auto.
Qed.

Lemma listed_member st n id v peers :
  peers_listed st n peers → has st (KNetworkQuick id n) → status_of st id = Some v →
  ∃ i, peer_of st i id v ∈ peers.
Proof.
  intros (ids & _ & Hids & ->) Hq Hv. apply Hids, list_elem_of_lookup in Hq as [i Hi].
  exists (Int.as_i32 (N.of_nat i)). apply list_elem_of_omap. exists (i, id). split.
  - apply elem_of_lookup_imap. by exists i, id.
  - unfold listed. cbn [fst snd]. by rewrite Hv.
Qed.

(** C16 (functional). End to end, the other direction: from a well formed database with
    times that the clock showed, marci handles a reachable message about a peer and
    then an online message about it. As long as no id in the database has a dot, the
    list of the reported network, which is not the development network, then shows
    the peer, as full or not as just announced, and with the version of the online
    record that the peer already had; with the announced version if it had none. *)
Theorem announced_peer_is_listed (w : World R Ip M C) (r : ReachableInfo) (p : PeerInfo) :
  config_ok cfg → healthy env w → store_ok (view (w_redis w)) → timely (view (w_redis w)) →
  peer_id (info p) = peer_id (peer r) → network (peer r) ≠ Dev →
  runs (handle_reachable env r;; handle_online env cfg p) w (λ _ w',
    ∀ (x : Service R C') a b,
      up (x_client x) → view (x_client x) = view (w_redis w') →
      dotless (view (x_client x)) →
      runs (get_peers (network (peer r)) a b) x (λ peers _, ∃ q, q ∈ peers ∧
        p_version q = default (version p) (text_at (view (w_redis w)) (KOnline (peer_id (peer r)))) ∧
        p_node_type q = node_type_from_full (Some (full p)))).
Proof.
  intros Hc Hw Hok Htime Hid Hn.
  destruct (is_str_not_set (view (w_redis w)) (peer_id (peer r)) (ok_typed _ Hok)) as [Hset1 Hset2].
  apply runs_bind. eapply runs_mono; [by apply reachable_runs|]. intros [] w1 (Hw1 & _ & Hv1).
  eapply runs_mono; [by apply online_runs|]. intros [] w2 (Hw2 & _ & Hv2) x a b Hup Hx Hdot.
  assert (∀ id, (seen_of (view (x_client x)) id ≤ utc_max)%N) as Hseen.
  { apply timely_seen. rewrite Hx. apply (timely_effect (w_ip w1) (TookOnline p) (view (w_redis w1))).
    - do 2 eexists. split; [apply geo_of_found|]. split; [by eexists|exact Hv2].
    - apply (timely_effect (w_ip w) (TookReachable r) (view (w_redis w))); [|done].
      do 3 eexists. split; [apply reachable_found|]. split_and!; [by eexists..|exact Hv1]. }
  assert (store_ok (view (w_redis w2))) as Hok2.
  { rewrite Hv2. apply online_spec_ok; [apply Hc..|]. rewrite Hv1. by apply reachable_spec_ok. }
  eapply runs_mono.
  { apply get_peers_runs; [done..| |done]. apply well_typed_servable; [|done]. rewrite Hx. apply Hok2. }
  intros peers x' [_ Hp]. rewrite Hx in Hp.
  pose proof (λ g t t', reachable_keeps_status r g t t' (view (w_redis w)) (peer_id (peer r))) as Hkept.
  edestruct Hkept as [Hold Hquick]. rewrite <- Hv1 in Hold, Hquick.
  rewrite <- Hid in Hold, Hquick.
  edestruct (online_shows p) as (Hst & Hfull & Hkeep). rewrite <- Hv2, Hold in Hst. rewrite <- Hv2 in Hfull, Hkeep. apply Hkeep in Hquick.
  destruct (listed_member _ _ _ _ _ Hp Hquick Hst) as [i Hi].
  eexists. split; [exact Hi|]. split; [by rewrite <- Hid|]. unfold peer_of. cbn [p_node_type].
  rewrite Hfull. cbn. by rewrite bool_law.
Qed.
End System.

(** ** Between the discovery program and marci *)
Section Pipeline.
Context {P M : Type} `{MultiaddrLaws} `{!P2p P} `{MqttLaws M} `{Packed}.
Context `{JsonLaws NodeMetaInfo} `{JsonLaws PeerInfo} `{JsonLaws ReachableInfo}.
Implicit Types (w : HWorld P M) (self : Handler).

(** C36 (functional). What the discovery callback publishes is what marci takes in:
    each report about a node of the answer is accepted by marci's dispatch, as a
    reachable message with exactly that report, and nothing else is published. *)
Theorem discovered_peers_reach_marci self context data l w :
  reports self (discovery_nodes data) = Some l →
  runs (received_discovery self context data) w (λ _ w', ∃ new,
    h_spawned w' = h_spawned w ++ new ∧
    map (λ m, dispatch m.1 m.2) new =
    map (λ meta, Some (ToReachable (reachable_info_new meta
           (addr_to_node_meta (session_address context) (network_type self))))) l).
Proof.
  intros Hl. unfold runs. rewrite received_discovery_eq.
  pose proof (for_each_report self context (addr_to_node_meta (session_address context)
    (network_type self)) (discovery_nodes data) w) as Hf. rewrite Hl in Hf. rewrite Hf.
  eexists. split; [done|]. rewrite map_map. apply map_ext. intros meta. cbn [fst snd].
  unfold dispatch. repeat (rewrite decide_False by done). rewrite decide_True by done.
  by rewrite of_json_text.
Qed.

(** C35 (functional). A failed dial comes back as a vote about the right peer: for any
    address the dialer was given for a peer, the error callback publishes one
    message, and marci's dispatch takes it as an unknown message about that peer. *)
Theorem failed_dial_is_unknown_vote key (node : NodeMetaInfo) addr self w :
  peer_key key → peer_id node = peer_text key →
  Forall (λ x, (port x ≤ Int.u16_max)%N) (addresses node) →
  Ok addr ∈ meta_info_to_addr node → mqtt_up (h_mqtt w) →
  runs (handle_error self (DialerError addr)) w (λ _ w', ∃ topic payload u,
    sent (h_mqtt w') = sent (h_mqtt w) ++ [(topic, payload)] ∧
    dispatch topic payload = Some (ToUnknown u) ∧
    peer_id u = peer_id node ∧ network u = network_type self).
Proof.
  intros Hk Hid Hp Ha Hup. unfold handle_error. apply runs_bind, runs_publish; [done|].
  intros s' _ Hs. apply runs_ret.
  exists "peer/unknown", (json_text (addr_to_node_meta addr (network_type self))),
    (addr_to_node_meta addr (network_type self)).
  destruct (dialed_reads_back key node addr (network_type self) Hk Hid Hp Ha) as (x & _ & _ & Hr).
  split; [exact Hs|]. split; [|by rewrite Hr].
  unfold dispatch. repeat (rewrite decide_False by done). rewrite decide_True by done.
  by rewrite of_json_text.
Qed.
End Pipeline.
