(* ===== verification/ClosedSystem.v ===== *)
(** * ClosedSystem: the programs as one system

    The handlers of the two networks, the broker, marci and the dial task as one step
    relation: the broker delivers to marci only what the handlers published, and to
    the dial task only what marci published. What the other files assume of messages
    holds here by construction. *)
From S2P Require Import Prelude RustStd RustNet Types Redis Services Keys IpInfo.
From S2P Require Import Compress Network Message Handler Dialer.
From S2P Require Import Marci MarciSpec MarciInv MarciLoop MarciHistory Exposed ExposedSpec System.
From Stdlib Require Import Ascii.
From Stdlib Require Strings.Byte.

(** ** What a handler publishes *)
Section Publications.
Context {P M : Type} `{MultiaddrLaws} `{!P2p P} `{MqttLaws M} `{Packed} `{Snap}.
Context `{Json NodeMetaInfo} `{Json PeerInfo} `{Json ReachableInfo}.
Implicit Types (w : HWorld P M) (self : Handler) (context : Context_) (m : string * string).

(** Everything published in a world so far: by spawned tasks and directly. *)
Definition published w : list (string * string) := h_spawned w ++ sent (h_mqtt w).

(** The messages a handler of network [n] may publish: about addresses, read as
    peers of that network. *)
Definition produced (n : CKBNetworkType) m : Prop :=
  (∃ a version full, m = ("peer/online", json_text {|
     info := addr_to_node_meta a n; version := version; full := full; is_ex := false |})) ∨
  (∃ a rest b, m = ("peer/reachable", json_text
     (reachable_info_new (report {| network_type := n |} a rest) (addr_to_node_meta b n)))) ∨
  (∃ a, m = ("peer/unknown", json_text (addr_to_node_meta a n))).

(** However the code ends, it has taken back nothing and published nothing else,
    and the broker is up. *)
Definition publishes {A} (n : CKBNetworkType) (c : comp (HWorld P M) Empty_set A) : Prop :=
  ∀ w, mqtt_up (h_mqtt w) → mqtt_up (h_mqtt (c w).2) ∧
    published w ⊆ published (c w).2 ∧
    ∀ m, m ∈ published (c w).2 → m ∈ published w ∨ produced n m.

Lemma publishes_bind {A B} n (c : comp (HWorld P M) Empty_set A) (k : A → comp (HWorld P M) Empty_set B) :
  publishes n c → (∀ a, publishes n (k a)) → publishes n (c ≫= k).
Proof.
  intros Hc Hk w Hup. destruct (Hc w Hup) as (Hup1 & Hs1 & Hm1). unfold mbind, comp_bind.
  destruct (c w) as [[a|e|] w1]; cbn in *; [|done..].
  destruct (Hk a w1 Hup1) as (Hup2 & Hs2 & Hm2). split_and!; [done|by etrans|].
  intros m [?|?]%Hm2; [by apply Hm1|by right].
Qed.

(** Code that leaves both records of publications alone. *)
Lemma publishes_nothing {A} n (c : comp (HWorld P M) Empty_set A) :
  (∀ w, h_mqtt (c w).2 = h_mqtt w ∧ h_spawned (c w).2 = h_spawned w) → publishes n c.
Proof.
  intros Hc w Hup. destruct (Hc w) as [Hm Hs]. unfold published. rewrite Hm, Hs. split_and!; [done..|]. by left.
Qed.

Lemma publishes_for_each {A} n (l : list A) (body : A → comp (HWorld P M) Empty_set unit) :
  (∀ x, publishes n (body x)) → publishes n (for_each l body).
Proof.
  intros Hb. induction l as [|x l IH]; [by apply publishes_nothing|]. cbn [for_each].
  by apply publishes_bind.
Qed.

Lemma publishes_spawn n topic payload :
  produced n (topic, payload) → publishes n (spawn_publish topic payload).
Proof.
  intros Hp w Hup. unfold published. cbn. split_and!; [done|set_solver|].
  intros m. set_unfold. naive_solver.
Qed.

Lemma publishes_direct n topic payload :
  produced n (topic, payload) → publishes n (publish topic payload;; mret tt).
Proof.
  intros Hp w Hup. destruct (publish_law topic payload (h_mqtt w) Hup) as (s' & Heq & Hup' & Hs).
  unfold publish, call, mbind, comp_bind. cbn [lget h_mqtt_lens]. rewrite Heq. cbn.
  unfold published. cbn. rewrite Hs. split_and!; [done|set_solver|].
  intros m. set_unfold. naive_solver.
Qed.

Lemma publishes_report self context (from : NodeMetaInfo) node b :
  from = addr_to_node_meta b (network_type self) →
  publishes (network_type self) (report_node self context from node).
Proof.
  intros -> w Hup. rewrite report_node_eq. unfold node_report.
  destruct (node_addresses node) as [|first rest]; [split_and!; [done..|by left]|].
  destruct (parses first) as [a|]; cbn; [|split_and!; [done..|by left]].
  destruct (mapM parses rest) as [l|]; cbn; [|split_and!; [done..|by left]].
  unfold published. cbn. split_and!; [done|set_solver|]. intros m Hm. set_unfold in Hm.
  assert (m ∈ h_spawned w ++ sent (h_mqtt w) ∨ m = ("peer/reachable", json_text
    (reachable_info_new (report self a l) (addr_to_node_meta b (network_type self))))) as [?| ->]
    by (set_unfold; naive_solver); [by left|].
  right. right. left. exists a, l, b. by destruct self.
Qed.

(** The callbacks of a handler publish only messages about addresses of its network. *)
Lemma callbacks_publish self c : publishes (network_type self) (run_callback self c).
Proof.
  destruct c as [proto|context|context|context data|token|[a|s|]|[s|s|]]; cbn [run_callback];
    try by apply publishes_nothing.
  - unfold init. case_decide; [|by apply publishes_nothing]. apply publishes_bind.
    + unfold dial_bootnodes. apply publishes_bind; [by apply publishes_nothing|]. intros l.
      apply publishes_for_each. intros a. by apply publishes_nothing.
    + intros []. apply publishes_bind; [by apply publishes_nothing|].
      intros [u|e]; by apply publishes_nothing.
  - unfold connected. case_decide; [|by apply publishes_nothing]. unfold connected_discovery.
    apply publishes_bind; [by apply publishes_nothing|]. intros g. by apply publishes_nothing.
  - unfold received. case_decide; [|case_decide; [|by apply publishes_nothing]].
    + intros w. rewrite received_discovery_eq. apply publishes_for_each. intros node.
      by eapply publishes_report.
    + unfold received_identify. apply publishes_bind.
      * destruct (identify_message_from_compatible_slice data) as [raw|]; [|by apply publishes_nothing].
        destruct (identify_from_compatible_slice raw) as [[v flag]|]; [|by apply publishes_nothing].
        apply publishes_bind; [|by intros []; apply publishes_nothing].
        apply publishes_spawn. left. by eexists _, _, _.
      * intros [|]; by apply publishes_nothing.
  - unfold notify. case_decide; [|by apply publishes_nothing]. unfold dial_bootnodes.
    apply publishes_bind; [by apply publishes_nothing|]. intros l.
    apply publishes_for_each. intros a. by apply publishes_nothing.
  - apply publishes_direct. right. right. by eexists.
Qed.
End Publications.

(** ** The messages marci handles, when it only gets what handlers publish *)
Section Content.
Context `{MultiaddrLaws} `{JsonLaws NodeMetaInfo} `{JsonLaws PeerInfo} `{JsonLaws ReachableInfo}.

Lemma meta_id_dotless a n : Str.has_char "." (peer_id (addr_to_node_meta a n)) = false.
Proof.
  rewrite addr_to_node_meta_read. cbn. destruct (last (omap protocol_peer (addr_iter a))) as [s|] eqn:Hs; [|done].
  apply last_Some_elem_of, list_elem_of_omap in Hs as (p & _ & Hp). destruct p; try done.
  injection Hp as <-. apply bs58_no_dot.
Qed.

(** The addresses that a reachable message about a peer was made from: the peer is
    that of the first one, the endpoints are theirs, the loopback ones left out. *)
Definition from_addresses (m : NodeMetaInfo) : Prop :=
  ∃ n a rest, peer_id m = peer_id (addr_to_node_meta a n) ∧ network m = n ∧
    addresses m = filter dialable (map addr_to_endpoint (a :: rest)).

(** What is known of a message that a handler of network [n] published. *)
Definition vouched (n : CKBNetworkType) (d : delivery) : Prop :=
  match d with
  | ToOnline p => Str.has_char "." (peer_id (info p)) = false ∧ network (info p) = n
  | ToUnknown p => Str.has_char "." (peer_id p) = false ∧ network p = n
  | ToReachable r =>
      Str.has_char "." (peer_id (peer r)) = false ∧ network (peer r) = n ∧ from_addresses (peer r)
  end.

Lemma produced_dispatch n topic payload d :
  produced n (topic, payload) → dispatch topic payload = Some d → vouched n d.
Proof.
  unfold dispatch.
  intros [(a & v & f & [= -> ->])|[(a & rest & b & [= -> ->])|(a & [= -> ->])]];
    repeat (rewrite decide_False by done); rewrite decide_True by done; rewrite of_json_text; intros [= <-].
  - cbn. split; [apply meta_id_dotless|]. by rewrite addr_to_node_meta_read.
  - cbn. split_and!; [apply meta_id_dotless|done|]. by exists n, a, rest.
  - cbn. split; [apply meta_id_dotless|]. by rewrite addr_to_node_meta_read.
Qed.

(** Only one text is taken for a given reachable message. *)
Lemma produced_reachable n topic payload r :
  produced n (topic, payload) → dispatch topic payload = Some (ToReachable r) →
  topic = "peer/reachable" ∧ payload = json_text r.
Proof.
  unfold dispatch.
  intros [(a & v & f & [= -> ->])|[(a & rest & b & [= -> ->])|(a & [= -> ->])]];
    repeat (rewrite decide_False by done); rewrite decide_True by done; rewrite of_json_text; by intros [= <-].
Qed.
End Content.

(** ** The system *)
Section System.
Context {R Ip M M' P C C' : Type} {Q : Type → Type}.
Context `{RedisLaws R} `{IpService Ip} `{MqttLaws M} `{MqttLaws M'} `{ClockLaws C} `{Clock C'} `{MpscLaws Q}.
Context `{MultiaddrLaws} `{!P2p P} `{Packed} `{Snap} `{TextLaws}.
Context `{JsonLaws EndpointInfo} `{JsonLaws NodeMetaInfo} `{JsonLaws PeerInfo} `{JsonLaws ReachableInfo}.
Context (env : string → option string) (cfg : Config).

Record state := MkState {
  g_mirana : HWorld P M';
  g_pudge : HWorld P M';
  g_marci : Loop R Ip M C Q;
  g_dialer : Controllers P;
  (** Whether the dial task has panicked. *)
  g_dialer_dead : bool;
}.
Implicit Types (g : state) (tr : list label).

(** Everything the two handlers published. *)
Definition announced g (m : string * string) : Prop :=
  m ∈ published (g_mirana g) ∨ m ∈ published (g_pudge g).
#[local] Instance announced_dec g m : Decision (announced g m).
Proof. unfold announced. apply _. Defined.

(** A callback of one of the two services; a step of marci, which receives only
    what was announced, repeatedly and in any order; a message of marci that reaches
    the dial task. The labels are those of marci's steps. *)
Inductive sys_step : state → list label → state → Prop :=
| sys_mirana c w1 w2 l k x :
    sys_step (MkState w1 w2 l k x) []
      (MkState (run_callback (handler_new Mirana) c w1).2 w2 l k x)
| sys_pudge c w1 w2 l k x :
    sys_step (MkState w1 w2 l k x) []
      (MkState w1 (run_callback (handler_new Pudge) c w2).2 l k x)
| sys_marci lab w1 w2 l l' k x :
    step env cfg l lab l' →
    (∀ topic payload, lab = LRead (Incoming topic payload) →
       announced (MkState w1 w2 l k x) (topic, payload)) →
    sys_step (MkState w1 w2 l k x) [lab] (MkState w1 w2 l' k x)
| sys_dial topic payload w1 w2 l k :
    (topic, payload) ∈ sent (w_mqtt (l_world l)) →
    sys_step (MkState w1 w2 l k false) []
      (MkState w1 w2 l (on_message topic payload k).2
         (bool_decide ((on_message (P:=P) topic payload k).1 = Panic))).

Inductive sys_steps g : list label → state → Prop :=
| sys_nil : sys_steps g [] g
| sys_snoc tr g1 labs g2 : sys_steps g tr g1 → sys_step g1 labs g2 → sys_steps g (tr ++ labs) g2.

(** Before anything is published or received. *)
Definition initial g (w : World R Ip M C) : Prop :=
  g_marci g = start w ∧ healthy env w ∧ view (w_redis w) = ∅ ∧ sent (w_mqtt w) = [] ∧
  mqtt_up (h_mqtt (g_mirana g)) ∧ mqtt_up (h_mqtt (g_pudge g)) ∧
  published (g_mirana g) = [] ∧ published (g_pudge g) = [] ∧ g_dialer_dead g = false.

(** What the handler of a network published; no handler runs on the development
    network. *)
Definition published_on g (n : CKBNetworkType) : list (string * string) :=
  match n with
  | Mirana => published (g_mirana g)
  | Pudge => published (g_pudge g)
  | Dev => []
  end.

(** A report that marci has handled: the handler of the network it names had
    published it, made from addresses of that peer. *)
Definition handled_report g tr (r : ReachableInfo) : Prop :=
  LTook (TookReachable r) ∈ tr ∧
  ("peer/reachable", json_text r) ∈ published_on g (network (peer r)) ∧
  from_addresses (peer r).

(** What marci may ask to be dialled: a peer, on a network on which that very peer
    was reported, at endpoints that are not loopback and that handled reports about
    that very peer carried. *)
Definition sound_request g tr (m : string * string) : Prop :=
  ∃ node : NodeMetaInfo, m = ("peer/needs_dial", json_text node) ∧
    (∃ r, handled_report g tr r ∧ peer_id (peer r) = peer_id node ∧ network (peer r) = network node) ∧
    ∀ e, e ∈ addresses node → dialable e ∧
      ∃ r, handled_report g tr r ∧ peer_id (peer r) = peer_id node ∧ e ∈ addresses (peer r).

(** Every message that arrived was published by a handler of some network. *)
Definition sourced tr : Prop :=
  ∀ topic payload, LRead (Incoming topic payload) ∈ tr → ∃ n, n ≠ Dev ∧ produced n (topic, payload).

Lemma took_sourced tr (l : Loop R Ip M C Q) t :
  sourced tr → accounted tr l → LTook t ∈ tr →
  match t with
  | TookOnline p => ∃ n, n ≠ Dev ∧ vouched n (ToOnline p)
  | TookUnknown p => ∃ n, n ≠ Dev ∧ vouched n (ToUnknown p)
  | TookReachable r => ∃ n, n ≠ Dev ∧ vouched n (ToReachable r)
  | TookTick => True
  end.
Proof.
  intros Hs (Ho & Hr & Hu) Ht.
  assert (∀ d, d ∈ omap arrival tr → ∃ n, n ≠ Dev ∧ vouched n d) as Harr.
  { intros d (lab & Hin & Hd)%list_elem_of_omap. destruct lab as [[topic payload| | | |]| |]; try done.
    destruct (Hs _ _ Hin) as (n & Hn & Hp). exists n. split; [done|]. by eapply produced_dispatch. }
  destruct t as [p|p|r|]; [..|done].
  - assert (p ∈ omap to_online (omap arrival tr)) as (d & Hd & Heq)%list_elem_of_omap.
    { rewrite Ho. apply elem_of_app. left. apply list_elem_of_omap. by eexists. }
    destruct d; try done. injection Heq as ->. exact (Harr _ Hd).
  - assert (p ∈ omap to_unknown (omap arrival tr)) as (d & Hd & Heq)%list_elem_of_omap.
    { rewrite Hu. apply elem_of_app. left. apply list_elem_of_omap. by eexists. }
    destruct d; try done. injection Heq as ->. exact (Harr _ Hd).
  - assert (r ∈ omap to_reachable (omap arrival tr)) as (d & Hd & Heq)%list_elem_of_omap.
    { rewrite Hr. apply elem_of_app. left. apply list_elem_of_omap. by eexists. }
    destruct d; try done. injection Heq as ->. exact (Harr _ Hd).
Qed.

Lemma sourced_dotless tr (l : Loop R Ip M C Q) :
  sourced tr → accounted tr l → Forall dotless_label tr.
Proof.
  intros Hs Ha. apply Forall_forall. intros [e|t|] Hin; try done.
  pose proof (took_sourced _ _ _ Hs Ha Hin) as Ht. destruct t; cbn in *; naive_solver.
Qed.

(** Every message that arrived is among what some handler published. *)
Definition delivered g tr : Prop :=
  ∀ topic payload, LRead (Incoming topic payload) ∈ tr → ∃ n, (topic, payload) ∈ published_on g n.

(** Each handler has published messages of its own network only. *)
Definition own_networks g : Prop :=
  ∀ n m, m ∈ published_on g n → produced n m.

(** A reachable message that marci took is a report of the handler of its network. *)
Lemma took_report g tr (l : Loop R Ip M C Q) r :
  own_networks g → delivered g tr → accounted tr l →
  LTook (TookReachable r) ∈ tr → handled_report g tr r.
Proof.
  intros Hown Hdel (_ & Hr & _) Ht.
  assert (r ∈ omap to_reachable (omap arrival tr)) as (d & (lab & Hin & Harr)%list_elem_of_omap & Heq)%list_elem_of_omap.
  { rewrite Hr. apply elem_of_app. left. apply list_elem_of_omap. by eexists. }
  destruct d; try done. injection Heq as ->. destruct lab as [[topic payload| | | |]| |]; try done.
  destruct (Hdel _ _ Hin) as [n Hn]. pose proof (Hown _ _ Hn) as Hp. cbn in Harr.
  destruct (produced_dispatch n topic payload _ Hp Harr) as (_ & Hnet & Hfrom).
  destruct (produced_reachable _ _ _ _ Hp Harr) as [-> ->]. split_and!; [done| |done].
  by rewrite Hnet.
Qed.

(** *** What marci sends *)
Lemma network_read n : network_from_string (into_str n) = n.
Proof. by destruct n. Qed.

Lemma request_sound g tr m id payload :
  history (C:=C) cfg tr m → store_ok m → has m (KReachable id) →
  (∀ r, LTook (TookReachable r) ∈ tr → handled_report g tr r) →
  dial_request m id payload → sound_request g tr ("peer/needs_dial", payload).
Proof.
  intros Hh Hok Hid Htook (raw & _ & Hraw & ->). eexists. split; [done|]. cbn [network addresses peer_id]. split.
  - destruct (ok_network _ Hok id Hid) as (n & Hn & _).
    destruct (h_network _ _ _ Hh id _ Hn) as (r & Hr & Hpid & Heq). unfold text_at in Hn. cbn in Hn.
    rewrite Hn. cbn [default from_option]. exists r. split_and!; [by apply Htook|done|].
    unfold Datatypes.id. by rewrite Heq, network_read.
  - intros e (x & Hx%Hraw & He)%list_elem_of_omap.
    destruct (h_endpoint _ _ _ Hh id x Hx) as (e' & (r & Hr & Hpid & Hin) & ->).
    rewrite of_json_text in He. injection He as ->. pose proof (Htook r Hr) as Hrep.
    split; [|by exists r]. destruct Hrep as (_ & _ & (n' & a & rest & _ & _ & Haddr)).
    rewrite Haddr in Hin. by apply list_elem_of_filter in Hin as [? _].
Qed.

(** A handler of marci sends dial requests of what is recorded, and nothing else. *)
Lemma handle_sent t (w : World R Ip M C) :
  config_ok cfg → healthy env w → store_ok (view (w_redis w)) →
  runs (handle env cfg t) w (λ _ w', ∀ m, m ∈ sent (w_mqtt w') → m ∈ sent (w_mqtt w) ∨
    ∃ k payload, m = ("peer/needs_dial", payload) ∧
      (k ∈ dom (view (w_redis w)) ∧ ∃ x, k = "peer.reachable." +:+ x +:+ "") ∧
      dial_request (view (w_redis w)) (key_to_peer_id k) payload).
Proof.
  intros Hc Hw Hok. destruct t as [p|p|r|]; cbn [handle].
  - eapply runs_mono; [by apply online_runs|]. intros _ w' (_ & -> & _). by left.
  - eapply runs_mono; [by apply unknown_runs|]. intros _ w' (_ & -> & _). by left.
  - destruct (is_str_not_set (view (w_redis w)) (peer_id (peer r))) as [Hr Hi]; [apply Hok|].
    eapply runs_mono; [by apply reachable_runs|]. intros _ w' (_ & -> & _). by left.
  - eapply runs_mono; [by apply tick_runs|].
    intros _ w' (_ & _ & keys & payloads & _ & Hkeys & Hall & ->). intros m [?|Hm]%elem_of_app; [by left|right].
    apply list_elem_of_fmap in Hm as (payload & -> & [i Hi]%list_elem_of_lookup).
    destruct (Forall2_lookup_r _ _ _ _ _ Hall Hi) as (id & Hid & Hd).
    apply list_lookup_fmap_Some in Hid as (k & -> & Hk%list_elem_of_lookup_2%Hkeys). eauto.
Qed.

Lemma step_sent (l l' : Loop R Ip M C Q) lab :
  config_ok cfg → sane env l → step env cfg l lab l' →
  ∀ m, m ∈ sent (w_mqtt (l_world l')) → m ∈ sent (w_mqtt (l_world l)) ∨
    ∃ k payload, m = ("peer/needs_dial", payload) ∧
      (k ∈ dom (db l) ∧ ∃ x, k = "peer.reachable." +:+ x +:+ "") ∧
      dial_request (db l) (key_to_peer_id k) payload.
Proof.
  intros Hc [_ Hw Hok _ _ _] Hs.
  destruct Hs as [e l l' _ He|a t l l' _ Ha|? ? ? ? ? ? ? ? ? ? ? _ _ _ Hsent]; [| |cbn; rewrite Hsent; by left].
  - apply read_client in He as [_ ->]. by left.
  - apply select_inv in Ha as (l1 & Hl & _ & -> & _). unfold db in *. rewrite <- Hl in *. clear Hl l.
    pose proof (handle_sent t (l_world l1) Hc Hw Hok) as Hr. revert Hr. unfold runs, resume.
    destruct l1 as [w oq rq uq r x]. cbn [l_world]. by destruct (handle env cfg t w) as [[[]| |] w'].
Qed.

(** The witness set a tick reads an id from is that id's, if the id has no dot. *)
Lemma reachable_key_id tr m k :
  well_typed m → history (C:=C) cfg tr m → Forall dotless_label tr →
  k ∈ dom m → (∃ x, k = "peer.reachable." +:+ x +:+ "") → has m (KReachable (key_to_peer_id k)).
Proof.
  intros Hty Hh Hdot Hk [x ->]. rewrite Str.app_nil_r in *. fold (reachable_peer_key x) in *.
  apply elem_of_dom in Hk. change (has m (KReachable x)) in Hk. pose proof Hk as [e He].
  assert (Str.has_char "." x = false) as Hx.
  { pose proof (Hty _ _ He) as (s & -> & Hs). cbn in Hs. apply set_choose_L in Hs as [y Hy].
    assert (y ∈ witnesses_of x tr) as Hw.
    { apply (h_witness _ _ _ Hh). unfold members, set_at. by rewrite He. }
    unfold witnesses_of in Hw. apply elem_of_list_to_set, list_elem_of_omap in Hw as (lab & Hin & Hl).
    unfold witness_of in Hl. apply bind_Some in Hl as (r & Hr & Hl). case_decide as Hid; [|done].
    rewrite Forall_forall in Hdot. specialize (Hdot _ Hin). destruct lab as [|[]|]; try done.
    injection Hr as ->. by rewrite <- Hid. }
  by rewrite key_to_peer_id_reachable.
Qed.

Lemma sound_request_dialled g tr topic payload (k : Controllers P) :
  sound_request g tr (topic, payload) → (on_message topic payload k).1 ≠ Panic.
Proof.
  intros (node & [= -> ->] & (r & (_ & Hr & _) & _ & Hn) & _). unfold on_message.
  rewrite decide_True, of_json_text by done. rewrite for_each_dial; [done|].
  rewrite <- Hn. intros Hd. rewrite Hd in Hr. by apply elem_of_nil in Hr.
Qed.

(** Nothing published is forgotten, nor anything marci did. *)
Lemma sound_request_mono g g' tr tr' m :
  (∀ n, published_on g n ⊆ published_on g' n) → sound_request g tr m → sound_request g' (tr ++ tr') m.
Proof.
  intros Hg (node & -> & (r & (Ht & Hr & Hf) & Hid & Hn) & He).
  assert (∀ r, handled_report g tr r → handled_report g' (tr ++ tr') r) as Hrep.
  { intros r' (? & ? & ?). split_and!; [set_solver|by apply Hg|done]. }
  exists node. split_and!; [done|exists r; split; [by apply Hrep|done]|].
  intros e Hin. destruct (He e Hin) as (? & r' & ? & ?). split; [done|]. exists r'. split; [by apply Hrep|done].
Qed.

(** *** The invariant *)
Record closed g (w : World R Ip M C) tr : Prop := {
  cl_steps : steps env cfg (start w) tr (g_marci g);
  cl_up : mqtt_up (h_mqtt (g_mirana g)) ∧ mqtt_up (h_mqtt (g_pudge g));
  cl_own : own_networks g;
  cl_delivered : delivered g tr;
  cl_requests m : m ∈ sent (w_mqtt (l_world (g_marci g))) → sound_request g tr m;
  cl_dialer : g_dialer_dead g = false;
}.

Lemma closed_sourced g w tr : closed g w tr → sourced tr.
Proof.
  intros [_ _ Hown Hdel _ _] topic payload Hin. destruct (Hdel _ _ Hin) as [n Hn]. exists n.
  split; [|by apply Hown]. intros ->. by apply elem_of_nil in Hn.
Qed.

Lemma initial_closed g w : initial g w → closed g w [].
Proof.
  intros (Hm & Hw & Hdb & Hsent & Hup1 & Hup2 & Hp1 & Hp2 & Hd). split; try done.
  - rewrite Hm. constructor.
  - intros n m Hin. destruct n; cbn in Hin; [rewrite Hp1 in Hin|rewrite Hp2 in Hin|]; by apply elem_of_nil in Hin.
  - intros topic payload Hin. by apply elem_of_nil in Hin.
  - intros m Hin. rewrite Hm in Hin. cbn in Hin. rewrite Hsent in Hin. by apply elem_of_nil in Hin.
Qed.

Lemma steps_accounted (w : World R Ip M C) tr (l : Loop R Ip M C Q) :
  steps env cfg (start w) tr l → accounted tr l.
Proof. induction 1; [apply start_accounted|by eapply accounted_snoc]. Qed.

(** A callback adds to what its handler published. *)
Lemma closed_callback w tr n c w1 w2 l k x (g := MkState w1 w2 l k x)
    (g' := match n with
           | Mirana => MkState (run_callback (handler_new Mirana) c w1).2 w2 l k x
           | Pudge => MkState w1 (run_callback (handler_new Pudge) c w2).2 l k x
           | Dev => g
           end) :
  closed g w tr → closed g' w (tr ++ []).
Proof.
  intros [Hs [Hup1 Hup2] Hown Hdel Hreq Hd].
  destruct (callbacks_publish (handler_new Mirana) c w1 Hup1) as (Hup1' & Hsub1 & Hnew1).
  destruct (callbacks_publish (handler_new Pudge) c w2 Hup2) as (Hup2' & Hsub2 & Hnew2).
  assert (∀ n', published_on g n' ⊆ published_on g' n') as Hsub by (intros []; by destruct n).
  split; [rewrite app_nil_r; by destruct n|by destruct n| | | |by destruct n].
  - intros n' m Hm. destruct (decide (m ∈ published_on g n')) as [?|Hno]; [by apply Hown|].
    destruct n, n'; try done; cbn in Hm, Hno; [apply Hnew1 in Hm as [?|?]|apply Hnew2 in Hm as [?|?]]; done.
  - intros topic payload. rewrite app_nil_r. intros Hin. destruct (Hdel _ _ Hin) as [n' Hn'].
    exists n'. by apply Hsub.
  - intros m Hm. apply (sound_request_mono g); [done|]. apply Hreq. by destruct n.
Qed.

Lemma closed_marci w tr lab w1 w2 l l' k x (g := MkState w1 w2 l k x) :
  config_ok cfg → healthy env w → view (w_redis w) = ∅ →
  step env cfg l lab l' →
  (∀ topic payload, lab = LRead (Incoming topic payload) → announced g (topic, payload)) →
  closed g w tr → closed (MkState w1 w2 l' k x) w (tr ++ [lab]).
Proof.
  intros Hc Hw Hdb Hl Hann Hcl. pose proof (closed_sourced _ _ _ Hcl) as Hsrc.
  destruct Hcl as [Hs Hup Hown Hdel Hreq Hd]. cbn [g_marci] in Hs.
  assert (steps env cfg (start w) (tr ++ [lab]) l') as Hs' by by eapply steps_snoc.
  split; [done..| | |done].
  - intros topic payload [?|Hin]%elem_of_app; [by apply Hdel|].
    apply list_elem_of_singleton in Hin.
    destruct (Hann _ _ (eq_sym Hin)) as [?|?]; [by exists Mirana|by exists Pudge].
  - cbn [g_marci]. destruct (steps_history env cfg w tr l Hc Hw Hdb Hs) as [Hsane Hh].
    pose proof (sane_store _ _ Hsane) as Hok.
    intros m [?|(key & payload & -> & (Hk & Hx) & Hdial)]%(step_sent l l' lab Hc Hsane Hl).
    { by apply (sound_request_mono g), Hreq. }
    apply (sound_request_mono g (MkState w1 w2 l' k x) tr); [done|].
    eapply request_sound; [exact Hh|done| | |exact Hdial].
    + eapply reachable_key_id; [apply Hok|exact Hh| |done..].
      exact (sourced_dotless tr l Hsrc (steps_accounted w tr l Hs)).
    + intros r Hr. exact (took_report g tr l r Hown Hdel (steps_accounted w tr l Hs) Hr).
Qed.

Lemma closed_step w g tr labs g' :
  config_ok cfg → healthy env w → view (w_redis w) = ∅ →
  closed g w tr → sys_step g labs g' → closed g' w (tr ++ labs).
Proof.
  intros Hc Hw Hdb Hcl Hstep.
  destruct Hstep as [c w1 w2 l k x|c w1 w2 l k x|lab w1 w2 l l' k x Hl Hann|topic payload w1 w2 l k Hin].
  - exact (closed_callback w tr Mirana c w1 w2 l k x Hcl).
  - exact (closed_callback w tr Pudge c w1 w2 l k x Hcl).
  - by apply (closed_marci w tr lab w1 w2 l).
  - destruct Hcl as [Hs Hup Hown Hdel Hreq Hd]. rewrite app_nil_r. split; try done.
    cbn. apply bool_decide_eq_false. by eapply sound_request_dialled, Hreq.
Qed.

Lemma sys_steps_closed w g tr g' :
  config_ok cfg → initial g w → sys_steps g tr g' → closed g' w tr.
Proof.
  intros Hc Hi Hs. pose proof Hi as (_ & Hw & Hdb & _).
  induction Hs as [|tr g1 labs g2 _ IH Hstep]; [by apply initial_closed|by eapply closed_step].
Qed.

(** C3 (safety). The deployed system needs no assumption on messages: as long as
    everything on the broker comes from the handlers of the main and the test
    network and from marci, and whatever remote peers send to these handlers, the
    dial task never panics and marci never leaves its loop. Every message of marci's
    is a request to dial a peer that a report about that very peer put on that
    network; and each of its endpoints is not loopback and was carried by a report
    about that very peer. Such a report was published by the handler of the network
    it names, made from addresses of which the first one is that peer's, and marci
    has handled it. *)
Theorem closed_dialer_safe (w : World R Ip M C) g tr g' :
  config_ok cfg → initial g w → sys_steps g tr g' →
  g_dialer_dead g' = false ∧ l_exit (g_marci g') = None ∧
  ∀ m, m ∈ sent (w_mqtt (l_world (g_marci g'))) → sound_request g' tr m.
Proof.
  intros Hc Hi Hs. pose proof Hi as (_ & Hw & Hdb & _).
  destruct (sys_steps_closed w g tr g' Hc Hi Hs) as [Hst _ _ _ Hreq Hd].
  destruct (steps_history env cfg w tr _ Hc Hw Hdb Hst) as [Hsane _]. split_and!; [done|apply Hsane|done].
Qed.

(** Chrono represents the times that marci's clock shows. *)
Context (clock_in_range : (clock_max ≤ utc_max)%N).


(** *** A scheduler, to run concrete executions *)
Inductive sys_action :=
| DoMirana (c : callback)
| DoPudge (c : callback)
| DoMarci (x : action)
| DoDial (i : nat).

Definition allowed g (lab : label) : bool :=
  match lab with
  | LRead (Incoming topic payload) => bool_decide (announced g (topic, payload))
  | _ => true
  end.

Definition sys_act (x : sys_action) g : option (list label * state) :=
  let '(MkState w1 w2 l k dead) := g in
  match x with
  | DoMirana c => Some ([], MkState (run_callback (handler_new Mirana) c w1).2 w2 l k dead)
  | DoPudge c => Some ([], MkState w1 (run_callback (handler_new Pudge) c w2).2 l k dead)
  | DoMarci x =>
      '(lab, l') ← act env cfg x l;
      if allowed g lab then Some ([lab], MkState w1 w2 l' k dead) else None
  | DoDial i =>
      m ← sent (w_mqtt (l_world l)) !! i;
      if dead then None
      else Some ([], MkState w1 w2 l (on_message m.1 m.2 k).2
                   (bool_decide ((on_message (P:=P) m.1 m.2 k).1 = Panic)))
  end.

Fixpoint sys_exec (xs : list sys_action) tr g : option (list label * state) :=
  match xs with
  | [] => Some (tr, g)
  | x :: xs => '(labs, g') ← sys_act x g; sys_exec xs (tr ++ labs) g'
  end.

Lemma sys_act_step x g labs g' : sys_act x g = Some (labs, g') → sys_step g labs g'.
Proof.
  destruct g as [w1 w2 l k dead], x as [c|c|x|i]; cbn [sys_act].
  - intros [= <- <-]. constructor.
  - intros [= <- <-]. constructor.
  - intros Ha. apply bind_Some in Ha as ([lab l'] & Hact & Ha). destruct (allowed _ lab) eqn:Hok; [|done].
    injection Ha as <- <-. constructor; [exact (act_step env cfg x l lab l' Hact)|]. intros topic payload ->.
    by apply bool_decide_eq_true in Hok.
  - intros Ha. apply bind_Some in Ha as ([topic payload] & Hm & Ha). destruct dead; [done|].
    injection Ha as <- <-. constructor. by eapply list_elem_of_lookup_2.
Qed.

Lemma sys_exec_steps xs g0 tr g tr' g' :
  sys_steps g0 tr g → sys_exec xs tr g = Some (tr', g') → sys_steps g0 tr' g'.
Proof.
  revert tr g. induction xs as [|x xs IH]; intros tr g Hs; cbn [sys_exec]; [by intros [= <- <-]|].
  intros Hx. apply bind_Some in Hx as ([labs g1] & Ha & Hx). apply (IH (tr ++ labs) g1); [|done].
  eapply sys_snoc; [done|exact (sys_act_step x g labs g1 Ha)].
Qed.
End System.
