(* ===== verification/Startup.v ===== *)
(** * Startup: the three [main] functions

    From the environment or the command line to the loops: connections to the broker
    and the database, subscriptions, the channels and the workers. Each program
    subscribes to what it handles, and marci, once started, keeps running. *)
From S2P Require Import Prelude RustStd RustNet Types Compress Protocols Network Redis Services Keys IpInfo.
From S2P Require Import Message Handler Dialer.
From S2P Require Import Marci MarciSpec MarciInv MarciLoop Broker.
From S2P Require Import Exposed ExposedSpec ExposedWorkers MarciHistory System ClosedSystem.
From Stdlib Require Strings.Byte.

(** [redis::Client::open] and [get_multiplexed_async_connection]. *)
Class RedisClient (D R : Type) `{Redis R} := {
  client_open : string → result D (redis_error R);
  client_connection : D → result R (redis_error R);
}.

(** The broker's address and credentials, which the two programs share. *)
Section Environment.
Context (env : string → option string).
Definition mqtt_url : string := default "mqtt:1883" (env "MQTT_URL").
Definition mqtt_user : string := default "ckb" (env "MQTT_USER").
Definition mqtt_pass : string := default "ckbdiscovery" (env "MQTT_PASS").
Definition redis_url : string := default "redis://:CkBdIsCoVeRy@redis" (env "REDIS_URL").

Definition connect_options (keep_alive : N) : ConnectOptions := {|
  clean_start := true;
  keep_alive_interval := keep_alive;
  automatic_reconnect := (500, 2000)%N;
  user_name := mqtt_user;
  password := mqtt_pass;
  session_expiry_interval := 5000;
|}.
End Environment.

Definition QOS_1 : N := 1.

(** ** marci *)

(** What [main] may return as a boxed error. *)
Inductive MainError (R M : Type) `{Redis R} `{Mqtt M} :=
| ParseIntError
| Boxed (e : MarciError R M).
Arguments ParseIntError {R M _ _}.
Arguments Boxed {R M _ _} e.

Definition topics : list string := ["peer/online"; "peer/reachable"; "peer/unknown"; "peer/online2"].

Section Marci.
Context {D R I B C : Type} {Q : Type → Type}.
Context `{RedisClient D R} `{IpService I} `{Broker B} `{Clock C} `{Mpsc Q}.
Context (env : string → option string).
#[local] Existing Instance whole_lens.

Abbreviation main := (comp B (MainError R B)).

Definition marci_create_options : CreateOptions := {|
  server_uri := mqtt_url env; max_buffered_messages := 1000; client_id := "MARCI_v5" |}.

Definition question_mqtt {A} (r : result A (mqtt_error B)) : main A := question (Boxed ∘ BoxedMqtt) r.
Definition question_redis {A} (r : result A (redis_error R)) : main A := question (Boxed ∘ BoxedRedis) r.

(** Up to the task that reads messages: the configuration and the connection. *)
Definition marci_setup : main (Config * R) :=
  cfg ← match load_config env with Some cfg => mret cfg | None => raise ParseIntError end;
  mqtt_client ← call (client_new marci_create_options);
  unwrap_result mqtt_client;;
  connected ← call (client_connect (connect_options env 100));
  question_mqtt connected;;
  let qos := [QOS_1; QOS_1; QOS_1; QOS_1] in
  let sub_opts := replicate (length topics) with_retain_as_published in
  subscribed ← call (client_subscribe_many topics qos sub_opts);
  question_mqtt subscribed;;
  redis_client ← question_redis (client_open (redis_url env));
  con ← question_redis (client_connection (D:=D) redis_client);
  mret (cfg, con).

(** [tokio::time::interval], which panics on an empty period. *)
Definition interval (secs : N) : main unit := if decide (secs = 0%N) then panic else mret tt.

(** The two statics, before their first use. *)
Definition statics : IpState I := {| ipinfo_cache := ∅; ipinfo_cell := None |}.

(** The state the tasks start in; the client's clones are the broker itself. *)
Definition start_tasks (con : R) (clock : C) : main (Loop R I B C Q) := λ b,
  (Ret (start (MkWorld con statics b clock)), b).

(** [main] up to its loop. *)
Definition marci_main (clock : C) : main (Config * Loop R I B C Q) :=
  '(cfg, con) ← marci_setup;
  interval (marci_broadcast_interval cfg);;
  tasks ← start_tasks con clock;
  mret (cfg, tasks).
End Marci.

(** ** The discovery program *)
Inductive DiscoveryError (B : Type) `{Mqtt B} :=
| MqttFailed (e : mqtt_error B)
| JoinError.
Arguments MqttFailed {B _} e.
Arguments JoinError {B _}.

Section Discovery.
Context {P B : Type} `{MultiaddrLib} `{!P2p P} `{Broker B} `{Snap} `{Json NodeMetaInfo} `{ServiceLib}.
Context (env : string → option string).
#[local] Existing Instance whole_lens.

Abbreviation main := (comp B (DiscoveryError B)).

Definition discovery_create_options (nanoid : string) : CreateOptions := {|
  server_uri := mqtt_url env; max_buffered_messages := 500; client_id := "ckb-discovery-" +:+ nanoid |}.

(** Up to the two tasks: the services, each with its handler. *)
Definition discovery_setup (nanoid : string) (key1 key2 : SecioKeyPair) :=
  (mqtt_client ← call (client_new (discovery_create_options nanoid));
   unwrap_result mqtt_client;;
   connected ← call (client_connect (connect_options env 300));
   question MqttFailed connected;;
   subscribed ← call (client_subscribe "peer/needs_dial" QOS_1);
   question MqttFailed subscribed;;
   mret (services key1 key2) : main _).

(** [task.await]: a panic of the task is an error. *)
Definition join {A} (o : outcome Empty_set A) : result A (DiscoveryError B) :=
  match o with Ret a => Ok a | Raise e => match e with end | Panic => Err JoinError end.

(** The message task is handed the client that [main] has set up. *)
Definition spawned (fuel : nat) (events : list stream_event) (k : Controllers P) :
  main (outcome Empty_set progress) := λ b,
  let '(o, w) := mqtt_task fuel events (MkTaskWorld k b) in (Ret o, t_client w).

(** [main], when the stream yields [events] and ends and the services' [select!] makes
    [rounds]: [mqtt_tx.await?], then [service_tx.await?]. *)
Definition discovery_main (nanoid : string) (key1 key2 : SecioKeyPair) (fuel : nat)
    (events : list stream_event) (rounds : list service_event) (k : Controllers P) : main progress :=
  discovery_setup nanoid key1 key2;;
  mqtt_tx ← spawned fuel events k;
  mqtt_end ← question id (join mqtt_tx);
  match mqtt_end with
  | StillRunning => mret StillRunning
  | Finished => question id (join (service_task rounds))
  end.
End Discovery.

(** ** exposed *)

(** What [clap] found of the two options. *)
Record Matches := { given_redis : option string; given_bind : option string }.

Section Exposed.
Context {D R C IoError : Type} `{RedisClient D R} `{TextLib}.
(** [HttpServer::bind], and the workers it starts. *)
Context (bind_address : string → result unit IoError) (workers : nat).

Definition exposed_main (matches : Matches) (clock : C) : outcome IoError (server R C) :=
  let bind := default "0.0.0.0:1800" (given_bind matches) in
  let redis_url := default "redis://:CkBdIsCoVeRy@127.0.0.1" (given_redis matches) in
  match client_open redis_url with
  | Err _ => Panic
  | Ok redis_client =>
      match client_connection (D:=D) redis_client with
      | Err _ => Panic
      | Ok con =>
          match bind_address bind with
          | Err e => Raise e
          | Ok _ => Ret (start_server con clock workers)
          end
      end
  end.
End Exposed.

(** ** Properties *)
Section MarciProperties.
Context {D R I B C : Type} {Q : Type → Type}.
Context `{RedisLaws R} `{!RedisClient D R} `{IpService I} `{BrokerLaws B} `{Clock C} `{MpscLaws Q}.
Context `{JsonLaws EndpointInfo} `{JsonLaws NodeMetaInfo} `{JsonLaws PeerInfo} `{JsonLaws ReachableInfo}.
Context (env : string → option string).
Implicit Types (b : B) (con : R) (clock : C) (cfg : Config).

(** The three calls succeed, one after the other. *)
Definition subscribed b b' : Prop :=
  ∃ b1 b2, client_new (marci_create_options env) b = (Ok tt, b1) ∧
    client_connect (connect_options env 100) b1 = (Ok tt, b2) ∧
    client_subscribe_many topics [QOS_1; QOS_1; QOS_1; QOS_1]
      (replicate 4 with_retain_as_published) b2 = (Ok tt, b').

Definition redis_reached con : Prop :=
  ∃ d : D, client_open (redis_url env) = Ok d ∧ client_connection d = Ok con.

(** The database is out of reach: the address is refused, or the connection. *)
Definition redis_fails (e : redis_error R) : Prop :=
  client_open (D:=D) (redis_url env) = Err e ∨
  ∃ d : D, client_open (redis_url env) = Ok d ∧ client_connection d = Err e.

(** The outcomes of [main], in the order of its calls. *)
Lemma marci_main_eq clock b :
  marci_main (D:=D) (I:=I) (Q:=Q) env clock b =
  match load_config env with
  | None => (Raise ParseIntError, b)
  | Some cfg =>
      match client_new (marci_create_options env) b with
      | (Err _, b) => (Panic, b)
      | (Ok _, b) =>
          match client_connect (connect_options env 100) b with
          | (Err e, b) => (Raise (Boxed (BoxedMqtt e)), b)
          | (Ok _, b) =>
              match client_subscribe_many topics [QOS_1; QOS_1; QOS_1; QOS_1]
                (replicate 4 with_retain_as_published) b with
              | (Err e, b) => (Raise (Boxed (BoxedMqtt e)), b)
              | (Ok _, b) =>
                  match client_open (redis_url env) with
                  | Err e => (Raise (Boxed (BoxedRedis e)), b)
                  | Ok d =>
                      match client_connection (D:=D) d with
                      | Err e => (Raise (Boxed (BoxedRedis e)), b)
                      | Ok con =>
                          (if decide (marci_broadcast_interval cfg = 0%N) then Panic
                           else Ret (cfg, start (MkWorld con statics b clock)), b)
                      end
                  end
              end
          end
      end
  end.
Proof.
  unfold marci_main, marci_setup, mbind, comp_bind, call. cbn [lget lset whole_lens].
  destruct (load_config env) as [cfg|]; [|done]. cbn [mret comp_ret].
  destruct (client_new _ b) as [[[]|e] b1]; [|done]. cbn.
  destruct (client_connect _ b1) as [[[]|e] b2]; [|done]. cbn.
  destruct (client_subscribe_many _ _ _ b2) as [[[]|e] b3]; [|done]. cbn.
  destruct (client_open (redis_url env)) as [d|e]; [|done]. cbn.
  destruct (client_connection d) as [con|e]; [|done]. cbn.
  unfold interval. by case_decide.
Qed.

(** A call that fails in one of the two descriptions. *)
Ltac stuck :=
  split; [done|intros (? & ? & (? & ? & ? & ? & ?) & ? & (? & ? & ?) & ?); congruence].

Lemma marci_main_returns clock b cfg l b' :
  marci_main (D:=D) (I:=I) (Q:=Q) env clock b = (Ret (cfg, l), b') ↔
  load_config env = Some cfg ∧ marci_broadcast_interval cfg ≠ 0%N ∧ subscribed b b' ∧
  ∃ con, redis_reached con ∧ l = start (MkWorld con statics b' clock).
Proof.
  rewrite marci_main_eq. unfold subscribed, redis_reached.
  destruct (load_config env) as [cfg'|]; [|naive_solver].
  destruct (client_new _ b) as [[[]|e] b1] eqn:E1; [|stuck].
  destruct (client_connect _ b1) as [[[]|e] b2] eqn:E2; [|stuck].
  destruct (client_subscribe_many _ _ _ b2) as [[[]|e] b3] eqn:E3; [|stuck].
  destruct (client_open (redis_url env)) as [d|e] eqn:E4; [|stuck].
  destruct (client_connection d) as [con|e] eqn:E5; [|stuck].
  split.
  - case_decide; [done|]. intros [= -> <- <-]. split_and!; try done; [by exists b1, b2|].
    exists con. split; [by exists d|done].
  - intros (Hcfg & Hi & (b1' & b2' & Hn & Hc & Hs) & con' & (d' & Hd & Hcon) & ->).
    rewrite decide_False by congruence. congruence.
Qed.

(** C27 (error). When marci starts, and how it does not, whatever the services do. It
    reaches its loop exactly if the five numbers in the environment parse, the broker
    takes the connection and the four subscriptions, the database is reached and the
    broadcast interval is not zero; the tasks then start with empty channels and empty
    statics. Otherwise the first call that fails decides: a number that does not
    parse is returned as an error before anything is contacted; a client that cannot
    be created is a panic; a refused connection or subscription is returned as the
    broker's error, a database out of reach as Redis's; and an interval of zero panics
    after everything else succeeded. *)
Theorem marci_start_outcomes clock b :
  let main := marci_main (D:=D) (I:=I) (Q:=Q) env clock b in
  (∀ cfg l b', main = (Ret (cfg, l), b') ↔
     load_config env = Some cfg ∧ marci_broadcast_interval cfg ≠ 0%N ∧ subscribed b b' ∧
     ∃ con, redis_reached con ∧ l = start (MkWorld con statics b' clock)) ∧
  (load_config env = None → main = (Raise ParseIntError, b)) ∧
  (∀ cfg, load_config env = Some cfg →
     (∀ e b1, client_new (marci_create_options env) b = (Err e, b1) → main = (Panic, b1)) ∧
     (∀ b1, client_new (marci_create_options env) b = (Ok tt, b1) →
        (∀ e b2, client_connect (connect_options env 100) b1 = (Err e, b2) →
           main = (Raise (Boxed (BoxedMqtt e)), b2)) ∧
        (∀ b2 e b3, client_connect (connect_options env 100) b1 = (Ok tt, b2) →
           client_subscribe_many topics [QOS_1; QOS_1; QOS_1; QOS_1]
             (replicate 4 with_retain_as_published) b2 = (Err e, b3) →
           main = (Raise (Boxed (BoxedMqtt e)), b3))) ∧
     (∀ b', subscribed b b' →
        (∀ e, redis_fails e → main = (Raise (Boxed (BoxedRedis e)), b')) ∧
        (∀ con, redis_reached con → marci_broadcast_interval cfg = 0%N → main = (Panic, b')))).
Proof.
  cbv zeta. split; [intros; apply marci_main_returns|]. rewrite marci_main_eq.
  split; [by intros ->|]. intros cfg ->. split_and!.
  - by intros e b1 ->.
  - intros b1 ->. split; [by intros e b2 ->|]. by intros b2 e b3 -> ->.
  - intros b' (b1 & b2 & -> & -> & ->). split.
    + by intros e [->|(d & -> & ->)].
    + intros con (d & -> & ->) Hi. by rewrite decide_True.
Qed.

Lemma subscribed_runs b :
  reachable_at (mqtt_url env) (mqtt_user env) (mqtt_pass env) b →
  ∃ b', subscribed b b' ∧ mqtt_up b'.
Proof.
  intros Hr. destruct (new_law (marci_create_options env) _ _ b Hr) as (b1 & H1' & Hc).
  destruct (connect_law (connect_options env 100) b1 Hc) as (b2 & H2' & Hup).
  destruct (subscribe_many_law topics [QOS_1; QOS_1; QOS_1; QOS_1]
    (replicate 4 with_retain_as_published) b2 Hup eq_refl eq_refl) as (b3 & H3' & Hup').
  exists b3. split; [|done]. by exists b1, b2.
Qed.

Lemma subscribed_topics b b' : subscribed b b' → subscriptions b' = topics ∧ sent b' = [].
Proof.
  intros (b1 & b2 & [Hs1 Hm1]%new_fresh & [Hs2 Hm2]%connect_keeps & [Hs3 Hm3]%subscribe_many_adds).
  rewrite Hs3, Hs2, Hs1, Hm3, Hm2, Hm1. done.
Qed.

(** C9 (liveness). From the environment to any moment of its life: with the broker
    and the database reachable, timeouts that the database accepts and an interval
    that is not zero, [main] reaches its loop subscribed to its four topics, and from
    there on no execution makes it leave the loop or breaks the database. *)
Theorem marci_starts_and_runs clock b cfg con :
  load_config env = Some cfg → config_ok cfg → marci_broadcast_interval cfg ≠ 0%N →
  reachable_at (mqtt_url env) (mqtt_user env) (mqtt_pass env) b →
  redis_reached con → up con → store_ok (view con) → ip_ready (I:=I) env statics →
  runs (marci_main (D:=D) (I:=I) (Q:=Q) env clock) b (λ r b',
    r.1 = cfg ∧ subscriptions b' = topics ∧ sent b' = [] ∧ db r.2 = view con ∧
    ∀ tr st, steps env cfg r.2 tr st → l_exit st = None ∧ store_ok (db st)).
Proof.
  intros Hl Hc Hi Hb (d & Hd & Hcon) Hup Hok Hip.
  destruct (subscribed_runs b Hb) as (b' & Hs & Hup').
  pose proof (subscribed_topics b b' Hs) as [Hsub Hsent]. destruct Hs as (b1 & b2 & E1 & E2 & E3).
  unfold runs. rewrite marci_main_eq, Hl, E1, E2, E3, Hd, Hcon, decide_False by done.
  split_and!; try done. intros tr st Hst.
  assert (healthy env (MkWorld con statics b' clock)) as Hw by done.
  by destruct (steps_sane env cfg _ _ _ Hc (start_sane env _ Hw Hok) Hst).
Qed.
End MarciProperties.

Section DiscoveryProperties.
Context {P B : Type} `{MultiaddrLib} `{!P2p P} `{BrokerLaws B} `{Snap} `{Json NodeMetaInfo} `{ServiceLib}.
Context (env : string → option string).
Implicit Types (b : B) (k : Controllers P).

(** The message task only ever panics, unless it still tries to reconnect. *)
Lemma mqtt_task_ends fuel events (w : TaskWorld P B) :
  (mqtt_task fuel events w).1 = Panic ∨
  ((mqtt_task fuel events w).1 = Ret StillRunning ∧ StreamLost ∈ events).
Proof.
  revert w. induction events as [|[topic payload|] events IH]; intros w; [by left|..];
    cbn [mqtt_task]; unfold mbind, comp_bind.
  - unfold zoom. destruct (on_message topic payload _) as [[[]|[]|] k']; [|by left].
    destruct (IH (lset k' w)) as [?|[? ?]]; [by left|right]. split; [done|by apply list_elem_of_further].
  - destruct (reconnect_loop fuel 0 w) as [[[n|]|[]|] w']; [|right|by left].
    + destruct (IH w') as [?|[? ?]]; [by left|right]. split; [done|by apply list_elem_of_further].
    + split; [done|apply list_elem_of_here].
Qed.

(** The discovery program cannot end well: whatever its message task is given, and
    however its services end, [main] does not return [Ok]. Once it is set up, it
    returns the join error of the message task, which has panicked, unless that task
    still tries to reconnect. *)
Lemma discovery_ends_in_error nanoid key1 key2 fuel events rounds k b :
  let r := discovery_main env nanoid key1 key2 fuel events rounds k b in
  r.1 ≠ Ret Finished ∧
  ∀ s b', discovery_setup env nanoid key1 key2 b = (Ret s, b') →
    r.1 = Raise JoinError ∨ (r.1 = Ret StillRunning ∧ StreamLost ∈ events).
Proof.
  intros r. unfold r, discovery_main.
  destruct (discovery_setup env nanoid key1 key2 b) as [[s|e|] b'] eqn:Hs.
  - rewrite (bind_ret _ _ _ _ _ Hs). unfold spawned.
    pose proof (mqtt_task_ends fuel events (MkTaskWorld k b')) as Hm. unfold mbind, comp_bind.
    destruct (mqtt_task fuel events (MkTaskWorld k b')) as [o w]. cbn [fst] in Hm.
    destruct Hm as [->|[-> ?]]; cbn; (split; [done|]); intros; [by left|by right].
  - rewrite (bind_raise _ _ _ _ _ Hs). by split.
  - rewrite (bind_panic _ _ _ _ Hs). by split.
Qed.

Lemma discovery_subscribed nanoid key1 key2 s b b' :
  discovery_setup env nanoid key1 key2 b = (Ret s, b') →
  s = services key1 key2 ∧ subscriptions b' = ["peer/needs_dial"] ∧ sent b' = [].
Proof.
  unfold discovery_setup, mbind, comp_bind, call. cbn [lget lset whole_lens].
  destruct (client_new _ b) as [[[]|e] b1] eqn:E1; [|done]. cbn.
  destruct (client_connect _ b1) as [[[]|e] b2] eqn:E2; [|done]. cbn.
  destruct (client_subscribe _ _ b2) as [[[]|e] b3] eqn:E3; [|done]. cbn.
  intros [= <- <-]. apply new_fresh in E1 as [Hs1 Hm1]. apply connect_keeps in E2 as [Hs2 Hm2].
  apply subscribe_adds in E3 as [Hs3 Hm3]. rewrite Hs3, Hs2, Hs1, Hm3, Hm2, Hm1. done.
Qed.
End DiscoveryProperties.

Section Topics.
Context {D R I B B' C P : Type} {Q : Type → Type}.
Context `{RedisLaws R} `{!RedisClient D R} `{IpService I} `{BrokerLaws B} `{BrokerLaws B'}.
Context `{Clock C} `{MpscLaws Q} `{MultiaddrLaws} `{!P2p P} `{Packed} `{Snap} `{ServiceLib}.
Context `{JsonLaws EndpointInfo} `{JsonLaws NodeMetaInfo} `{JsonLaws PeerInfo} `{JsonLaws ReachableInfo}.
Context (env env' : string → option string).

Lemma dispatch_topic topic payload d : dispatch topic payload = Some d → topic ∈ topics.
Proof.
  unfold dispatch, topics. set_unfold. repeat case_decide; auto. done.
Qed.

Lemma topic_dispatched topic : topic ∈ topics → ∃ payload d, dispatch topic payload = Some d.
Proof.
  set (node := {| peer_id := ""; addresses := []; network := Mirana |}).
  set (info := {| info := node; version := ""; full := true; is_ex := false |}).
  intros Ht. unfold topics in Ht. set_unfold in Ht. unfold dispatch.
  destruct Ht as [-> |[-> |[-> |[-> |[]]]]].
  - exists (json_text info). eexists. by rewrite decide_True, of_json_text.
  - exists (json_text (reachable_info_new node node)). eexists.
    repeat rewrite decide_False by done. by rewrite decide_True, of_json_text.
  - exists (json_text node). eexists.
    repeat rewrite decide_False by done. by rewrite decide_True, of_json_text.
  - exists (json_text info). eexists. rewrite decide_False by done. by rewrite decide_True, of_json_text.
Qed.

Lemma produced_dispatched n topic payload :
  produced n (topic, payload) → is_Some (dispatch topic payload).
Proof.
  unfold dispatch.
  intros [(a & v & f & [= -> ->])|[(a & rest & x & [= -> ->])|(a & [= -> ->])]];
    repeat (rewrite decide_False by done); rewrite decide_True by done; rewrite of_json_text; by eexists.
Qed.

(** C17 (safety). Once both programs are set up, each publishes what the other one is
    subscribed to and handles. Marci's subscriptions are exactly the topics for which
    some payload is dispatched; whatever a callback of the discovery program's handler
    adds to what it published, on any network and in any state, is on one of these
    topics and is dispatched. Whatever a handler of marci sends is on a topic that the
    discovery program is subscribed to and reads as a peer to dial; and a message on
    any other topic would have no effect there. *)
Theorem topics_meet clock nanoid key1 key2 (b b' : B) (d d' : B') cfg l s :
  marci_main (D:=D) (I:=I) (Q:=Q) (C:=C) env clock b = (Ret (cfg, l), b') →
  discovery_setup env' nanoid key1 key2 d = (Ret s, d') →
  (∀ topic, topic ∈ subscriptions b' ↔ ∃ payload x, dispatch topic payload = Some x) ∧
  (∀ self c (w : HWorld P B') m, mqtt_up (h_mqtt w) →
     m ∈ published (run_callback self c w).2 → m ∈ published w ∨
       m.1 ∈ subscriptions b' ∧ is_Some (dispatch m.1 m.2)) ∧
  (∀ t (w : World R I B C), config_ok cfg → healthy env w → store_ok (view (w_redis w)) →
     runs (handle env cfg t) w (λ _ w', ∀ m, m ∈ sent (w_mqtt w') → m ∈ sent (w_mqtt w) ∨
       m.1 ∈ subscriptions d' ∧ is_Some (of_json (A:=NodeMetaInfo) m.2))) ∧
  (∀ topic payload (k : Controllers P), topic ∉ subscriptions d' →
     on_message topic payload k = (Ret tt, k)).
Proof.
  intros Hm Hd. destruct (discovery_subscribed env' nanoid key1 key2 s d d' Hd) as (_ & Hsub' & _).
  apply marci_main_returns in Hm as (_ & _ & [Hsub _]%subscribed_topics & _).
  rewrite Hsub, Hsub'. split_and!.
  - intros topic. split; [apply topic_dispatched|]. intros (payload & x & Hx). by eapply dispatch_topic.
  - intros self c w m Hup Hp. destruct (callbacks_publish self c w Hup) as (_ & _ & Hnew).
    destruct (Hnew m Hp) as [?|Hprod]; [by left|right]. destruct m as [topic payload].
    destruct (produced_dispatched _ _ _ Hprod) as [x Hx]. split; [by eapply dispatch_topic|by exists x].
  - intros t w Hc Hw Hok. eapply runs_mono; [by apply handle_sent|].
    intros [] w' Hs m [?|(k & payload & -> & _ & (raw & _ & _ & ->))]%Hs; [by left|right].
    split; [apply list_elem_of_here|]. cbn. rewrite of_json_text. by eexists.
  - intros topic payload k Ht. unfold on_message. rewrite decide_False; [done|].
    intros ->. apply Ht, list_elem_of_here.
Qed.
End Topics.

Section ExposedProperties.
Context {D R C IoError : Type} `{RedisClient D R} `{TextLib}.
Context (bind_address : string → result unit IoError) (workers : nat).

(** A database out of reach is a panic, an address that cannot be bound an error;
    otherwise the workers start, each with an empty list of the year 1970. *)
Lemma exposed_main_outcomes matches (clock : C) :
  let r := exposed_main (D:=D) bind_address workers matches clock in
  (r = Panic ↔ ∀ con, ¬ ∃ d : D,
     client_open (default "redis://:CkBdIsCoVeRy@127.0.0.1" (given_redis matches)) = Ok d ∧
     client_connection d = Ok con) ∧
  (∀ v, r = Ret v → is_ok (bind_address (default "0.0.0.0:1800" (given_bind matches))) = true ∧
     v_workers v = replicate workers (Cache [] 0) ∧ v_requests v = ∅).
Proof.
  intros r. unfold r, exposed_main. cbv zeta.
  destruct (client_open _) as [d|e]; [|split; [split; [intros _ con (d & ? & _)|]|]; done].
  destruct (client_connection d) as [con|e] eqn:Hc.
  - split; [split; [by destruct (bind_address _)|]|].
    + intros Hno. destruct (Hno con). by exists d.
    + destruct (bind_address _) as [u|e]; [|done]. by intros v [= <-].
  - split; [split; [|done]|done]. intros _ con (d' & [= <-] & ?). congruence.
Qed.
End ExposedProperties.
