(* ===== verification/MarciExample.v ===== *)
(** * MarciExample: marci on concrete services

    The handlers run on a database that is a finite map, a location service that
    knows one address, a broker that logs and a fixed clock; the theorems of
    MarciSpec are applied there. *)
From S2P Require Import Prelude RustStd RustNet Types JsonModel Redis RedisMap Services Broker Keys IpInfo.
From S2P Require Import Marci MarciSpec MarciInv MarciLoop MarciHistory.
From Stdlib Require Import Ascii.
Import OneAddress.

Abbreviation world := (World store nat (list (string * string)) Z).

(** The configuration marci starts with when no variable is set. *)
Definition default_config : Config := {|
  ckb_node_default_timeout := 5184000;
  ckb_node_ex_timeout := 86400;
  ckb_node_unknown_default_timeout := 1209600;
  ckb_node_default_witnesses := 3;
  marci_broadcast_interval := 180;
|}.

Definition start_world : world := {|
  w_redis := ∅; w_ip := fresh_state; w_mqtt := []; w_clock := 1700000000000000000%Z |}.

Definition online_message : PeerInfo :=
  {| info := node; version := "0.116.1 (abc 2024-01-01)"; full := true; is_ex := false |}.
Definition reported_by (id : string) : ReachableInfo :=
  reachable_info_new node {| peer_id := id; addresses := []; network := Mirana |}.

Example load_config_defaults : load_config no_env = Some default_config.
Proof. vm_compute. reflexivity. Qed.

Lemma start_healthy : healthy no_env start_world.
Proof. by repeat split. Qed.
Lemma default_config_ok : config_ok (R:=store) default_config.
Proof. by repeat split. Qed.

Lemma handle_online_refines_witness :
  runs (handle_online no_env default_config online_message) start_world (λ _ w',
    healthy no_env w' ∧ w_mqtt w' = [] ∧
    w_redis w' = online_spec default_config online_message None 1700000000 ∅).
Proof.
  pose proof (handle_online_refines no_env default_config online_message start_world
    default_config_ok start_healthy) as Hr.
  exact Hr.
Defined.

Lemma handle_unknown_refines_witness :
  runs (handle_unknown default_config node) start_world (λ _ w',
    healthy no_env w' ∧ w_mqtt w' = [] ∧
    w_redis w' = unknown_spec default_config node 1700000000 ∅).
Proof.
  exact (handle_unknown_refines no_env default_config node start_world
    default_config_ok start_healthy).
Defined.

Lemma handle_reachable_refines_witness :
  runs (handle_reachable no_env reachable) start_world (λ _ w',
    healthy no_env w' ∧ w_mqtt w' = [] ∧
    w_redis w' = reachable_spec reachable (Some details) 1700000000 1700000000 ∅).
Proof.
  pose proof (handle_reachable_refines no_env reachable start_world start_healthy) as Hr.
  exact (Hr id id).
Defined.

Lemma handlers_type_sound_witness :
  decodable ∅ ∧
  runs (handle no_env default_config (TookReachable reachable)) start_world (λ _ w',
    healthy no_env w' ∧ well_typed (view (w_redis w')) ∧ decodable (view (w_redis w'))).
Proof.
  exact (handlers_type_sound no_env default_config (TookReachable reachable) start_world
    default_config_ok start_healthy (ok_typed _ store_ok_empty)).
Defined.

Definition one_reachable : world := {|
  w_redis := {[ reachable_peer_key "QmPH" := Entry (RSet {[ "QmB" ]}) None ]};
  w_ip := fresh_state; w_mqtt := []; w_clock := 1700000000000000000%Z |}.

Lemma handle_tick_refines_witness :
  runs handle_tick one_reachable (λ _ w',
    healthy no_env w' ∧
    view (w_redis w') = tick_spec (unix_secs (clock_now (w_clock one_reachable)).1) (view (w_redis one_reachable)) ∧
    ∃ ids payloads,
      NoDup ids ∧ (∀ id, id ∈ ids ↔ reachable_peer_key id ∈ dom (view (w_redis one_reachable))) ∧
      Forall2 (dial_request (view (w_redis one_reachable))) ids payloads ∧
      sent (w_mqtt w') = sent (w_mqtt one_reachable) ++ map (pair "peer/needs_dial") payloads).
Proof.
  apply (handle_tick_refines no_env one_reachable); [by repeat split|].
  intros id Hd. assert (id = "QmPH") as ->; [|done]. revert Hd.
  unfold one_reachable. cbn [w_redis view redis_map_laws]. unfold Datatypes.id. rewrite dom_singleton, elem_of_singleton.
  intros Hk. by apply (inj key_string (KReachable id) (KReachable "QmPH")) in Hk as [= ->].
Defined.

(** ** A run: three peers report the node, which is requested at a tick and announced
    unreachable. In between the connection is lost: the request waits in the client,
    and the second attempt to reconnect succeeds. *)
Definition loop_world : World store nat line Z := {|
  w_redis := ∅; w_ip := fresh_state; w_mqtt := Line [] [] [] true 1;
  w_clock := 1700000000000000000%Z |}.
Lemma loop_healthy : healthy no_env loop_world.
Proof. by repeat split. Qed.

Definition deliver (topic payload : string) (a : arm) : list action :=
  [DoRead (Incoming topic payload); DoRead Sent; DoSelect a].

Definition actions : list action :=
  deliver "peer/reachable" (json_text (reported_by "QmB")) ReachableArm ++
  deliver "peer/reachable" (json_text (reported_by "QmC")) ReachableArm ++
  [DoRead Lost; DoSelect TickArm; DoRead (Reconnected false); DoRead (Reconnected true);
   DoRead (Incoming "peer/unknown" "not json")] ++
  deliver "peer/reachable" (json_text (reported_by "QmD")) ReachableArm ++
  deliver "peer/unknown" (json_text node) UnknownArm.

Abbreviation loop := (Loop store nat line Z list_channel).

Definition run : option (list label * loop) :=
  exec no_env default_config actions [] (start loop_world).

(** While the connection is lost an attempt cannot succeed before it does. *)
Example run_refused :
  bool_decide (is_Some (exec no_env default_config [DoRead Lost; DoRead (Reconnected true)] []
    (start (Q:=list_channel) loop_world))) = false.
Proof. vm_compute. reflexivity. Qed.

(** The node is recorded as unknown at the end, and its witnesses are forgotten. *)
Example run_result :
  (λ r, (bool_decide (text_at (db r.2) (KUnknown "QmPH") = Some "unknown"),
         bool_decide (db r.2 !! key_string (KReachable "QmPH") = None),
         length (line_sent (w_mqtt (l_world r.2))), length (line_waiting (w_mqtt (l_world r.2))))) <$> run =
  Some (true, true, 1, 0).
Proof. vm_compute. reflexivity. Qed.

Lemma run_some : is_Some run.
Proof.
  pose proof run_result as Hr. destruct run; [done|discriminate].
Qed.

Lemma run_steps tr st :
  run = Some (tr, st) → steps no_env default_config (start loop_world) tr st.
Proof. apply exec_steps, steps_nil. Qed.

(** [P] holds at the end of the run, which exists. *)
Definition at_end (P : list label → loop → Prop) : Prop :=
  ∃ tr st, run = Some (tr, st) ∧ P tr st.

Lemma at_end_intro (P : list label → loop → Prop) :
  (∀ tr st, steps no_env default_config (start loop_world) tr st → P tr st) → at_end P.
Proof. intros HP. destruct run_some as [[tr st] Hr]. exists tr, st. eauto using run_steps. Qed.

Lemma marci_never_fails_witness :
  at_end (λ _ st, l_exit st = None ∧ healthy no_env (l_world st) ∧ store_ok (db st) ∧
    length (queued (online_q st)) ≤ 100 ∧ length (queued (reachable_q st)) ≤ 500 ∧
    length (queued (unknown_q st)) ≤ 100).
Proof.
  apply at_end_intro. intros tr st Hs.
  exact (marci_never_fails no_env default_config loop_world tr st
    default_config_ok loop_healthy store_ok_empty Hs).
Defined.

Lemma deliveries_in_order_witness : at_end (λ tr st, accounted tr st).
Proof.
  apply at_end_intro. intros tr st Hs.
  exact (deliveries_in_order no_env default_config loop_world tr st Hs).
Defined.

Lemma records_have_sources_witness : at_end (λ tr st,
  history (C:=Z) default_config tr (db st) ∧ places fresh_state tr (db st)).
Proof.
  apply at_end_intro. intros tr st Hs.
  exact (records_have_sources no_env default_config loop_world tr st
    default_config_ok loop_healthy eq_refl Hs).
Defined.

Lemma dial_requests_have_sources_witness :
  at_end (λ tr st, ∃ (st' : loop) (requests : list NodeMetaInfo),
    sent (w_mqtt (l_world st')) =
      sent (w_mqtt (l_world st)) ++ map (pair "peer/needs_dial") (map json_text requests) ∧
    ∀ req e, req ∈ requests → e ∈ addresses req → reported tr (peer_id req) e).
Proof.
  apply at_end_intro. intros tr st Hs.
  destruct (select no_env default_config TickArm st) as [[t st']|] eqn:Ht; [|by destruct st].
  exists st'.
  exact (dial_requests_have_sources no_env default_config loop_world tr st st' t
    default_config_ok loop_healthy eq_refl Hs Ht).
Defined.

Lemma backlog_drains_witness :
  at_end (λ tr st, ∃ arms tr' st', length arms = backlog st ∧
    exec no_env default_config (map DoSelect arms) tr st = Some (tr', st') ∧
    backlog st' = 0 ∧ l_exit st' = None ∧ store_ok (db st')).
Proof.
  apply at_end_intro. intros tr st Hs.
  exact (backlog_drains no_env default_config loop_world tr st
    default_config_ok loop_healthy store_ok_empty Hs).
Defined.
