(* ===== verification/FaultsExample.v ===== *)
(** * FaultsExample: marci on a database with a plan of faults

    The theorems of MarciFaults.v on concrete runs in which commands get lost and
    keys expire while a handler runs. *)
From S2P Require Import Prelude RustStd RustNet Types JsonModel Redis RedisMap RedisFaults.
From S2P Require Import Services Broker Keys IpInfo Marci MarciSpec MarciInv MarciLoop MarciFaults.
From S2P Require Import MarciExample.
From Stdlib Require Import Ascii.
Import OneAddress.

Abbreviation faulty_world := (World faulty_server nat (list (string * string)) Z).

Definition world_on (m : store) (plan : list fault) : faulty_world := {|
  w_redis := {| fs_store := m; fs_plan := plan |};
  w_ip := fresh_state; w_mqtt := []; w_clock := 1700000000000000000%Z |}.

Lemma default_config_fits : config_fits (R:=faulty_server) default_config.
Proof. by repeat split. Qed.
Lemma world_ready m plan : ready no_env (world_on m plan).
Proof. by repeat split. Qed.

Definition holds (m : store) (k : key) : bool :=
  match m !! key_string k with Some _ => true | None => false end.

(** The fifth command of an online message gets lost: the handler leaves, after the
    online record was made and before the time was recorded. *)
Definition online_plan : list fault := [Fine; Late 5; Fine; Fine; Lost_command].

Example online_is_cut_short :
  let r := handle_online no_env default_config online_message (world_on ∅ online_plan) in
  (match r.1 with Raise _ => true | _ => false end, holds (fs_store (w_redis r.2)) (KOnline "QmPH"),
   holds (fs_store (w_redis r.2)) (KSeen "QmPH")) = (true, true, false).
Proof. vm_compute. reflexivity. Qed.

Lemma handler_contains_faults_witness :
  tries (handle no_env default_config (TookOnline online_message)) (world_on ∅ online_plan)
    (λ _ w', ready no_env w' ∧ almost ∅ (stored_in w') ∧
       (¬ unreliable (R:=faulty_server) (M:=list (string * string)) → almost ∅ (stored_in w')))
    (λ _ w', unreliable (R:=faulty_server) (M:=list (string * string)) ∧
       almost {["QmPH"]} (stored_in w')).
Proof.
  pose proof (handler_contains_faults no_env default_config (TookOnline online_message) ∅
    (world_on ∅ online_plan) default_config_fits (world_ready _ _)
    (proj1 (store_ok_almost ∅) store_ok_empty)) as Ht.
  cbn [votes struck] in Ht. rewrite union_empty_l_L, union_empty_r_L in Ht. exact Ht.
Defined.

(** The run of MarciExample, with seconds passing and, in the vote, a lost command. *)
Definition run_plan : list fault :=
  replicate 12 (Late 1) ++ replicate 20 Fine ++ [Lost_command].

Definition run_world : World faulty_server nat line Z :=
  let w := world_on ∅ run_plan in MkWorld (w_redis w) (w_ip w) (w_mqtt loop_world) (w_clock w).

Definition faulty_run := exec no_env default_config actions [] (start (Q:=list_channel) run_world).

#[local] Strategy expand [faulty_run].

(** The lost command is the read of the online record; the vote succeeds. *)
Example faulty_run_result :
  (λ r, (match l_exit r.2 with None => true | _ => false end,
         holds (fs_store (w_redis (l_world r.2))) (KUnknown "QmPH"),
         length (fs_plan (w_redis (l_world r.2))))) <$> faulty_run = Some (true, true, 0).
Proof. vm_compute. reflexivity. Qed.

Lemma faulty_run_ends : ∃ tr st, faulty_run = Some (tr, st).
Proof.
  pose proof faulty_run_result as Hr. destruct faulty_run as [[tr st]|]; [eauto|discriminate].
Qed.

Lemma faults_are_contained_witness :
  ∃ tr st, faulty_run = Some (tr, st) ∧ contained no_env tr st.
Proof.
  destruct faulty_run_ends as (tr & st & Hr). exists tr, st. split; [exact Hr|].
  unfold faulty_run in Hr.
  exact (faults_are_contained no_env default_config actions run_world tr st
    default_config_fits (world_ready _ _) store_ok_empty Hr).
Defined.

(** ** A failed read outvotes an online peer *)

(** Three peers report the node, and it announces itself. *)
Definition online_db : store :=
  w_redis ((handle_reachable no_env (reported_by "QmB");;
            handle_reachable no_env (reported_by "QmC");;
            handle_reachable no_env (reported_by "QmD");;
            handle_online no_env default_config online_message) start_world).2.

(** One failed dial, and the read of the online record fails: the error is taken
    for an absent record, and the peer ends up both online and unknown. *)
Example read_error_outvotes_online_peer :
  let r := handle_unknown default_config node (world_on online_db [Lost_command]) in
  (match r.1 with Ret _ => true | _ => false end, holds online_db (KUnknown "QmPH"),
   holds (fs_store (w_redis r.2)) (KOnline "QmPH"), holds (fs_store (w_redis r.2)) (KUnknown "QmPH"))
  = (true, false, true, true).
Proof. vm_compute. reflexivity. Qed.
