(* ===== verification/SystemExample.v ===== *)
(** * SystemExample: exposed on concrete services, and both programs together

    The theorems of ExposedSpec and System applied to databases that marci's
    handlers produced. *)
From S2P Require Import Prelude RustStd RustNet Types JsonModel Redis RedisMap Services Keys IpInfo.
From S2P Require Import Marci MarciSpec MarciInv MarciLoop MarciHistory Exposed ExposedSpec System.
From S2P Require Import MarciExample.
From Stdlib Require Import Ascii.
Import OneAddress.

(** A text library that matches the leading digits
    and dots, and has chrono's range. *)
Fixpoint numeric_prefix (s : string) : string :=
  match s with
  | EmptyString => EmptyString
  | String c s =>
      match Int.digit c with
      | Some _ => String c (numeric_prefix s)
      | None => if decide (c = "."%char) then String c (numeric_prefix s) else EmptyString
      end
  end.

#[global] Instance plain_text : TextLib := {|
  Rx := string;
  regex_new := Some;
  captures1 _ s := if decide (numeric_prefix s = s) then None else Some (numeric_prefix s);
  utc_round n := if decide (n ≤ 8210266876799)%N then Some n else None;
|}.
#[global] Instance plain_text_laws : TextLaws.
Proof.
  refine {| utc_max := 8210266876799 |}; [done|]. intros n Hn. cbn. by rewrite decide_True.
Defined.

(** ** Checking a concrete database *)
Definition check (k : string) (e : entry) : bool :=
  let plain id := negb (Str.has_char "." id) in
  let text := match e_value e with RStr _ => true | RSet _ => false end in
  match Str.strip_prefix "peer.online." k with Some id => plain id && text | None => true end &&
  match Str.strip_prefix "peer.online2." k with Some id => plain id && text | None => true end &&
  match Str.strip_prefix "peer.unknown." k with Some id => plain id | None => true end &&
  match Str.strip_prefix "network.peer." k with
  | Some rest => match Str.rsplit_once "." rest with Some (id, _) => plain id | None => false end
  | None => true
  end &&
  match e_value e with
  | RStr v => bool_decide (default 0%N (Int.parse_u64 v) ≤ 8210266876799)%N
  | RSet _ => true
  end.

Definition checked (m : store) : bool := bool_decide (map_Forall (λ k e, check k e = true) m).

Lemma checked_has m k : checked m = true → has m k → ∃ e, m !! key_string k = Some e ∧ check (key_string k) e = true.
Proof. intros Hc%bool_decide_eq_true [e He]. exists e. split; [done|]. by apply Hc. Qed.

Lemma checked_seen m id : checked m = true → (seen_of m id ≤ utc_max)%N.
Proof.
  intros Hc%bool_decide_eq_true. unfold seen_of, text_at, str_at.
  destruct (m !! key_string (KSeen id)) as [[[v|s] t]|] eqn:He; [|done..].
  apply Hc in He. unfold check in He. apply andb_true_iff in He as [_ He].
  by apply bool_decide_eq_true in He.
Qed.

Lemma check_online e id :
  check (key_string (KOnline id)) e = true → Str.has_char "." id = false ∧ ∃ v t, e = Entry (RStr v) t.
Proof.
  unfold check. cbn [key_string]. unfold online_peer_key. rewrite Str.strip_prefix_app.
  rewrite !andb_true_iff, negb_true_iff. intros (((([Hd Ht] & _) & _) & _) & _).
  split; [done|]. destruct e as [[v|s] t]; [by eexists _, _|done].
Qed.

Lemma check_online2 e id :
  check (key_string (KOnline2 id)) e = true → Str.has_char "." id = false ∧ ∃ v t, e = Entry (RStr v) t.
Proof.
  unfold check. cbn [key_string]. unfold online2_peer_key. rewrite (Str.strip_prefix_app "peer.online2.").
  rewrite !andb_true_iff, negb_true_iff. intros ((((_ & [Hd Ht]) & _) & _) & _).
  split; [done|]. destruct e as [[v|s] t]; [by eexists _, _|done].
Qed.

Lemma check_unknown e id : check (key_string (KUnknown id)) e = true → Str.has_char "." id = false.
Proof.
  unfold check. cbn [key_string]. unfold unknown_peer_key. rewrite (Str.strip_prefix_app "peer.unknown.").
  rewrite !andb_true_iff, negb_true_iff. by intros (((_ & Hd) & _) & _).
Qed.

Lemma check_quick e id n : check (key_string (KNetworkQuick id n)) e = true → Str.has_char "." id = false.
Proof.
  unfold check. rewrite quick_key_string, (Str.strip_prefix_app "network.peer.").
  change (id +:+ "." +:+ into_str n) with (id +:+ String "." (into_str n)).
  rewrite Str.rsplit_once_app by (by destruct n).
  rewrite !andb_true_iff, negb_true_iff. by intros ((_ & Hd) & _).
Qed.

Lemma checked_servable m : checked m = true → servable m.
Proof.
  intros Hc. split.
  - intros id (e & He & (_ & v & t & ->)%check_online)%checked_has; [|done].
    unfold text_at, str_at. by rewrite He.
  - intros id (e & He & (_ & v & t & ->)%check_online2)%checked_has; [|done].
    unfold text_at, str_at. by rewrite He.
  - intros id. by apply checked_seen.
Qed.

Lemma checked_dotless m : checked m = true → dotless m.
Proof.
  intros Hc. split.
  - by intros id (e & He & [Hd _]%check_online)%checked_has.
  - by intros id (e & He & [Hd _]%check_online2)%checked_has.
  - by intros id (e & He & Hd%check_unknown)%checked_has.
  - by intros id n (e & He & Hd%check_quick)%checked_has.
Qed.

(** ** A database with one listed peer *)
Definition one_peer : store :=
  online_spec default_config online_message None 1700000000
    (reachable_spec (reported_by "QmB") (Some details) 1700000000 1700000000 ∅).

Definition worker (data : list Peer) (last : Z) : Service store Z :=
  MkService one_peer 1700000000000000000%Z data last.

Definition query (network : string) : QueryParams :=
  {| q_network := network; q_offline_timeout := 43200; q_unknown_offline_timeout := 1440 |}.

Lemma one_peer_checked : checked one_peer = true.
Proof. vm_compute. reflexivity. Qed.

(** The list that is served: the peer, with the version cut at the first letter. *)
Example one_peer_list :
  (λ r, match r.1 with
        | Ret (JsonPeers _ l) => map (λ p, (p_version p, p_version_short p, p_country p, p_node_type p)) l
        | _ => []
        end) (peer_handler (E:=Empty_set) false (query "mirana") (worker [] 0)) =
  [("0.116.1 (abc 2024-01-01)", "0.116.1", Some "US", 0%Z)].
Proof. vm_compute. reflexivity. Qed.

Definition some_peer : Peer := {|
  p_id := 0; p_version := "0.116.1"; p_version_short := "0.116.1"; p_last_seen := Some 1700000000%N;
  p_country := None; p_city := None; p_latitude := None; p_longitude := None; p_node_type := 0 |}.

Lemma get_peers_refines_witness :
  runs (get_peers Mirana 0 0) (worker [] 0) (λ peers w',
    serving one_peer (worker [] 0) w' ∧ peers_listed one_peer Mirana peers).
Proof.
  exact (get_peers_refines Mirana 0 0 (worker [] 0) ltac:(done) I
    (checked_servable _ one_peer_checked) (checked_dotless _ one_peer_checked)).
Defined.

Lemma cached_for_every_query_witness :
  let w := worker [some_peer] 1700000000000000000%Z in
  (peer_handler (E:=Empty_set) false (query "pudge") w).1 = Ret (JsonPeers true [some_peer]).
Proof.
  cbv zeta. rewrite (cached_for_every_query false (query "pudge") (worker [some_peer] 1700000000000000000%Z));
    [reflexivity|]. split; [done|]. vm_compute. discriminate.
Defined.

Lemma peer_handler_refines_witness :
  runs (peer_handler (E:=Empty_set) false (query "mirana")) (worker [] 0) (λ r w', ∃ peers,
    r = JsonPeers true peers ∧ up (x_client w') ∧ view (x_client w') = one_peer ∧
    if decide (fresh (worker [] 0)) then peers = [] ∧ x_data w' = [] ∧ x_last_cache_update w' = 0%Z
    else peers_listed one_peer Mirana peers ∧
         x_data w' = peers ∧ x_last_cache_update w' = (clock_now (clock_checked (worker [] 0))).1).
Proof.
  exact (peer_handler_refines false (query "mirana") (worker [] 0) ltac:(done) I
    (checked_servable _ one_peer_checked) (checked_dotless _ one_peer_checked)).
Defined.

Lemma dev_query_panics_witness :
  (peer_handler (E:=Empty_set) false (query "dev") (worker [] 0)).1 = Panic.
Proof. apply dev_query_panics; [reflexivity|]. intros [Hd _]. by apply Hd. Defined.

Lemma peer_in_map_refines_witness :
  runs (peer_in_map (E:=Empty_set) "QmPH") (worker [] 0) (λ r w',
    serving one_peer (worker [] 0) w' ∧ r = JsonPeerStatus (status_response one_peer "QmPH")).
Proof.
  exact (peer_in_map_refines "QmPH" (worker [] 0) ltac:(done) I (checked_servable _ one_peer_checked)).
Defined.

Lemma one_peer_online (id : string) :
  bool_decide (id = "QmPH") = bool_decide (has one_peer (KOnline id)) ∨ id ≠ "QmPH" ∧ id ≠ "*".
Proof.
  destruct (decide (id = "QmPH")) as [->|]; [left; vm_compute; reflexivity|].
  destruct (decide (id = "*")) as [->|]; [left; vm_compute; reflexivity|by right].
Qed.

Lemma star_is_in_map_witness :
  runs (peer_in_map (E:=Empty_set) "*") (worker [] 0) (λ r _, ∃ p,
    r = JsonPeerStatus {| s_peer_id := "*"; s_in_map := true; s_info := Some p |} ∧ p_version p = "").
Proof.
  apply (star_is_in_map "QmPH").
  - exact I.
  - exact (checked_servable _ one_peer_checked).
  - destruct (one_peer_online "QmPH") as [Hb|[[] _]]; [|done].
    symmetry in Hb. by apply bool_decide_eq_true in Hb.
  - destruct (one_peer_online "*") as [Hb|[_ []]]; [|done].
    symmetry in Hb. by apply bool_decide_eq_false in Hb.
Defined.

Lemma last_update_total_witness :
  runs (last_update_handler (E:=Empty_set)) (worker [] 0) (λ r w',
    serving one_peer (worker [] 0) w' ∧
    r = match text_at one_peer KLastUpdate ≫= from_u64 with
        | Some t => JsonStatus {| last_update := t |}
        | None => InternalServerError
        end).
Proof. exact (last_update_total (worker [] 0) I). Defined.

(** ** Both programs *)
Lemma clock_bounded : (clock_max (C:=Z) ≤ utc_max)%N.
Proof. done. Qed.

Definition trace_dotless (l : label) : bool :=
  match l with
  | LTook (TookOnline p) => negb (Str.has_char "." (peer_id (info p)))
  | LTook (TookUnknown p) => negb (Str.has_char "." (peer_id p))
  | LTook (TookReachable r) => negb (Str.has_char "." (peer_id (peer r)))
  | _ => true
  end.

Lemma trace_dotless_sound tr : forallb trace_dotless tr = true → Forall dotless_label tr.
Proof.
  rewrite forallb_forall, Forall_forall. intros Hall l Hl. apply list_elem_of_In, Hall in Hl.
  destruct l as [e|[p|p|r|]|]; try done; cbn in *; by apply negb_true_iff in Hl.
Qed.

Example run_checked :
  (λ r, (forallb trace_dotless r.1, checked (db r.2))) <$> run = Some (true, true).
Proof. vm_compute. reflexivity. Qed.

Lemma listed_peers_have_sources_witness :
  at_end (λ tr st, runs (get_peers Mirana 0 0) (MkService (db st) 1700000000000000000%Z [] 0)
    (λ peers x', view (x_client x') = db st ∧ Forall (justified default_config tr Mirana) peers)).
Proof.
  destruct run_some as [[tr st] Hr]. exists tr, st. split; [done|].
  pose proof run_checked as Hc. rewrite Hr in Hc. injection Hc as Htr Hdb.
  exact (listed_peers_have_sources no_env default_config clock_bounded loop_world tr st
    (MkService (db st) 1700000000000000000%Z [] 0) Mirana 0 0
    default_config_ok loop_healthy eq_refl (run_steps tr st Hr) (trace_dotless_sound tr Htr)
    I eq_refl ltac:(done)).
Defined.

Lemma announced_peer_is_listed_witness :
  runs (handle_reachable no_env (reported_by "QmB");; handle_online no_env default_config online_message)
    start_world (λ _ w',
      ∀ (x : Service store Z) a b,
        up (x_client x) → view (x_client x) = view (w_redis w') →
        dotless (view (x_client x)) →
        runs (get_peers Mirana a b) x (λ peers _, ∃ q, q ∈ peers ∧
          p_version q = "0.116.1 (abc 2024-01-01)" ∧ p_node_type q = 0%Z)).
Proof.
  exact (announced_peer_is_listed no_env default_config clock_bounded start_world (reported_by "QmB") online_message
    default_config_ok start_healthy store_ok_empty timely_empty eq_refl ltac:(done)).
Defined.
