(* ===== verification/ExposedExample.v ===== *)
(** * ExposedExample: exposed serving concrete requests

    The theorems of ExposedServer.v, ExposedWorkers.v, ExposedReplay.v and
    ExposedGeo.v on the database of SystemExample.v. *)
From S2P Require Import Prelude RustStd RustNet Types JsonModel Redis RedisMap Services Keys IpInfo.
From S2P Require Import MarciSpec MarciInv RustFloat Exposed ExposedSpec ExposedGeo ExposedServer ExposedFetch.
From S2P Require Import ExposedWorkers ExposedReplay SystemExample.
From Stdlib Require Import Ascii.
Import OneAddress.

Definition get (path : string) (q : list (string * string)) : request := {|
  r_method := GET; r_path := path; r_query := q; r_body := ""; r_peer := None |}.

Definition ask_worker (r : request) : outcome Empty_set http_response * Service store Z :=
  respond no_env id false r (worker [] 0).

(** A status request whose id is a pattern, a refused number, a repeated field, an
    unknown path. *)
Example replies :
  map (λ r, match (ask_worker r).1 with
            | Ret (Answer (JsonPeerStatus s)) => if s_in_map s then 1 else 2
            | Ret (Answer (JsonPeers _ l)) => 10 + length l
            | Ret BadRequest => 3
            | Ret NotFound => 4
            | _ => 5
            end)
    [get "/peer_status" [("peer_id", "QmPH")]; get "/peer_status" [("peer_id", "QmX")];
     get "/peer" []; get "/" [("network", "pudge"); ("other", "1")];
     get "/peer" [("offline_timeout", "soon")]; get "/peer" [("network", "a"); ("network", "b")];
     get "/add_node" []] = [1; 2; 11; 10; 3; 3; 4].
Proof. vm_compute. reflexivity. Qed.

Lemma requests_read_only_witness :
  up (x_client (ask_worker (get "/peer_status" [("peer_id", "[*")])).2) ∧
  view (x_client (ask_worker (get "/peer_status" [("peer_id", "[*")])).2) = one_peer.
Proof.
  exact (requests_read_only (E:=Empty_set) no_env id false (get "/peer_status" [("peer_id", "[*")])
    (worker [] 0) I).
Defined.

(** Two workers; two requests of the first race for the connection, and a third finds
    the cache. A request of the second asks for the main network and is suspended
    after its four listings. *)
Definition steps_of (n : nat) (k : nat) : list turn := replicate k (Advance false n).
Definition turns : list turn :=
  [Arrive 1 0 (query "mirana"); Arrive 2 0 (query "pudge"); Advance false 1; Advance false 2] ++
  steps_of 1 12 ++ steps_of 2 6 ++ [Advance true 2; Advance false 1; Arrive 3 0 (query "pudge")] ++
  steps_of 3 2 ++ [Arrive 4 1 (query "dev")] ++ steps_of 4 3 ++ [Arrive 5 1 (query "mirana")] ++ steps_of 5 6.

(** Then the online record of the peer expires, and the request goes on. *)
Definition no_peer : store := delete (key_string (KOnline "QmPH")) one_peer.
Definition expire (v : server store Z) : server store Z :=
  MkServer no_peer (v_lock v) (v_clock v) (v_workers v) (v_requests v).

Definition served : option (list event * server store Z) :=
  r ← serve turns [] (start_server one_peer 1700000000000000000%Z 2);
  serve (steps_of 5 3) (r.1 ++ [EvEnvironment]) (expire r.2).

(** The third asked for the test network and gets the cached list of the main one; the
    fifth gets an error. *)
Example served_answers :
  (λ r : list event * server store Z, omap (λ e, match e with
                   | EvAnswered n (JsonPeers _ l) => Some (n, length l)
                   | EvAnswered n InternalServerError => Some (n, 500)
                   | EvPanicked n => Some (n, 100)
                   | _ => None
                   end) r.1) <$> served = Some [(2, 0); (1, 1); (3, 1); (4, 100); (5, 500)].
Proof. vm_compute. reflexivity. Qed.

(** A request waits while another one holds the connection. *)
Example lock_is_held :
  (λ r : list event * server store Z, bool_decide (is_Some (advance (R:=store) false 2 r.2))) <$>
    serve ([Arrive 1 0 (query "mirana"); Arrive 2 0 (query "pudge")] ++ steps_of 2 1 ++ steps_of 1 4) []
      (start_server one_peer 1700000000000000000%Z 2) = Some false.
Proof. vm_compute. reflexivity. Qed.

Lemma one_peer_presentable : presentable one_peer.
Proof. exact (conj I (conj (checked_servable _ one_peer_checked) (checked_dotless _ one_peer_checked))). Qed.
Lemma no_peer_presentable : presentable no_peer.
Proof.
  assert (checked no_peer = true) as Hc by (vm_compute; reflexivity).
  exact (conj I (conj (checked_servable _ Hc) (checked_dotless _ Hc))).
Qed.

Lemma served_steps tr v :
  served = Some (tr, v) → vsteps (start_server one_peer 1700000000000000000%Z 2) tr v.
Proof.
  intros Hs. apply bind_Some in Hs as ([tr1 v1] & Hs1 & Hs2).
  pose proof (serve_steps turns _ [] _ tr1 v1 (vsteps_nil _) Hs1) as Hv1.
  assert (vsteps (start_server one_peer 1700000000000000000%Z 2) (tr1 ++ [EvEnvironment]) (expire v1)) as Hv2.
  { eapply vsteps_snoc; [exact Hv1|apply vstep_environment; intros _; exact no_peer_presentable|].
    intros n i q i' q' Hin. by apply list_elem_of_singleton in Hin. }
  exact (serve_steps _ _ _ _ tr v Hv2 Hs2).
Qed.

Lemma answers_are_lists_witness :
  ∃ tr v, served = Some (tr, v) ∧
    (∀ n a, EvAnswered n a ∈ tr → answer_ok tr n a) ∧
    (∀ i k, v_workers v !! i = Some k → cache_ok tr i k) ∧
    (∀ n, EvPanicked n ∈ tr →
       ∃ i q, EvArrived n i q ∈ tr ∧ network_from_string (q_network q) = Dev).
Proof.
  assert (∃ tr v, served = Some (tr, v)) as (tr & v & Hs).
  { pose proof served_answers as Ha. destruct served as [[tr v]|]; [eauto|discriminate]. }
  exists tr, v. split; [exact Hs|].
  exact (answers_are_lists one_peer 1700000000000000000%Z 2 tr v one_peer_presentable (served_steps tr v Hs)).
Defined.



(** ** Coordinates *)
Example one_peer_position :
  (λ r, match r.1 with
        | Ret (lat, lon) => (to_bits <$> lat, to_bits <$> lon)
        | _ => (None, None)
        end) (get_position (E:=Empty_set) "QmPH" (worker [] 0)) =
  (Some 0x4046EB81D7DBF488%N, Some 0xC05DECD6A161E4F7%N).
Proof. vm_compute. reflexivity. Qed.

Lemma positions_are_closest_witness :
  runs (get_position (E:=Empty_set) "QmPH") (worker [] 0) (λ pos w',
    up (x_client w') ∧ view (x_client w') = one_peer ∧
    shows (Some "45.8399,-119.7006") 0 pos.1 ∧ shows (Some "45.8399,-119.7006") 1 pos.2).
Proof.
  assert (text_at one_peer (KPos "QmPH") = Some "45.8399,-119.7006") as Ht by (vm_compute; reflexivity).
  pose proof (positions_are_closest (E:=Empty_set) "QmPH" (worker [] 0) I) as Hp. cbn in Hp.
  rewrite <- Ht. exact Hp.
Defined.
