(* ===== verification/PipelineExample.v ===== *)
(** * PipelineExample: the discovery program on concrete services

    Molecule types that are their contents, a p2p service that logs what it is told
    to do, and the theorems of Message, Handler, Dialer and System applied there. *)
From S2P Require Import Prelude RustStd RustNet Types JsonModel Compress Protocols Network Services.
From S2P Require Import Message Handler Dialer MarciLoop System.
From Stdlib Require Strings.Byte.
Import Strings.Byte.
Import TextAddr.
Import StoredSnap.

Abbreviation port_opt := (option (byte * byte)).
Abbreviation nodes_content := (bool * list (list Bytes))%type.
Abbreviation message_content := ((port_opt * N * N) + nodes_content)%type.

(** A wire format: a marker before each byte, after each address and each node. *)
Definition put_address (a : Bytes) (rest : Bytes) : Bytes :=
  foldr (λ b r, x01 :: b :: r) (x02 :: rest) a.
Definition put_node (n : list Bytes) (rest : Bytes) : Bytes := foldr put_address (x03 :: rest) n.
Definition put_nodes (l : list (list Bytes)) : Bytes := foldr put_node [] l.

Fixpoint get_nodes (cur : Bytes) (node : list Bytes) (acc : list (list Bytes)) (l : Bytes) :
  option (list (list Bytes)) :=
  match l with
  | [] => Some (reverse acc)
  | x01 :: b :: l => get_nodes (b :: cur) node acc l
  | x02 :: l => get_nodes [] (reverse cur :: node) acc l
  | x03 :: l => get_nodes [] [] (reverse node :: acc) l
  | _ => None
  end.

Lemma get_put_address a cur node acc rest :
  get_nodes cur node acc (put_address a rest) = get_nodes [] ((reverse cur ++ a) :: node) acc rest.
Proof.
  revert cur. induction a as [|b a IH]; intros cur; cbn.
  - by rewrite app_nil_r.
  - change (foldr _ (x02 :: rest) a) with (put_address a rest).
    by rewrite IH, reverse_cons, <- app_assoc.
Qed.

Lemma get_put_node n node acc rest :
  get_nodes [] node acc (put_node n rest) = get_nodes [] [] ((reverse node ++ n) :: acc) rest.
Proof.
  revert node. induction n as [|a n IH]; intros node; cbn.
  - by rewrite app_nil_r.
  - change (foldr _ (x03 :: rest) n) with (put_node n rest).
    by rewrite get_put_address, IH, reverse_cons, <- app_assoc.
Qed.

Lemma get_put_nodes l acc : get_nodes [] [] acc (put_nodes l) = Some (reverse acc ++ l).
Proof.
  revert acc. induction l as [|n l IH]; intros acc; cbn.
  - by rewrite app_nil_r.
  - by rewrite get_put_node, IH, reverse_cons, <- app_assoc.
Qed.

Definition write_message (m : message_content) : Bytes :=
  match m with
  | inl g => x00 :: Strings.String.list_byte_of_string (bit_text (encode g))
  | inr (true, l) => x01 :: put_nodes l
  | inr (false, l) => x02 :: put_nodes l
  end.
Definition read_message (l : Bytes) : option message_content :=
  match l with
  | x00 :: l => inl <$> (of_bit_text (Strings.String.string_of_list_byte l) ≫= decode)
  | x01 :: l => (λ n, inr (true, n)) <$> get_nodes [] [] [] l
  | x02 :: l => (λ n, inr (false, n)) <$> get_nodes [] [] [] l
  | _ => None
  end.

Lemma read_write_message m : read_message (write_message m) = Some m.
Proof.
  destruct m as [g|[[] l]]; cbn [write_message read_message]; [|by rewrite get_put_nodes..].
  rewrite Strings.String.string_of_list_byte_of_string, of_bit_text_bit_text.
  cbn [mbind option_bind]. by rewrite decode_encode.
Qed.

#[global] Instance content_packed : Packed := {|
  PUint16 := byte * byte; PPortOpt := port_opt; PUint32 := N; PBool := bool;
  PNode := list Bytes; PGetNodes := port_opt * N * N; PNodes := nodes_content;
  DiscoveryPayload := message_content; DiscoveryMessage := message_content;
  uint16_from_slice l := match l with [a; b] => Some (a, b) | _ => None end;
  port_opt_default := None;
  port_opt_some := Some;
  pack_u32 n := n;
  pack_bool b := b;
  build_node l := l;
  build_get_nodes p c v := (p, c, v);
  build_nodes a l := (a, l);
  payload_get_nodes := inl;
  payload_nodes := inr;
  build_message m := m;
  as_bytes := write_message;
  discovery_from_compatible_slice := read_message;
  message_payload m := m;
  nodes_items n := n.2;
  node_addresses l := l;
  identify_message_from_compatible_slice b := Some b;
  identify_from_compatible_slice b := match b with f :: v => Some (v, to_N f) | [] => None end;
|}.
#[global] Instance content_packed_laws : PackedLaws.
Proof.
  split; try done. apply read_write_message.
Defined.

(** The p2p service's log. *)
Inductive action :=
| ASend (session proto : N) (data : list byte)
| ADisconnect (session : N)
| ADial (addr : list Protocol)
| ANotify (proto secs token : N).

#[global] Instance p2p_log : P2p (list action) := {|
  p2p_error := unit;
  p2p_send_message s p d l := (Ok tt, l ++ [ASend s p d]);
  p2p_disconnect s l := (Ok tt, l ++ [ADisconnect s]);
  p2p_dial a l := (Ok tt, l ++ [ADial a]);
  p2p_set_service_notify p t k l := (Ok tt, l ++ [ANotify p t k]);
|}.

Abbreviation hworld := (HWorld (list action) (list (string * string))).
Definition idle : hworld := MkHWorld [] [] [].
Definition self : Handler := {| network_type := Mirana |}.
Definition session (proto : N) : Context_ :=
  {| proto_id := proto; session_id := 7; session_address := bootnode |}.

Lemma build_discovery_nodes_reads_witness :
  ∃ nodes,
    message_payload <$> discovery_from_compatible_slice
      (as_bytes (build_discovery_nodes true [bootnode])) = Some (inr nodes) ∧
    map node_addresses (nodes_items nodes) = [[addr_to_vec bootnode]].
Proof. exact (build_discovery_nodes_reads true [bootnode]). Defined.

Lemma build_discovery_get_nodes_reads_witness :
  ∃ m g, build_discovery_get_nodes (E:=Empty_set) (Some 8114%N) 1000 14 = Ret m ∧
    message_payload <$> discovery_from_compatible_slice (as_bytes m) = Some (inl g).
Proof. exact (build_discovery_get_nodes_reads (Some 8114%N) 1000 14). Defined.

(** A full node announces version [ok] with flag 31. *)
Example identify_full :
  (λ r, (h_p2p r.2, length (h_spawned r.2))) (received_identify self (session 2) [x1f; x6f; x6b] idle) =
  ([], 1).
Proof. vm_compute. reflexivity. Qed.

(** A light node without the discovery bit is announced and disconnected. *)
Example identify_light :
  (λ r, (h_p2p r.2, length (h_spawned r.2))) (received_identify self (session 2) [x04; x6f; x6b] idle) =
  ([ADisconnect 7], 1).
Proof. vm_compute. reflexivity. Qed.

Definition address_bytes (s : string) : Bytes := Strings.String.list_byte_of_string s.

Definition answer_data : Bytes :=
  as_bytes (Packed := content_packed) (inr (true,
    [ [address_bytes "/ip4/127.0.0.1/tcp/8114/p2p/QmA"; address_bytes "/ip4/34.64.120.143/tcp/8114/p2p/QmA"];
      [];
      [address_bytes "/ip4/13.37.172.80/tcp/8115/p2p/QmB"] ])).

Definition answer_reports : list NodeMetaInfo := default [] (reports self (discovery_nodes answer_data)).

Example answer_reports_ids :
  map (λ m, (peer_id m, length (addresses m))) answer_reports = [("QmA", 1); ("QmB", 1)].
Proof. vm_compute. reflexivity. Qed.

Lemma answer_parses : reports self (discovery_nodes answer_data) = Some answer_reports.
Proof. vm_compute. reflexivity. Qed.

Lemma received_discovery_reports_witness :
  runs (received_discovery self (session 1) answer_data) idle (λ _ w',
    h_mqtt w' = [] ∧
    h_p2p w' = disconnected_p2p 7 (length answer_reports) [] ∧
    h_spawned w' = map (λ meta, ("peer/reachable", json_text
      (reachable_info_new meta (addr_to_node_meta bootnode Mirana)))) answer_reports ∧
    ∀ meta x, meta ∈ answer_reports → x ∈ addresses meta → dialable x ∧ network meta = Mirana).
Proof.
  exact (received_discovery_reports self (session 1) answer_data answer_reports idle answer_parses).
Defined.

Lemma metas_frame_sync_witness :
  let m := with_service_handle self
    (with_compression (compress (E:=Empty_set)) decompress (meta_builder Sync)) in
  meta_handler m = Some self ∧
  NoDup (map meta_id (build_protocol_metas self)) ∧
  match meta_before_send m, meta_before_receive m with
  | Some send, Some receive =>
      meta_id m = protocol_id Sync ∧
      ∀ src, (N.of_nat (length src) ≤ MAX_UNCOMPRESSED_LEN)%N →
        ∃ framed, send src = Ret framed ∧ receive framed = Ret src
  | None, None => meta_id m = protocol_id Identify ∨ meta_id m = protocol_id Discovery
  | _, _ => False
  end.
Proof.
  exact (metas_frame_sync self _ (list_elem_of_further _ _ _ (list_elem_of_further _ _ _ (list_elem_of_here _ _)))).
Defined.

(** ** Dialling *)
Lemma bootnode_plain : peer_key bootnode_key.
Proof. apply (bool_decide_unpack _). vm_compute. exact I. Qed.
Lemma known_peer_ports : Forall (λ x, (port x ≤ Int.u16_max)%N) (addresses known_peer).
Proof. apply (bool_decide_unpack _). vm_compute. exact I. Qed.

Definition controllers : Controllers (list action) := MkControllers [] [].

Example known_peer_dialled :
  (λ r, (length (mirana_controller r.2), length (pudge_controller r.2)))
    (on_message "peer/needs_dial" (json_text known_peer) controllers) = (0, 2).
Proof. vm_compute. reflexivity. Qed.

Lemma needs_dial_dials_witness :
  ∃ addrs,
    on_message "peer/needs_dial" (json_text known_peer) controllers =
      (Ret tt, dialled Pudge addrs controllers) ∧
    map (λ m, addr_to_node_meta m Pudge) addrs =
    map (λ x, {| peer_id := peer_id known_peer; addresses := [x]; network := Pudge |})
        (filter dialable (addresses known_peer)).
Proof.
  exact (needs_dial_dials bootnode_key known_peer controllers bootnode_plain eq_refl known_peer_ports
    ltac:(done)).
Defined.

Definition dev_peer : NodeMetaInfo :=
  {| peer_id := peer_id known_peer; addresses := addresses known_peer; network := Dev |}.
Definition first_endpoint : EndpointInfo :=
  {| address := Net.V4 (Net.Octets4 x34 x21 x4b x2d); port := 8124 |}.

Lemma dev_request_panics_witness :
  (on_message "peer/needs_dial" (json_text dev_peer) controllers).1 = Panic.
Proof.
  apply (dev_request_panics bootnode_key dev_peer first_endpoint controllers bootnode_plain).
  - reflexivity.
  - exact known_peer_ports.
  - reflexivity.
  - apply (bool_decide_unpack _). vm_compute. exact I.
  - reflexivity.
Defined.

(** ** Between the programs *)
Lemma discovered_peers_reach_marci_witness :
  runs (received_discovery self (session 1) answer_data) idle (λ _ w', ∃ new,
    h_spawned w' = [] ++ new ∧
    map (λ m, dispatch m.1 m.2) new =
    map (λ meta, Some (ToReachable (reachable_info_new meta (addr_to_node_meta bootnode Mirana))))
      answer_reports).
Proof.
  exact (discovered_peers_reach_marci self (session 1) answer_data answer_reports idle answer_parses).
Defined.

Definition dialled_address : Multiaddr (MultiaddrLib := text_addr) :=
  default [] (ok (text_parse (endpoint_text (peer_id known_peer) first_endpoint))).

Lemma dialled_address_in : Ok dialled_address ∈ meta_info_to_addr known_peer.
Proof. vm_compute. apply list_elem_of_here. Qed.

Lemma failed_dial_is_unknown_vote_witness :
  runs (handle_error self (DialerError dialled_address)) idle (λ _ w', ∃ topic payload u,
    sent (h_mqtt w') = sent (h_mqtt idle) ++ [(topic, payload)] ∧
    dispatch topic payload = Some (ToUnknown u) ∧
    peer_id u = peer_id known_peer ∧ network u = Mirana).
Proof.
  exact (failed_dial_is_unknown_vote bootnode_key known_peer dialled_address self idle bootnode_plain
    eq_refl known_peer_ports dialled_address_in I).
Defined.
