(* ===== verification/ClosedExample.v ===== *)
(** * ClosedExample: the closed system on concrete services

    A remote peer of the main network answers a discovery request; what becomes of
    its answer, up to the dial. *)
From S2P Require Import Prelude RustStd RustNet Types JsonModel Redis RedisMap Services Keys IpInfo.
From S2P Require Import Compress Protocols Network Message Handler Dialer.
From S2P Require Import Marci MarciSpec MarciInv MarciLoop MarciHistory Exposed ExposedSpec System.
From S2P Require Import ClosedSystem MarciExample SystemExample PipelineExample.
From Stdlib Require Strings.Byte.
Import Strings.Byte.
Import TextAddr.
Import StoredSnap.
Import OneAddress.

Abbreviation system := (state (R:=store) (Ip:=nat) (M:=list (string * string))
  (M':=list (string * string)) (P:=list PipelineExample.action) (C:=Z) (Q:=list_channel)).

Definition start_system : system :=
  MkState idle idle (start start_world) controllers false.

Lemma start_initial : initial no_env start_system start_world.
Proof. by repeat split. Qed.

(** What the handler published about the first of the two peers. *)
Definition first_report : string * string :=
  default ("", "") (h_spawned (run_callback self (Received (session 1) answer_data) idle).2 !! 0).

Definition script : list sys_action := [
  DoMirana (Connected (session 1));
  DoMirana (Received (session 1) answer_data);
  DoPudge (HandleEvent (SessionClose 7));
  DoMarci (DoRead (Incoming first_report.1 first_report.2));
  DoMarci (DoRead Sent);
  DoMarci (DoSelect ReachableArm);
  DoMarci (DoSelect TickArm);
  DoDial 0 ].

Definition closed_run : option (list label * system) :=
  sys_exec no_env default_config script [] start_system.

#[local] Strategy expand [closed_run].

(** One request was sent, and its one endpoint dialled on the main network. *)
Example closed_run_result :
  (λ r, (length r.1, length (sent (w_mqtt (l_world (g_marci r.2)))),
         length (mirana_controller (g_dialer r.2)), length (pudge_controller (g_dialer r.2)),
         g_dialer_dead r.2)) <$> closed_run = Some (4, 1, 1, 0, false).
Proof. vm_compute. reflexivity. Qed.

(** A message nobody published is not delivered. *)
Example closed_run_refuses :
  bool_decide (is_Some (sys_exec no_env default_config
    [DoMarci (DoRead (Incoming "peer/unknown" (json_text node)))] [] start_system)) = false.
Proof. vm_compute. reflexivity. Qed.

Lemma closed_run_some : is_Some closed_run.
Proof. pose proof closed_run_result as Hr. destruct closed_run; [done|discriminate]. Qed.

Lemma closed_run_steps tr g :
  closed_run = Some (tr, g) → sys_steps no_env default_config start_system tr g.
Proof. intros Hr. exact (sys_exec_steps no_env default_config script start_system [] start_system tr g
  (sys_nil _ _ _) Hr). Qed.

Lemma closed_dialer_safe_witness : ∃ tr g, closed_run = Some (tr, g) ∧
  g_dialer_dead g = false ∧ l_exit (g_marci g) = None ∧
  ∀ m, m ∈ sent (w_mqtt (l_world (g_marci g))) → sound_request g tr m.
Proof.
  destruct closed_run_some as [[tr g] Hr]. exists tr, g. split; [done|].
  exact (closed_dialer_safe no_env default_config start_world start_system tr g
    default_config_ok start_initial (closed_run_steps tr g Hr)).
Defined.


(** ** Bootstrapping *)
Definition main_bootnodes : list (Multiaddr (MultiaddrLib := text_addr)) :=
  match get_bootnodes (E:=Empty_set) Mirana with Ret l => l | _ => [] end.

Lemma main_bootnodes_eq : get_bootnodes (E:=Empty_set) Mirana = Ret main_bootnodes.
Proof. vm_compute. reflexivity. Qed.

Lemma bootnodes_are_dialled_witness :
  let p := dials main_bootnodes [] in
  let r := p2p_set_service_notify (protocol_id Identify) 43200 1 p in
  init self (protocol_id Identify) idle =
    (match r.1 with Ok _ => Ret tt | Err _ => Panic end, MkHWorld r.2 [] []) ∧
  notify self 1 idle = (Ret tt, MkHWorld p [] []) ∧
  (∀ proto, proto ≠ protocol_id Identify → init self proto idle = (Ret tt, idle)) ∧
  (∀ token, token ≠ 1%N → notify self token idle = (Ret tt, idle)).
Proof. exact (bootnodes_are_dialled self main_bootnodes idle main_bootnodes_eq). Defined.

Example bootnodes_dialled : length main_bootnodes = 11.
Proof. vm_compute. reflexivity. Qed.
