(* ===== verification/StartupExample.v ===== *)
(** * StartupExample: the programs started on concrete services *)
From S2P Require Import Prelude RustStd RustNet Types JsonModel Compress Protocols Network Redis RedisMap Services.
From S2P Require Import Keys IpInfo Message Handler Dialer Marci MarciSpec MarciInv MarciLoop Broker.
From S2P Require Import Exposed ExposedSpec ExposedWorkers MarciHistory System ClosedSystem Startup.
From S2P Require Import MarciExample SystemExample PipelineExample.
Import TextAddr.
Import StoredSnap.
Import OneAddress.

(** A database server whose one database is empty. *)
#[export] Instance empty_redis : RedisClient unit store := {|
  client_open _ := Ok tt;
  client_connection _ := Ok ∅;
|}.

Definition new_line : line := Line [] [] [] false 0.
Definition clock : Z := 1700000000000000000%Z.

Abbreviation start_marci := (marci_main (D:=unit) (I:=nat) (B:=line) (Q:=list_channel)).

Lemma empty_redis_reached : redis_reached (D:=unit) no_env (∅ : store).
Proof. by exists tt. Qed.

Lemma marci_starts_and_runs_witness :
  runs (start_marci no_env clock) new_line (λ r b',
    r.1 = default_config ∧ subscriptions b' = topics ∧ sent b' = [] ∧ db r.2 = ∅ ∧
    ∀ tr st, steps no_env default_config r.2 tr st → l_exit st = None ∧ store_ok (db st)).
Proof.
  exact (marci_starts_and_runs no_env clock new_line default_config ∅ load_config_defaults
    default_config_ok ltac:(done) I empty_redis_reached I store_ok_empty ltac:(done)).
Defined.

(** Two variables under which marci does not start. *)
Definition set_env (name v : string) : string → option string :=
  λ x, if decide (x = name) then Some v else None.

Example does_not_start :
  map (λ env, match (start_marci env clock new_line).1 with
              | Ret _ => "runs" | Raise ParseIntError => "parse error" | Raise _ => "error" | Panic => "panics"
              end)
    [no_env; set_env "CKB_NODE_DEFAULT_WITNESSES" "three"; set_env "MERCI_DEFAULT_INTERVAL" "0"] =
  ["runs"; "parse error"; "panics"].
Proof. vm_compute. reflexivity. Qed.

Definition marci_started := start_marci no_env clock new_line.
Definition marci_line : line := Line topics [] [] true 0.

Lemma marci_started_eq : ∃ l, marci_started = (Ret (default_config, l), marci_line).
Proof.
  exists (start (MkWorld ∅ statics marci_line clock)).
  apply (marci_main_returns no_env clock new_line). split_and!; [apply load_config_defaults|done| |].
  - exists new_line, (Line [] [] [] true 0). by split_and!.
  - exists ∅. split; [apply empty_redis_reached|done].
Qed.

(** Key pairs are numbers, and there is one configuration. *)
#[export] Instance numbered_keys : ServiceLib := {|
  SecioKeyPair := nat;
  HandshakeType := nat;
  secio_handshake := id;
  YamuxConfig := unit;
  yamux_default := tt;
|}.

Definition discovery_started := discovery_setup (B:=line) no_env "1" 1 2 new_line.
Definition discovery_line : line := Line ["peer/needs_dial"] [] [] true 0.
Lemma discovery_started_eq : ∃ s, discovery_started = (Ret s, discovery_line).
Proof. by eexists. Qed.

Lemma topics_meet_witness :
  (∀ topic, topic ∈ topics ↔ ∃ payload x, dispatch topic payload = Some x) ∧
  (∀ self c (w : HWorld (list PipelineExample.action) line) m, mqtt_up (h_mqtt w) →
     m ∈ published (run_callback self c w).2 → m ∈ published w ∨
       m.1 ∈ topics ∧ is_Some (dispatch m.1 m.2)) ∧
  (∀ t (w : World store nat line Z),
     config_ok default_config → healthy no_env w → store_ok (view (w_redis w)) →
     runs (handle no_env default_config t) w (λ _ w', ∀ m, m ∈ sent (w_mqtt w') → m ∈ sent (w_mqtt w) ∨
       m.1 ∈ ["peer/needs_dial"] ∧ is_Some (of_json (A:=NodeMetaInfo) m.2))) ∧
  (∀ topic payload (k : Controllers (list PipelineExample.action)), topic ∉ ["peer/needs_dial"] →
     on_message topic payload k = (Ret tt, k)).
Proof.
  destruct marci_started_eq as [l Hl], discovery_started_eq as [s Hs].
  exact (topics_meet no_env no_env clock "1" 1 2 new_line marci_line new_line discovery_line
    default_config l s Hl Hs).
Defined.
